(** * Write-batch-with-index: interval map, index comparator, base+delta
    iterator and point-read resolver

  A shallow embedding of
    - utilities/write_batch_with_index/write_batch_interval_map.h
    - utilities/write_batch_with_index/write_batch_with_index_deleted_range_map.cc
    - utilities/write_batch_with_index/write_batch_with_index_internal.cc
  and the properties of the specification that are stated about them. *)

From Stdlib Require Import String Ascii.
From Stdlib Require Import ZArith Arith List Lia Bool Sorted.
From Stdlib Require DecimalString.
Import ListNotations.

Local Open Scope Z_scope.

(* ================================================================== *)
(** ** Comparators *)
(* ================================================================== *)

(** A comparator in the C++ sense: [compare a b] is negative, zero or
  positive.  [Comparator_ok] collects what the skip list and the merge
  iterator require from it (a total preorder). *)
Record Comparator_ok {K : Type} (compare : K -> K -> Z) : Prop := {
compare_sym : forall a b, Z.sgn (compare a b) = - Z.sgn (compare b a);
compare_trans : forall a b c,
    compare a b <= 0 -> compare b c <= 0 -> compare a c <= 0
}.

(* ================================================================== *)
(** ** The ordered skip list *)
(* ================================================================== *)

Module SkipList.
Section SkipList.
Variable Key : Type.
Variable compare_ : Key -> Key -> Z.

(** Modelled from the spec: memtable/skiplist.h (the SkipList template
    with the [SeekForPrev] and [Remove] additions) is not part of the
    sources at hand.  The list is the bottom level of the skip list, in
    comparator order.  [Insert] places an entry at its ordered position,
    after the entries that do not compare greater. *)
Fixpoint Insert (key : Key) (l : list Key) : list Key :=
  match l with
  | [] => [key]
  | x :: r => if compare_ x key <=? 0 then x :: Insert key r else key :: l
  end.

(** Modelled from the spec: index of the least entry [>= target]. *)
Fixpoint FindGreaterOrEqual (l : list Key) (target : Key) : option nat :=
  match l with
  | [] => None
  | x :: r =>
      if 0 <=? compare_ x target then Some 0%nat
      else option_map S (FindGreaterOrEqual r target)
  end.

(** Modelled from the spec: index of the greatest entry [<= target]. *)
Fixpoint FindLessOrEqual (l : list Key) (target : Key) : option nat :=
  match l with
  | [] => None
  | x :: r =>
      match FindLessOrEqual r target with
      | Some i => Some (S i)
      | None => if compare_ x target <=? 0 then Some 0%nat else None
      end
  end.

(** Modelled from the spec: an iterator is a cursor into the list it was
    created on; [node_ = None] is the iterator that is not [Valid]. *)
Record Iterator : Type := mkIterator {
  list_ : list Key;
  node_ : option nat
}.

Definition key (it : Iterator) : option Key :=
  match node_ it with
  | Some i => nth_error (list_ it) i
  | None => None
  end.

Definition Valid (it : Iterator) : bool :=
  match key it with Some _ => true | None => false end.

Definition Seek (l : list Key) (target : Key) : Iterator :=
  mkIterator l (FindGreaterOrEqual l target).

Definition SeekForPrev (l : list Key) (target : Key) : Iterator :=
  mkIterator l (FindLessOrEqual l target).

Definition SeekToFirst (l : list Key) : Iterator :=
  mkIterator l (match l with [] => None | _ => Some 0%nat end).

Definition SeekToLast (l : list Key) : Iterator :=
  mkIterator l (match l with [] => None | _ => Some (pred (length l)) end).

(** Modelled from the spec: [Next] on the last entry, and on an iterator
    that is not [Valid], gives an iterator that is not [Valid]. *)
Definition Next (it : Iterator) : Iterator :=
  mkIterator (list_ it)
    (match node_ it with
     | Some i => if (S i <? length (list_ it))%nat then Some (S i) else None
     | None => None
     end).

Definition Prev (it : Iterator) : Iterator :=
  mkIterator (list_ it)
    (match node_ it with
     | Some (S i) => Some i
     | _ => None
     end).

(** Modelled from the spec: [Remove] unlinks the current entry and
    advances to the next. *)
Definition Remove (it : Iterator) : Iterator :=
  match node_ it with
  | Some i =>
      let l' := (firstn i (list_ it) ++ skipn (S i) (list_ it))%list in
      mkIterator l' (if (i <? length l')%nat then Some i else None)
  | None => it
  end.

End SkipList.

Arguments Insert {Key} compare_ key l.
Arguments FindGreaterOrEqual {Key} compare_ l target.
Arguments FindLessOrEqual {Key} compare_ l target.
Arguments mkIterator {Key} list_ node_.
Arguments list_ {Key} i.
Arguments node_ {Key} i.
Arguments key {Key} it.
Arguments Valid {Key} it.
Arguments Seek {Key} compare_ l target.
Arguments SeekForPrev {Key} compare_ l target.
Arguments SeekToFirst {Key} l.
Arguments SeekToLast {Key} l.
Arguments Next {Key} it.
Arguments Prev {Key} it.
Arguments Remove {Key} it.

End SkipList.

(* ================================================================== *)
(** ** IntervalMap (write_batch_interval_map.h) *)
(* ================================================================== *)

Module IntervalMap.

Inductive Marker : Type := Start | Stop.

Definition Marker_eqb (a b : Marker) : bool :=
  match a, b with
  | Start, Start | Stop, Stop => true
  | _, _ => false
  end.

Record PointData : Type := mkPointData { marker : Marker }.

Section IntervalMap.
Variable PointKey : Type.
Variable comparator_ : PointKey -> PointKey -> Z.

(** [flagStart] and [flagEnd] of the C++ class are constant memory
    canaries; they carry no state and are left out. *)
Record PointEntry : Type := mkPointEntry {
  pointKey : PointKey;
  pointData : PointData
}.

Definition entry (key : PointKey) (m : Marker) : PointEntry :=
  mkPointEntry key (mkPointData m).

(** PointEntryComparator::operator() *)
Definition PointEntryComparator (entry1 entry2 : PointEntry) : Z :=
  comparator_ (pointKey entry1) (pointKey entry2).

(** The state of an IntervalMap is its skip list. *)
Definition t : Type := list PointEntry.

Definition empty : t := [].

(** IntervalMap::FixIntervalFrom *)
Definition FixIntervalFrom (skip_list : t) (from_key : PointKey) : t :=
  let from_entry := entry from_key Start in
  let iter := SkipList.SeekForPrev PointEntryComparator skip_list from_entry in
  let insert := SkipList.Insert PointEntryComparator from_entry skip_list in
  match SkipList.key iter with
  | Some k =>
      match marker (pointData k) with
      | Start => skip_list
      | Stop =>
          if PointEntryComparator from_entry k =? 0
          then SkipList.list_ (SkipList.Remove iter)
          else insert
      end
  | None => insert
  end.

(** IntervalMap::FixIntervalTo *)
Definition FixIntervalTo (skip_list : t) (to_key : PointKey) : t :=
  let to_entry := entry to_key Stop in
  let iter := SkipList.Seek PointEntryComparator skip_list to_entry in
  let insert := SkipList.Insert PointEntryComparator to_entry skip_list in
  match SkipList.key iter with
  | Some k =>
      match marker (pointData k) with
      | Stop => skip_list
      | Start =>
          if PointEntryComparator to_entry k =? 0
          then SkipList.list_ (SkipList.Remove iter)
          else insert
      end
  | None => insert
  end.

(** The [while (iter.Valid())] loop of AddInterval.  Every turn either
    breaks or removes an entry, so the length of the list bounds the
    number of turns. *)
Fixpoint ClearRange (fuel : nat) (to_entry : PointEntry)
         (iter : SkipList.Iterator PointEntry) : SkipList.Iterator PointEntry :=
  match fuel with
  | O => iter
  | S fuel' =>
      match SkipList.key iter with
      | None => iter
      | Some k =>
          if PointEntryComparator to_entry k <=? 0 then iter
          else ClearRange fuel' to_entry (SkipList.Remove iter)
      end
  end.

(** IntervalMap::AddInterval *)
Definition AddInterval (skip_list : t) (from_key to_key : PointKey) : t :=
  let skip_list := FixIntervalFrom skip_list from_key in
  let skip_list := FixIntervalTo skip_list to_key in
  let from_entry := entry from_key Start in
  let to_entry := entry to_key Stop in
  let iter := SkipList.SeekForPrev PointEntryComparator skip_list from_entry in
  let iter := SkipList.Next iter in
  SkipList.list_ (ClearRange (length skip_list) to_entry iter).

(** IntervalMap::IsInInterval *)
Definition IsInInterval (skip_list : t) (key : PointKey) : bool :=
  let key_entry := entry key Start in
  let iter := SkipList.Seek PointEntryComparator skip_list key_entry in
  match SkipList.key iter with
  | None => false
  | Some k =>
      let marker := marker (pointData k) in
      if PointEntryComparator key_entry k <? 0 then
        match marker with Stop => true | Start => false end
      else
        match marker with Start => true | Stop => false end
  end.

(** A sequence of AddInterval calls. *)
Definition AddIntervals (skip_list : t) (R : list (PointKey * PointKey)) : t :=
  fold_left (fun m r => AddInterval m (fst r) (snd r)) R skip_list.

End IntervalMap.

Arguments mkPointEntry {PointKey} pointKey pointData.
Arguments pointKey {PointKey} p.
Arguments pointData {PointKey} p.
Arguments entry {PointKey} key m.
Arguments PointEntryComparator {PointKey} comparator_ entry1 entry2.
Arguments empty {PointKey}.
Arguments FixIntervalFrom {PointKey} comparator_ skip_list from_key.
Arguments FixIntervalTo {PointKey} comparator_ skip_list to_key.
Arguments ClearRange {PointKey} comparator_ fuel to_entry iter.
Arguments AddInterval {PointKey} comparator_ skip_list from_key to_key.
Arguments IsInInterval {PointKey} comparator_ skip_list key.
Arguments AddIntervals {PointKey} comparator_ skip_list R.

End IntervalMap.


(* ================================================================== *)
(** ** Slices, statuses and batch records *)
(* ================================================================== *)

(** A Slice is a byte string. *)
Definition Slice : Type := string.

(** A key comparator (rocksdb/comparator.h): [Compare a b] is negative,
    zero or positive. *)
Definition Comparator : Type := Slice -> Slice -> Z.

(** Modelled from the spec: rocksdb/comparator.h is not part of the
    sources at hand; [Equal(a, b)] is [Compare(a, b) == 0]. *)
Definition Equal (comparator : Comparator) (a b : Slice) : bool :=
  comparator a b =? 0.

(** Modelled from the spec: the default comparator is bytewise. *)
Definition BytewiseComparator : Comparator :=
  fun a b =>
    match String.compare a b with
    | Eq => 0
    | Lt => -1
    | Gt => 1
    end.

(** Modelled from the spec: rocksdb/status.h is not part of the sources at
    hand; a status is OK or one of the error kinds of section 7. *)
Inductive Status : Type :=
| OK
| NotFound
| Corruption (msg : string)
| InvalidArgument (msg : string)
| NotSupported (msg : string)
| IOError (msg : string)
| MergeError (msg : string).

Definition ok (s : Status) : bool :=
  match s with OK => true | _ => false end.

(** Modelled from the spec: the text that a status keeps when it is built
    from two messages, as [Status::Corruption(msg, msg2)] is: [msg], followed
    by a colon, a space and [msg2] when [msg2] is not empty. *)
Definition two_messages (msg msg2 : string) : string :=
  if (String.length msg2 =? 0)%nat then msg else msg ++ ": " ++ msg2.

(** WriteType of rocksdb/utilities/write_batch_with_index.h, as used in
    GetEntryFromDataOffset. *)
Inductive WriteType : Type :=
| kPutRecord
| kMergeRecord
| kDeleteRecord
| kSingleDeleteRecord
| kDeleteRangeRecord
| kLogDataRecord
| kXIDRecord.

(** Modelled from the spec: the value of a WriteType as an integer, by the
    position of the enumerator in the declaration of the enum. *)
Definition WriteType_value (t : WriteType) : N :=
  match t with
  | kPutRecord => 0
  | kMergeRecord => 1
  | kDeleteRecord => 2
  | kSingleDeleteRecord => 3
  | kDeleteRangeRecord => 4
  | kLogDataRecord => 5
  | kXIDRecord => 6
  end.

(** Modelled from the spec: ToString (util/string_util.h) of a WriteType
    writes its integer value in decimal. *)
Definition ToString (t : WriteType) : string :=
  DecimalString.NilZero.string_of_uint (N.to_uint (WriteType_value t)).

Definition is_delete (t : WriteType) : bool :=
  match t with
  | kDeleteRecord | kSingleDeleteRecord => true
  | _ => false
  end.

Definition WriteType_eqb (a b : WriteType) : bool :=
  match a, b with
  | kPutRecord, kPutRecord | kMergeRecord, kMergeRecord
  | kDeleteRecord, kDeleteRecord | kSingleDeleteRecord, kSingleDeleteRecord
  | kDeleteRangeRecord, kDeleteRangeRecord | kLogDataRecord, kLogDataRecord
  | kXIDRecord, kXIDRecord => true
  | _, _ => false
  end.

(** WriteEntry, as filled by WBWIIteratorImpl::Entry. *)
Record WriteEntry : Type := mkWriteEntry {
  type : WriteType;
  key : Slice;
  value : Slice;
  is_in_deleted_range : bool
}.

(** The fields of a WriteEntry, under names that a parameter called [key]
    or [value] does not hide. *)
Abbreviation entry_type := type.
Abbreviation entry_key := key.
Abbreviation entry_value := value.

(** A default-constructed WriteEntry ([WriteEntry delta_entry;]). *)
Definition WriteEntry_default : WriteEntry :=
  mkWriteEntry kPutRecord EmptyString EmptyString false.

(* ================================================================== *)
(** ** The index-entry comparator (write_batch_with_index_internal.cc) *)
(* ================================================================== *)

Module WriteBatchEntryComparator.

(** Modelled from the spec: the struct WriteBatchIndexEntry is declared in
    write_batch_with_index_internal.h, which is not part of the sources at
    hand.  The fields are those of section 3; [search_key = None] is the
    null pointer. *)
Record WriteBatchIndexEntry : Type := mkWriteBatchIndexEntry {
  offset : N;
  column_family : N;
  key_offset : N;
  key_size : N;
  search_key : option Slice;
  entry_is_in_deleted_range : bool
}.

(** The comparator object: the batch whose bytes it decodes, the default
    comparator and the per-column-family comparators (a null pointer is
    [None]). *)
Record t : Type := mkComparator {
  write_batch_Data : string;
  default_comparator_ : Comparator;
  cf_comparators_ : list (option Comparator)
}.

Section WriteBatchEntryComparator.
(** The value of [WriteBatchIndexEntry::kFlagMinInCf] is given in the
    missing header. *)
Variable kFlagMinInCf : N.

(** Modelled from the spec: [is_min_in_cf] holds when [key_size] is
    [kFlagMinInCf] (see the comment above operator()). *)
Definition is_min_in_cf (e : WriteBatchIndexEntry) : bool :=
  (key_size e =? kFlagMinInCf)%N.

(** WriteBatchEntryComparator::CompareKey *)
Definition CompareKey (c : t) (column_family : N) (key1 key2 : Slice) : Z :=
  match nth_error (cf_comparators_ c) (N.to_nat column_family) with
  | Some (Some cf_comparator) => cf_comparator key1 key2
  | _ => default_comparator_ c key1 key2
  end.

(** The key an entry is compared by: the search key when there is one,
    the bytes of the record otherwise. *)
Definition key_of_entry (c : t) (e : WriteBatchIndexEntry) : Slice :=
  match search_key e with
  | None => substring (N.to_nat (key_offset e)) (N.to_nat (key_size e))
              (write_batch_Data c)
  | Some k => k
  end.

(** WriteBatchEntryComparator::operator() *)
Definition operator_call (c : t) (entry1 entry2 : WriteBatchIndexEntry) : Z :=
  if (column_family entry2 <? column_family entry1)%N then 1
  else if (column_family entry1 <? column_family entry2)%N then -1
  else if is_min_in_cf entry1 then -1
  else if is_min_in_cf entry2 then 1
  else
    let key1 := key_of_entry c entry1 in
    let key2 := key_of_entry c entry2 in
    let cmp := CompareKey c (column_family entry1) key1 key2 in
    if negb (cmp =? 0) then cmp
    else if (offset entry2 <? offset entry1)%N then 1
    else if (offset entry1 <? offset entry2)%N then -1
    else 0.

End WriteBatchEntryComparator.
End WriteBatchEntryComparator.

(* ================================================================== *)
(** ** DeletedRangeMap (write_batch_with_index_deleted_range_map.cc) *)
(* ================================================================== *)

Module DeletedRangeMap.
Import WriteBatchEntryComparator.

(** Modelled from the spec: the class is declared in
    write_batch_with_index_deleted_range_map.h, which is not part of the
    sources at hand: an IntervalMap over index entries, ordered by the
    index-entry comparator. *)
Definition t : Type := IntervalMap.t WriteBatchIndexEntry.

(** Modelled from the spec: the constructor
    [WriteBatchIndexEntry(0, cf_id, key.data(), key.size())] is declared in
    the missing header; it builds a probe that carries the key. *)
Definition probe (cf_id : N) (key : Slice) : WriteBatchIndexEntry :=
  mkWriteBatchIndexEntry 0 cf_id 0 (N.of_nat (String.length key)) (Some key)
    false.

Section DeletedRangeMap.
Variable kFlagMinInCf : N.
Variable comparator : WriteBatchEntryComparator.t.

(** DeletedRangeMap::AddInterval(cf_id, from_key, to_key) *)
Definition AddInterval (m : t) (cf_id : N) (from_key to_key : Slice) : t :=
  IntervalMap.AddInterval (operator_call kFlagMinInCf comparator) m
    (probe cf_id from_key) (probe cf_id to_key).

(** DeletedRangeMap::IsInInterval(cf_id, key) *)
Definition IsInInterval (m : t) (cf_id : N) (key : Slice) : bool :=
  IntervalMap.IsInInterval (operator_call kFlagMinInCf comparator) m
    (probe cf_id key).

(** DeletedRangeMap::AddInterval(from_key, to_key): the default column
    family. *)
Definition AddInterval_default (m : t) (from_key to_key : Slice) : t :=
  AddInterval m 0 from_key to_key.

(** DeletedRangeMap::IsInInterval(key): the default column family. *)
Definition IsInInterval_default (m : t) (key : Slice) : bool :=
  IsInInterval m 0 key.

End DeletedRangeMap.
End DeletedRangeMap.

(* ================================================================== *)
(** ** Iterators *)
(* ================================================================== *)

(** Modelled from the spec: the engine iterator (rocksdb/iterator.h) and the
    batch iterator (WBWIIterator, section 4.6) are interfaces whose
    implementations are not part of the sources at hand.  Both are cursors
    over an ordered list: [pos = None] is the cursor that stands on no
    entry, and a cursor whose status is not OK is not Valid. *)
Module Cursor.
Section Cursor.
Variable A : Type.
Variable key_of : A -> Slice.

Record t : Type := mk {
  items : list A;
  pos : option nat;
  status : Status
}.

Definition current (c : t) : option A :=
  match pos c with
  | Some i => nth_error (items c) i
  | None => None
  end.

Definition Valid (c : t) : bool :=
  ok (status c) && match current c with Some _ => true | None => false end.

Definition set_pos (c : t) (p : option nat) : t :=
  mk (items c) p (status c).

(** Index of the first entry that satisfies [P]. *)
Fixpoint find_first (P : A -> bool) (l : list A) : option nat :=
  match l with
  | [] => None
  | x :: r => if P x then Some 0%nat else option_map S (find_first P r)
  end.

(** Index of the last entry that satisfies [P]. *)
Fixpoint find_last (P : A -> bool) (l : list A) : option nat :=
  match l with
  | [] => None
  | x :: r =>
      match find_last P r with
      | Some i => Some (S i)
      | None => if P x then Some 0%nat else None
      end
  end.

Definition SeekToFirst (c : t) : t :=
  set_pos c (match items c with [] => None | _ => Some 0%nat end).

Definition SeekToLast (c : t) : t :=
  set_pos c (match items c with
             | [] => None
             | _ => Some (pred (length (items c)))
             end).

(** Positions at the least entry [>= k]. *)
Definition Seek (cmp : Comparator) (k : Slice) (c : t) : t :=
  set_pos c (find_first (fun e => 0 <=? cmp (key_of e) k) (items c)).

(** Positions at the greatest entry [<= k]. *)
Definition SeekForPrev (cmp : Comparator) (k : Slice) (c : t) : t :=
  set_pos c (find_last (fun e => cmp (key_of e) k <=? 0) (items c)).

Definition Next (c : t) : t :=
  set_pos c (match pos c with
             | Some i =>
                 if (S i <? length (items c))%nat then Some (S i) else None
             | None => None
             end).

Definition Prev (c : t) : t :=
  set_pos c (match pos c with
             | Some (S i) => Some i
             | _ => None
             end).

End Cursor.

Arguments mk {A} items pos status.
Arguments items {A} t.
Arguments pos {A} t.
Arguments status {A} t.
Arguments current {A} c.
Arguments Valid {A} c.
Arguments set_pos {A} c p.
Arguments find_first {A} P l.
Arguments find_last {A} P l.
Arguments SeekToFirst {A} c.
Arguments SeekToLast {A} c.
Arguments Seek {A} key_of cmp k c.
Arguments SeekForPrev {A} key_of cmp k c.
Arguments Next {A} c.
Arguments Prev {A} c.

End Cursor.

(** The engine (base) iterator: a cursor over key/value pairs. *)
Module Iterator.

Definition t : Type := Cursor.t (Slice * Slice).

Definition Valid (it : t) : bool := Cursor.Valid it.
Definition status (it : t) : Status := Cursor.status it.
Definition SeekToFirst (it : t) : t := Cursor.SeekToFirst it.
Definition SeekToLast (it : t) : t := Cursor.SeekToLast it.
Definition Seek (cmp : Comparator) (k : Slice) (it : t) : t :=
  Cursor.Seek fst cmp k it.
Definition SeekForPrev (cmp : Comparator) (k : Slice) (it : t) : t :=
  Cursor.SeekForPrev fst cmp k it.
Definition Next (it : t) : t := Cursor.Next it.
Definition Prev (it : t) : t := Cursor.Prev it.

Definition key (it : t) : Slice :=
  match Cursor.current it with Some e => fst e | None => EmptyString end.

Definition value (it : t) : Slice :=
  match Cursor.current it with Some e => snd e | None => EmptyString end.

End Iterator.

(** The batch (delta) iterator: a cursor over the decoded entries of one
    column family, in index order. *)
Module WBWIIterator.

Definition t : Type := Cursor.t WriteEntry.

Definition Valid (it : t) : bool := Cursor.Valid it.
Definition status (it : t) : Status := Cursor.status it.
Definition SeekToFirst (it : t) : t := Cursor.SeekToFirst it.
Definition SeekToLast (it : t) : t := Cursor.SeekToLast it.
Definition Seek (cmp : Comparator) (k : Slice) (it : t) : t :=
  Cursor.Seek key cmp k it.
Definition SeekForPrev (cmp : Comparator) (k : Slice) (it : t) : t :=
  Cursor.SeekForPrev key cmp k it.
Definition Next (it : t) : t := Cursor.Next it.
Definition Prev (it : t) : t := Cursor.Prev it.

(** WBWIIteratorImpl::Entry: the decoded record under the cursor. *)
Definition Entry (it : t) : WriteEntry :=
  match Cursor.current it with Some e => e | None => WriteEntry_default end.

End WBWIIterator.

(* ================================================================== *)
(** ** BaseDeltaIterator (write_batch_with_index_internal.cc) *)
(* ================================================================== *)

Module BaseDeltaIterator.

Record t : Type := mk {
  forward_ : bool;
  current_at_base_ : bool;
  equal_keys_ : bool;
  status_ : Status;
  base_iterator_ : Iterator.t;
  delta_iterator_ : WBWIIterator.t;
  iterate_upper_bound_ : option Slice
}.

Definition set_forward (b : bool) (it : t) : t :=
  mk b (current_at_base_ it) (equal_keys_ it) (status_ it)
     (base_iterator_ it) (delta_iterator_ it) (iterate_upper_bound_ it).

Definition set_current_at_base (b : bool) (it : t) : t :=
  mk (forward_ it) b (equal_keys_ it) (status_ it)
     (base_iterator_ it) (delta_iterator_ it) (iterate_upper_bound_ it).

Definition set_equal_keys (b : bool) (it : t) : t :=
  mk (forward_ it) (current_at_base_ it) b (status_ it)
     (base_iterator_ it) (delta_iterator_ it) (iterate_upper_bound_ it).

Definition set_status (s : Status) (it : t) : t :=
  mk (forward_ it) (current_at_base_ it) (equal_keys_ it) s
     (base_iterator_ it) (delta_iterator_ it) (iterate_upper_bound_ it).

Definition set_base (b : Iterator.t) (it : t) : t :=
  mk (forward_ it) (current_at_base_ it) (equal_keys_ it) (status_ it)
     b (delta_iterator_ it) (iterate_upper_bound_ it).

Definition set_delta (d : WBWIIterator.t) (it : t) : t :=
  mk (forward_ it) (current_at_base_ it) (equal_keys_ it) (status_ it)
     (base_iterator_ it) d (iterate_upper_bound_ it).

(** The constructor: [iterate_upper_bound] is that of the read options, or
    [None] without read options. *)
Definition new (base_iterator : Iterator.t) (delta_iterator : WBWIIterator.t)
           (iterate_upper_bound : option Slice) : t :=
  mk true true false OK base_iterator delta_iterator iterate_upper_bound.

Definition BaseValid (it : t) : bool := Iterator.Valid (base_iterator_ it).

Definition DeltaValid (it : t) : bool := WBWIIterator.Valid (delta_iterator_ it).

Definition Valid (it : t) : bool :=
  if ok (status_ it)
  then (if current_at_base_ it then BaseValid it else DeltaValid it)
  else false.

Definition status (it : t) : Status :=
  if negb (ok (status_ it)) then status_ it
  else if negb (ok (Iterator.status (base_iterator_ it)))
       then Iterator.status (base_iterator_ it)
       else WBWIIterator.status (delta_iterator_ it).

Definition Invalidate (s : Status) (it : t) : t := set_status s it.

Definition AdvanceDelta (it : t) : t :=
  if forward_ it
  then set_delta (WBWIIterator.Next (delta_iterator_ it)) it
  else set_delta (WBWIIterator.Prev (delta_iterator_ it)) it.

Definition AdvanceBase (it : t) : t :=
  if forward_ it
  then set_base (Iterator.Next (base_iterator_ it)) it
  else set_base (Iterator.Prev (base_iterator_ it)) it.

Section BaseDeltaIterator.
Variable comparator_ : Comparator.

(** The [while (true)] loop of UpdateCurrent.  A turn that does not return
    advances the delta cursor, so the number of delta entries bounds the
    number of turns. *)
Fixpoint UpdateCurrent_loop (fuel : nat) (it : t) : t :=
  match fuel with
  | O => it
  | S fuel' =>
      let delta_entry := WBWIIterator.Entry (delta_iterator_ it) in
      if negb (DeltaValid it) && negb (ok (WBWIIterator.status (delta_iterator_ it)))
      then set_current_at_base false it
      else
        let it := set_equal_keys false it in
        if negb (BaseValid it) then
          if negb (ok (Iterator.status (base_iterator_ it)))
          then set_current_at_base true it
          else if negb (DeltaValid it) then it
          else if match iterate_upper_bound_ it with
                  | Some upper_bound =>
                      0 <=? comparator_ (key delta_entry) upper_bound
                  | None => false
                  end
          then it
          else if is_delete (type delta_entry)
          then UpdateCurrent_loop fuel' (AdvanceDelta it)
          else set_current_at_base false it
        else if negb (DeltaValid it) then set_current_at_base true it
        else
          let compare :=
            (if forward_ it then 1 else -1) *
            comparator_ (key delta_entry) (Iterator.key (base_iterator_ it)) in
          if compare <=? 0 then
            let it := if compare =? 0 then set_equal_keys true it else it in
            if negb (is_delete (type delta_entry))
            then set_current_at_base false it
            else
              let it := AdvanceDelta it in
              let it := if equal_keys_ it then AdvanceBase it else it in
              UpdateCurrent_loop fuel' it
          else set_current_at_base true it
  end.

Definition UpdateCurrent (it : t) : t :=
  UpdateCurrent_loop (S (length (Cursor.items (delta_iterator_ it))))
    (set_status OK it).

(** BaseDeltaIterator::AssertInvariants, in a build with assertions: the
    result is [true] when every assertion on the path taken holds.  The
    call at the end of UpdateCurrent stands after a [while (true)] loop that
    is only left by [return], so UpdateCurrent never reaches it. *)
Definition AssertInvariants (it : t) : bool :=
  let base_not_ok := negb (ok (Iterator.status (base_iterator_ it))) in
  let delta_not_ok := negb (ok (WBWIIterator.status (delta_iterator_ it))) in
  (if base_not_ok then negb (Iterator.Valid (base_iterator_ it)) else true)
  && (if delta_not_ok then negb (WBWIIterator.Valid (delta_iterator_ it))
      else true)
  && if base_not_ok || delta_not_ok
     then negb (Valid it) && negb (ok (status it))
     else if negb (Valid it) then true
     else if negb (BaseValid it)
     then negb (current_at_base_ it) && WBWIIterator.Valid (delta_iterator_ it)
     else if negb (DeltaValid it)
     then current_at_base_ it && Iterator.Valid (base_iterator_ it)
     else
       let delta_entry := WBWIIterator.Entry (delta_iterator_ it) in
       negb (WriteType_eqb (type delta_entry) kMergeRecord)
       && negb (WriteType_eqb (type delta_entry) kLogDataRecord)
       && (let compare :=
             comparator_ (key delta_entry) (Iterator.key (base_iterator_ it)) in
           (if forward_ it
            then (negb (current_at_base_ it) || (compare <? 0))
                 && (current_at_base_ it && (0 <=? compare))
            else (negb (current_at_base_ it) || (0 <? compare))
                 && (current_at_base_ it && (compare <=? 0)))
           && ((equal_keys_ it || negb (compare =? 0))
               && (negb (equal_keys_ it) || (compare =? 0)))).

Definition SeekToFirst (it : t) : t :=
  let it := set_forward true it in
  let it := set_base (Iterator.SeekToFirst (base_iterator_ it)) it in
  let it := set_delta (WBWIIterator.SeekToFirst (delta_iterator_ it)) it in
  UpdateCurrent it.

Definition SeekToLast (it : t) : t :=
  let it := set_forward false it in
  let it := set_base (Iterator.SeekToLast (base_iterator_ it)) it in
  let it := set_delta (WBWIIterator.SeekToLast (delta_iterator_ it)) it in
  UpdateCurrent it.

Definition Seek (k : Slice) (it : t) : t :=
  let it := set_forward true it in
  let it := set_base (Iterator.Seek comparator_ k (base_iterator_ it)) it in
  let it := set_delta (WBWIIterator.Seek comparator_ k (delta_iterator_ it)) it in
  UpdateCurrent it.

Definition SeekForPrev (k : Slice) (it : t) : t :=
  let it := set_forward false it in
  let it := set_base (Iterator.SeekForPrev comparator_ k (base_iterator_ it)) it in
  let it :=
    set_delta (WBWIIterator.SeekForPrev comparator_ k (delta_iterator_ it)) it in
  UpdateCurrent it.

Definition Advance (it : t) : t :=
  let it :=
    if equal_keys_ it then AdvanceDelta (AdvanceBase it)
    else if current_at_base_ it then AdvanceBase it
    else AdvanceDelta it in
  UpdateCurrent it.

(** The part of Next and Prev that runs when the direction changes;
    [to_forward] is the new direction. *)
Definition ChangeDirection (to_forward : bool) (it : t) : t :=
  let it := set_forward to_forward it in
  let it := set_equal_keys false it in
  let it :=
    if negb (BaseValid it) then
      set_base (if to_forward
                then Iterator.SeekToFirst (base_iterator_ it)
                else Iterator.SeekToLast (base_iterator_ it)) it
    else if negb (DeltaValid it) then
      set_delta (if to_forward
                 then WBWIIterator.SeekToFirst (delta_iterator_ it)
                 else WBWIIterator.SeekToLast (delta_iterator_ it)) it
    else if current_at_base_ it then AdvanceDelta it
    else AdvanceBase it in
  if DeltaValid it && BaseValid it then
    if Equal comparator_ (key (WBWIIterator.Entry (delta_iterator_ it)))
         (Iterator.key (base_iterator_ it))
    then set_equal_keys true it
    else it
  else it.

Definition Next (it : t) : t :=
  if negb (Valid it)
  then set_status (NotSupported "Next() on invalid iterator") it
  else
    let it := if negb (forward_ it) then ChangeDirection true it else it in
    Advance it.

Definition Prev (it : t) : t :=
  if negb (Valid it)
  then set_status (NotSupported "Prev() on invalid iterator") it
  else
    let it := if forward_ it then ChangeDirection false it else it in
    Advance it.

End BaseDeltaIterator.

Definition key (it : t) : Slice :=
  if current_at_base_ it then Iterator.key (base_iterator_ it)
  else key (WBWIIterator.Entry (delta_iterator_ it)).

Definition value (it : t) : Slice :=
  if current_at_base_ it then Iterator.value (base_iterator_ it)
  else value (WBWIIterator.Entry (delta_iterator_ it)).

End BaseDeltaIterator.

(* ================================================================== *)
(** ** WriteBatchWithIndexInternal (write_batch_with_index_internal.cc) *)
(* ================================================================== *)

Module WriteBatchWithIndexInternal.
Import WriteBatchEntryComparator.

Inductive Result : Type :=
| kFound
| kDeleted
| kNotFound
| kMergeInProgress
| kError.

Definition Result_eqb (a b : Result) : bool :=
  match a, b with
  | kFound, kFound | kDeleted, kDeleted | kNotFound, kNotFound
  | kMergeInProgress, kMergeInProgress | kError, kError => true
  | _, _ => false
  end.

(** Modelled from the spec: the merge operator of a column family is an
    external collaborator, [(key, existing value?, operands) -> status and
    merged value] (MergeHelper::TimedFullMerge). *)
Definition MergeOperator : Type :=
  Slice -> option Slice -> list Slice -> Status * string.

(** Modelled from the spec: a column family handle gives the identifier of
    the column family and its merge operator, if it has one. *)
Record ColumnFamilyHandle : Type := mkColumnFamilyHandle {
  GetID : N;
  merge_operator : option MergeOperator
}.

(** Modelled from the spec: GetColumnFamilyID is declared outside the
    sources at hand; the null handle stands for the default column family,
    whose identifier is 0. *)
Definition GetColumnFamilyID (column_family : option ColumnFamilyHandle) : N :=
  match column_family with
  | Some h => GetID h
  | None => 0%N
  end.

(** Modelled from the spec: the batch, as far as a point read sees it: for
    every column family the decoded entries in index order (by key, then by
    offset), and the comparator of the index. *)
Record WriteBatchWithIndex : Type := mkWriteBatchWithIndex {
  index_entries : N -> list WriteEntry;
  index_comparator : WriteBatchEntryComparator.t
}.

Definition NewIterator (batch : WriteBatchWithIndex)
           (column_family : option ColumnFamilyHandle) : WBWIIterator.t :=
  Cursor.mk (index_entries batch (GetColumnFamilyID column_family)) None OK.

(** WBWIIteratorImpl::MatchesKey *)
Definition MatchesKey (comparator_ : WriteBatchEntryComparator.t)
           (iter : WBWIIterator.t) (cf_id : N) (key : Slice) : bool :=
  if WBWIIterator.Valid iter
  then CompareKey comparator_ cf_id key
         (entry_key (WBWIIterator.Entry iter)) =? 0
  else false.

(** Modelled from the spec: MergeContext is declared in db/merge_context.h,
    which is not part of the sources at hand.  A merge context is modelled
    by the list of its operands in the order of the PushOperand calls;
    GetFromBatch walks backward, so the most recent operand is pushed first.
    GetOperands returns the operands in the forward direction, the one
    pushed last (the oldest of the walk) first. *)
Definition GetOperands (merge_context : list Slice) : list Slice :=
  rev merge_context.

(** WriteBatchWithIndexInternal::MergeKey; the three calls of
    TimedFullMerge differ in the logger, statistics and clock only. *)
Definition MergeKey (column_family_ : option ColumnFamilyHandle)
           (key : Slice) (value : option Slice) (merge_context : list Slice)
           (result : string) : Status * string :=
  match column_family_ with
  | Some cfh =>
      match merge_operator cfh with
      | None =>
          (InvalidArgument "Merge_operator must be set for column_family",
           result)
      | Some merge => merge key value (GetOperands merge_context)
      end
  | None => (InvalidArgument "Must provide a column_family", result)
  end.

Section GetFromBatch.
Variable kFlagMinInCf : N.
Variable column_family_ : option ColumnFamilyHandle.

(** The first loop of GetFromBatch: step over the entries of the key. *)
Fixpoint SkipMatching (fuel : nat) (comparator_ : WriteBatchEntryComparator.t)
         (cf_id : N) (key : Slice) (iter : WBWIIterator.t) : WBWIIterator.t :=
  match fuel with
  | O => iter
  | S fuel' =>
      if WBWIIterator.Valid iter && MatchesKey comparator_ iter cf_id key
      then SkipMatching fuel' comparator_ cf_id key (WBWIIterator.Next iter)
      else iter
  end.

(** The state of the backward walk. *)
Record WalkState : Type := mkWalkState {
  w_result : Result;
  w_entry_value : Slice;
  w_merge_context : list Slice;
  w_s : Status
}.

(** The switch on [entry.type]. *)
Definition FoldEntry (entry : WriteEntry) (w : WalkState) : WalkState :=
  match type entry with
  | kPutRecord =>
      if negb (is_in_deleted_range entry)
      then mkWalkState kFound (value entry) (w_merge_context w) (w_s w)
      else mkWalkState kDeleted (w_entry_value w) (w_merge_context w) (w_s w)
  | kMergeRecord =>
      mkWalkState kMergeInProgress (w_entry_value w)
        (w_merge_context w ++ [value entry]) (w_s w)
  | kDeleteRecord | kSingleDeleteRecord =>
      mkWalkState kDeleted (w_entry_value w) (w_merge_context w) (w_s w)
  | kLogDataRecord | kXIDRecord => w
  | kDeleteRangeRecord =>
      mkWalkState kError (w_entry_value w) (w_merge_context w)
        (Corruption (two_messages "Unexpected entry in WriteBatchWithIndex:"
                       (ToString (type entry))))
  end.

(** The second loop of GetFromBatch: walk backward over the entries of the
    key. *)
Fixpoint Walk (fuel : nat) (comparator_ : WriteBatchEntryComparator.t)
         (cf_id : N) (key : Slice) (overwrite_key : bool)
         (iter : WBWIIterator.t) (w : WalkState) : WalkState :=
  match fuel with
  | O => w
  | S fuel' =>
      if negb (WBWIIterator.Valid iter) then w
      else if negb (MatchesKey comparator_ iter cf_id key) then w
      else
        let w := FoldEntry (WBWIIterator.Entry iter) w in
        if Result_eqb (w_result w) kFound || Result_eqb (w_result w) kDeleted
           || Result_eqb (w_result w) kError
        then w
        else if Result_eqb (w_result w) kMergeInProgress && overwrite_key
        then w
        else Walk fuel' comparator_ cf_id key overwrite_key
               (WBWIIterator.Prev iter) w
  end.

(** The state in which GetFromBatch leaves the backward walk. *)
Definition GetFromBatch_walk (batch : WriteBatchWithIndex) (key : Slice)
           (merge_context : list Slice) (overwrite_key : bool) : WalkState :=
  let cf_id := GetColumnFamilyID column_family_ in
  let comparator_ := index_comparator batch in
  let iter := NewIterator batch column_family_ in
  let fuel := S (length (Cursor.items iter)) in
  let iter := WBWIIterator.Seek (CompareKey comparator_ cf_id) key iter in
  let iter := SkipMatching fuel comparator_ cf_id key iter in
  let iter :=
    if negb (WBWIIterator.Valid iter)
    then WBWIIterator.SeekToLast iter
    else WBWIIterator.Prev iter in
  Walk fuel comparator_ cf_id key overwrite_key iter
    (mkWalkState kNotFound EmptyString merge_context OK).

(** The outputs of GetFromBatch: the result, and the final contents of
    [*merge_context], [*value] and [*s]. *)
Record Output : Type := mkOutput {
  o_result : Result;
  o_merge_context : list Slice;
  o_value : string;
  o_s : Status
}.

(** WriteBatchWithIndexInternal::GetFromBatch.  The test of [*s] between
    the two loops is left out: [*s] is OK there. *)
Definition GetFromBatch (batch : WriteBatchWithIndex) (key : Slice)
           (deleted_ranges_comparator : WriteBatchEntryComparator.t)
           (deleted_ranges : DeletedRangeMap.t)
           (merge_context : list Slice) (value : string)
           (overwrite_key : bool) : Output :=
  let cf_id := GetColumnFamilyID column_family_ in
  let w := GetFromBatch_walk batch key merge_context overwrite_key in
  let result := w_result w in
  let merge_context := w_merge_context w in
  if ok (w_s w) then
    let '(result, value, s) :=
      if Result_eqb result kFound || Result_eqb result kDeleted then
        if (0 <? length merge_context)%nat then
          let '(s, value) :=
            MergeKey column_family_ key
              (if Result_eqb result kFound then Some (w_entry_value w)
               else None)
              merge_context value in
          (if ok s then kFound else kError, value, s)
        else
          (result,
           if Result_eqb result kFound then w_entry_value w else value,
           w_s w)
      else (result, value, w_s w) in
    let result :=
      if Result_eqb result kNotFound then
        if DeletedRangeMap.IsInInterval kFlagMinInCf deleted_ranges_comparator
             deleted_ranges cf_id key
        then kDeleted
        else result
      else result in
    mkOutput result merge_context value s
  else mkOutput result merge_context value (w_s w).

End GetFromBatch.
End WriteBatchWithIndexInternal.

(* ================================================================== *)
(** ** Auxiliary notions used to state and prove the properties *)
(* ================================================================== *)

Module SkipListSpec.
Import SkipList.
Section SkipListSpec.
Variable Key : Type.

(** The head of [B], when there is one, satisfies [P]. *)
Definition head_sat (P : Key -> Prop) (B : list Key) : Prop :=
  match B with
  | [] => True
  | b :: _ => P b
  end.

(** The cursor that stands on the entry after the prefix [P]. *)
Definition cursor_after (P rest : list Key) : Iterator Key :=
  mkIterator (P ++ rest)%list
    (match rest with [] => None | _ => Some (length P) end).

End SkipListSpec.
Arguments head_sat {Key} P B.
Arguments cursor_after {Key} P rest.
End SkipListSpec.

Module IntervalMapSpec.
Import IntervalMap.
Section IntervalMapSpec.
Variable PointKey : Type.
Variable cmp : PointKey -> PointKey -> Z.

Definition marker_of (e : PointEntry PointKey) : Marker := marker (pointData e).

Definition flip (m : Marker) : Marker :=
  match m with Start => Stop | Stop => Start end.

(** Keys strictly increase along the list. *)
Fixpoint sorted (m : list (PointEntry PointKey)) : Prop :=
  match m with
  | [] => True
  | x :: r => Forall (fun y => cmp (pointKey x) (pointKey y) < 0) r /\ sorted r
  end.

(** Markers alternate along the list, the first one being [s]. *)
Fixpoint alt (s : Marker) (m : list (PointEntry PointKey)) : Prop :=
  match m with
  | [] => True
  | e :: r => marker_of e = s /\ alt (flip s) r
  end.

(** The marker that an alternating list starting with [s] carries at
    index [n]. *)
Definition marker_after (s : Marker) (n : nat) : Marker :=
  if Nat.even n then s else flip s.

(** The representation invariant of the interval map: keys strictly
    increase and the markers read Start, Stop, Start, Stop, ..., Stop. *)
Definition Invariant (m : list (PointEntry PointKey)) : Prop :=
  sorted m /\ alt Start m /\ Nat.even (length m) = true.

(** The alternation property as the specification words it, over adjacent
    entries. *)
Definition Alternating (m : list (PointEntry PointKey)) : Prop :=
  forall i a b,
    nth_error m i = Some a -> nth_error m (S i) = Some b ->
    marker_of a <> marker_of b /\
    (marker_of a = Start -> cmp (pointKey a) (pointKey b) < 0).

(** [k] lies in one of the half-open intervals of [R]. *)
Definition InUnion (R : list (PointKey * PointKey)) (k : PointKey) : Prop :=
  exists l h, In (l, h) R /\ cmp l k <= 0 /\ cmp k h < 0.

(** Every interval of [R] is non-empty: [from < to]. *)
Definition Proper (R : list (PointKey * PointKey)) : Prop :=
  Forall (fun r => cmp (fst r) (snd r) < 0) R.

(** Number of entries at or before [k]. *)
Definition count_le (m : list (PointEntry PointKey)) (k : PointKey) : nat :=
  length (filter (fun e => cmp (pointKey e) k <=? 0) m).

(** What FixIntervalFrom makes of the entries at or before [l]. *)
Fixpoint FixedPrefix (A : list (PointEntry PointKey)) (l : PointKey)
  : list (PointEntry PointKey) :=
  match A with
  | [] => [entry l Start]
  | x :: r =>
      match r with
      | [] =>
          match marker_of x with
          | Start => [x]
          | Stop => if cmp l (pointKey x) =? 0 then [] else [x; entry l Start]
          end
      | _ :: _ => x :: FixedPrefix r l
      end
  end.

(** What FixIntervalTo makes of the entries at or after [h]. *)
Definition FixedSuffix (E : list (PointEntry PointKey)) (h : PointKey)
  : list (PointEntry PointKey) :=
  match E with
  | [] => [entry h Stop]
  | e :: E' =>
      match marker_of e with
      | Stop => E
      | Start => if cmp h (pointKey e) =? 0 then E' else entry h Stop :: E
      end
  end.

End IntervalMapSpec.

Arguments marker_of {PointKey} e.
Arguments sorted {PointKey} cmp m.
Arguments alt {PointKey} s m.
Arguments Invariant {PointKey} cmp m.
Arguments Alternating {PointKey} cmp m.
Arguments InUnion {PointKey} cmp R k.
Arguments Proper {PointKey} cmp R.
Arguments count_le {PointKey} cmp m k.
Arguments FixedPrefix {PointKey} cmp A l.
Arguments FixedSuffix {PointKey} cmp E h.

End IntervalMapSpec.

Module BaseDeltaIteratorSpec.

(** The entries of the base iterator are in strictly increasing key
    order. *)
Definition base_sorted (cmp : Comparator) (B : list (Slice * Slice)) : Prop :=
  StronglySorted (fun a b => cmp (fst a) (fst b) < 0) B.

(** The entries of the delta iterator are in key order; several entries
    may carry the same key. *)
Definition delta_sorted (cmp : Comparator) (D : list WriteEntry) : Prop :=
  StronglySorted (fun a b => cmp (entry_key a) (entry_key b) <= 0) D.

(** The seek and advance operations of the merge iterator. *)
Inductive Operation : Type :=
| OpSeekToFirst
| OpSeekToLast
| OpSeek (k : Slice)
| OpSeekForPrev (k : Slice)
| OpNext
| OpPrev.

Definition run (cmp : Comparator) (op : Operation) (it : BaseDeltaIterator.t)
  : BaseDeltaIterator.t :=
  match op with
  | OpSeekToFirst => BaseDeltaIterator.SeekToFirst cmp it
  | OpSeekToLast => BaseDeltaIterator.SeekToLast cmp it
  | OpSeek k => BaseDeltaIterator.Seek cmp k it
  | OpSeekForPrev k => BaseDeltaIterator.SeekForPrev cmp k it
  | OpNext => BaseDeltaIterator.Next cmp it
  | OpPrev => BaseDeltaIterator.Prev cmp it
  end.

(** The iterator is Valid on the delta side, at a Delete or a
    SingleDelete. *)
Definition presents_tombstone (it : BaseDeltaIterator.t) : bool :=
  BaseDeltaIterator.Valid it && negb (BaseDeltaIterator.current_at_base_ it)
  && is_delete (type (WBWIIterator.Entry (BaseDeltaIterator.delta_iterator_ it))).

(** A bound on the number of entries that the delta cursor can still step
    over in the direction of the iterator. *)
Definition delta_steps (it : BaseDeltaIterator.t) : nat :=
  if BaseDeltaIterator.DeltaValid it then
    match Cursor.pos (BaseDeltaIterator.delta_iterator_ it) with
    | Some i =>
        if BaseDeltaIterator.forward_ it
        then length (Cursor.items (BaseDeltaIterator.delta_iterator_ it)) - i
        else S i
    | None => O
    end
  else O.

(** The comparison on which UpdateCurrent decides when both cursors are
    valid: the delta key against the base key, in the direction of the
    iterator. *)
Definition dir_compare (cmp : Comparator) (it : BaseDeltaIterator.t) : Z :=
  (if BaseDeltaIterator.forward_ it then 1 else -1) *
  cmp (entry_key (WBWIIterator.Entry (BaseDeltaIterator.delta_iterator_ it)))
      (Iterator.key (BaseDeltaIterator.base_iterator_ it)).

(** The delta entry under the cursor is at or above the upper bound. *)
Definition at_upper_bound (cmp : Comparator) (it : BaseDeltaIterator.t) : bool :=
  match BaseDeltaIterator.iterate_upper_bound_ it with
  | Some upper_bound =>
      0 <=? cmp (entry_key (WBWIIterator.Entry
                              (BaseDeltaIterator.delta_iterator_ it)))
                upper_bound
  | None => false
  end.

(** The state in which UpdateCurrent returns, by the [return] that it
    takes. *)
Definition at_exit (cmp : Comparator) (r : BaseDeltaIterator.t) : Prop :=
  let cab := BaseDeltaIterator.current_at_base_ r in
  let eq := BaseDeltaIterator.equal_keys_ r in
  let tombstone :=
    is_delete (type (WBWIIterator.Entry (BaseDeltaIterator.delta_iterator_ r))) in
  let base_ok := ok (Iterator.status (BaseDeltaIterator.base_iterator_ r)) in
  let delta_ok := ok (WBWIIterator.status (BaseDeltaIterator.delta_iterator_ r)) in
  match BaseDeltaIterator.DeltaValid r, BaseDeltaIterator.BaseValid r with
  | true, true =>
      if dir_compare cmp r <=? 0
      then cab = false /\ tombstone = false /\ eq = (dir_compare cmp r =? 0)
      else cab = true /\ eq = false
  | true, false =>
      eq = false /\
      if base_ok
      then at_upper_bound cmp r = true \/ (tombstone = false /\ cab = false)
      else cab = true
  | false, true =>
      if delta_ok then cab = true /\ eq = false else cab = false
  | false, false =>
      if delta_ok then eq = false /\ (base_ok = false -> cab = true)
      else cab = false
  end.

(** What UpdateCurrent leaves alone in the iterator [it] when it returns
    [r]: the direction, the sticky status, the upper bound, and the contents
    and statuses of the two cursors. *)
Definition same_frame (it r : BaseDeltaIterator.t) : Prop :=
  BaseDeltaIterator.forward_ r = BaseDeltaIterator.forward_ it /\
  BaseDeltaIterator.status_ r = BaseDeltaIterator.status_ it /\
  BaseDeltaIterator.iterate_upper_bound_ r
  = BaseDeltaIterator.iterate_upper_bound_ it /\
  Cursor.items (BaseDeltaIterator.base_iterator_ r)
  = Cursor.items (BaseDeltaIterator.base_iterator_ it) /\
  Cursor.status (BaseDeltaIterator.base_iterator_ r)
  = Cursor.status (BaseDeltaIterator.base_iterator_ it) /\
  Cursor.items (BaseDeltaIterator.delta_iterator_ r)
  = Cursor.items (BaseDeltaIterator.delta_iterator_ it) /\
  Cursor.status (BaseDeltaIterator.delta_iterator_ r)
  = Cursor.status (BaseDeltaIterator.delta_iterator_ it).

(** SeekToFirst, SeekToLast, Seek and SeekForPrev. *)
Definition is_seek (op : Operation) : bool :=
  match op with
  | OpNext | OpPrev => false
  | _ => true
  end.

(** A cursor position given as the number of entries before the cursor:
    the forward cursor stands on entry [n], or on none past the end. *)
Definition fpos (n len : nat) : option nat :=
  if (n <? len)%nat then Some n else None.

(** The backward cursor stands on the entry before position [n], or on
    none at the beginning. *)
Definition bpos (n : nat) : option nat :=
  match n with
  | O => None
  | S m => Some m
  end.

Section States.
Variable cmp : Comparator.
Variable B : list (Slice * Slice).
Variable D : list WriteEntry.
Variable ub : option Slice.

Definition bk (i : nat) : Slice := fst (nth i B (EmptyString, EmptyString)).
Definition bv (i : nat) : Slice := snd (nth i B (EmptyString, EmptyString)).
Definition de (j : nat) : WriteEntry := nth j D WriteEntry_default.
Definition dk (j : nat) : Slice := entry_key (de j).
Definition tomb (j : nat) : bool := is_delete (type (de j)).

Definition ub_hit (j : nat) : bool :=
  match ub with
  | Some upper_bound => 0 <=? cmp (dk j) upper_bound
  | None => false
  end.

(** A merge iterator over [B] and [D] whose cursors have status OK. *)
Definition mkst (fwd cab eq : bool) (bp dp : option nat)
  : BaseDeltaIterator.t :=
  BaseDeltaIterator.mk fwd cab eq OK (Cursor.mk B bp OK) (Cursor.mk D dp OK) ub.

Definition fstate (cab eq : bool) (I J : nat) : BaseDeltaIterator.t :=
  mkst true cab eq (fpos I (length B)) (fpos J (length D)).

Definition bstate (cab eq : bool) (I J : nat) : BaseDeltaIterator.t :=
  mkst false cab eq (bpos I) (bpos J).

(** Delta entries passed by the forward cursors are below the base entry
    under the cursor. *)
Definition F1 (I J : nat) : Prop :=
  forall j, (j < J)%nat -> (j < length D)%nat -> (I < length B)%nat ->
            cmp (dk j) (bk I) < 0.

(** Base entries passed by the forward cursors are not above the delta
    entry under the cursor. *)
Definition F2 (I J : nat) : Prop :=
  forall i, (i < I)%nat -> (i < length B)%nat -> (J < length D)%nat ->
            cmp (bk i) (dk J) <= 0.

(** Every base entry from [Ia] up to [I] has a delta entry of the same key
    from [Ja] up to [J]. *)
Definition Shadow (Ia Ja I J : nat) : Prop :=
  forall i, (Ia <= i < I)%nat ->
            exists j, (Ja <= j < J)%nat /\ cmp (dk j) (bk i) = 0.

(** The delta entries from [Ja] up to [J] are Deletes or SingleDeletes. *)
Definition Tombs (Ja J : nat) : Prop :=
  forall j, (Ja <= j < J)%nat -> tomb j = true.

(** What holds while UpdateCurrent skips forward from [(Ia, Ja)]. *)
Definition SkipInv (Ia Ja I J : nat) : Prop :=
  (Ia <= I <= length B)%nat /\ (Ja <= J <= length D)%nat /\
  F1 I J /\ F2 I J /\ Shadow Ia Ja I J /\ Tombs Ja J.

(** What holds while UpdateCurrent skips backward down to [Ja], the base
    cursor not yet below the entries that were skipped with a delta
    entry. *)
Definition BackInv (Ia Ja I J : nat) : Prop :=
  (I <= length B)%nat /\ (Ja <= J <= length D)%nat /\
  Tombs Ja J /\ Shadow Ia Ja I J /\
  (forall j, (j < J)%nat -> ub_hit j = false).

(** The ways in which UpdateCurrent, running forward, can stop at
    [(I, J)]: on the base entry, on the delta entry, or with the base
    finished and the delta finished or out of the upper bound. *)
Definition fwd_result (cab : bool) (I J : nat) (r : BaseDeltaIterator.t)
  : Prop :=
  (r = fstate true false I J /\ (I < length B)%nat /\
   ((J < length D)%nat -> 0 < cmp (dk J) (bk I)))
  \/
  (exists e, r = fstate false e I J /\ (J < length D)%nat /\ tomb J = false /\
             ((I < length B)%nat ->
              cmp (dk J) (bk I) <= 0 /\ e = (cmp (dk J) (bk I) =? 0)) /\
             ((length B <= I)%nat -> e = false /\ ub_hit J = false))
  \/
  (r = fstate cab false I J /\ (length B <= I)%nat /\
   ((length D <= J)%nat \/ ub_hit J = true)).

End States.
End BaseDeltaIteratorSpec.

(** ** Cursors by index, and the inputs of the concrete runs *)

Module GetFromBatchSpec.

(** The cursor on the entry at index [n], or on none when [n] is past the
    end. *)
Definition at_index (l : list WriteEntry) (n : nat) : WBWIIterator.t :=
  Cursor.mk l (if (n <? length l)%nat then Some n else None) OK.

(** The cursor on the entry before index [n], or on none when [n] is 0. *)
Definition before (l : list WriteEntry) (n : nat) : WBWIIterator.t :=
  match n with
  | O => at_index l (length l)
  | S m => at_index l m
  end.

(** The backward walk of GetFromBatch over the entries of the key, the
    most recent first: every entry goes through the switch on its type,
    and the walk stops as the second loop does. *)
Fixpoint WalkEntries (overwrite_key : bool) (entries : list WriteEntry)
         (w : WriteBatchWithIndexInternal.WalkState)
  : WriteBatchWithIndexInternal.WalkState :=
  match entries with
  | [] => w
  | e :: older =>
      let w := WriteBatchWithIndexInternal.FoldEntry e w in
      if WriteBatchWithIndexInternal.Result_eqb
           (WriteBatchWithIndexInternal.w_result w)
           WriteBatchWithIndexInternal.kFound
         || WriteBatchWithIndexInternal.Result_eqb
              (WriteBatchWithIndexInternal.w_result w)
              WriteBatchWithIndexInternal.kDeleted
         || WriteBatchWithIndexInternal.Result_eqb
              (WriteBatchWithIndexInternal.w_result w)
              WriteBatchWithIndexInternal.kError
      then w
      else if WriteBatchWithIndexInternal.Result_eqb
                (WriteBatchWithIndexInternal.w_result w)
                WriteBatchWithIndexInternal.kMergeInProgress
              && overwrite_key
      then w
      else WalkEntries overwrite_key older w
  end.

(** The walk state in which GetFromBatch starts. *)
Definition walk_start (merge_context : list Slice)
  : WriteBatchWithIndexInternal.WalkState :=
  WriteBatchWithIndexInternal.mkWalkState WriteBatchWithIndexInternal.kNotFound
    EmptyString merge_context OK.

(** The existing value that a Put, a Delete or a SingleDelete hands to the
    merge operator: the value of a Put outside the deleted ranges, nothing
    otherwise. *)
Definition merge_base (e : WriteEntry) : option Slice :=
  match type e with
  | kPutRecord => if is_in_deleted_range e then None else Some (value e)
  | _ => None
  end.

(** The entry is a Put, a Delete or a SingleDelete: the walk stops on
    it. *)
Definition ends_walk (e : WriteEntry) : bool :=
  match type e with
  | kPutRecord | kDeleteRecord | kSingleDeleteRecord => true
  | _ => false
  end.

End GetFromBatchSpec.

Module BaseDeltaIteratorInputs.
Import BaseDeltaIterator.
Local Open Scope string_scope.

(** A base iterator that has failed with a corruption, over an empty
    delta. *)
Definition failed_base : t :=
  new (Cursor.mk [("a", "A")] None (Corruption "bad block"))
      (Cursor.mk [] None OK) None.

(** Scenario 7 of the specification. *)
Definition scenario7 : t :=
  new (Cursor.mk [("a", "A"); ("c", "C")] None OK)
      (Cursor.mk [mkWriteEntry kPutRecord "b" "B" false] None OK)
      None.

(** An empty base, a delta with a Put of "a" and a Delete of "c", and the
    upper bound "b". *)
Definition bounded_tombstone : t :=
  new (Cursor.mk [] None OK)
      (Cursor.mk [mkWriteEntry kPutRecord "a" "1" false;
                  mkWriteEntry kDeleteRecord "c" "" false] None OK)
      (Some "b").

(** The base {a, c, e}, the delta {Put b, Delete c, Put d}. *)
Definition mixed : BaseDeltaIterator.t :=
  BaseDeltaIterator.new
    (Cursor.mk [("a", "A"); ("c", "C"); ("e", "E")] None OK)
    (Cursor.mk [mkWriteEntry kPutRecord "b" "B" false;
                mkWriteEntry kDeleteRecord "c" "" false;
                mkWriteEntry kPutRecord "d" "D" false] None OK)
    None.

End BaseDeltaIteratorInputs.

Module GetFromBatchInputs.
Import WriteBatchEntryComparator WriteBatchWithIndexInternal.
Local Open Scope string_scope.

Definition bytewise : WriteBatchEntryComparator.t :=
  mkComparator "" BytewiseComparator [].

(** The default column family holds Put("a","1"), Put("b","2"),
    Delete("b"), Put("c","3"), in index order. *)
Definition batch1 : WriteBatchWithIndex :=
  mkWriteBatchWithIndex
    (fun cf =>
       if (cf =? 0)%N
       then [mkWriteEntry kPutRecord "a" "1" false;
             mkWriteEntry kPutRecord "b" "2" false;
             mkWriteEntry kDeleteRecord "b" "" false;
             mkWriteEntry kPutRecord "c" "3" false]
       else [])
    bytewise.

(** The default column family holds Put("a","1") and a Put("b","2") that is
    flagged as lying in a deleted range. *)
Definition batch_put_in_range : WriteBatchWithIndex :=
  mkWriteBatchWithIndex
    (fun cf =>
       if (cf =? 0)%N
       then [mkWriteEntry kPutRecord "a" "1" false;
             mkWriteEntry kPutRecord "b" "2" true]
       else [])
    bytewise.

(** A deleted range [a, c) in the default column family. *)
Definition ranges1 : DeletedRangeMap.t :=
  DeletedRangeMap.AddInterval 255 bytewise IntervalMap.empty 0 "a" "c".

(** A batch that holds Put("x","1") only. *)
Definition batch2 : WriteBatchWithIndex :=
  mkWriteBatchWithIndex
    (fun cf =>
       if (cf =? 0)%N then [mkWriteEntry kPutRecord "x" "1" false] else [])
    bytewise.

(** A merge operator that appends the operands, in the order in which it
    receives them, to the existing value. *)
Definition append_operator : MergeOperator :=
  fun _ existing operands =>
    (OK, fold_left append operands
           (match existing with Some v => v | None => EmptyString end)).

(** The default column family, with [append_operator]. *)
Definition cf_append : ColumnFamilyHandle :=
  mkColumnFamilyHandle 0 (Some append_operator).


(** Put("a","1"), Put("b","2"), Merge("b","x"), Merge("b","y"),
    Put("c","3"), in index order. *)
Definition batch_merge : WriteBatchWithIndex :=
  mkWriteBatchWithIndex
    (fun cf =>
       if (cf =? 0)%N
       then [mkWriteEntry kPutRecord "a" "1" false;
             mkWriteEntry kPutRecord "b" "2" false;
             mkWriteEntry kMergeRecord "b" "x" false;
             mkWriteEntry kMergeRecord "b" "y" false;
             mkWriteEntry kPutRecord "c" "3" false]
       else [])
    bytewise.

(** Put("a","1"), Merge("b","x"), Merge("b","y"). *)
Definition batch_merges_only : WriteBatchWithIndex :=
  mkWriteBatchWithIndex
    (fun cf =>
       if (cf =? 0)%N
       then [mkWriteEntry kPutRecord "a" "1" false;
             mkWriteEntry kMergeRecord "b" "x" false;
             mkWriteEntry kMergeRecord "b" "y" false]
       else [])
    bytewise.

(** Put("b","2"), then a DeleteRange record whose begin key is "b". *)
Definition batch_delete_range : WriteBatchWithIndex :=
  mkWriteBatchWithIndex
    (fun cf =>
       if (cf =? 0)%N
       then [mkWriteEntry kPutRecord "b" "2" false;
             mkWriteEntry kDeleteRangeRecord "b" "d" false]
       else [])
    bytewise.

End GetFromBatchInputs.

(** ** What a scan of the merge iterator shows *)

Module MergedViewSpec.

(** The entries that a scan shows: from [it], [step] is taken until the
    iterator is not Valid.  [None] when [fuel] steps do not reach the
    end. *)
Fixpoint scan (step : BaseDeltaIterator.t -> BaseDeltaIterator.t)
         (fuel : nat) (it : BaseDeltaIterator.t) : option (list (Slice * Slice)) :=
  match fuel with
  | O => None
  | S fuel' =>
      if BaseDeltaIterator.Valid it
      then option_map (cons (BaseDeltaIterator.key it, BaseDeltaIterator.value it))
             (scan step fuel' (step it))
      else Some []
  end.

(** A bound on the number of entries of a scan: every step moves a cursor
    on. *)
Definition scan_fuel (it : BaseDeltaIterator.t) : nat :=
  S (length (Cursor.items (BaseDeltaIterator.base_iterator_ it))
     + length (Cursor.items (BaseDeltaIterator.delta_iterator_ it))).

(** SeekToFirst, then Next to the end. *)
Definition ForwardScan (cmp : Comparator) (it : BaseDeltaIterator.t)
  : option (list (Slice * Slice)) :=
  scan (BaseDeltaIterator.Next cmp) (scan_fuel it)
    (BaseDeltaIterator.SeekToFirst cmp it).

(** Seek(k), then Next to the end. *)
Definition ForwardScanFrom (cmp : Comparator) (k : Slice)
           (it : BaseDeltaIterator.t) : option (list (Slice * Slice)) :=
  scan (BaseDeltaIterator.Next cmp) (scan_fuel it)
    (BaseDeltaIterator.Seek cmp k it).

(** SeekToLast, then Prev to the beginning. *)
Definition BackwardScan (cmp : Comparator) (it : BaseDeltaIterator.t)
  : option (list (Slice * Slice)) :=
  scan (BaseDeltaIterator.Prev cmp) (scan_fuel it)
    (BaseDeltaIterator.SeekToLast cmp it).

(** SeekForPrev(k), then Prev to the beginning. *)
Definition BackwardScanFrom (cmp : Comparator) (k : Slice)
           (it : BaseDeltaIterator.t) : option (list (Slice * Slice)) :=
  scan (BaseDeltaIterator.Prev cmp) (scan_fuel it)
    (BaseDeltaIterator.SeekForPrev cmp k it).

(** The key and the value of a delta entry. *)
Definition pair_of (d : WriteEntry) : Slice * Slice :=
  (entry_key d, entry_value d).

(** The merge of an ordered base [B] and an ordered delta [D], as a list:
    the smaller head goes first; a delta entry hides the base entry of the
    same key; a Delete or SingleDelete is dropped. *)
Fixpoint MergedView (cmp : Comparator) (B : list (Slice * Slice))
  : list WriteEntry -> list (Slice * Slice) :=
  fix inner (D : list WriteEntry) : list (Slice * Slice) :=
    match B, D with
    | [], [] => []
    | b :: B', [] => b :: MergedView cmp B' []
    | [], d :: D' =>
        if is_delete (type d) then inner D' else pair_of d :: inner D'
    | b :: B', d :: D' =>
        let c := cmp (entry_key d) (fst b) in
        if c <=? 0 then
          let rest := if c =? 0 then MergedView cmp B' D' else inner D' in
          if is_delete (type d) then rest else pair_of d :: rest
        else b :: MergedView cmp B' D
    end.

(** The comparator of the backward direction. *)
Definition reversed (cmp : Comparator) : Comparator :=
  fun a b => -1 * cmp a b.

(** [(k, v)] is the key and value of a delta entry that is no Delete and no
    SingleDelete. *)
Definition shown_by_delta (D : list WriteEntry) (k v : Slice) : Prop :=
  exists d, In d D /\ is_delete (type d) = false /\ pair_of d = (k, v).

(** [(k, v)] is a base entry whose key no delta entry carries. *)
Definition shown_by_base (cmp : Comparator) (B : list (Slice * Slice))
           (D : list WriteEntry) (k v : Slice) : Prop :=
  In (k, v) B /\ forall d, In d D -> cmp (entry_key d) k <> 0.

End MergedViewSpec.

(** ** Notions used for the index comparator and the deleted ranges *)

Module DeletedRangeMapSpec.
Import WriteBatchEntryComparator.

Section DeletedRangeMapSpec.
Variable kFlagMinInCf : N.
Variable c : WriteBatchEntryComparator.t.

(** The index comparator, made symmetric on the one pair on which
    operator() is not: two min-in-cf probes of the same column family
    compare equal here.  On every other pair it is operator(). *)
Definition total_compare (a b : WriteBatchIndexEntry) : Z :=
  if (column_family a =? column_family b)%N
     && is_min_in_cf kFlagMinInCf a && is_min_in_cf kFlagMinInCf b
  then 0
  else operator_call kFlagMinInCf c a b.

(** The length of the key is not the flag value of a min-in-cf probe. *)
Definition plain_key (key : Slice) : Prop :=
  N.of_nat (String.length key) <> kFlagMinInCf.

(** The entries of the map are no min-in-cf probes, and they form a normal
    form under the index comparator. *)
Definition well_formed (m : DeletedRangeMap.t) : Prop :=
  Forall (fun e => is_min_in_cf kFlagMinInCf (IntervalMap.pointKey e) = false) m
  /\ IntervalMapSpec.Invariant total_compare m.

(** A sequence of AddInterval(cf_id, from_key, to_key) calls. *)
Definition AddRanges (m : DeletedRangeMap.t) (R : list (N * Slice * Slice))
  : DeletedRangeMap.t :=
  fold_left
    (fun m r =>
       DeletedRangeMap.AddInterval kFlagMinInCf c m (fst (fst r)) (snd (fst r))
         (snd r))
    R m.

(** Every range has keys that are no flag values, and is non-empty under
    the comparator of its column family. *)
Definition proper_ranges (R : list (N * Slice * Slice)) : Prop :=
  Forall (fun r => plain_key (snd (fst r)) /\ plain_key (snd r) /\
                   CompareKey c (fst (fst r)) (snd (fst r)) (snd r) < 0) R.

(** [key] lies in a range of [R] that was added for the column family
    [cf_id]. *)
Definition in_ranges (R : list (N * Slice * Slice)) (cf_id : N) (key : Slice)
  : Prop :=
  exists l h, In (cf_id, l, h) R /\
              CompareKey c cf_id l key <= 0 /\ CompareKey c cf_id key h < 0.

End DeletedRangeMapSpec.
End DeletedRangeMapSpec.

(* ================================================================== *)
(** * Part II: properties *)
(* ================================================================== *)

(** ** Facts about comparators *)

Section ComparatorFacts.
Variable K : Type.
Variable cmp : K -> K -> Z.
Hypothesis cmp_ok : Comparator_ok cmp.

Lemma cmp_refl a : cmp a a = 0.
Proof. pose proof (compare_sym cmp cmp_ok a a). lia. Qed.

Lemma cmp_lt_gt a b : cmp a b < 0 <-> 0 < cmp b a.
Proof. pose proof (compare_sym cmp cmp_ok a b). lia. Qed.

Lemma cmp_le_ge a b : cmp a b <= 0 <-> 0 <= cmp b a.
Proof. pose proof (compare_sym cmp cmp_ok a b). lia. Qed.

Lemma cmp_eq_sym a b : cmp a b = 0 <-> cmp b a = 0.
Proof. pose proof (compare_sym cmp cmp_ok a b). lia. Qed.

Lemma cmp_le_trans a b c : cmp a b <= 0 -> cmp b c <= 0 -> cmp a c <= 0.
Proof. apply (compare_trans cmp cmp_ok). Qed.

Lemma cmp_lt_le_trans a b c : cmp a b < 0 -> cmp b c <= 0 -> cmp a c < 0.
Proof.
  intros Hab Hbc.
  assert (Hac : cmp a c <= 0) by (apply cmp_le_trans with b; lia).
  assert (Hne : cmp a c <> 0).
  { intro E. apply cmp_eq_sym in E.
    assert (cmp b a <= 0) by (apply cmp_le_trans with c; lia).
    apply cmp_lt_gt in Hab. lia. }
  lia.
Qed.

Lemma cmp_le_lt_trans a b c : cmp a b <= 0 -> cmp b c < 0 -> cmp a c < 0.
Proof.
  intros Hab Hbc.
  assert (Hac : cmp a c <= 0) by (apply cmp_le_trans with b; lia).
  assert (Hne : cmp a c <> 0).
  { intro E. apply cmp_eq_sym in E.
    assert (cmp c b <= 0) by (apply cmp_le_trans with a; lia).
    apply cmp_lt_gt in Hbc. lia. }
  lia.
Qed.

Lemma cmp_lt_trans a b c : cmp a b < 0 -> cmp b c < 0 -> cmp a c < 0.
Proof. intros. apply cmp_lt_le_trans with b; lia. Qed.

Lemma cmp_eq_lt_trans a b c : cmp a b = 0 -> cmp b c < 0 -> cmp a c < 0.
Proof. intros. apply cmp_le_lt_trans with b; lia. Qed.

Lemma cmp_lt_eq_trans a b c : cmp a b < 0 -> cmp b c = 0 -> cmp a c < 0.
Proof. intros. apply cmp_lt_le_trans with b; lia. Qed.

Lemma cmp_eq_trans a b c : cmp a b = 0 -> cmp b c = 0 -> cmp a c = 0.
Proof.
  intros Hab Hbc.
  assert (cmp a c <= 0) by (apply cmp_le_trans with b; lia).
  assert (cmp c a <= 0).
  { apply cmp_eq_sym in Hab. apply cmp_eq_sym in Hbc.
    apply cmp_le_trans with b; lia. }
  apply cmp_le_ge in H0. lia.
Qed.

End ComparatorFacts.

Lemma Z_sub_Comparator_ok : Comparator_ok Z.sub.
Proof. split; intros; lia. Qed.

(** ** Facts about lists *)

Lemma list_snoc_cases {A : Type} (l : list A) :
  l = [] \/ exists l' x, l = (l' ++ [x])%list.
Proof.
  induction l as [|x l _] using rev_ind; [left | right]; eauto.
Qed.

(** ** The bytewise comparator is a total preorder *)

Lemma string_compare_le_trans : forall a b c : string,
  String.compare a b <> Gt -> String.compare b c <> Gt ->
  String.compare a c <> Gt.
Proof.
  induction a as [|x a IH]; intros [|y b] [|z c]; simpl; try congruence.
  unfold Ascii.compare.
  destruct (N.compare_spec (N_of_ascii x) (N_of_ascii y)) as [Hxy|Hxy|Hxy];
  destruct (N.compare_spec (N_of_ascii y) (N_of_ascii z)) as [Hyz|Hyz|Hyz];
  destruct (N.compare_spec (N_of_ascii x) (N_of_ascii z)) as [Hxz|Hxz|Hxz];
  try congruence; try lia.
  apply IH.
Qed.

Lemma BytewiseComparator_ok : Comparator_ok BytewiseComparator.
Proof.
  split; unfold BytewiseComparator.
  - intros a b. rewrite (String.compare_antisym a b).
    now destruct (String.compare b a).
  - intros a b c Hab Hbc.
    pose proof (string_compare_le_trans a b c) as H.
    destruct (String.compare a b), (String.compare b c),
      (String.compare a c); try lia; exfalso; apply H; congruence.
Qed.

(** ** Facts about the skip list model *)

Module SkipListFacts.
Import SkipList SkipListSpec.
Section SkipListFacts.
Variable Key : Type.
Variable cmp : Key -> Key -> Z.

Lemma nth_error_middle (A B : list Key) (e : Key) :
  nth_error (A ++ e :: B) (length A) = Some e.
Proof. induction A; simpl; auto. Qed.

Lemma remove_middle (A B : list Key) (e : Key) :
  (firstn (length A) (A ++ e :: B) ++ skipn (S (length A)) (A ++ e :: B))%list
  = (A ++ B)%list.
Proof. induction A; simpl; auto. f_equal. exact IHA. Qed.

Lemma FindLessOrEqual_none (B : list Key) (p : Key) :
  Forall (fun x => 0 < cmp x p) B -> FindLessOrEqual cmp B p = None.
Proof.
  induction 1 as [|x B Hx HB IH]; simpl; auto.
  rewrite IH. destruct (Z.leb_spec (cmp x p) 0); auto; lia.
Qed.

Lemma FindLessOrEqual_middle (A B : list Key) (e p : Key) :
  cmp e p <= 0 -> Forall (fun x => 0 < cmp x p) B ->
  FindLessOrEqual cmp (A ++ e :: B) p = Some (length A).
Proof.
  intros He HB. induction A as [|a A IH]; simpl.
  - rewrite (FindLessOrEqual_none B p HB).
    destruct (Z.leb_spec (cmp e p) 0); auto; lia.
  - rewrite IH. reflexivity.
Qed.

Lemma FindGreaterOrEqual_none (A : list Key) (p : Key) :
  Forall (fun x => cmp x p < 0) A -> FindGreaterOrEqual cmp A p = None.
Proof.
  induction 1 as [|x A Hx HA IH]; simpl; auto.
  rewrite IH. destruct (Z.leb_spec 0 (cmp x p)); auto; lia.
Qed.

Lemma FindGreaterOrEqual_middle (A B : list Key) (e p : Key) :
  Forall (fun x => cmp x p < 0) A -> 0 <= cmp e p ->
  FindGreaterOrEqual cmp (A ++ e :: B) p = Some (length A).
Proof.
  intros HA He. induction HA as [|x A Hx HA IH]; simpl.
  - destruct (Z.leb_spec 0 (cmp e p)); auto; lia.
  - rewrite IH. destruct (Z.leb_spec 0 (cmp x p)); auto; lia.
Qed.

Lemma Forall_head_sat (P : Key -> Prop) (B : list Key) :
  Forall P B -> head_sat P B.
Proof. destruct 1; simpl; auto. Qed.

Lemma Insert_middle (A B : list Key) (e : Key) :
  Forall (fun x => cmp x e <= 0) A -> head_sat (fun b => 0 < cmp b e) B ->
  Insert cmp e (A ++ B) = (A ++ e :: B)%list.
Proof.
  intros HA HB. induction HA as [|x A Hx HA IH]; simpl.
  - destruct B as [|b B]; simpl in *; auto.
    destruct (Z.leb_spec (cmp b e) 0); auto; lia.
  - rewrite IH. destruct (Z.leb_spec (cmp x e) 0); auto; lia.
Qed.

Lemma key_Seek_none (A : list Key) (p : Key) :
  Forall (fun x => cmp x p < 0) A -> key (Seek cmp A p) = None.
Proof. intros H. unfold key, Seek; simpl. now rewrite FindGreaterOrEqual_none. Qed.

Lemma key_Seek_middle (A B : list Key) (e p : Key) :
  Forall (fun x => cmp x p < 0) A -> 0 <= cmp e p ->
  key (Seek cmp (A ++ e :: B) p) = Some e.
Proof.
  intros HA He. unfold key, Seek; simpl.
  rewrite FindGreaterOrEqual_middle by assumption. apply nth_error_middle.
Qed.

Lemma key_SeekForPrev_none (B : list Key) (p : Key) :
  Forall (fun x => 0 < cmp x p) B -> key (SeekForPrev cmp B p) = None.
Proof. intros H. unfold key, SeekForPrev; simpl. now rewrite FindLessOrEqual_none. Qed.

Lemma key_SeekForPrev_middle (A B : list Key) (e p : Key) :
  cmp e p <= 0 -> Forall (fun x => 0 < cmp x p) B ->
  key (SeekForPrev cmp (A ++ e :: B) p) = Some e.
Proof.
  intros He HB. unfold key, SeekForPrev; simpl.
  rewrite FindLessOrEqual_middle by assumption. apply nth_error_middle.
Qed.

Lemma Remove_Seek_middle (A B : list Key) (e p : Key) :
  Forall (fun x => cmp x p < 0) A -> 0 <= cmp e p ->
  list_ (Remove (Seek cmp (A ++ e :: B) p)) = (A ++ B)%list.
Proof.
  intros HA He. unfold Remove, Seek; simpl.
  rewrite FindGreaterOrEqual_middle by assumption. simpl.
  apply remove_middle.
Qed.

Lemma Remove_SeekForPrev_middle (A B : list Key) (e p : Key) :
  cmp e p <= 0 -> Forall (fun x => 0 < cmp x p) B ->
  list_ (Remove (SeekForPrev cmp (A ++ e :: B) p)) = (A ++ B)%list.
Proof.
  intros He HB. unfold Remove, SeekForPrev; simpl.
  rewrite FindLessOrEqual_middle by assumption. simpl.
  apply remove_middle.
Qed.

Lemma key_cursor_after (P rest : list Key) :
  key (cursor_after P rest) = hd_error rest.
Proof.
  unfold key, cursor_after; destruct rest as [|r rest]; simpl; auto.
  apply nth_error_middle.
Qed.

Lemma Remove_cursor_after (P rest : list Key) (r : Key) :
  Remove (cursor_after P (r :: rest)) = cursor_after P rest.
Proof.
  unfold Remove, cursor_after; simpl.
  rewrite remove_middle. f_equal.
  destruct rest as [|r' rest].
  - rewrite app_nil_r. now rewrite Nat.ltb_irrefl.
  - assert (H : (length P <? length (P ++ r' :: rest))%nat = true).
    { apply Nat.ltb_lt. rewrite length_app. simpl. lia. }
    now rewrite H.
Qed.

Lemma Next_SeekForPrev_middle (A B : list Key) (e p : Key) :
  cmp e p <= 0 -> Forall (fun x => 0 < cmp x p) B ->
  Next (SeekForPrev cmp (A ++ e :: B) p) = cursor_after (A ++ [e]) B.
Proof.
  intros He HB. unfold Next, SeekForPrev, cursor_after; simpl.
  rewrite FindLessOrEqual_middle by assumption.
  rewrite <- app_assoc. simpl. f_equal.
  rewrite !length_app. simpl.
  destruct B as [|b B]; simpl.
  - replace (S (length A) <? length A + 1)%nat with false; auto.
    symmetry. apply Nat.ltb_ge. lia.
  - replace (S (length A) <? length A + S (S (length B)))%nat with true.
    + f_equal. lia.
    + symmetry. apply Nat.ltb_lt. lia.
Qed.

End SkipListFacts.
End SkipListFacts.

(** ** The interval map *)

Module IntervalMapFacts.
Import SkipList SkipListSpec SkipListFacts IntervalMap IntervalMapSpec.

Section IntervalMapFacts.
Variable PointKey : Type.
Variable cmp : PointKey -> PointKey -> Z.
Hypothesis cmp_ok : Comparator_ok cmp.

Local Abbreviation PE := (PointEntry PointKey).
Local Abbreviation ecmp := (PointEntryComparator cmp).
Local Abbreviation key_le l := (fun e : PE => cmp (pointKey e) l <= 0).
Local Abbreviation key_lt l := (fun e : PE => cmp (pointKey e) l < 0).
Local Abbreviation key_gt l := (fun e : PE => 0 < cmp (pointKey e) l).
Local Abbreviation key_ge l := (fun e : PE => 0 <= cmp (pointKey e) l).

(** *** Evaluating the three steps of AddInterval on a split list *)

Lemma FixedPrefix_snoc (A : list PE) (e : PE) (l : PointKey) :
  FixedPrefix cmp (A ++ [e]) l =
  (A ++ match marker_of e with
        | Start => [e]
        | Stop => if cmp l (pointKey e) =? 0 then [] else [e; entry l Start]
        end)%list.
Proof.
  induction A as [|a A IH]; simpl; auto.
  rewrite IH. destruct (A ++ [e])%list eqn:E; auto.
  destruct A; discriminate.
Qed.

Lemma FixIntervalFrom_eval (A B : list PE) (l : PointKey) :
  Forall (key_le l) A -> Forall (key_gt l) B ->
  FixIntervalFrom cmp (A ++ B) l = (FixedPrefix cmp A l ++ B)%list.
Proof.
  intros HA HB. unfold FixIntervalFrom.
  destruct (list_snoc_cases A) as [->|(A' & e & ->)].
  - simpl. rewrite (key_SeekForPrev_none _ ecmp B) by exact HB.
    apply (Insert_middle _ ecmp [] B).
    + constructor.
    + apply Forall_head_sat. exact HB.
  - apply Forall_app in HA. destruct HA as [HA' He].
    inversion He as [|? ? Hel _]; subst.
    rewrite FixedPrefix_snoc.
    assert (Hsplit : ((A' ++ [e]) ++ B = A' ++ e :: B)%list)
      by (now rewrite <- app_assoc).
    rewrite Hsplit.
    rewrite (key_SeekForPrev_middle _ ecmp A' B e) by assumption.
    unfold marker_of. destruct (marker (pointData e)).
    + now rewrite Hsplit.
    + unfold PointEntryComparator at 1. simpl.
      destruct (cmp l (pointKey e) =? 0).
      * rewrite (Remove_SeekForPrev_middle _ ecmp A' B e) by assumption.
        now rewrite app_nil_r.
      * rewrite <- Hsplit.
        rewrite (Insert_middle _ ecmp (A' ++ [e]) B).
        -- now rewrite <- !app_assoc.
        -- apply Forall_app; split; auto.
        -- apply Forall_head_sat. exact HB.
Qed.

Lemma FixIntervalTo_eval (X E : list PE) (h : PointKey) :
  Forall (key_lt h) X -> Forall (key_ge h) E ->
  FixIntervalTo cmp (X ++ E) h = (X ++ FixedSuffix cmp E h)%list.
Proof.
  intros HX HE. unfold FixIntervalTo.
  assert (HXle : Forall (key_le h) X).
  { eapply Forall_impl; [|exact HX]. simpl. intros; lia. }
  destruct E as [|e E'].
  - simpl. rewrite app_nil_r.
    rewrite (key_Seek_none _ ecmp X) by exact HX.
    rewrite <- (app_nil_r X) at 1.
    apply (Insert_middle _ ecmp X []); simpl; auto.
  - inversion HE as [|? ? He HE']; subst.
    rewrite (key_Seek_middle _ ecmp X E' e) by assumption.
    unfold FixedSuffix, marker_of. destruct (marker (pointData e)); auto.
    unfold PointEntryComparator at 1. simpl.
    destruct (Z.eqb_spec (cmp h (pointKey e)) 0) as [Heq|Hne].
    + now rewrite (Remove_Seek_middle _ ecmp X E' e) by assumption.
    + apply (Insert_middle _ ecmp X (e :: E')); simpl; auto.
      unfold PointEntryComparator; simpl.
      assert (cmp (pointKey e) h <> 0)
        by (intro Hc; apply Hne; now apply (cmp_eq_sym _ cmp cmp_ok)).
      lia.
Qed.

Lemma ClearRange_eval (C : list PE) :
  forall (fuel : nat) (P Q : list PE) (h : PointKey),
    (length C <= fuel)%nat ->
    Forall (key_lt h) C ->
    head_sat (key_ge h) Q ->
    list_ (ClearRange cmp fuel (entry h Stop) (cursor_after P (C ++ Q)))
    = (P ++ Q)%list.
Proof.
  induction C as [|c C IH]; intros fuel P Q h Hfuel HC HQ.
  - simpl. destruct fuel as [|fuel]; simpl; auto.
    rewrite key_cursor_after.
    destruct Q as [|q Q]; simpl; auto.
    unfold PointEntryComparator; simpl. simpl in HQ.
    apply (cmp_le_ge _ cmp cmp_ok) in HQ.
    destruct (Z.leb_spec (cmp h (pointKey q)) 0); auto; lia.
  - destruct fuel as [|fuel]; simpl in Hfuel; [lia|].
    inversion HC as [|? ? Hc HC']; subst.
    cbn [ClearRange]. rewrite key_cursor_after. cbn [app hd_error].
    unfold PointEntryComparator at 1; simpl.
    apply (cmp_lt_gt _ cmp cmp_ok) in Hc.
    destruct (Z.leb_spec (cmp h (pointKey c)) 0); [lia|].
    change (c :: C ++ Q)%list with (c :: (C ++ Q))%list.
    rewrite Remove_cursor_after. apply IH; auto. lia.
Qed.

(** *** Alternation, sortedness and counting on appended lists *)

Lemma even_S (n : nat) : Nat.even (S n) = negb (Nat.even n).
Proof. rewrite Nat.even_succ. now rewrite <- Nat.negb_even. Qed.

Lemma even_length_snoc (X : list PE) (e : PE) :
  Nat.even (length (X ++ [e])) = negb (Nat.even (length X)).
Proof.
  rewrite length_app, Nat.add_comm. cbn [length Nat.add]. apply even_S.
Qed.

Lemma alt_app (X Y : list PE) : forall s,
  alt s (X ++ Y) <-> alt s X /\ alt (marker_after s (length X)) Y.
Proof.
  induction X as [|x X IH]; intros s; simpl.
  - unfold marker_after; simpl. tauto.
  - rewrite IH. unfold marker_after. rewrite even_S.
    destruct (Nat.even (length X)), s; simpl; tauto.
Qed.

Lemma sorted_app (X Y : list PE) :
  sorted cmp (X ++ Y) <->
  sorted cmp X /\ sorted cmp Y /\
  Forall (fun x => Forall (fun y => cmp (pointKey x) (pointKey y) < 0) Y) X.
Proof.
  induction X as [|x X IH]; simpl.
  - intuition.
  - rewrite IH, Forall_app. split.
    + intros [[H1 H2] (H3 & H4 & H5)]. repeat split; auto.
    + intros ((H1 & H2) & H3 & H4). inversion H4; subst. repeat split; auto.
Qed.

Lemma count_le_app (X Y : list PE) (k : PointKey) :
  count_le cmp (X ++ Y) k = (count_le cmp X k + count_le cmp Y k)%nat.
Proof. unfold count_le. now rewrite filter_app, length_app. Qed.

Lemma count_le_all (X : list PE) (k : PointKey) :
  Forall (key_le k) X -> count_le cmp X k = length X.
Proof.
  unfold count_le. induction 1 as [|x X Hx HX IH]; simpl; auto.
  destruct (Z.leb_spec (cmp (pointKey x) k) 0); simpl; [now rewrite IH | lia].
Qed.

Lemma count_le_none (X : list PE) (k : PointKey) :
  Forall (key_gt k) X -> count_le cmp X k = 0%nat.
Proof.
  unfold count_le. induction 1 as [|x X Hx HX IH]; simpl; auto.
  destruct (Z.leb_spec (cmp (pointKey x) k) 0); simpl; [lia | exact IH].
Qed.

(** *** Splitting a sorted list at a key *)

Lemma split_le (m : list PE) (p : PointKey) :
  sorted cmp m ->
  exists A B, m = (A ++ B)%list /\ Forall (key_le p) A /\ Forall (key_gt p) B.
Proof.
  induction m as [|x m IH]; intros Hs.
  - exists [], []. repeat split; constructor.
  - destruct Hs as [Hx Hs].
    destruct (Z.leb_spec (cmp (pointKey x) p) 0) as [Hle|Hgt].
    + destruct (IH Hs) as (A & B & -> & HA & HB).
      exists (x :: A), B. repeat split; auto.
    + exists [], (x :: m). repeat split; auto. constructor; auto.
      eapply Forall_impl; [|exact Hx]. simpl. intros y Hy.
      apply (cmp_lt_gt _ cmp cmp_ok).
      apply (cmp_lt_trans _ cmp cmp_ok) with (pointKey x); auto.
      now apply (cmp_lt_gt _ cmp cmp_ok).
Qed.

Lemma split_lt (m : list PE) (p : PointKey) :
  sorted cmp m ->
  exists X Y, m = (X ++ Y)%list /\ Forall (key_lt p) X /\ Forall (key_ge p) Y.
Proof.
  induction m as [|x m IH]; intros Hs.
  - exists [], []. repeat split; constructor.
  - destruct Hs as [Hx Hs].
    destruct (Z.ltb_spec (cmp (pointKey x) p) 0) as [Hlt|Hge].
    + destruct (IH Hs) as (X & Y & -> & HX & HY).
      exists (x :: X), Y. repeat split; auto.
    + exists [], (x :: m). repeat split; auto. constructor; auto.
      eapply Forall_impl; [|exact Hx]. simpl. intros y Hy.
      apply (cmp_le_ge _ cmp cmp_ok).
      apply (cmp_le_trans _ cmp cmp_ok) with (pointKey x); [|lia].
      now apply (cmp_le_ge _ cmp cmp_ok).
Qed.

Lemma split3 (m : list PE) (l h : PointKey) :
  sorted cmp m ->
  exists A C E, m = (A ++ C ++ E)%list /\
    Forall (key_le l) A /\ Forall (key_gt l) C /\ Forall (key_lt h) C /\
    Forall (key_ge h) E.
Proof.
  intros Hs. destruct (split_le m l Hs) as (A & B & -> & HA & HB).
  apply sorted_app in Hs. destruct Hs as (_ & HsB & _).
  destruct (split_lt B h HsB) as (C & E & -> & HC & HE).
  apply Forall_app in HB. destruct HB as [HCl HEl].
  exists A, C, E. repeat split; auto.
Qed.

(** *** The prefix left by FixIntervalFrom *)

Lemma FixedPrefix_le (A : list PE) (l : PointKey) :
  Forall (key_le l) A -> Forall (key_le l) (FixedPrefix cmp A l).
Proof.
  assert (Hl : cmp l l <= 0) by (rewrite (cmp_refl _ cmp cmp_ok); lia).
  intros HA. destruct (list_snoc_cases A) as [->|(A' & e & ->)].
  - simpl. repeat constructor. exact Hl.
  - rewrite FixedPrefix_snoc. apply Forall_app in HA. destruct HA as [HA' He].
    inversion He; subst.
    apply Forall_app; split; auto.
    destruct (marker_of e); auto.
    destruct (cmp l (pointKey e) =? 0); repeat constructor; auto.
Qed.

Lemma alt_snoc_Stop (A : list PE) (e : PE) :
  alt Start (A ++ [e]) -> marker_of e = Stop ->
  Nat.even (length A) = false.
Proof.
  intros H He. apply alt_app in H. destruct H as [_ H].
  simpl in H. destruct H as [H _]. unfold marker_after in H.
  destruct (Nat.even (length A)); auto. congruence.
Qed.

Lemma alt_snoc_Start (A : list PE) (e : PE) :
  alt Start (A ++ [e]) -> marker_of e = Start ->
  Nat.even (length A) = true.
Proof.
  intros H He. apply alt_app in H. destruct H as [_ H].
  simpl in H. destruct H as [H _]. unfold marker_after in H.
  destruct (Nat.even (length A)); auto. simpl in H. congruence.
Qed.

Lemma FixedPrefix_alt (A : list PE) (l : PointKey) :
  alt Start A ->
  alt Start (FixedPrefix cmp A l) /\
  Nat.even (length (FixedPrefix cmp A l)) = false.
Proof.
  intros HA. destruct (list_snoc_cases A) as [->|(A' & e & ->)].
  - simpl. auto.
  - rewrite FixedPrefix_snoc.
    pose proof HA as HA0. apply alt_app in HA. destruct HA as [HA' He].
    destruct (marker_of e) eqn:Em.
    + pose proof (alt_snoc_Start _ _ HA0 Em) as Hev.
      split; [exact HA0|]. now rewrite even_length_snoc, Hev.
    + pose proof (alt_snoc_Stop _ _ HA0 Em) as Hev.
      destruct (cmp l (pointKey e) =? 0).
      * rewrite app_nil_r. auto.
      * split.
        -- apply alt_app. split; auto. unfold marker_after. rewrite Hev.
           simpl. auto.
        -- change [e; entry l Start] with ([e] ++ [entry l Start])%list.
           rewrite app_assoc. now rewrite !even_length_snoc, Hev.
Qed.

Lemma FixedPrefix_nonempty (A : list PE) (l : PointKey) :
  alt Start A -> exists P' e, FixedPrefix cmp A l = (P' ++ [e])%list.
Proof.
  intros HA. destruct (FixedPrefix_alt A l HA) as [_ Hev].
  destruct (list_snoc_cases (FixedPrefix cmp A l)) as [E|(P' & e & E)].
  - rewrite E in Hev. discriminate.
  - eauto.
Qed.

Lemma FixedPrefix_last_Start (A P' : list PE) (e : PE) (l : PointKey) :
  alt Start A -> FixedPrefix cmp A l = (P' ++ [e])%list -> marker_of e = Start.
Proof.
  intros HA E. destruct (FixedPrefix_alt A l HA) as [Halt Hev].
  rewrite E in Halt, Hev. apply alt_app in Halt. destruct Halt as [_ [H _]].
  rewrite even_length_snoc in Hev. unfold marker_after in H.
  destruct (Nat.even (length P')); [auto | discriminate].
Qed.

Lemma sorted_snoc (A : list PE) (e : PE) :
  sorted cmp A -> Forall (fun a => cmp (pointKey a) (pointKey e) < 0) A ->
  sorted cmp (A ++ [e]).
Proof.
  intros HA H. apply sorted_app. repeat split; auto.
  eapply Forall_impl; [|exact H]. simpl. auto.
Qed.

Lemma FixedPrefix_sorted (A : list PE) (l : PointKey) :
  sorted cmp A -> Forall (key_le l) A -> sorted cmp (FixedPrefix cmp A l).
Proof.
  intros Hs HA. destruct (list_snoc_cases A) as [->|(A' & e & ->)].
  - simpl. auto.
  - rewrite FixedPrefix_snoc.
    pose proof Hs as Hs0. apply sorted_app in Hs. destruct Hs as (HsA' & _ & Hc).
    apply Forall_app in HA. destruct HA as [_ He]. inversion He as [|? ? Hel _]; subst.
    destruct (marker_of e); auto.
    destruct (Z.eqb_spec (cmp l (pointKey e)) 0) as [Heq|Hne].
    + now rewrite app_nil_r.
    + change [e; entry l Start] with ([e] ++ [entry l Start])%list.
      rewrite app_assoc. apply sorted_snoc; auto.
      assert (Hlt : cmp (pointKey e) l < 0).
      { assert (cmp (pointKey e) l <> 0)
          by (intro Hc'; apply Hne; now apply (cmp_eq_sym _ cmp cmp_ok)).
        lia. }
      apply Forall_app. split.
      * eapply Forall_impl; [|exact Hc]. simpl. intros a Ha.
        inversion Ha; subst.
        apply (cmp_lt_trans _ cmp cmp_ok) with (pointKey e); auto.
      * repeat constructor. exact Hlt.
Qed.

Lemma FixedPrefix_count (A : list PE) (l k : PointKey) :
  cmp k l < 0 ->
  count_le cmp (FixedPrefix cmp A l) k = count_le cmp A k.
Proof.
  intros Hk.
  assert (Hl : (cmp l k <=? 0) = false).
  { apply Z.leb_gt. now apply (cmp_lt_gt _ cmp cmp_ok). }
  destruct (list_snoc_cases A) as [->|(A' & e & ->)].
  - unfold count_le; simpl. now rewrite Hl.
  - rewrite FixedPrefix_snoc, !count_le_app. f_equal.
    destruct (marker_of e); auto.
    destruct (Z.eqb_spec (cmp l (pointKey e)) 0) as [Heq|Hne];
      unfold count_le; simpl.
    + assert (He : (cmp (pointKey e) k <=? 0) = false).
      { apply Z.leb_gt. apply (cmp_lt_gt _ cmp cmp_ok).
        apply (cmp_lt_eq_trans _ cmp cmp_ok) with l; auto. }
      now rewrite He.
    + rewrite Hl. now destruct (cmp (pointKey e) k <=? 0).
Qed.

(** *** The suffix left by FixIntervalTo *)

Lemma FixedSuffix_ge (E : list PE) (h : PointKey) :
  Forall (key_ge h) E -> Forall (key_ge h) (FixedSuffix cmp E h).
Proof.
  assert (Hh : 0 <= cmp h h) by (rewrite (cmp_refl _ cmp cmp_ok); lia).
  intros HE. destruct E as [|e E']; simpl.
  - repeat constructor. exact Hh.
  - inversion HE; subst. destruct (marker_of e); auto.
    destruct (cmp h (pointKey e) =? 0); auto.
Qed.

Lemma FixedSuffix_alt (E : list PE) (h : PointKey) (s : Marker) :
  alt s E ->
  Nat.even (length E) = match s with Start => true | Stop => false end ->
  alt Stop (FixedSuffix cmp E h) /\
  Nat.even (length (FixedSuffix cmp E h)) = false.
Proof.
  intros HE Hev. destruct E as [|e E']; cbn [FixedSuffix].
  - simpl. auto.
  - destruct HE as [He HE']. rewrite He.
    change (length (e :: E')) with (S (length E')) in Hev.
    rewrite even_S in Hev.
    destruct s; cbn [flip] in HE'.
    + destruct (cmp h (pointKey e) =? 0).
      * split; auto. destruct (Nat.even (length E')); [discriminate | auto].
      * split; [simpl; auto|].
        change (length (entry h Stop :: e :: E')) with (S (S (length E'))).
        rewrite !even_S. destruct (Nat.even (length E')); [discriminate | auto].
    + split; [simpl; auto|].
      change (length (e :: E')) with (S (length E')).
      rewrite even_S. exact Hev.
Qed.

Lemma FixedSuffix_sorted (E : list PE) (h : PointKey) :
  sorted cmp E -> Forall (key_ge h) E -> sorted cmp (FixedSuffix cmp E h).
Proof.
  intros Hs HE. destruct E as [|e E']; simpl; auto.
  destruct Hs as [He Hs]. inversion HE as [|? ? Heh HE']; subst.
  destruct (marker_of e); simpl; auto.
  destruct (Z.eqb_spec (cmp h (pointKey e)) 0) as [Heq|Hne]; simpl; auto.
  assert (Hlt : cmp h (pointKey e) < 0).
  { apply (cmp_le_ge _ cmp cmp_ok) in Heh. lia. }
  repeat split; auto. constructor; auto.
  eapply Forall_impl; [|exact He]. simpl. intros y Hy.
  apply (cmp_lt_trans _ cmp cmp_ok) with (pointKey e); auto.
Qed.

Lemma count_le_cons (e : PE) (E : list PE) (k : PointKey) :
  count_le cmp (e :: E) k =
  if cmp (pointKey e) k <=? 0 then S (count_le cmp E k) else count_le cmp E k.
Proof. unfold count_le; simpl. now destruct (cmp (pointKey e) k <=? 0). Qed.

Lemma FixedSuffix_count (E : list PE) (h k : PointKey) (s : Marker) :
  cmp h k <= 0 ->
  alt s E ->
  Nat.even (length E) = match s with Start => true | Stop => false end ->
  Nat.even (count_le cmp (FixedSuffix cmp E h) k) =
  match s with
  | Start => negb (Nat.even (count_le cmp E k))
  | Stop => Nat.even (count_le cmp E k)
  end.
Proof.
  intros Hk HE Hev.
  assert (Hh : (cmp h k <=? 0) = true) by now apply Z.leb_le.
  destruct E as [|e E']; cbn [FixedSuffix].
  - destruct s; [|discriminate].
    rewrite count_le_cons. cbn [pointKey entry]. now rewrite Hh.
  - destruct HE as [He HE']. rewrite He. destruct s; auto.
    destruct (Z.eqb_spec (cmp h (pointKey e)) 0) as [Heq|Hne].
    + assert (Hek : (cmp (pointKey e) k <=? 0) = true).
      { apply Z.leb_le. apply (cmp_le_trans _ cmp cmp_ok) with h; auto.
        apply (cmp_eq_sym _ cmp cmp_ok) in Heq. lia. }
      rewrite (count_le_cons e E'), Hek, even_S.
      now destruct (Nat.even (count_le cmp E' k)).
    + rewrite (count_le_cons (entry h Stop)). cbn [pointKey entry].
      rewrite Hh. apply even_S.
Qed.

Lemma FixedSuffix_count_even (E : list PE) (h k : PointKey) (s : Marker)
      (n : nat) :
  cmp h k <= 0 ->
  alt s E ->
  Nat.even (length E) = match s with Start => true | Stop => false end ->
  Nat.even (n + count_le cmp (FixedSuffix cmp E h) k) =
  Bool.eqb (Nat.even n)
    (match s with
     | Start => negb (Nat.even (count_le cmp E k))
     | Stop => Nat.even (count_le cmp E k)
     end).
Proof.
  intros Hk HE Hev. rewrite Nat.even_add.
  now rewrite (FixedSuffix_count E h k s Hk HE Hev).
Qed.

(** *** AddInterval on a split list *)

Lemma key_lt_gt_trans (X : list PE) (l h : PointKey) :
  cmp l h < 0 -> Forall (key_ge h) X -> Forall (key_gt l) X.
Proof.
  intros Hlh H. eapply Forall_impl; [|exact H]. simpl. intros x Hx.
  apply (cmp_lt_gt _ cmp cmp_ok).
  apply (cmp_lt_le_trans _ cmp cmp_ok) with h; auto.
  now apply (cmp_le_ge _ cmp cmp_ok).
Qed.

Lemma key_le_lt_trans (X : list PE) (l h : PointKey) :
  cmp l h < 0 -> Forall (key_le l) X -> Forall (key_lt h) X.
Proof.
  intros Hlh H. eapply Forall_impl; [|exact H]. simpl. intros x Hx.
  apply (cmp_le_lt_trans _ cmp cmp_ok) with l; auto.
Qed.

Lemma AddInterval_eval (A C E : list PE) (l h : PointKey) :
  cmp l h < 0 ->
  Forall (key_le l) A -> Forall (key_gt l) C -> Forall (key_lt h) C ->
  Forall (key_ge h) E ->
  FixedPrefix cmp A l <> [] ->
  AddInterval cmp (A ++ C ++ E) l h
  = (FixedPrefix cmp A l ++ FixedSuffix cmp E h)%list.
Proof.
  intros Hlh HA HCl HCh HE Hne. unfold AddInterval.
  pose proof (FixedPrefix_le A l HA) as HP.
  pose proof (FixedSuffix_ge E h HE) as HQ.
  rewrite (FixIntervalFrom_eval A (C ++ E) l HA)
    by (apply Forall_app; split; [exact HCl | now apply key_lt_gt_trans with h]).
  rewrite app_assoc.
  rewrite (FixIntervalTo_eval (FixedPrefix cmp A l ++ C) E h)
    by (try apply Forall_app; try split; auto; now apply key_le_lt_trans with l).
  destruct (list_snoc_cases (FixedPrefix cmp A l)) as [E0|(P' & e & E0)];
    [contradiction|].
  rewrite E0 in *. clear E0 Hne.
  apply Forall_app in HP. destruct HP as [_ He]. inversion He as [|? ? Hel _]; subst.
  set (Q := FixedSuffix cmp E h) in *.
  assert (Hl : (((P' ++ [e]) ++ C) ++ Q = P' ++ e :: (C ++ Q))%list)
    by (now rewrite <- !app_assoc).
  rewrite Hl.
  rewrite (Next_SeekForPrev_middle _ ecmp P' (C ++ Q) e (entry l Start)).
  - apply ClearRange_eval.
    + rewrite !length_app. simpl. rewrite length_app. lia.
    + exact HCh.
    + apply (Forall_head_sat _ (key_ge h)). exact HQ.
  - exact Hel.
  - apply Forall_app; split; [exact HCl | now apply key_lt_gt_trans with h].
Qed.

(** *** The invariant is kept, and membership is the union *)

Lemma Invariant_empty : Invariant cmp (@empty PointKey).
Proof. repeat split; simpl; auto. Qed.

Lemma Invariant_split (A C E : list PE) :
  Invariant cmp (A ++ C ++ E) ->
  sorted cmp A /\ sorted cmp E /\ alt Start A /\
  alt (marker_after Start (length (A ++ C))) E /\
  Nat.even (length E) = Nat.even (length (A ++ C)).
Proof.
  intros (Hs & Ha & Hev).
  rewrite app_assoc in Hs, Ha, Hev.
  apply sorted_app in Hs. destruct Hs as (HsAC & HsE & _).
  apply sorted_app in HsAC. destruct HsAC as (HsA & _ & _).
  apply alt_app in Ha. destruct Ha as (HaAC & HaE).
  apply alt_app in HaAC. destruct HaAC as (HaA & _).
  repeat split; auto.
  rewrite length_app, Nat.even_add in Hev.
  destruct (Nat.even (length (A ++ C))), (Nat.even (length E)); auto; discriminate.
Qed.

Lemma Invariant_glue (P Q : list PE) (l h : PointKey) :
  cmp l h < 0 ->
  sorted cmp P -> Forall (key_le l) P -> alt Start P ->
  Nat.even (length P) = false ->
  sorted cmp Q -> Forall (key_ge h) Q -> alt Stop Q ->
  Nat.even (length Q) = false ->
  Invariant cmp (P ++ Q).
Proof.
  intros Hlh HsP HP HaP HeP HsQ HQ HaQ HeQ. repeat split.
  - apply sorted_app. repeat split; auto.
    eapply Forall_impl; [|exact HP]. simpl. intros x Hx.
    eapply Forall_impl; [|exact HQ]. simpl. intros y Hy.
    apply (cmp_le_lt_trans _ cmp cmp_ok) with l; auto.
    apply (cmp_lt_le_trans _ cmp cmp_ok) with h; auto.
    now apply (cmp_le_ge _ cmp cmp_ok).
  - apply alt_app. split; auto. unfold marker_after. now rewrite HeP.
  - rewrite length_app, Nat.even_add, HeP, HeQ. reflexivity.
Qed.

Lemma AddInterval_split (m : list PE) (l h : PointKey) :
  Invariant cmp m -> cmp l h < 0 ->
  exists A C E,
    m = (A ++ C ++ E)%list /\
    Forall (key_le l) A /\ Forall (key_gt l) C /\ Forall (key_lt h) C /\
    Forall (key_ge h) E /\
    AddInterval cmp m l h = (FixedPrefix cmp A l ++ FixedSuffix cmp E h)%list.
Proof.
  intros Hinv Hlh. pose proof Hinv as (Hs & _ & _).
  destruct (split3 m l h Hs) as (A & C & E & -> & HA & HCl & HCh & HE).
  exists A, C, E. repeat split; auto.
  apply AddInterval_eval; auto.
  destruct (Invariant_split A C E Hinv) as (_ & _ & HaA & _).
  destruct (FixedPrefix_nonempty A l HaA) as (P' & e & ->).
  now destruct P'.
Qed.

Lemma marker_after_even (s : Marker) (E : list PE) (n : nat) :
  Nat.even (length E) = Nat.even n ->
  Nat.even (length E) =
  match marker_after Start n with Start => true | Stop => false end.
Proof.
  intros ->. unfold marker_after. now destruct (Nat.even n).
Qed.

Lemma AddInterval_Invariant (m : list PE) (l h : PointKey) :
  Invariant cmp m -> cmp l h < 0 -> Invariant cmp (AddInterval cmp m l h).
Proof.
  intros Hinv Hlh.
  destruct (AddInterval_split m l h Hinv Hlh)
    as (A & C & E & -> & HA & HCl & HCh & HE & ->).
  destruct (Invariant_split A C E Hinv) as (HsA & HsE & HaA & HaE & Hev).
  destruct (FixedPrefix_alt A l HaA) as [HaP HeP].
  destruct (FixedSuffix_alt E h _ HaE (marker_after_even Start E _ Hev))
    as [HaQ HeQ].
  apply (Invariant_glue _ _ l h); auto.
  - now apply FixedPrefix_sorted.
  - now apply FixedPrefix_le.
  - now apply FixedSuffix_sorted.
  - now apply FixedSuffix_ge.
Qed.

Lemma IsInInterval_parity (m : list PE) (k : PointKey) :
  Invariant cmp m ->
  IsInInterval cmp m k = negb (Nat.even (count_le cmp m k)).
Proof.
  intros (Hs & Ha & Hev).
  destruct (split_lt m k Hs) as (X & Y & -> & HX & HY).
  assert (HXle : Forall (key_le k) X).
  { eapply Forall_impl; [|exact HX]. simpl; intros; lia. }
  unfold IsInInterval. rewrite count_le_app, (count_le_all X k HXle).
  destruct Y as [|e Y'].
  - rewrite app_nil_r in *.
    rewrite (key_Seek_none _ ecmp X) by exact HX.
    unfold count_le; simpl. now rewrite Nat.add_0_r, Hev.
  - inversion HY as [|? ? He HY']; subst.
    rewrite (key_Seek_middle _ ecmp X Y' e) by assumption.
    apply alt_app in Ha. destruct Ha as [_ [Hm _]].
    apply sorted_app in Hs. destruct Hs as (_ & [HeY _] & _).
    assert (HY0 : count_le cmp Y' k = 0%nat).
    { apply count_le_none. eapply Forall_impl; [|exact HeY]. simpl.
      intros y Hy. apply (cmp_lt_gt _ cmp cmp_ok).
      apply (cmp_le_lt_trans _ cmp cmp_ok) with (pointKey e); auto.
      now apply (cmp_le_ge _ cmp cmp_ok). }
    rewrite count_le_cons, HY0.
    unfold PointEntryComparator at 1. cbn [pointKey entry].
    unfold marker_of in Hm. rewrite Hm. unfold marker_after.
    destruct (Z.ltb_spec (cmp k (pointKey e)) 0) as [Hlt|Hge].
    + apply (cmp_lt_gt _ cmp cmp_ok) in Hlt.
      destruct (Z.leb_spec (cmp (pointKey e) k) 0); [lia|].
      rewrite Nat.add_0_r. now destruct (Nat.even (length X)).
    + assert (cmp (pointKey e) k <= 0) by now apply (cmp_le_ge _ cmp cmp_ok).
      destruct (Z.leb_spec (cmp (pointKey e) k) 0); [|lia].
      rewrite Nat.add_1_r, even_S. now destruct (Nat.even (length X)).
Qed.

Lemma AddInterval_IsInInterval (m : list PE) (l h k : PointKey) :
  Invariant cmp m -> cmp l h < 0 ->
  IsInInterval cmp (AddInterval cmp m l h) k =
  IsInInterval cmp m k || ((cmp l k <=? 0) && (cmp k h <? 0)).
Proof.
  intros Hinv Hlh.
  rewrite (IsInInterval_parity _ k (AddInterval_Invariant m l h Hinv Hlh)).
  rewrite (IsInInterval_parity m k Hinv).
  destruct (AddInterval_split m l h Hinv Hlh)
    as (A & C & E & -> & HA & HCl & HCh & HE & ->).
  destruct (Invariant_split A C E Hinv) as (HsA & HsE & HaA & HaE & Hev).
  destruct (FixedPrefix_alt A l HaA) as [HaP HeP].
  pose proof (FixedPrefix_le A l HA) as HP.
  pose proof (FixedSuffix_ge E h HE) as HQ.
  rewrite !count_le_app.
  destruct (Z.leb_spec (cmp l k) 0) as [Hlk|Hkl].
  - (* l <= k *)
    assert (HPk : Forall (key_le k) (FixedPrefix cmp A l)).
    { eapply Forall_impl; [|exact HP]. simpl. intros x Hx.
      apply (cmp_le_trans _ cmp cmp_ok) with l; auto. }
    rewrite (count_le_all _ k HPk).
    destruct (Z.ltb_spec (cmp k h) 0) as [Hkh|Hhk].
    + (* k < h *)
      rewrite (count_le_none (FixedSuffix cmp E h) k)
        by (now apply key_lt_gt_trans with h).
      rewrite Nat.add_0_r, HeP. now rewrite orb_true_r.
    + (* h <= k *)
      assert (Hhk' : cmp h k <= 0) by now apply (cmp_le_ge _ cmp cmp_ok).
      rewrite (FixedSuffix_count_even E h k _ _ Hhk' HaE
                 (marker_after_even Start E _ Hev)).
      assert (HAk : Forall (key_le k) (A ++ C)).
      { apply Forall_app; split.
        - eapply Forall_impl; [|exact HA]. simpl. intros x Hx.
          apply (cmp_le_trans _ cmp cmp_ok) with l; auto.
        - eapply Forall_impl; [|exact HCh]. simpl. intros x Hx.
          apply (cmp_le_trans _ cmp cmp_ok) with h; auto. lia. }
      rewrite Nat.add_assoc, <- (count_le_app A C), (count_le_all _ k HAk).
      rewrite Nat.even_add, HeP. unfold marker_after.
      destruct (Nat.even (length (A ++ C))), (Nat.even (count_le cmp E k));
        reflexivity.
  - (* k < l *)
    apply (cmp_lt_gt _ cmp cmp_ok) in Hkl.
    rewrite (FixedPrefix_count A l k Hkl).
    assert (Hkh : cmp k h < 0) by (apply (cmp_lt_trans _ cmp cmp_ok) with l; auto).
    rewrite (count_le_none (FixedSuffix cmp E h) k)
      by (now apply key_lt_gt_trans with h).
    rewrite (count_le_none C k).
    2:{ eapply Forall_impl; [|exact HCl]. simpl. intros x Hx.
        apply (cmp_lt_gt _ cmp cmp_ok).
        apply (cmp_lt_trans _ cmp cmp_ok) with l; auto.
        now apply (cmp_lt_gt _ cmp cmp_ok). }
    rewrite (count_le_none E k) by (now apply key_lt_gt_trans with h).
    simpl. rewrite !Nat.add_0_r. now rewrite orb_false_r.
Qed.

Lemma AddIntervals_Invariant (R : list (PointKey * PointKey)) :
  forall m, Invariant cmp m -> Proper cmp R ->
            Invariant cmp (AddIntervals cmp m R).
Proof.
  induction R as [|[l h] R IH]; intros m Hinv HR; simpl; auto.
  inversion HR as [|? ? Hlh HR']; subst.
  apply IH; auto. now apply AddInterval_Invariant.
Qed.

Lemma IsInInterval_AddIntervals_from (R : list (PointKey * PointKey)) :
  forall m k, Invariant cmp m -> Proper cmp R ->
    (IsInInterval cmp (AddIntervals cmp m R) k = true <->
     IsInInterval cmp m k = true \/ InUnion cmp R k).
Proof.
  induction R as [|[l h] R IH]; intros m k Hinv HR; simpl.
  - split; auto. intros [H|(l & h & [] & _)]; auto.
  - inversion HR as [|? ? Hlh HR']; subst. simpl in Hlh.
    rewrite (IH _ k (AddInterval_Invariant m l h Hinv Hlh) HR').
    rewrite (AddInterval_IsInInterval m l h k Hinv Hlh).
    rewrite orb_true_iff, andb_true_iff, Z.leb_le, Z.ltb_lt.
    unfold InUnion. split.
    + intros [[H|[H1 H2]]|(l' & h' & Hin & H1 & H2)]; auto.
      * right. exists l, h. simpl; auto.
      * right. exists l', h'. simpl; auto.
    + intros [H|(l' & h' & [Heq|Hin] & H1 & H2)]; auto.
      * inversion Heq; subst. auto.
      * right. exists l', h'. auto.
Qed.

Lemma IsInInterval_empty (k : PointKey) : IsInInterval cmp empty k = false.
Proof. reflexivity. Qed.

(** C1 (amended to intervals with from < to).  For every sequence [R] of
    AddInterval calls on an empty map, each with [from < to], and every key
    [k]: IsInInterval(k) returns true if and only if [k] lies in the union of
    the added half-open intervals, that is, [l <= k < h] for some [(l, h)] of
    [R]. *)
Theorem IsInInterval_AddIntervals (R : list (PointKey * PointKey)) (k : PointKey) :
  Proper cmp R ->
  (IsInInterval cmp (AddIntervals cmp empty R) k = true <-> InUnion cmp R k).
Proof.
  intros HR.
  rewrite (IsInInterval_AddIntervals_from R empty k Invariant_empty HR).
  rewrite IsInInterval_empty. split; auto. intros [H|H]; [discriminate | auto].
Qed.

Lemma Invariant_Alternating_gen (m : list PE) :
  forall s, sorted cmp m -> alt s m -> Alternating cmp m.
Proof.
  induction m as [|x m IH]; intros s Hs Ha i a b Hi Hj.
  - destruct i; discriminate.
  - destruct Hs as [Hx Hs]. destruct Ha as [Hmx Ha].
    destruct i as [|i].
    + simpl in Hi. inversion Hi; subst a.
      destruct m as [|y m]; [discriminate|].
      simpl in Hj. inversion Hj; subst b.
      destruct Ha as [Hmy _]. inversion Hx; subst.
      split; auto. rewrite Hmy. now destruct (marker_of x).
    + simpl in Hi. apply (IH (flip s) Hs Ha i a b Hi Hj).
Qed.

Lemma Invariant_Alternating (m : list PE) :
  Invariant cmp m -> Alternating cmp m.
Proof. intros (Hs & Ha & _). now apply Invariant_Alternating_gen with Start. Qed.

(** C4 (amended to calls with from < to).  After every completed
    AddInterval call of a sequence that starts on the empty map and whose
    calls all have [from < to], the entries of the map alternate strictly:
    adjacent entries [a], [b] have different markers, and if [a] is a Start
    then [a.key < b.key]. *)
Theorem AddIntervals_Alternating (R : list (PointKey * PointKey)) :
  Proper cmp R -> Alternating cmp (AddIntervals cmp empty R).
Proof.
  intros HR. apply Invariant_Alternating.
  apply AddIntervals_Invariant; auto. apply Invariant_empty.
Qed.

Lemma FixedPrefix_fixed (P : list PE) (e : PE) (l : PointKey) :
  marker_of e = Start -> FixedPrefix cmp (P ++ [e]) l = (P ++ [e])%list.
Proof. intros He. rewrite FixedPrefix_snoc. now rewrite He. Qed.

Lemma FixedSuffix_fixed (Q : list PE) (h : PointKey) :
  alt Stop Q -> Nat.even (length Q) = false -> FixedSuffix cmp Q h = Q.
Proof.
  intros Ha Hev. destruct Q as [|q Q]; [discriminate|].
  destruct Ha as [Hq _]. simpl. now rewrite Hq.
Qed.

(** C8 (amended to states that satisfy the representation invariant and to
    intervals with l < h).  For every interval map whose keys strictly
    increase and whose markers alternate Start, Stop, ..., Stop (every map
    built from the empty one by AddInterval calls with from < to is such a
    map) and every interval [l, h) with [l < h], calling AddInterval(l, h)
    twice leaves the same sequence of entries as calling it once. *)
Theorem AddInterval_idempotent (m : list PE) (l h : PointKey) :
  Invariant cmp m -> cmp l h < 0 ->
  AddInterval cmp (AddInterval cmp m l h) l h = AddInterval cmp m l h.
Proof.
  intros Hinv Hlh.
  destruct (AddInterval_split m l h Hinv Hlh)
    as (A & C & E & -> & HA & HCl & HCh & HE & ->).
  destruct (Invariant_split A C E Hinv) as (HsA & HsE & HaA & HaE & Hev).
  destruct (FixedSuffix_alt E h _ HaE (marker_after_even Start E _ Hev))
    as [HaQ HeQ].
  destruct (FixedPrefix_nonempty A l HaA) as (P' & e & EP).
  pose proof (FixedPrefix_last_Start A P' e l HaA EP) as He.
  pose proof (FixedPrefix_le A l HA) as HP.
  pose proof (FixedSuffix_ge E h HE) as HQ.
  set (P := FixedPrefix cmp A l) in *. set (Q := FixedSuffix cmp E h) in *.
  change (P ++ Q)%list with (P ++ [] ++ Q)%list.
  rewrite (AddInterval_eval P [] Q l h); auto.
  - rewrite EP, (FixedPrefix_fixed P' e l He).
    now rewrite (FixedSuffix_fixed Q h HaQ HeQ).
  - rewrite EP, (FixedPrefix_fixed P' e l He). now destruct P'.
Qed.

End IntervalMapFacts.
End IntervalMapFacts.

(** *** The interval map over integer keys: concrete runs *)

Module IntervalMapExamples.
Import IntervalMap IntervalMapSpec IntervalMapFacts.

Example AddInterval_merge :
  AddIntervals Z.sub empty [(1, 3); (2, 4)] = [entry 1 Start; entry 4 Stop].
Proof. reflexivity. Qed.

Example AddInterval_abutting :
  AddIntervals Z.sub empty [(1, 2); (2, 3)] = [entry 1 Start; entry 3 Stop].
Proof. reflexivity. Qed.

Lemma IsInInterval_AddIntervals_witness :
  Proper Z.sub [(1, 3); (2, 4)] /\
  (IsInInterval Z.sub (AddIntervals Z.sub empty [(1, 3); (2, 4)]) 3 = true <->
   InUnion Z.sub [(1, 3); (2, 4)] 3).
Proof.
  split.
  - repeat constructor; simpl; lia.
  - apply (IsInInterval_AddIntervals Z Z.sub Z_sub_Comparator_ok).
    repeat constructor; simpl; lia.
Defined.

(** C1 as stated fails on an interval whose ends are the wrong way round:
    AddInterval(5, 3) on the empty map leaves [Stop 3; Start 5], and key 2,
    which is in no interval, is reported as a member. *)
Lemma IsInInterval_inverted_interval :
  IsInInterval Z.sub (AddIntervals Z.sub empty [(5, 3)]) 2 = true /\
  ~ InUnion Z.sub [(5, 3)] 2.
Proof.
  split; [reflexivity|].
  intros (l & h & [Heq|[]] & Hl & Hh). inversion Heq; subst. lia.
Qed.

Lemma AddIntervals_Alternating_witness :
  Proper Z.sub [(1, 3); (5, 7); (2, 6)] /\
  Alternating Z.sub (AddIntervals Z.sub empty [(1, 3); (5, 7); (2, 6)]).
Proof.
  split.
  - repeat constructor; simpl; lia.
  - apply (AddIntervals_Alternating Z Z.sub Z_sub_Comparator_ok).
    repeat constructor; simpl; lia.
Defined.

(** C4 as stated fails after AddInterval(3, 2) on the map [0, 1): the map
    becomes [Start 0; Stop 1; Stop 2; Start 3], with two adjacent Stops. *)
Lemma Alternating_inverted_interval :
  AddIntervals Z.sub empty [(0, 1); (3, 2)]
  = [entry 0 Start; entry 1 Stop; entry 2 Stop; entry 3 Start] /\
  ~ Alternating Z.sub (AddIntervals Z.sub empty [(0, 1); (3, 2)]).
Proof.
  split; [reflexivity|].
  intros H. destruct (H 1%nat _ _ eq_refl eq_refl) as [Hne _].
  apply Hne. reflexivity.
Qed.

Lemma AddInterval_idempotent_witness :
  Invariant Z.sub [entry 1 Start; entry 3 Stop; entry 5 Start; entry 7 Stop] /\
  2 - 6 < 0 /\
  AddInterval Z.sub
    (AddInterval Z.sub
       [entry 1 Start; entry 3 Stop; entry 5 Start; entry 7 Stop] 2 6) 2 6
  = AddInterval Z.sub
      [entry 1 Start; entry 3 Stop; entry 5 Start; entry 7 Stop] 2 6.
Proof.
  assert (Hinv : Invariant Z.sub
            [entry 1 Start; entry 3 Stop; entry 5 Start; entry 7 Stop]).
  { repeat split; simpl; repeat constructor; simpl; lia. }
  split; [exact Hinv|]. split; [lia|].
  apply (AddInterval_idempotent Z Z.sub Z_sub_Comparator_ok); [exact Hinv | lia].
Defined.

(** C8 as stated fails on the map [0, 2) and the interval (2, 1): the first
    call leaves [Start 0; Stop 1], the second adds a Start at 2. *)
Lemma AddInterval_inverted_not_idempotent :
  let m := AddIntervals Z.sub empty [(0, 2)] in
  AddInterval Z.sub m 2 1 = [entry 0 Start; entry 1 Stop] /\
  AddInterval Z.sub (AddInterval Z.sub m 2 1) 2 1
  = [entry 0 Start; entry 1 Stop; entry 2 Start] /\
  AddInterval Z.sub (AddInterval Z.sub m 2 1) 2 1 <> AddInterval Z.sub m 2 1.
Proof. repeat split; discriminate. Qed.

(** The empty interval [5, 5) on a map that has a Start at 5. *)
Example AddInterval_empty_at_Start_entries :
  AddIntervals Z.sub empty [(1, 3); (5, 7); (5, 5)]
  = [entry 1 Start; entry 3 Stop; entry 7 Stop].
Proof. reflexivity. Qed.

(** C10 (code defect).  On the map built by AddInterval(1, 3) and
    AddInterval(5, 7), the call AddInterval(5, 5) of the empty interval
    [5, 5) changes IsInInterval: key 4 is not a member before the call and
    is one after it (FixIntervalTo removes the Start at 5 that
    FixIntervalFrom relied on). *)
Theorem AddInterval_empty_at_Start_changes_membership :
  let m := AddIntervals Z.sub empty [(1, 3); (5, 7)] in
  IsInInterval Z.sub m 4 = false /\
  IsInInterval Z.sub (AddInterval Z.sub m 5 5) 4 = true.
Proof. split; reflexivity. Qed.

End IntervalMapExamples.

(** ** The index-entry comparator *)

Module WriteBatchEntryComparatorFacts.
Import WriteBatchEntryComparator.

(** C5.  The index-entry comparator orders two entries by (column family,
    key, offset): the entry of the larger column family is larger; within a
    column family an is_min_in_cf probe is smaller than every real entry;
    otherwise the keys decide, compared by the comparator configured for
    the column family, or by the default comparator when none is, the key
    of an entry being its search key when that is set and the bytes of the
    record otherwise; entries with equal keys are ordered by offset. *)
Theorem operator_call_order (kFlagMinInCf : N) (c : t)
        (entry1 entry2 : WriteBatchIndexEntry) :
  let r := operator_call kFlagMinInCf c entry1 entry2 in
  let min1 := is_min_in_cf kFlagMinInCf entry1 in
  let min2 := is_min_in_cf kFlagMinInCf entry2 in
  let decoded e :=
    substring (N.to_nat (key_offset e)) (N.to_nat (key_size e))
      (write_batch_Data c) in
  let key1 := match search_key entry1 with Some k => k | None => decoded entry1 end in
  let key2 := match search_key entry2 with Some k => k | None => decoded entry2 end in
  let cmp := CompareKey c (column_family entry1) key1 key2 in
  ((column_family entry2 < column_family entry1)%N -> r = 1) /\
  ((column_family entry1 < column_family entry2)%N -> r = -1) /\
  (column_family entry1 = column_family entry2 ->
   (min1 = true -> r = -1) /\
   (min1 = false -> min2 = true -> r = 1) /\
   (min1 = false -> min2 = false ->
    (cmp <> 0 -> r = cmp) /\
    (cmp = 0 ->
     ((offset entry2 < offset entry1)%N -> r = 1) /\
     ((offset entry1 < offset entry2)%N -> r = -1) /\
     (offset entry1 = offset entry2 -> r = 0)))) /\
  (forall cf k1 k2,
      (forall f, nth_error (cf_comparators_ c) (N.to_nat cf) = Some (Some f) ->
                 CompareKey c cf k1 k2 = f k1 k2) /\
      (nth_error (cf_comparators_ c) (N.to_nat cf) = Some None ->
       CompareKey c cf k1 k2 = default_comparator_ c k1 k2) /\
      (nth_error (cf_comparators_ c) (N.to_nat cf) = None ->
       CompareKey c cf k1 k2 = default_comparator_ c k1 k2)).
Proof.
  cbv zeta. unfold operator_call, key_of_entry.
  split; [|split; [|split]].
  - intros H. apply N.ltb_lt in H. now rewrite H.
  - intros H.
    assert (E1 : (column_family entry2 <? column_family entry1)%N = false)
      by (apply N.ltb_ge; lia).
    apply N.ltb_lt in H. now rewrite E1, H.
  - intros Hcf.
    assert (E1 : (column_family entry2 <? column_family entry1)%N = false)
      by (apply N.ltb_ge; lia).
    assert (E2 : (column_family entry1 <? column_family entry2)%N = false)
      by (apply N.ltb_ge; lia).
    rewrite E1, E2. split; [|split].
    + intros Hmin. now rewrite Hmin.
    + intros Hmin1 Hmin2. now rewrite Hmin1, Hmin2.
    + intros Hmin1 Hmin2. rewrite Hmin1, Hmin2. split.
      * intros Hne. apply Z.eqb_neq in Hne. now rewrite Hne.
      * intros Heq. rewrite Heq. cbn [Z.eqb negb]. split; [|split].
        -- intros Hoff. apply N.ltb_lt in Hoff. now rewrite Hoff.
        -- intros Hoff.
           assert (E3 : (offset entry2 <? offset entry1)%N = false)
             by (apply N.ltb_ge; lia).
           apply N.ltb_lt in Hoff. now rewrite E3, Hoff.
        -- intros Hoff. now rewrite Hoff, N.ltb_irrefl.
  - intros cf k1 k2. unfold CompareKey. split; [|split].
    + intros f Hf. now rewrite Hf.
    + intros Hf. now rewrite Hf.
    + intros Hf. now rewrite Hf.
Qed.

Local Open Scope string_scope.

(** Two entries of column family 1, whose comparator orders keys by
    length while the default comparator is bytewise. *)
Example operator_call_cf_comparator :
  let by_length : Comparator :=
    fun a b => Z.of_nat (String.length a) - Z.of_nat (String.length b) in
  let c := mkComparator "xxbbbayy" BytewiseComparator [None; Some by_length] in
  let e1 := mkWriteBatchIndexEntry 0 1 2 3 None false in
  let e2 := mkWriteBatchIndexEntry 5 1 5 1 None false in
  let probe := mkWriteBatchIndexEntry 9 1 0 0 (Some "a") false in
  operator_call 255 c e1 e2 = 2 /\
  operator_call 255 c e2 probe = -1 /\
  operator_call 255 (mkComparator "xxbbbayy" BytewiseComparator []) e1 e2 = 1.
Proof. repeat split. Qed.

End WriteBatchEntryComparatorFacts.

(** ** The base+delta iterator: status and concrete runs *)

Module BaseDeltaIteratorExamples.
Import BaseDeltaIterator BaseDeltaIteratorInputs.
Local Open Scope string_scope.

(** C9 (amended to the order of the code).  In every state of the merge
    iterator, status() returns the iterator's own sticky status when that
    is not OK; otherwise the status of the base iterator when that is not
    OK; otherwise the status of the delta iterator. *)
Theorem status_order (it : t) :
  (ok (status_ it) = false -> status it = status_ it) /\
  (ok (status_ it) = true -> ok (Iterator.status (base_iterator_ it)) = false ->
   status it = Iterator.status (base_iterator_ it)) /\
  (ok (status_ it) = true -> ok (Iterator.status (base_iterator_ it)) = true ->
   status it = WBWIIterator.status (delta_iterator_ it)).
Proof.
  unfold status. repeat split; intros H; try intros H'; rewrite H; simpl; auto;
    rewrite H'; reflexivity.
Qed.

(** C9 as stated fails: after SeekToFirst and Next on a merge iterator
    whose base iterator reports a corruption, the base status is not OK,
    yet status() returns the merge iterator's own NotSupported status, not
    the base status. *)
Lemma status_own_before_base :
  let it := Next BytewiseComparator (SeekToFirst BytewiseComparator failed_base) in
  ok (Iterator.status (base_iterator_ it)) = false /\
  Iterator.status (base_iterator_ it) = Corruption "bad block" /\
  status it = NotSupported "Next() on invalid iterator" /\
  status it <> Iterator.status (base_iterator_ it).
Proof. repeat split. discriminate. Qed.

Example scenario7_keys :
  let it1 := SeekToFirst BytewiseComparator scenario7 in
  let it2 := Next BytewiseComparator it1 in
  let it3 := Next BytewiseComparator it2 in
  let it4 := Prev BytewiseComparator it3 in
  [key it1; key it2; key it3; key it4] = ["a"; "b"; "c"; "b"] /\
  forallb Valid [it1; it2; it3; it4] = true.
Proof. split; reflexivity. Qed.

(** C7 (code defect).  With an upper bound, the merge iterator can be Valid
    on a delta tombstone: on [bounded_tombstone], SeekToFirst presents the
    Put of "a"; Next moves the delta cursor to the Delete of "c", which is
    not below the bound, and UpdateCurrent returns ("out of upper bound ->
    finished") without changing [current_at_base_]; the iterator stays
    Valid, on the delta side, at a Delete record. *)
Theorem Valid_on_delta_tombstone :
  let it1 := SeekToFirst BytewiseComparator bounded_tombstone in
  let it2 := Next BytewiseComparator it1 in
  (Valid it1 = true /\ key it1 = "a") /\
  Valid it2 = true /\
  current_at_base_ it2 = false /\
  type (WBWIIterator.Entry (delta_iterator_ it2)) = kDeleteRecord /\
  key it2 = "c".
Proof. repeat split. Qed.

End BaseDeltaIteratorExamples.

(** ** Facts about cursors *)

Module CursorFacts.
Import Cursor.
Section CursorFacts.
Variable A : Type.

Lemma find_first_none (P : A -> bool) (l : list A) :
  Forall (fun x => P x = false) l -> find_first P l = None.
Proof.
  induction 1 as [|x l Hx Hl IH]; simpl; auto. now rewrite Hx, IH.
Qed.

Lemma find_first_middle (P : A -> bool) (l r : list A) (e : A) :
  Forall (fun x => P x = false) l -> P e = true ->
  find_first P (l ++ e :: r) = Some (length l).
Proof.
  intros Hl He. induction Hl as [|x l Hx Hl IH]; simpl.
  - now rewrite He.
  - now rewrite Hx, IH.
Qed.

Lemma find_last_none (P : A -> bool) (l : list A) :
  Forall (fun x => P x = false) l -> find_last P l = None.
Proof.
  induction 1 as [|x l Hx Hl IH]; simpl; auto. now rewrite IH, Hx.
Qed.

Lemma find_last_middle (P : A -> bool) (l r : list A) (e : A) :
  P e = true -> Forall (fun x => P x = false) r ->
  find_last P (l ++ e :: r) = Some (length l).
Proof.
  intros He Hr. induction l as [|x l IH]; simpl.
  - now rewrite (find_last_none P r Hr), He.
  - now rewrite IH.
Qed.

Lemma nth_error_at_length (l r : list A) (e : A) :
  nth_error (l ++ e :: r) (length l) = Some e.
Proof. induction l; simpl; auto. Qed.

Lemma current_middle (l r : list A) (e : A) (s : Status) :
  current (mk (l ++ e :: r) (Some (length l)) s) = Some e.
Proof. unfold current; simpl. apply nth_error_at_length. Qed.

End CursorFacts.
End CursorFacts.

(** ** The point-read resolver *)

Module GetFromBatchFacts.
Import WriteBatchEntryComparator WriteBatchWithIndexInternal GetFromBatchSpec.

Section GetFromBatchFacts.
Variable kFlagMinInCf : N.
Variable column_family_ : option ColumnFamilyHandle.
Variable batch : WriteBatchWithIndex.
Variable key : Slice.

Local Abbreviation cf_id := (GetColumnFamilyID column_family_).
Local Abbreviation comparator_ := (index_comparator batch).
Local Abbreviation cmp := (CompareKey (index_comparator batch)
                             (GetColumnFamilyID column_family_)).
Local Abbreviation cursor l p := (@Cursor.mk WriteEntry l p OK).

Lemma Next_at_index (l : list WriteEntry) (n : nat) :
  (n < length l)%nat ->
  WBWIIterator.Next (at_index l n) = at_index l (S n).
Proof.
  intros Hn. unfold at_index, WBWIIterator.Next, Cursor.Next, Cursor.set_pos.
  simpl. apply Nat.ltb_lt in Hn. now rewrite Hn.
Qed.

Lemma Valid_at_index (l : list WriteEntry) (n : nat) :
  WBWIIterator.Valid (at_index l n) = (n <? length l)%nat.
Proof.
  unfold at_index, WBWIIterator.Valid, Cursor.Valid, Cursor.current. simpl.
  destruct (Nat.ltb_spec n (length l)) as [Hlt|Hge]; auto.
  destruct (nth_error l n) eqn:E; auto.
  apply nth_error_None in E. lia.
Qed.

Lemma Entry_at_index (l r : list WriteEntry) (e : WriteEntry) :
  WBWIIterator.Entry (at_index (l ++ e :: r) (length l)) = e.
Proof.
  unfold at_index, WBWIIterator.Entry, Cursor.current. simpl.
  assert (H : (length l <? length (l ++ e :: r))%nat = true).
  { apply Nat.ltb_lt. rewrite length_app. simpl. lia. }
  rewrite H. now rewrite CursorFacts.nth_error_at_length.
Qed.

Lemma MatchesKey_at_index (l r : list WriteEntry) (e : WriteEntry) :
  MatchesKey comparator_ (at_index (l ++ e :: r) (length l)) cf_id key
  = (cmp key (entry_key e) =? 0).
Proof.
  unfold MatchesKey. rewrite Valid_at_index, Entry_at_index.
  assert (H : (length l <? length (l ++ e :: r))%nat = true).
  { apply Nat.ltb_lt. rewrite length_app. simpl. lia. }
  now rewrite H.
Qed.

Lemma SkipMatching_run (M : list WriteEntry) :
  forall (fuel : nat) (pre rest : list WriteEntry),
    (length M < fuel)%nat ->
    Forall (fun x => cmp key (entry_key x) = 0) M ->
    SkipListSpec.head_sat (fun x => cmp key (entry_key x) <> 0) rest ->
    SkipMatching fuel comparator_ cf_id key
      (at_index (pre ++ M ++ rest) (length pre))
    = at_index (pre ++ M ++ rest) (length pre + length M).
Proof.
  induction M as [|m M IH]; intros fuel pre rest Hfuel HM Hrest.
  - simpl. rewrite Nat.add_0_r. destruct fuel as [|fuel]; [reflexivity|].
    simpl. destruct rest as [|r rest].
    + rewrite Valid_at_index, app_nil_r, Nat.ltb_irrefl. reflexivity.
    + rewrite MatchesKey_at_index. simpl in Hrest.
      apply Z.eqb_neq in Hrest. rewrite Hrest. now rewrite andb_false_r.
  - destruct fuel as [|fuel]; [simpl in Hfuel; lia|].
    inversion HM as [|? ? Hm HM']; subst.
    cbn [SkipMatching]. cbn [app].
    rewrite MatchesKey_at_index, Valid_at_index.
    assert (H : (length pre <? length (pre ++ m :: M ++ rest))%nat = true).
    { apply Nat.ltb_lt. rewrite length_app. simpl. lia. }
    rewrite H. apply Z.eqb_eq in Hm. rewrite Hm. cbn [andb].
    rewrite Next_at_index by (now apply Nat.ltb_lt).
    replace (pre ++ m :: M ++ rest)%list with ((pre ++ [m]) ++ M ++ rest)%list
      by (now rewrite <- app_assoc).
    replace (S (length pre)) with (length (pre ++ [m]))
      by (rewrite length_app; simpl; lia).
    rewrite IH; auto.
    + f_equal. rewrite length_app. simpl. lia.
    + simpl in Hfuel. lia.
Qed.

Variable deleted_ranges_comparator : WriteBatchEntryComparator.t.
Variable deleted_ranges : DeletedRangeMap.t.

(** *** The backward walk *)

Lemma Walk_status (fuel : nat) : forall overwrite_key iter w,
  w_s w = OK ->
  let w' := Walk fuel comparator_ cf_id key overwrite_key iter w in
  w_s w' = OK \/ w_result w' = kError.
Proof.
  induction fuel as [|fuel IH]; intros overwrite_key iter w Hw; simpl; auto.
  destruct (WBWIIterator.Valid iter); simpl; auto.
  destruct (MatchesKey comparator_ iter cf_id key); simpl; auto.
  set (w1 := FoldEntry (WBWIIterator.Entry iter) w).
  assert (Hw1 : w_s w1 = OK \/ w_result w1 = kError).
  { unfold w1, FoldEntry.
    destruct (type (WBWIIterator.Entry iter));
      try destruct (is_in_deleted_range (WBWIIterator.Entry iter));
      simpl; auto. }
  destruct (Result_eqb (w_result w1) kFound || Result_eqb (w_result w1) kDeleted
            || Result_eqb (w_result w1) kError) eqn:Hstop; auto.
  destruct (Result_eqb (w_result w1) kMergeInProgress && overwrite_key); auto.
  apply IH. destruct Hw1 as [Hw1|Hw1]; auto.
  rewrite Hw1 in Hstop. discriminate.
Qed.

Lemma GetFromBatch_walk_status (merge_context : list Slice) (overwrite_key : bool) :
  let w := GetFromBatch_walk column_family_ batch key merge_context overwrite_key in
  w_s w = OK \/ w_result w = kError.
Proof. unfold GetFromBatch_walk. apply Walk_status. simpl. auto. Qed.

(** C6.  When the backward walk of GetFromBatch ends in state kNotFound
    (no batch entry was found for the key), GetFromBatch consults the
    deleted-range interval map for (cf_id, key): the result is kDeleted if
    the key is a member and stays kNotFound otherwise. *)
Theorem GetFromBatch_NotFound (merge_context : list Slice) (value : string)
        (overwrite_key : bool) :
  w_result (GetFromBatch_walk column_family_ batch key merge_context overwrite_key)
  = kNotFound ->
  o_result (GetFromBatch kFlagMinInCf column_family_ batch key
              deleted_ranges_comparator deleted_ranges merge_context value
              overwrite_key)
  = if DeletedRangeMap.IsInInterval kFlagMinInCf deleted_ranges_comparator
         deleted_ranges cf_id key
    then kDeleted else kNotFound.
Proof.
  intros Hr. unfold GetFromBatch.
  destruct (GetFromBatch_walk_status merge_context overwrite_key) as [Hs|He];
    [|rewrite Hr in He; discriminate].
  rewrite Hs, Hr. simpl.
  now destruct (DeletedRangeMap.IsInInterval kFlagMinInCf
                  deleted_ranges_comparator deleted_ranges cf_id key).
Qed.

(** A batch without an entry for the key leaves the walk in kNotFound. *)
Lemma Walk_no_match (fuel : nat) : forall overwrite_key iter w,
  Forall (fun x => cmp key (entry_key x) <> 0) (Cursor.items iter) ->
  Walk fuel comparator_ cf_id key overwrite_key iter w = w.
Proof.
  destruct fuel as [|fuel]; intros overwrite_key iter w Hno; simpl; auto.
  destruct (WBWIIterator.Valid iter) eqn:Hv; simpl; auto.
  assert (Hm : MatchesKey comparator_ iter cf_id key = false).
  { unfold MatchesKey. rewrite Hv.
    unfold WBWIIterator.Valid, Cursor.Valid in Hv.
    unfold WBWIIterator.Entry.
    destruct (Cursor.current iter) as [e|] eqn:Ec;
      [|rewrite andb_false_r in Hv; discriminate].
    unfold Cursor.current in Ec. destruct (Cursor.pos iter) as [i|]; [|discriminate].
    apply nth_error_In in Ec. rewrite Forall_forall in Hno.
    apply Z.eqb_neq. now apply Hno. }
  now rewrite Hm.
Qed.

Lemma SkipMatching_items (fuel : nat) : forall iter,
  Cursor.items (SkipMatching fuel comparator_ cf_id key iter) = Cursor.items iter.
Proof.
  induction fuel as [|fuel IH]; intros iter; simpl; auto.
  destruct (WBWIIterator.Valid iter && MatchesKey comparator_ iter cf_id key);
    auto.
  now rewrite IH.
Qed.

Lemma GetFromBatch_walk_no_match (merge_context : list Slice) (overwrite_key : bool) :
  Forall (fun x => cmp key (entry_key x) <> 0) (index_entries batch cf_id) ->
  w_result (GetFromBatch_walk column_family_ batch key merge_context overwrite_key)
  = kNotFound.
Proof.
  intros Hno. unfold GetFromBatch_walk. rewrite Walk_no_match; auto.
  match goal with
  | |- Forall _ (Cursor.items (if ?c then _ else _)) => destruct c
  end;
    unfold WBWIIterator.SeekToLast, WBWIIterator.Prev, Cursor.SeekToLast,
      Cursor.Prev, Cursor.set_pos; cbn [Cursor.items];
    rewrite SkipMatching_items; exact Hno.
Qed.

(** *** The most recent entry of the key *)

Section MostRecent.
Hypothesis cmp_ok : Comparator_ok cmp.
Variables (A M B : list WriteEntry) (e : WriteEntry).
Hypothesis Hitems : index_entries batch cf_id = (A ++ M ++ e :: B)%list.
Hypothesis HA : Forall (fun x => cmp (entry_key x) key < 0) A.
Hypothesis HM : Forall (fun x => cmp (entry_key x) key = 0) M.
Hypothesis He : cmp (entry_key e) key = 0.
Hypothesis HB : Forall (fun x => 0 < cmp (entry_key x) key) B.

Local Abbreviation items := (A ++ M ++ e :: B)%list.

Lemma Seek_position :
  WBWIIterator.Seek cmp key (NewIterator batch column_family_)
  = at_index items (length A).
Proof.
  unfold WBWIIterator.Seek, Cursor.Seek, Cursor.set_pos, NewIterator, at_index.
  cbn [Cursor.items Cursor.status]. rewrite Hitems. f_equal.
  assert (Hlt : (length A <? length items)%nat = true).
  { apply Nat.ltb_lt. rewrite !length_app. simpl. lia. }
  rewrite Hlt.
  assert (HA' : Forall (fun x => (0 <=? cmp (entry_key x) key) = false) A).
  { eapply Forall_impl; [|exact HA]. simpl. intros x Hx. apply Z.leb_gt. exact Hx. }
  destruct M as [|m M'].
  - apply CursorFacts.find_first_middle; auto. apply Z.leb_le. simpl. lia.
  - inversion HM as [|? ? Hm _]; subst.
    apply CursorFacts.find_first_middle; auto. apply Z.leb_le. simpl. lia.
Qed.

Lemma SkipMatching_position :
  SkipMatching (S (length items)) comparator_ cf_id key
    (at_index items (length A))
  = at_index items (S (length A + length M)).
Proof.
  replace items with (A ++ (M ++ [e]) ++ B)%list
    by (now rewrite <- app_assoc).
  rewrite SkipMatching_run.
  - f_equal. rewrite length_app. simpl. lia.
  - rewrite (length_app A), (length_app (M ++ [e])). lia.
  - apply Forall_app. split.
    + eapply Forall_impl; [|exact HM]. simpl. intros x Hx.
      now apply (cmp_eq_sym _ _ cmp_ok).
    + repeat constructor. now apply (cmp_eq_sym _ _ cmp_ok).
  - apply SkipListFacts.Forall_head_sat.
    eapply Forall_impl; [|exact HB]. simpl. intros x Hx.
    apply (cmp_lt_gt _ _ cmp_ok) in Hx. lia.
Qed.

Lemma Walk_start_position :
  (if negb (WBWIIterator.Valid (at_index items (S (length A + length M))))
   then WBWIIterator.SeekToLast (at_index items (S (length A + length M)))
   else WBWIIterator.Prev (at_index items (S (length A + length M))))
  = at_index items (length A + length M).
Proof.
  rewrite Valid_at_index.
  assert (Hlen : length items = (S (length A + length M) + length B)%nat).
  { rewrite !length_app. simpl. lia. }
  assert (Hlt : (length A + length M <? length items)%nat = true).
  { apply Nat.ltb_lt. lia. }
  unfold at_index. rewrite Hlt.
  destruct (Nat.ltb_spec (S (length A + length M)) (length items)) as [H|H].
  - reflexivity.
  - unfold WBWIIterator.SeekToLast, Cursor.SeekToLast, Cursor.set_pos.
    cbn [negb Cursor.items Cursor.status]. f_equal.
    destruct items eqn:E; [simpl in Hlen; lia|].
    f_equal. lia.
Qed.

Lemma GetFromBatch_walk_most_recent (merge_context : list Slice)
      (overwrite_key : bool) :
  let w := FoldEntry e (mkWalkState kNotFound EmptyString merge_context OK) in
  Result_eqb (w_result w) kFound || Result_eqb (w_result w) kDeleted
    || Result_eqb (w_result w) kError = true ->
  GetFromBatch_walk column_family_ batch key merge_context overwrite_key = w.
Proof.
  intros w Hstop. unfold GetFromBatch_walk. cbv zeta.
  rewrite Seek_position.
  unfold NewIterator. cbn [Cursor.items]. rewrite Hitems.
  rewrite SkipMatching_position, Walk_start_position.
  replace items with ((A ++ M) ++ e :: B)%list by (now rewrite <- app_assoc).
  replace (length A + length M)%nat with (length (A ++ M))
    by (now rewrite length_app).
  cbn [Walk]. rewrite Valid_at_index, MatchesKey_at_index, Entry_at_index.
  assert (Hlt : (length (A ++ M) <? length ((A ++ M) ++ e :: B))%nat = true).
  { apply Nat.ltb_lt. rewrite (length_app (A ++ M)). simpl. lia. }
  rewrite Hlt. apply (cmp_eq_sym _ _ cmp_ok) in He.
  apply Z.eqb_eq in He. rewrite He. cbn [negb].
  fold w. now rewrite Hstop.
Qed.

(** C2 (amended to calls with an empty merge context).  The entries of the
    column family being, in index order, [A] (keys
    before the queried key), [M] followed by [e] (the entries of the queried
    key, [e] the most recent) and [B] (keys after it), GetFromBatch, called
    with an empty merge context, returns: kFound with the value of [e] when
    [e] is a Put with is_in_deleted_range = false; kDeleted when [e] is a Put
    with is_in_deleted_range = true; kDeleted when [e] is a Delete or a
    SingleDelete. *)
Theorem GetFromBatch_most_recent (value : string) (overwrite_key : bool) :
  let out := GetFromBatch kFlagMinInCf column_family_ batch key
               deleted_ranges_comparator deleted_ranges [] value
               overwrite_key in
  (type e = kPutRecord -> is_in_deleted_range e = false ->
   o_result out = kFound /\ o_value out = entry_value e /\ o_s out = OK) /\
  (type e = kPutRecord -> is_in_deleted_range e = true ->
   o_result out = kDeleted /\ o_s out = OK) /\
  (type e = kDeleteRecord \/ type e = kSingleDeleteRecord ->
   o_result out = kDeleted /\ o_s out = OK).
Proof.
  cbv zeta. unfold GetFromBatch. split; [|split].
  - intros Ht Hd.
    rewrite GetFromBatch_walk_most_recent
      by (unfold FoldEntry; rewrite Ht, Hd; reflexivity).
    unfold FoldEntry. rewrite Ht, Hd. simpl. auto.
  - intros Ht Hd.
    rewrite GetFromBatch_walk_most_recent
      by (unfold FoldEntry; rewrite Ht, Hd; reflexivity).
    unfold FoldEntry. rewrite Ht, Hd. simpl. auto.
  - intros [Ht|Ht];
      (rewrite GetFromBatch_walk_most_recent
        by (unfold FoldEntry; rewrite Ht; reflexivity));
      unfold FoldEntry; rewrite Ht; simpl; auto.
Qed.

End MostRecent.

End GetFromBatchFacts.
End GetFromBatchFacts.

(** *** Concrete point reads *)

Module GetFromBatchExamples.
Import WriteBatchEntryComparator WriteBatchWithIndexInternal GetFromBatchFacts.
Import GetFromBatchInputs.
Local Open Scope string_scope.

Example GetFromBatch_Put :
  o_result (GetFromBatch 255 None batch1 "a" bytewise [] [] "" false) = kFound /\
  o_value (GetFromBatch 255 None batch1 "a" bytewise [] [] "" false) = "1".
Proof. split; reflexivity. Qed.

Example GetFromBatch_Delete :
  o_result (GetFromBatch 255 None batch1 "b" bytewise [] [] "" false) = kDeleted.
Proof. reflexivity. Qed.

Lemma CompareKey_bytewise_ok (cf : N) :
  Comparator_ok (CompareKey bytewise cf).
Proof.
  assert (E : CompareKey bytewise cf = BytewiseComparator).
  { unfold CompareKey, bytewise. simpl. now destruct (N.to_nat cf). }
  rewrite E. apply BytewiseComparator_ok.
Qed.

Lemma GetFromBatch_most_recent_witness :
  (let out := GetFromBatch 255 None batch1 "a" bytewise [] [] "" false in
   o_result out = kFound /\ o_value out = "1" /\ o_s out = OK) /\
  (let out := GetFromBatch 255 None batch_put_in_range "b" bytewise [] [] ""
                false in
   o_result out = kDeleted /\ o_s out = OK) /\
  (let out := GetFromBatch 255 None batch1 "b" bytewise [] [] "" false in
   o_result out = kDeleted /\ o_s out = OK).
Proof.
  split; [|split].
  - refine (proj1 (GetFromBatch_most_recent 255 None batch1 "a" bytewise []
                     (CompareKey_bytewise_ok 0)
                     [] []
                     [mkWriteEntry kPutRecord "b" "2" false;
                      mkWriteEntry kDeleteRecord "b" "" false;
                      mkWriteEntry kPutRecord "c" "3" false]
                     (mkWriteEntry kPutRecord "a" "1" false)
                     eq_refl _ _ eq_refl _ "" false) eq_refl eq_refl);
      repeat constructor.
  - refine (proj1 (proj2
                     (GetFromBatch_most_recent 255 None batch_put_in_range "b"
                        bytewise []
                        (CompareKey_bytewise_ok 0)
                        [mkWriteEntry kPutRecord "a" "1" false] [] []
                        (mkWriteEntry kPutRecord "b" "2" true)
                        eq_refl _ _ eq_refl _ "" false)) eq_refl eq_refl);
      repeat constructor.
  - refine (proj2 (proj2
                     (GetFromBatch_most_recent 255 None batch1 "b" bytewise []
                        (CompareKey_bytewise_ok 0)
                        [mkWriteEntry kPutRecord "a" "1" false]
                        [mkWriteEntry kPutRecord "b" "2" false]
                        [mkWriteEntry kPutRecord "c" "3" false]
                        (mkWriteEntry kDeleteRecord "b" "" false)
                        eq_refl _ _ eq_refl _ "" false)) (or_introl eq_refl));
      repeat constructor.
Defined.

(** C2 as stated fails when the merge context that the caller passes holds
    an operand already: on Put("a","1"), Put("b","2"), Delete("b"),
    Put("c","3"), read through a column family whose merge operator appends,
    with the operand "w" in the merge context, the most recent entry of "a"
    is the Put of "1" and the read returns kFound with "1w", not with the
    value of the Put; the most recent entry of "b" is a Delete and the read
    returns kFound with "w", not kDeleted. *)
Lemma GetFromBatch_pending_operand :
  let put := GetFromBatch 255 (Some cf_append) batch1 "a" bytewise [] ["w"] ""
               false in
  let del := GetFromBatch 255 (Some cf_append) batch1 "b" bytewise [] ["w"] ""
               false in
  (o_result put = kFound /\ o_value put = "1w" /\ o_value put <> "1") /\
  (o_result del = kFound /\ o_value del = "w" /\ o_result del <> kDeleted).
Proof. repeat split; discriminate. Qed.

Lemma GetFromBatch_NotFound_witness :
  w_result (GetFromBatch_walk None batch2 "b" [] false) = kNotFound /\
  o_result (GetFromBatch 255 None batch2 "b" bytewise ranges1 [] "" false)
  = (if DeletedRangeMap.IsInInterval 255 bytewise ranges1 0 "b"
     then kDeleted else kNotFound) /\
  DeletedRangeMap.IsInInterval 255 bytewise ranges1 0 "b" = true.
Proof.
  split; [reflexivity|]. split; [|reflexivity].
  apply (GetFromBatch_NotFound 255 None batch2 "b" bytewise ranges1 [] "" false).
  reflexivity.
Defined.

End GetFromBatchExamples.

(** ** The base+delta iterator: direction reversal *)

Module BaseDeltaIteratorFacts.
Import BaseDeltaIteratorSpec.

Lemma StronglySorted_nth {A : Type} (R : A -> A -> Prop) (d : A) (l : list A) :
  StronglySorted R l ->
  forall i j, (i < j)%nat -> (j < length l)%nat -> R (nth i l d) (nth j l d).
Proof.
  induction 1 as [|x l Hs IH Hx]; intros i j Hij Hj; simpl in Hj; [lia|].
  destruct j as [|j]; [lia|]. destruct i as [|i]; simpl.
  - rewrite Forall_forall in Hx. apply Hx. apply nth_In. lia.
  - apply IH; lia.
Qed.

Lemma find_first_spec {A : Type} (P : A -> bool) (d : A) (l : list A) :
  exists n, (n <= length l)%nat /\
            Cursor.find_first P l = fpos n (length l) /\
            (forall i, (i < n)%nat -> P (nth i l d) = false) /\
            ((n < length l)%nat -> P (nth n l d) = true).
Proof.
  induction l as [|x l IH].
  - exists 0%nat. split; [lia|]. split; [reflexivity|].
    split; intros; simpl in *; lia.
  - destruct IH as (n & Hn & Hf & Hlt & Hat). cbn [Cursor.find_first].
    destruct (P x) eqn:Px.
    + exists 0%nat. split; [simpl; lia|]. split; [reflexivity|].
      split; [intros; lia | intros _; exact Px].
    + exists (S n). split; [simpl; lia|]. split; [|split].
      * rewrite Hf. unfold fpos. cbn [length].
        change (S n <? S (length l))%nat with (n <? length l)%nat.
        now destruct (n <? length l)%nat.
      * intros [|i] Hi; [exact Px|]. cbn [nth]. apply Hlt. lia.
      * intros H. cbn [nth]. apply Hat. simpl in H. lia.
Qed.

Section Facts.
Variable cmp : Comparator.
Hypothesis cmp_ok : Comparator_ok cmp.
Variable B : list (Slice * Slice).
Variable D : list WriteEntry.
Variable ub : option Slice.
Hypothesis B_sorted : base_sorted cmp B.
Hypothesis D_sorted : delta_sorted cmp D.

Local Abbreviation nb := (length B).
Local Abbreviation nd := (length D).
Local Abbreviation bk := (BaseDeltaIteratorSpec.bk B).
Local Abbreviation bv := (BaseDeltaIteratorSpec.bv B).
Local Abbreviation de := (BaseDeltaIteratorSpec.de D).
Local Abbreviation dk := (BaseDeltaIteratorSpec.dk D).
Local Abbreviation tomb := (BaseDeltaIteratorSpec.tomb D).
Local Abbreviation ub_hit := (BaseDeltaIteratorSpec.ub_hit cmp D ub).
Local Abbreviation mkst := (BaseDeltaIteratorSpec.mkst B D ub).
Local Abbreviation fstate := (BaseDeltaIteratorSpec.fstate B D ub).
Local Abbreviation bstate := (BaseDeltaIteratorSpec.bstate B D ub).
Local Abbreviation loop := (BaseDeltaIterator.UpdateCurrent_loop cmp).

(** *** Order facts on the two lists *)

Lemma bk_lt (i j : nat) : (i < j)%nat -> (j < nb)%nat -> cmp (bk i) (bk j) < 0.
Proof.
  intros Hij Hj. unfold BaseDeltaIteratorSpec.bk.
  apply (StronglySorted_nth _ _ B B_sorted i j Hij Hj).
Qed.

Lemma bk_le (i j : nat) : (i <= j)%nat -> (j < nb)%nat -> cmp (bk i) (bk j) <= 0.
Proof.
  intros Hij Hj. destruct (Nat.eq_dec i j) as [->|Hne].
  - rewrite (cmp_refl _ cmp cmp_ok). lia.
  - pose proof (bk_lt i j). lia.
Qed.

Lemma dk_le (i j : nat) : (i <= j)%nat -> (j < nd)%nat -> cmp (dk i) (dk j) <= 0.
Proof.
  intros Hij Hj. destruct (Nat.eq_dec i j) as [->|Hne].
  - rewrite (cmp_refl _ cmp cmp_ok). lia.
  - unfold BaseDeltaIteratorSpec.dk, BaseDeltaIteratorSpec.de.
    apply (StronglySorted_nth _ _ D D_sorted i j); lia.
Qed.

(** *** Reading the cursors of a state *)

Lemma current_nth {A : Type} (l : list A) (d : A) (i : nat) (s : Status) :
  (i < length l)%nat -> Cursor.current (Cursor.mk l (Some i) s) = Some (nth i l d).
Proof.
  intros Hi. unfold Cursor.current; simpl. now apply nth_error_nth'.
Qed.

Lemma Valid_Some {A : Type} (l : list A) (i : nat) :
  Cursor.Valid (Cursor.mk l (Some i) OK) = (i <? length l)%nat.
Proof.
  unfold Cursor.Valid, Cursor.current; simpl.
  destruct (Nat.ltb_spec i (length l)) as [Hlt|Hge].
  - destruct (nth_error l i) eqn:E; auto. apply nth_error_None in E. lia.
  - assert (E : nth_error l i = None) by now apply nth_error_None.
    now rewrite E.
Qed.

Lemma Valid_fpos {A : Type} (l : list A) (n : nat) :
  Cursor.Valid (Cursor.mk l (fpos n (length l)) OK) = (n <? length l)%nat.
Proof.
  unfold fpos. destruct (Nat.ltb_spec n (length l)) as [Hlt|Hge].
  - rewrite Valid_Some. now apply Nat.ltb_lt.
  - reflexivity.
Qed.

Lemma Valid_bpos {A : Type} (l : list A) (n : nat) :
  (n <= length l)%nat ->
  Cursor.Valid (Cursor.mk l (bpos n) OK) = (0 <? n)%nat.
Proof.
  intros Hn. destruct n as [|n]; simpl; auto.
  rewrite Valid_Some. apply Nat.ltb_lt. lia.
Qed.

Lemma key_Some (i : nat) :
  Iterator.key (Cursor.mk B (Some i) OK) = bk i.
Proof.
  unfold Iterator.key, Cursor.current, BaseDeltaIteratorSpec.bk; simpl.
  destruct (nth_error B i) eqn:E.
  - now rewrite (nth_error_nth _ _ _ E).
  - apply nth_error_None in E. now rewrite nth_overflow.
Qed.

Lemma value_Some (i : nat) :
  Iterator.value (Cursor.mk B (Some i) OK) = bv i.
Proof.
  unfold Iterator.value, Cursor.current, BaseDeltaIteratorSpec.bv; simpl.
  destruct (nth_error B i) eqn:E.
  - now rewrite (nth_error_nth _ _ _ E).
  - apply nth_error_None in E. now rewrite nth_overflow.
Qed.

Lemma Entry_Some (j : nat) :
  WBWIIterator.Entry (Cursor.mk D (Some j) OK) = de j.
Proof.
  unfold WBWIIterator.Entry, Cursor.current, BaseDeltaIteratorSpec.de; simpl.
  destruct (nth_error D j) eqn:E.
  - now rewrite (nth_error_nth _ _ _ E).
  - apply nth_error_None in E. now rewrite nth_overflow.
Qed.

Lemma Next_fpos {A : Type} (l : list A) (n : nat) :
  (n < length l)%nat ->
  Cursor.Next (Cursor.mk l (fpos n (length l)) OK)
  = Cursor.mk l (fpos (S n) (length l)) OK.
Proof.
  intros Hn. unfold fpos, Cursor.Next, Cursor.set_pos.
  apply Nat.ltb_lt in Hn. now rewrite Hn.
Qed.

Lemma Prev_bpos {A : Type} (l : list A) (n : nat) :
  Cursor.Prev (Cursor.mk l (bpos (S n)) OK) = Cursor.mk l (bpos n) OK.
Proof. now destruct n. Qed.

(** *** One turn of the loop of UpdateCurrent *)

Lemma loop_step (fuel : nat) (fwd cab eq : bool) (bp dp : option nat) :
  loop (S fuel) (mkst fwd cab eq bp dp) =
  let delta_entry := WBWIIterator.Entry (Cursor.mk D dp OK) in
  if negb (Cursor.Valid (Cursor.mk B bp OK)) then
    if negb (Cursor.Valid (Cursor.mk D dp OK)) then mkst fwd cab false bp dp
    else if match ub with
            | Some upper_bound => 0 <=? cmp (entry_key delta_entry) upper_bound
            | None => false
            end
    then mkst fwd cab false bp dp
    else if is_delete (type delta_entry)
    then loop fuel (BaseDeltaIterator.AdvanceDelta (mkst fwd cab false bp dp))
    else mkst fwd false false bp dp
  else if negb (Cursor.Valid (Cursor.mk D dp OK)) then mkst fwd true false bp dp
  else
    let compare :=
      (if fwd then 1 else -1) *
      cmp (entry_key delta_entry) (Iterator.key (Cursor.mk B bp OK)) in
    if compare <=? 0 then
      if negb (is_delete (type delta_entry))
      then mkst fwd false (compare =? 0) bp dp
      else
        loop fuel
          (if compare =? 0
           then BaseDeltaIterator.AdvanceBase
                  (BaseDeltaIterator.AdvanceDelta (mkst fwd cab true bp dp))
           else BaseDeltaIterator.AdvanceDelta (mkst fwd cab false bp dp))
    else mkst fwd true false bp dp.
Proof.
  cbn [BaseDeltaIterator.UpdateCurrent_loop].
  unfold BaseDeltaIterator.DeltaValid, BaseDeltaIterator.BaseValid,
    WBWIIterator.Valid, Iterator.Valid, WBWIIterator.status, Iterator.status.
  cbn [BaseDeltaIteratorSpec.mkst BaseDeltaIterator.delta_iterator_
       BaseDeltaIterator.base_iterator_ BaseDeltaIterator.set_equal_keys
       BaseDeltaIterator.iterate_upper_bound_ BaseDeltaIterator.forward_
       BaseDeltaIterator.current_at_base_ BaseDeltaIterator.equal_keys_
       BaseDeltaIterator.status_ Cursor.status ok negb].
  rewrite !andb_false_r.
  destruct (Cursor.Valid (Cursor.mk B bp OK)), (Cursor.Valid (Cursor.mk D dp OK));
    cbn [negb]; try reflexivity.
  cbv zeta.
  destruct (_ <=? 0); [|reflexivity].
  destruct (_ =? 0); destruct (negb _); destruct fwd; reflexivity.
Qed.

Lemma AdvanceDelta_fstate (cab eq : bool) (I J : nat) :
  (J < nd)%nat ->
  BaseDeltaIterator.AdvanceDelta (fstate cab eq I J) = fstate cab eq I (S J).
Proof.
  intros HJ. unfold BaseDeltaIterator.AdvanceDelta, BaseDeltaIteratorSpec.fstate,
    BaseDeltaIteratorSpec.mkst, BaseDeltaIterator.set_delta, WBWIIterator.Next.
  cbn [BaseDeltaIterator.forward_ BaseDeltaIterator.delta_iterator_].
  now rewrite Next_fpos.
Qed.

Lemma AdvanceBase_fstate (cab eq : bool) (I J : nat) :
  (I < nb)%nat ->
  BaseDeltaIterator.AdvanceBase (fstate cab eq I J) = fstate cab eq (S I) J.
Proof.
  intros HI. unfold BaseDeltaIterator.AdvanceBase, BaseDeltaIteratorSpec.fstate,
    BaseDeltaIteratorSpec.mkst, BaseDeltaIterator.set_base, Iterator.Next.
  cbn [BaseDeltaIterator.forward_ BaseDeltaIterator.base_iterator_].
  now rewrite Next_fpos.
Qed.

Lemma AdvanceDelta_bstate (cab eq : bool) (I J : nat) :
  BaseDeltaIterator.AdvanceDelta (bstate cab eq I (S J)) = bstate cab eq I J.
Proof.
  unfold BaseDeltaIterator.AdvanceDelta, BaseDeltaIteratorSpec.bstate,
    BaseDeltaIteratorSpec.mkst, BaseDeltaIterator.set_delta, WBWIIterator.Prev.
  cbn [BaseDeltaIterator.forward_ BaseDeltaIterator.delta_iterator_].
  now rewrite Prev_bpos.
Qed.

Lemma AdvanceBase_bstate (cab eq : bool) (I J : nat) :
  BaseDeltaIterator.AdvanceBase (bstate cab eq (S I) J) = bstate cab eq I J.
Proof.
  unfold BaseDeltaIterator.AdvanceBase, BaseDeltaIteratorSpec.bstate,
    BaseDeltaIteratorSpec.mkst, BaseDeltaIterator.set_base, Iterator.Prev.
  cbn [BaseDeltaIterator.forward_ BaseDeltaIterator.base_iterator_].
  now rewrite Prev_bpos.
Qed.

Lemma loop_fwd_step (fuel : nat) (cab eq : bool) (I J : nat) :
  loop (S fuel) (fstate cab eq I J) =
  if (J <? nd)%nat then
    if (I <? nb)%nat then
      if cmp (dk J) (bk I) <=? 0 then
        if tomb J then
          loop fuel (fstate cab (cmp (dk J) (bk I) =? 0)
                       (if cmp (dk J) (bk I) =? 0 then S I else I) (S J))
        else fstate false (cmp (dk J) (bk I) =? 0) I J
      else fstate true false I J
    else if ub_hit J then fstate cab false I J
    else if tomb J then loop fuel (fstate cab false I (S J))
    else fstate false false I J
  else if (I <? nb)%nat then fstate true false I J
  else fstate cab false I J.
Proof.
  unfold BaseDeltaIteratorSpec.fstate at 1. rewrite loop_step. cbv zeta.
  rewrite !Valid_fpos.
  destruct (Nat.ltb_spec J nd) as [HJ|HJ]; destruct (Nat.ltb_spec I nb) as [HI|HI];
    cbn [negb]; try reflexivity.
  - assert (EJ : fpos J nd = Some J) by (unfold fpos; apply Nat.ltb_lt in HJ; now rewrite HJ).
    assert (EI : fpos I nb = Some I) by (unfold fpos; apply Nat.ltb_lt in HI; now rewrite HI).
    rewrite EJ, EI, Entry_Some, key_Some. rewrite <- EJ, <- EI.
    rewrite Z.mul_1_l.
    change (entry_key (de J)) with (dk J).
    change (is_delete (type (de J))) with (tomb J).
    destruct (cmp (dk J) (bk I) <=? 0); [|reflexivity].
    destruct (tomb J); cbn [negb]; [|reflexivity].
    destruct (cmp (dk J) (bk I) =? 0).
    + change (mkst true cab true (fpos I nb) (fpos J nd)) with (fstate cab true I J).
      now rewrite AdvanceDelta_fstate, AdvanceBase_fstate.
    + change (mkst true cab false (fpos I nb) (fpos J nd)) with (fstate cab false I J).
      now rewrite AdvanceDelta_fstate.
  - assert (EJ : fpos J nd = Some J) by (unfold fpos; apply Nat.ltb_lt in HJ; now rewrite HJ).
    rewrite EJ, Entry_Some. rewrite <- EJ.
    change (entry_key (de J)) with (dk J).
    change (is_delete (type (de J))) with (tomb J).
    change (match ub with
            | Some upper_bound => 0 <=? cmp (dk J) upper_bound
            | None => false
            end) with (ub_hit J).
    destruct (ub_hit J); [reflexivity|].
    destruct (tomb J); [|reflexivity].
    change (mkst true cab false (fpos I nb) (fpos J nd)) with (fstate cab false I J).
    now rewrite AdvanceDelta_fstate.
Qed.

Lemma loop_bwd_step (fuel : nat) (cab eq : bool) (I J : nat) :
  (I <= nb)%nat -> (J <= nd)%nat ->
  loop (S fuel) (bstate cab eq I J) =
  match J with
  | O => if (0 <? I)%nat then bstate true false I J else bstate cab false I J
  | S J' =>
      match I with
      | O =>
          if ub_hit J' then bstate cab false I J
          else if tomb J' then loop fuel (bstate cab false I J')
          else bstate false false I J
      | S I' =>
          if 0 <=? cmp (dk J') (bk I') then
            if tomb J' then
              loop fuel (bstate cab (cmp (dk J') (bk I') =? 0)
                           (if cmp (dk J') (bk I') =? 0 then I' else I) J')
            else bstate false (cmp (dk J') (bk I') =? 0) I J
          else bstate true false I J
      end
  end.
Proof.
  intros HI HJ.
  unfold BaseDeltaIteratorSpec.bstate at 1. rewrite loop_step. cbv zeta.
  rewrite (Valid_bpos B I HI), (Valid_bpos D J HJ).
  destruct J as [|J']; destruct I as [|I']; cbn [Nat.ltb Nat.leb negb bpos];
    try reflexivity.
  - rewrite Entry_Some.
    change (entry_key (de J')) with (dk J').
    change (is_delete (type (de J'))) with (tomb J').
    change (match ub with
            | Some upper_bound => 0 <=? cmp (dk J') upper_bound
            | None => false
            end) with (ub_hit J').
    destruct (ub_hit J'); [reflexivity|].
    destruct (tomb J'); [|reflexivity].
    change (mkst false cab false None (Some J')) with (bstate cab false 0 (S J')).
    now rewrite AdvanceDelta_bstate.
  - rewrite Entry_Some, key_Some.
    change (entry_key (de J')) with (dk J').
    change (is_delete (type (de J'))) with (tomb J').
    replace (-1 * cmp (dk J') (bk I') <=? 0) with (0 <=? cmp (dk J') (bk I'))
      by (destruct (Z.leb_spec 0 (cmp (dk J') (bk I')));
          destruct (Z.leb_spec (-1 * cmp (dk J') (bk I')) 0); auto; lia).
    replace (-1 * cmp (dk J') (bk I') =? 0) with (cmp (dk J') (bk I') =? 0)
      by (destruct (Z.eqb_spec (cmp (dk J') (bk I')) 0);
          destruct (Z.eqb_spec (-1 * cmp (dk J') (bk I')) 0); auto; lia).
    destruct (0 <=? cmp (dk J') (bk I')); [|reflexivity].
    destruct (tomb J'); cbn [negb]; [|reflexivity].
    destruct (cmp (dk J') (bk I') =? 0).
    + change (mkst false cab true (Some I') (Some J'))
        with (bstate cab true (S I') (S J')).
      now rewrite AdvanceDelta_bstate, AdvanceBase_bstate.
    + change (mkst false cab false (Some I') (Some J'))
        with (bstate cab false (S I') (S J')).
      now rewrite AdvanceDelta_bstate.
Qed.

(** *** Skipping forward *)

Local Abbreviation F1 := (BaseDeltaIteratorSpec.F1 cmp B D).
Local Abbreviation F2 := (BaseDeltaIteratorSpec.F2 cmp B D).
Local Abbreviation Shadow := (BaseDeltaIteratorSpec.Shadow cmp B D).
Local Abbreviation Tombs := (BaseDeltaIteratorSpec.Tombs D).
Local Abbreviation SkipInv := (BaseDeltaIteratorSpec.SkipInv cmp B D).
Local Abbreviation fwd_result := (BaseDeltaIteratorSpec.fwd_result cmp B D ub).

Lemma F1_delta_step (I J : nat) :
  F1 I J -> ((I < nb)%nat -> cmp (dk J) (bk I) < 0) -> F1 I (S J).
Proof.
  intros H Hc j Hj Hjd HI. destruct (Nat.eq_dec j J) as [->|Hne]; auto.
  apply H; auto. lia.
Qed.

Lemma F2_delta_step (I J : nat) : F2 I J -> F2 I (S J).
Proof.
  intros H i Hi Hib HJ.
  apply (cmp_le_trans _ cmp cmp_ok) with (dk J).
  - apply H; auto. lia.
  - apply dk_le; lia.
Qed.

Lemma F1_diag_step (I J : nat) :
  (J < nd)%nat -> cmp (dk J) (bk I) <= 0 -> F1 (S I) (S J).
Proof.
  intros HJ Hc j Hj Hjd HI.
  apply (cmp_le_lt_trans _ cmp cmp_ok) with (dk J); [apply dk_le; lia|].
  apply (cmp_le_lt_trans _ cmp cmp_ok) with (bk I); auto.
  apply bk_lt; lia.
Qed.

Lemma F2_diag_step (I J : nat) :
  (I < nb)%nat -> cmp (bk I) (dk J) <= 0 -> F2 (S I) (S J).
Proof.
  intros HI Hc i Hi Hib HJ.
  apply (cmp_le_trans _ cmp cmp_ok) with (bk I); [apply bk_le; lia|].
  apply (cmp_le_trans _ cmp cmp_ok) with (dk J); auto.
  apply dk_le; lia.
Qed.

Lemma SkipInv_delta_step (Ia Ja I J : nat) :
  SkipInv Ia Ja I J -> (J < nd)%nat -> tomb J = true ->
  ((I < nb)%nat -> cmp (dk J) (bk I) < 0) ->
  SkipInv Ia Ja I (S J).
Proof.
  intros (HI & HJ & H1 & H2 & Hs & Ht) HJd Htomb Hc.
  split; [lia|]. split; [lia|]. split; [|split; [|split]].
  - now apply F1_delta_step.
  - now apply F2_delta_step.
  - intros i Hi. destruct (Hs i Hi) as (j & Hj & Hjc). exists j. split; [lia | auto].
  - intros j Hj. destruct (Nat.eq_dec j J) as [->|Hne]; auto. apply Ht. lia.
Qed.

Lemma SkipInv_diag_step (Ia Ja I J : nat) :
  SkipInv Ia Ja I J -> (J < nd)%nat -> (I < nb)%nat -> tomb J = true ->
  cmp (dk J) (bk I) = 0 ->
  SkipInv Ia Ja (S I) (S J).
Proof.
  intros (HI & HJ & H1 & H2 & Hs & Ht) HJd HIb Htomb Hc.
  split; [lia|]. split; [lia|]. split; [|split; [|split]].
  - apply F1_diag_step; auto. lia.
  - apply F2_diag_step; auto. apply (cmp_eq_sym _ cmp cmp_ok) in Hc. lia.
  - intros i Hi. destruct (Nat.eq_dec i I) as [->|Hne].
    + exists J. split; [lia | auto].
    + destruct (Hs i) as (j & Hj & Hjc); [lia|]. exists j. split; [lia | auto].
  - intros j Hj. destruct (Nat.eq_dec j J) as [->|Hne]; auto. apply Ht. lia.
Qed.

Lemma loop_fwd (Ia Ja : nat) (fuel : nat) : forall (I J : nat) (cab eq : bool),
  (nd - J < fuel)%nat ->
  SkipInv Ia Ja I J ->
  exists I' J', SkipInv Ia Ja I' J' /\
                fwd_result cab I' J' (loop fuel (fstate cab eq I J)).
Proof.
  induction fuel as [|fuel IH]; intros I J cab eq Hfuel Hinv; [lia|].
  rewrite loop_fwd_step.
  destruct (Nat.ltb_spec J nd) as [HJ|HJ]; destruct (Nat.ltb_spec I nb) as [HI|HI].
  - destruct (Z.leb_spec (cmp (dk J) (bk I)) 0) as [Hc|Hc].
    + destruct (tomb J) eqn:Htomb.
      * destruct (Z.eqb_spec (cmp (dk J) (bk I)) 0) as [Hz|Hz].
        -- apply IH; [lia|]. now apply SkipInv_diag_step.
        -- apply IH; [lia|]. apply SkipInv_delta_step; auto. intros _. lia.
      * exists I, J. split; auto. right. left.
        exists (cmp (dk J) (bk I) =? 0). repeat split; auto. lia. lia.
    + exists I, J. split; auto. left. repeat split; auto.
  - destruct (ub_hit J) eqn:Hub.
    + exists I, J. split; auto. right. right. repeat split; auto.
    + destruct (tomb J) eqn:Htomb.
      * apply IH; [lia|]. apply SkipInv_delta_step; auto. intros; lia.
      * exists I, J. split; auto. right. left.
        exists false. repeat split; auto; lia.
  - exists I, J. split; auto. left. repeat split; auto. intros; lia.
  - exists I, J. split; auto. right. right. repeat split; auto.
Qed.

(** *** Skipping backward *)

Local Abbreviation BackInv := (BaseDeltaIteratorSpec.BackInv cmp B D ub).

Lemma Shadow_empty (Ia Ja I : nat) : Shadow Ia Ja I Ja -> (I <= Ia)%nat.
Proof.
  intros Hs. destruct (Nat.le_gt_cases I Ia) as [H|H]; auto.
  destruct (Hs Ia) as (j & Hj & _); lia.
Qed.

Lemma BackInv_ge (Ia Ja I' J' : nat) :
  BackInv Ia Ja (S I') (S J') -> (Ia <= I')%nat ->
  0 <= cmp (dk J') (bk I').
Proof.
  intros (HI & HJ & Ht & Hs & Hub) Hle.
  destruct (Hs I') as (j & Hj & Hjc); [lia|].
  apply (cmp_le_ge _ cmp cmp_ok).
  apply (cmp_le_trans _ cmp cmp_ok) with (dk j).
  - apply (cmp_eq_sym _ cmp cmp_ok) in Hjc. lia.
  - apply dk_le; lia.
Qed.

Lemma BackInv_step (Ia Ja I' J' : nat) :
  BackInv Ia Ja (S I') (S J') -> (Ja <= J')%nat ->
  0 <= cmp (dk J') (bk I') ->
  BackInv Ia Ja (if cmp (dk J') (bk I') =? 0 then I' else S I') J'.
Proof.
  intros (HI & HJ & Ht & Hs & Hub) Hle Hc.
  assert (Hsh : forall i, (Ia <= i)%nat ->
            (i < I')%nat \/ (i = I' /\ cmp (dk J') (bk I') <> 0) ->
            exists j, (Ja <= j < J')%nat /\ cmp (dk j) (bk i) = 0).
  { intros i Hi Hcase. destruct (Hs i) as (j & Hj & Hjc); [lia|].
    exists j. split; auto.
    destruct (Nat.eq_dec j J') as [->|Hne]; [|lia]. exfalso.
    destruct Hcase as [Hlt|[-> Hne]]; [|contradiction].
    assert (cmp (bk i) (bk I') < 0) by (apply bk_lt; lia).
    assert (cmp (bk I') (bk i) <= 0).
    { apply (cmp_le_trans _ cmp cmp_ok) with (dk J'); [|lia].
      now apply (cmp_le_ge _ cmp cmp_ok). }
    apply (cmp_lt_gt _ cmp cmp_ok) in H. lia. }
  destruct (Z.eqb_spec (cmp (dk J') (bk I')) 0) as [Hz|Hz].
  - split; [lia|]. split; [lia|]. split; [|split].
    + intros j Hj. apply Ht. lia.
    + intros i Hi. apply Hsh; [lia|]. left. lia.
    + intros j Hj. apply Hub. lia.
  - split; [lia|]. split; [lia|]. split; [|split].
    + intros j Hj. apply Ht. lia.
    + intros i Hi. apply Hsh; [lia|].
      destruct (Nat.eq_dec i I') as [->|Hne]; [right; auto | left; lia].
    + intros j Hj. apply Hub. lia.
Qed.

Lemma BackInv_step0 (Ia Ja J' : nat) :
  BackInv Ia Ja 0 (S J') -> (Ja <= J')%nat -> BackInv Ia Ja 0 J'.
Proof.
  intros (HI & HJ & Ht & Hs & Hub) Hle.
  split; [lia|]. split; [lia|]. split; [|split].
  - intros j Hj. apply Ht. lia.
  - intros i Hi. lia.
  - intros j Hj. apply Hub. lia.
Qed.

(** Skipping backward down to the base entry [I1] that was presented
    before the delta entries from [Ja] on. *)
Lemma loop_bwd_base (I1 Ja : nat) :
  (forall j, (Ja <= j < nd)%nat -> 0 < cmp (dk j) (bk I1)) ->
  (forall j, (j < Ja)%nat -> cmp (dk j) (bk I1) < 0) ->
  forall (fuel I J : nat) (cab eq : bool),
    (J < fuel)%nat -> BackInv (S I1) Ja I J -> (S I1 <= I)%nat ->
    loop fuel (bstate cab eq I J) = bstate true false (S I1) Ja.
Proof.
  intros HA HF. induction fuel as [|fuel IH]; intros I J cab eq Hfuel Hinv HI1;
    [lia|].
  pose proof Hinv as (HI & HJ & Ht & Hs & Hub).
  rewrite loop_bwd_step by lia.
  destruct (Nat.eq_dec J Ja) as [->|HJa].
  - pose proof (Shadow_empty _ _ _ Hs) as HIle.
    assert (I = S I1) by lia. subst I.
    destruct Ja as [|J']; [reflexivity|].
    destruct (Z.leb_spec 0 (cmp (dk J') (bk I1))) as [Hc|Hc]; [|reflexivity].
    specialize (HF J'). lia.
  - destruct J as [|J']; [lia|]. destruct I as [|I']; [lia|].
    assert (Hc : 0 <= cmp (dk J') (bk I')).
    { destruct (Nat.eq_dec I' I1) as [->|Hne].
      - specialize (HA J'). lia.
      - apply (BackInv_ge (S I1) Ja); auto. lia. }
    destruct (Z.leb_spec 0 (cmp (dk J') (bk I'))) as [_|Hc']; [|lia].
    rewrite (Ht J') by lia.
    apply IH; [lia| |].
    + apply BackInv_step; auto. lia.
    + destruct (Z.eqb_spec (cmp (dk J') (bk I')) 0) as [Hz|Hz]; [|lia].
      destruct (Nat.eq_dec I' I1) as [->|Hne]; [|lia].
      specialize (HA J'). lia.
Qed.

(** Skipping backward down to the delta entry [J1] that was presented
    before the delta entries from [S J1] on. *)
Lemma loop_bwd_delta (Ia J1 : nat) :
  (J1 < nd)%nat -> tomb J1 = false ->
  (forall i, (i < Ia)%nat -> (i < nb)%nat -> cmp (bk i) (dk J1) <= 0) ->
  forall (fuel I J : nat) (cab eq : bool),
    (J < fuel)%nat -> BackInv Ia (S J1) I J ->
    exists I' e, loop fuel (bstate cab eq I J) = bstate false e I' (S J1).
Proof.
  intros HJ1 Htomb HB. induction fuel as [|fuel IH]; intros I J cab eq Hfuel Hinv;
    [lia|].
  pose proof Hinv as (HI & HJ & Ht & Hs & Hub).
  rewrite loop_bwd_step by lia.
  destruct J as [|J']; [lia|].
  destruct (Nat.eq_dec J' J1) as [->|HJa].
  - pose proof (Shadow_empty _ _ _ Hs) as HIle.
    rewrite Htomb. destruct I as [|I'].
    + rewrite (Hub J1) by lia. eauto.
    + assert (Hc : 0 <= cmp (dk J1) (bk I')).
      { apply (cmp_le_ge _ cmp cmp_ok). apply HB; lia. }
      destruct (Z.leb_spec 0 (cmp (dk J1) (bk I'))) as [_|Hc']; [|lia]. eauto.
  - rewrite (Ht J') by lia. destruct I as [|I'].
    + rewrite (Hub J') by lia. apply IH; [lia|].
      apply BackInv_step0; auto. lia.
    + assert (Hc : 0 <= cmp (dk J') (bk I')).
      { destruct (Nat.le_gt_cases Ia I') as [Hge|Hlt].
        - apply (BackInv_ge Ia (S J1)); auto.
        - apply (cmp_le_ge _ cmp cmp_ok).
          apply (cmp_le_trans _ cmp cmp_ok) with (dk J1); [apply HB; lia|].
          apply dk_le; lia. }
      destruct (Z.leb_spec 0 (cmp (dk J') (bk I'))) as [_|Hc']; [|lia].
      apply IH; [lia|]. apply BackInv_step; auto. lia.
Qed.

(** *** Next and Prev on a state reached by a forward move *)

Lemma UpdateCurrent_mkst (fwd cab eq : bool) (bp dp : option nat) :
  BaseDeltaIterator.UpdateCurrent cmp (mkst fwd cab eq bp dp)
  = loop (S nd) (mkst fwd cab eq bp dp).
Proof. reflexivity. Qed.

Lemma BaseValid_fstate (cab eq : bool) (I J : nat) :
  BaseDeltaIterator.BaseValid (fstate cab eq I J) = (I <? nb)%nat.
Proof. apply Valid_fpos. Qed.

Lemma DeltaValid_fstate (cab eq : bool) (I J : nat) :
  BaseDeltaIterator.DeltaValid (fstate cab eq I J) = (J <? nd)%nat.
Proof. apply Valid_fpos. Qed.

Lemma Valid_fstate (cab eq : bool) (I J : nat) :
  BaseDeltaIterator.Valid (fstate cab eq I J)
  = if cab then (I <? nb)%nat else (J <? nd)%nat.
Proof.
  unfold BaseDeltaIterator.Valid.
  rewrite BaseValid_fstate, DeltaValid_fstate. reflexivity.
Qed.

Lemma fpos_lt (n len : nat) : (n < len)%nat -> fpos n len = Some n.
Proof. intros H. unfold fpos. apply Nat.ltb_lt in H. now rewrite H. Qed.

Lemma fpos_ge (n len : nat) : (len <= n)%nat -> fpos n len = None.
Proof. intros H. unfold fpos. apply Nat.ltb_ge in H. now rewrite H. Qed.

Lemma key_fstate_base (eq : bool) (I J : nat) :
  (I < nb)%nat -> BaseDeltaIterator.key (fstate true eq I J) = bk I.
Proof.
  intros HI. unfold BaseDeltaIterator.key, BaseDeltaIteratorSpec.fstate.
  cbn [BaseDeltaIteratorSpec.mkst BaseDeltaIterator.current_at_base_
       BaseDeltaIterator.base_iterator_].
  rewrite (fpos_lt I nb HI). apply key_Some.
Qed.

Lemma key_fstate_delta (eq : bool) (I J : nat) :
  (J < nd)%nat -> BaseDeltaIterator.key (fstate false eq I J) = dk J.
Proof.
  intros HJ. unfold BaseDeltaIterator.key, BaseDeltaIteratorSpec.fstate.
  cbn [BaseDeltaIteratorSpec.mkst BaseDeltaIterator.current_at_base_
       BaseDeltaIterator.delta_iterator_].
  rewrite (fpos_lt J nd HJ). now rewrite Entry_Some.
Qed.

Lemma Next_fstate_base (I J : nat) :
  (I < nb)%nat ->
  BaseDeltaIterator.Next cmp (fstate true false I J)
  = loop (S nd) (fstate true false (S I) J).
Proof.
  intros HI. unfold BaseDeltaIterator.Next. rewrite Valid_fstate.
  apply Nat.ltb_lt in HI. rewrite HI. cbn [negb].
  unfold BaseDeltaIterator.Advance.
  cbn [BaseDeltaIteratorSpec.fstate BaseDeltaIteratorSpec.mkst
       BaseDeltaIterator.forward_ BaseDeltaIterator.equal_keys_
       BaseDeltaIterator.current_at_base_ negb].
  change (BaseDeltaIterator.mk true true false OK
            (Cursor.mk B (fpos I nb) OK) (Cursor.mk D (fpos J nd) OK) ub)
    with (fstate true false I J).
  rewrite AdvanceBase_fstate by (now apply Nat.ltb_lt). reflexivity.
Qed.

Lemma Next_fstate_delta (e : bool) (I J : nat) :
  (J < nd)%nat -> (e = true -> (I < nb)%nat) ->
  BaseDeltaIterator.Next cmp (fstate false e I J)
  = loop (S nd) (if e then fstate false true (S I) (S J)
                 else fstate false false I (S J)).
Proof.
  intros HJ HI. unfold BaseDeltaIterator.Next. rewrite Valid_fstate.
  pose proof HJ as HJ'. apply Nat.ltb_lt in HJ'. rewrite HJ'. cbn [negb].
  unfold BaseDeltaIterator.Advance.
  cbn [BaseDeltaIteratorSpec.fstate BaseDeltaIteratorSpec.mkst
       BaseDeltaIterator.forward_ BaseDeltaIterator.equal_keys_
       BaseDeltaIterator.current_at_base_ negb].
  change (BaseDeltaIterator.mk true false e OK
            (Cursor.mk B (fpos I nb) OK) (Cursor.mk D (fpos J nd) OK) ub)
    with (fstate false e I J).
  destruct e.
  - rewrite AdvanceBase_fstate by auto. rewrite AdvanceDelta_fstate by auto.
    reflexivity.
  - rewrite AdvanceDelta_fstate by auto. reflexivity.
Qed.

Lemma SeekToLast_fpos_end {A : Type} (l : list A) :
  Cursor.SeekToLast (Cursor.mk l (fpos (length l) (length l)) OK)
  = Cursor.mk l (bpos (length l)) OK.
Proof.
  unfold Cursor.SeekToLast, Cursor.set_pos. cbn [Cursor.items Cursor.status].
  now destruct l.
Qed.

Lemma Prev_Some {A : Type} (l : list A) (n : nat) :
  Cursor.Prev (Cursor.mk l (Some n) OK) = Cursor.mk l (bpos n) OK.
Proof. now destruct n. Qed.

Lemma Prev_fstate_base (I J : nat) :
  (I < nb)%nat -> (J <= nd)%nat -> F1 I J ->
  BaseDeltaIterator.Prev cmp (fstate true false I J)
  = loop (S nd) (bstate true false I J).
Proof.
  intros HI HJ HF1. unfold BaseDeltaIterator.Prev. rewrite Valid_fstate.
  pose proof HI as HI'. apply Nat.ltb_lt in HI'. rewrite HI'. cbn [negb].
  assert (Hcd : BaseDeltaIterator.ChangeDirection cmp false (fstate true false I J)
                = bstate true false (S I) J).
  { unfold BaseDeltaIterator.ChangeDirection.
    unfold BaseDeltaIterator.BaseValid, BaseDeltaIterator.DeltaValid,
      BaseDeltaIterator.AdvanceDelta, BaseDeltaIterator.AdvanceBase,
      Iterator.Valid, WBWIIterator.Valid, WBWIIterator.SeekToLast,
      WBWIIterator.Prev, Iterator.Prev, Iterator.SeekToLast,
      BaseDeltaIteratorSpec.fstate, BaseDeltaIteratorSpec.bstate,
      BaseDeltaIteratorSpec.mkst,
      BaseDeltaIterator.set_forward, BaseDeltaIterator.set_equal_keys,
      BaseDeltaIterator.set_delta, BaseDeltaIterator.set_base.
    cbn [BaseDeltaIterator.forward_ BaseDeltaIterator.equal_keys_
         BaseDeltaIterator.current_at_base_ BaseDeltaIterator.status_
         BaseDeltaIterator.base_iterator_ BaseDeltaIterator.delta_iterator_
         BaseDeltaIterator.iterate_upper_bound_].
    rewrite !Valid_fpos. rewrite HI'. cbn [negb].
    assert (Ed : (if negb (J <? nd)%nat
                  then Cursor.SeekToLast (Cursor.mk D (fpos J nd) OK)
                  else Cursor.Prev (Cursor.mk D (fpos J nd) OK))
                 = Cursor.mk D (bpos J) OK).
    { destruct (Nat.ltb_spec J nd) as [Hlt|Hge]; cbn [negb].
      - rewrite (fpos_lt J nd Hlt). apply Prev_Some.
      - assert (J = nd) by lia. subst J. apply SeekToLast_fpos_end. }
    destruct (negb (J <? nd)%nat) eqn:En;
      cbn [BaseDeltaIterator.delta_iterator_ BaseDeltaIterator.base_iterator_];
      rewrite Ed; rewrite (fpos_lt I nb HI);
      rewrite (Valid_bpos D J HJ);
      (destruct J as [|J']; cbn [Nat.ltb Nat.leb andb bpos]; [reflexivity|]);
      rewrite Valid_Some, HI', Entry_Some, key_Some;
      unfold Equal;
      (assert (Hc : cmp (dk J') (bk I) < 0) by (apply HF1; lia));
      change (entry_key (de J')) with (dk J');
      (destruct (Z.eqb_spec (cmp (dk J') (bk I)) 0); [lia | reflexivity]). }
  cbn [BaseDeltaIteratorSpec.fstate BaseDeltaIteratorSpec.mkst
       BaseDeltaIterator.forward_] in *.
  rewrite Hcd. unfold BaseDeltaIterator.Advance.
  cbn [BaseDeltaIteratorSpec.bstate BaseDeltaIteratorSpec.mkst
       BaseDeltaIterator.equal_keys_ BaseDeltaIterator.current_at_base_].
  change (BaseDeltaIterator.mk false true false OK
            (Cursor.mk B (bpos (S I)) OK) (Cursor.mk D (bpos J) OK) ub)
    with (bstate true false (S I) J).
  rewrite AdvanceBase_bstate. reflexivity.
Qed.

Lemma Prev_fstate_delta (e : bool) (I J : nat) :
  (J < nd)%nat -> (I <= nb)%nat ->
  BaseDeltaIterator.Prev cmp (fstate false e I J)
  = loop (S nd)
      (match I with
       | O => bstate false false 0 J
       | S I' =>
           if cmp (dk J) (bk I') =? 0 then bstate false true I' J
           else bstate false false I J
       end).
Proof.
  intros HJ HI. unfold BaseDeltaIterator.Prev. rewrite Valid_fstate.
  pose proof HJ as HJ'. apply Nat.ltb_lt in HJ'. rewrite HJ'. cbn [negb].
  assert (Hcd : BaseDeltaIterator.ChangeDirection cmp false (fstate false e I J)
                = match I with
                  | O => bstate false false 0 (S J)
                  | S I' => bstate false (cmp (dk J) (bk I') =? 0) I (S J)
                  end).
  { unfold BaseDeltaIterator.ChangeDirection.
    unfold BaseDeltaIterator.BaseValid, BaseDeltaIterator.DeltaValid,
      BaseDeltaIterator.AdvanceDelta, BaseDeltaIterator.AdvanceBase,
      Iterator.Valid, WBWIIterator.Valid, WBWIIterator.SeekToLast,
      WBWIIterator.Prev, Iterator.Prev, Iterator.SeekToLast,
      BaseDeltaIteratorSpec.fstate, BaseDeltaIteratorSpec.bstate,
      BaseDeltaIteratorSpec.mkst,
      BaseDeltaIterator.set_forward, BaseDeltaIterator.set_equal_keys,
      BaseDeltaIterator.set_delta, BaseDeltaIterator.set_base.
    cbn [BaseDeltaIterator.forward_ BaseDeltaIterator.equal_keys_
         BaseDeltaIterator.current_at_base_ BaseDeltaIterator.status_
         BaseDeltaIterator.base_iterator_ BaseDeltaIterator.delta_iterator_
         BaseDeltaIterator.iterate_upper_bound_].
    rewrite !Valid_fpos. rewrite HJ'. cbn [negb].
    assert (Eb : (if negb (I <? nb)%nat
                  then Cursor.SeekToLast (Cursor.mk B (fpos I nb) OK)
                  else Cursor.Prev (Cursor.mk B (fpos I nb) OK))
                 = Cursor.mk B (bpos I) OK).
    { destruct (Nat.ltb_spec I nb) as [Hlt|Hge]; cbn [negb].
      - rewrite (fpos_lt I nb Hlt). apply Prev_Some.
      - assert (I = nb) by lia. subst I. apply SeekToLast_fpos_end. }
    destruct (negb (I <? nb)%nat) eqn:En;
      cbn [BaseDeltaIterator.delta_iterator_ BaseDeltaIterator.base_iterator_];
      rewrite Eb; rewrite (fpos_lt J nd HJ);
      rewrite (Valid_bpos B I HI), Valid_Some, HJ';
      (destruct I as [|I']; cbn [Nat.ltb Nat.leb andb bpos]; [reflexivity|]);
      rewrite Entry_Some, key_Some; unfold Equal;
      change (entry_key (de J)) with (dk J);
      (destruct (cmp (dk J) (bk I') =? 0); reflexivity). }
  cbn [BaseDeltaIteratorSpec.fstate BaseDeltaIteratorSpec.mkst
       BaseDeltaIterator.forward_] in *.
  rewrite Hcd. unfold BaseDeltaIterator.Advance.
  destruct I as [|I'].
  - cbn [BaseDeltaIteratorSpec.bstate BaseDeltaIteratorSpec.mkst
         BaseDeltaIterator.equal_keys_ BaseDeltaIterator.current_at_base_].
    change (BaseDeltaIterator.mk false false false OK
              (Cursor.mk B (bpos 0) OK) (Cursor.mk D (bpos (S J)) OK) ub)
      with (bstate false false 0 (S J)).
    rewrite AdvanceDelta_bstate. reflexivity.
  - destruct (cmp (dk J) (bk I') =? 0);
      cbn [BaseDeltaIteratorSpec.bstate BaseDeltaIteratorSpec.mkst
           BaseDeltaIterator.equal_keys_ BaseDeltaIterator.current_at_base_].
    + change (BaseDeltaIterator.mk false false true OK
                (Cursor.mk B (bpos (S I')) OK) (Cursor.mk D (bpos (S J)) OK) ub)
        with (bstate false true (S I') (S J)).
      rewrite AdvanceBase_bstate, AdvanceDelta_bstate. reflexivity.
    + change (BaseDeltaIterator.mk false false false OK
                (Cursor.mk B (bpos (S I')) OK) (Cursor.mk D (bpos (S J)) OK) ub)
        with (bstate false false (S I') (S J)).
      rewrite AdvanceDelta_bstate. reflexivity.
Qed.

(** *** Back to the entry presented before *)

Lemma ub_hit_false (j : nat) (x : Slice) :
  (forall u, ub = Some u -> cmp x u < 0) -> cmp (dk j) x <= 0 ->
  ub_hit j = false.
Proof.
  intros Hx Hj. unfold BaseDeltaIteratorSpec.ub_hit. destruct ub as [u|]; auto.
  apply Z.leb_gt. apply (cmp_le_lt_trans _ cmp cmp_ok) with x; auto.
Qed.

Lemma fwd_result_valid (cab : bool) (I J : nat) (r : BaseDeltaIterator.t) :
  fwd_result cab I J r ->
  BaseDeltaIterator.Valid r = true ->
  (forall u, ub = Some u -> cmp (BaseDeltaIterator.key r) u < 0) ->
  (r = fstate true false I J /\ (I < nb)%nat /\
   ((J < nd)%nat -> 0 < cmp (dk J) (bk I)))
  \/
  (exists e, r = fstate false e I J /\ (J < nd)%nat /\ tomb J = false /\
             ((I < nb)%nat ->
              cmp (dk J) (bk I) <= 0 /\ e = (cmp (dk J) (bk I) =? 0)) /\
             ((nb <= I)%nat -> e = false /\ ub_hit J = false)).
Proof.
  intros [H|[H|(-> & HI & HJ)]] Hv Hub; auto. exfalso.
  rewrite Valid_fstate in Hv.
  destruct cab.
  - apply Nat.ltb_lt in Hv. lia.
  - apply Nat.ltb_lt in Hv. destruct HJ as [HJ|HJ]; [lia|].
    rewrite key_fstate_delta in Hub by auto.
    rewrite (ub_hit_false J (dk J)) in HJ; [discriminate | auto |].
    rewrite (cmp_refl _ cmp cmp_ok). lia.
Qed.

Lemma back_to_base (I1 J1 I2 J2 : nat) (it2 : BaseDeltaIterator.t) :
  (I1 < nb)%nat ->
  ((J1 < nd)%nat -> 0 < cmp (dk J1) (bk I1)) ->
  F1 I1 J1 ->
  SkipInv (S I1) J1 I2 J2 ->
  fwd_result true I2 J2 it2 ->
  BaseDeltaIterator.Valid it2 = true ->
  (forall u, ub = Some u -> cmp (BaseDeltaIterator.key it2) u < 0) ->
  BaseDeltaIterator.Prev cmp it2 = bstate true false (S I1) J1.
Proof.
  intros HI1 Hgt HF1 Hinv Hres Hv Hub.
  pose proof Hinv as (HI & HJ & H1 & H2 & Hs & Ht).
  assert (HA : forall j, (J1 <= j < nd)%nat -> 0 < cmp (dk j) (bk I1)).
  { intros j Hj. apply (cmp_lt_gt _ cmp cmp_ok).
    apply (cmp_lt_le_trans _ cmp cmp_ok) with (dk J1).
    - apply (cmp_lt_gt _ cmp cmp_ok). apply Hgt. lia.
    - apply dk_le; lia. }
  assert (HF : forall j, (j < J1)%nat -> cmp (dk j) (bk I1) < 0).
  { intros j Hj. apply HF1; auto. lia. }
  destruct (fwd_result_valid _ _ _ _ Hres Hv Hub)
    as [(-> & HI2 & Hc2)|(e & -> & HJ2 & Htomb & Hlt & Hge)].
  - rewrite Prev_fstate_base by (auto; lia).
    rewrite key_fstate_base in Hub by auto.
    apply (loop_bwd_base I1 J1 HA HF); [lia| |lia].
    split; [lia|]. split; [lia|]. split; [auto|]. split; [auto|].
    intros j Hj. apply (ub_hit_false j (bk I2)); auto.
    assert (cmp (dk j) (bk I2) < 0) by (apply H1; lia). lia.
  - rewrite Prev_fstate_delta by (auto; lia).
    rewrite key_fstate_delta in Hub by auto.
    assert (Hsafe : forall j, (j < J2)%nat -> ub_hit j = false).
    { intros j Hj. apply (ub_hit_false j (dk J2)); auto. apply dk_le; lia. }
    destruct I2 as [|I']; [lia|].
    destruct (Z.eqb_spec (cmp (dk J2) (bk I')) 0) as [Hz|Hz].
    + assert (I' <> I1) by (intros ->; specialize (HA J2); lia).
      apply (loop_bwd_base I1 J1 HA HF); [lia| |lia].
      split; [lia|]. split; [lia|]. split; [auto|]. split; [|auto].
      intros i Hi. destruct (Hs i) as (j & Hj & Hjc); [lia|]. eauto.
    + apply (loop_bwd_base I1 J1 HA HF); [lia| |lia].
      split; [lia|]. split; [lia|]. split; [auto|]. split; auto.
Qed.

Lemma back_to_delta (Ia J1 I2 J2 : nat) (it2 : BaseDeltaIterator.t) :
  (J1 < nd)%nat -> tomb J1 = false ->
  (forall i, (i < Ia)%nat -> (i < nb)%nat -> cmp (bk i) (dk J1) <= 0) ->
  SkipInv Ia (S J1) I2 J2 ->
  fwd_result false I2 J2 it2 ->
  BaseDeltaIterator.Valid it2 = true ->
  (forall u, ub = Some u -> cmp (BaseDeltaIterator.key it2) u < 0) ->
  exists I' e, BaseDeltaIterator.Prev cmp it2 = bstate false e I' (S J1).
Proof.
  intros HJ1 Htomb1 HB Hinv Hres Hv Hub.
  pose proof Hinv as (HI & HJ & H1 & H2 & Hs & Ht).
  destruct (fwd_result_valid _ _ _ _ Hres Hv Hub)
    as [(-> & HI2 & Hc2)|(e & -> & HJ2 & Htomb & Hlt & Hge)].
  - rewrite Prev_fstate_base by (auto; lia).
    rewrite key_fstate_base in Hub by auto.
    apply (loop_bwd_delta Ia J1 HJ1 Htomb1 HB); [lia|].
    split; [lia|]. split; [lia|]. split; [auto|]. split; [auto|].
    intros j Hj. apply (ub_hit_false j (bk I2)); auto.
    assert (cmp (dk j) (bk I2) < 0) by (apply H1; lia). lia.
  - rewrite Prev_fstate_delta by (auto; lia).
    rewrite key_fstate_delta in Hub by auto.
    assert (Hsafe : forall j, (j < J2)%nat -> ub_hit j = false).
    { intros j Hj. apply (ub_hit_false j (dk J2)); auto. apply dk_le; lia. }
    destruct I2 as [|I'].
    + apply (loop_bwd_delta Ia J1 HJ1 Htomb1 HB); [lia|].
      split; [lia|]. split; [lia|]. split; [auto|]. split; auto.
    + destruct (Z.eqb_spec (cmp (dk J2) (bk I')) 0) as [Hz|Hz].
      * apply (loop_bwd_delta Ia J1 HJ1 Htomb1 HB); [lia|].
        split; [lia|]. split; [lia|]. split; [auto|]. split; [|auto].
        intros i Hi. destruct (Hs i) as (j & Hj & Hjc); [lia|]. eauto.
      * apply (loop_bwd_delta Ia J1 HJ1 Htomb1 HB); [lia|].
        split; [lia|]. split; [lia|]. split; [auto|]. split; auto.
Qed.

(** *** Seek *)

Lemma ok_OK (s : Status) : ok s = true -> s = OK.
Proof. destruct s; simpl; auto; discriminate. Qed.

Lemma UpdateCurrent_loop_status (fuel : nat) (fwd cab eq : bool)
      (b : Iterator.t) (d : WBWIIterator.t) (u : option Slice) :
  BaseDeltaIterator.Valid
    (BaseDeltaIterator.UpdateCurrent_loop cmp (S fuel)
       (BaseDeltaIterator.mk fwd cab eq OK b d u)) = true ->
  Cursor.status b = OK /\ Cursor.status d = OK.
Proof.
  destruct b as [bi bp bs], d as [di dp ds].
  cbn [BaseDeltaIterator.UpdateCurrent_loop Cursor.status].
  unfold BaseDeltaIterator.DeltaValid, BaseDeltaIterator.BaseValid,
    WBWIIterator.Valid, Iterator.Valid, WBWIIterator.status, Iterator.status,
    BaseDeltaIterator.set_equal_keys, BaseDeltaIterator.set_current_at_base.
  cbn [BaseDeltaIterator.delta_iterator_ BaseDeltaIterator.base_iterator_
       BaseDeltaIterator.forward_ BaseDeltaIterator.current_at_base_
       BaseDeltaIterator.equal_keys_ BaseDeltaIterator.status_
       BaseDeltaIterator.iterate_upper_bound_ Cursor.status].
  destruct (ok ds) eqn:Eds.
  - destruct (ok bs) eqn:Ebs.
    + intros _. split; now apply ok_OK.
    + rewrite andb_false_r.
      assert (Eb : Cursor.Valid (Cursor.mk bi bp bs) = false)
        by (unfold Cursor.Valid; cbn [Cursor.status]; now rewrite Ebs).
      rewrite Eb. cbn [negb].
      unfold BaseDeltaIterator.Valid, BaseDeltaIterator.BaseValid, Iterator.Valid.
      cbn. rewrite Eb. discriminate.
  - assert (Ed : Cursor.Valid (Cursor.mk di dp ds) = false)
      by (unfold Cursor.Valid; cbn [Cursor.status]; now rewrite Eds).
    rewrite Ed. cbn [negb andb].
    unfold BaseDeltaIterator.Valid, BaseDeltaIterator.DeltaValid,
      WBWIIterator.Valid.
    cbn. rewrite Ed. discriminate.
Qed.

Lemma Seek_fstate (it : BaseDeltaIterator.t) (k : Slice) :
  Cursor.items (BaseDeltaIterator.base_iterator_ it) = B ->
  Cursor.items (BaseDeltaIterator.delta_iterator_ it) = D ->
  BaseDeltaIterator.iterate_upper_bound_ it = ub ->
  BaseDeltaIterator.Valid (BaseDeltaIterator.Seek cmp k it) = true ->
  exists I0 J0,
    (I0 <= nb)%nat /\ (J0 <= nd)%nat /\
    BaseDeltaIterator.Seek cmp k it
    = loop (S nd)
        (fstate (BaseDeltaIterator.current_at_base_ it)
                (BaseDeltaIterator.equal_keys_ it) I0 J0) /\
    (forall i, (i < I0)%nat -> cmp (bk i) k < 0) /\
    ((I0 < nb)%nat -> 0 <= cmp (bk I0) k) /\
    (forall j, (j < J0)%nat -> cmp (dk j) k < 0) /\
    ((J0 < nd)%nat -> 0 <= cmp (dk J0) k).
Proof.
  destruct it as [f c e s [bi bp bs] [di dp ds] u].
  cbn [BaseDeltaIterator.base_iterator_ BaseDeltaIterator.delta_iterator_
       BaseDeltaIterator.iterate_upper_bound_ Cursor.items
       BaseDeltaIterator.current_at_base_ BaseDeltaIterator.equal_keys_].
  intros -> -> -> Hv.
  unfold BaseDeltaIterator.Seek, BaseDeltaIterator.UpdateCurrent,
    BaseDeltaIterator.set_forward, BaseDeltaIterator.set_base,
    BaseDeltaIterator.set_delta, BaseDeltaIterator.set_status,
    Iterator.Seek, WBWIIterator.Seek, Cursor.Seek, Cursor.set_pos in *.
  cbn [BaseDeltaIterator.base_iterator_ BaseDeltaIterator.delta_iterator_
       BaseDeltaIterator.iterate_upper_bound_ Cursor.items Cursor.status
       BaseDeltaIterator.forward_ BaseDeltaIterator.current_at_base_
       BaseDeltaIterator.equal_keys_ BaseDeltaIterator.status_] in *.
  destruct (UpdateCurrent_loop_status _ _ _ _ _ _ _ Hv) as [Hbs Hds].
  cbn [Cursor.status] in Hbs, Hds. subst bs ds.
  destruct (find_first_spec (fun x : Slice * Slice => 0 <=? cmp (fst x) k)
              (EmptyString, EmptyString) B) as (I0 & HI0 & EI & HIlt & HIat).
  destruct (find_first_spec (fun x : WriteEntry => 0 <=? cmp (entry_key x) k)
              WriteEntry_default D) as (J0 & HJ0 & EJ & HJlt & HJat).
  exists I0, J0. rewrite EI, EJ.
  split; [exact HI0|]. split; [exact HJ0|]. split; [reflexivity|].
  split; [|split; [|split]].
  - intros i Hi. specialize (HIlt i Hi). apply Z.leb_gt in HIlt. exact HIlt.
  - intros H. specialize (HIat H). apply Z.leb_le in HIat. exact HIat.
  - intros j Hj. specialize (HJlt j Hj). apply Z.leb_gt in HJlt. exact HJlt.
  - intros H. specialize (HJat H). apply Z.leb_le in HJat. exact HJat.
Qed.

Lemma SkipInv_Seek (I0 J0 : nat) (k : Slice) :
  (I0 <= nb)%nat -> (J0 <= nd)%nat ->
  (forall i, (i < I0)%nat -> cmp (bk i) k < 0) ->
  ((I0 < nb)%nat -> 0 <= cmp (bk I0) k) ->
  (forall j, (j < J0)%nat -> cmp (dk j) k < 0) ->
  ((J0 < nd)%nat -> 0 <= cmp (dk J0) k) ->
  SkipInv I0 J0 I0 J0.
Proof.
  intros HI HJ HIlt HIat HJlt HJat.
  split; [lia|]. split; [lia|]. split; [|split; [|split]].
  - intros j Hj Hjd HIb.
    apply (cmp_lt_le_trans _ cmp cmp_ok) with k; auto.
    apply (cmp_le_ge _ cmp cmp_ok). auto.
  - intros i Hi Hib HJd.
    apply (cmp_le_trans _ cmp cmp_ok) with k.
    + specialize (HIlt i Hi). lia.
    + apply (cmp_le_ge _ cmp cmp_ok). auto.
  - intros i Hi. lia.
  - intros j Hj. lia.
Qed.

Lemma SkipInv_refl_after (I J : nat) :
  (I <= nb)%nat -> (J <= nd)%nat -> F1 I J -> F2 I J -> SkipInv I J I J.
Proof.
  intros HI HJ H1 H2. split; [lia|]. split; [lia|]. split; [auto|].
  split; [auto|]. split; intros x Hx; lia.
Qed.

(** *** Seek, Next, Prev *)

Lemma bstate_base_view (eq : bool) (I1 J : nat) :
  (I1 < nb)%nat ->
  BaseDeltaIterator.Valid (bstate true eq (S I1) J) = true /\
  BaseDeltaIterator.key (bstate true eq (S I1) J) = bk I1 /\
  BaseDeltaIterator.value (bstate true eq (S I1) J) = bv I1.
Proof.
  intros HI. unfold BaseDeltaIterator.Valid, BaseDeltaIterator.key,
    BaseDeltaIterator.value, BaseDeltaIterator.BaseValid, Iterator.Valid,
    BaseDeltaIteratorSpec.bstate, BaseDeltaIteratorSpec.mkst.
  cbn [BaseDeltaIterator.status_ BaseDeltaIterator.current_at_base_
       BaseDeltaIterator.base_iterator_ ok bpos].
  rewrite Valid_Some, key_Some, value_Some.
  apply Nat.ltb_lt in HI. now rewrite HI.
Qed.

Lemma fstate_base_view (eq : bool) (I1 J : nat) :
  (I1 < nb)%nat ->
  BaseDeltaIterator.key (fstate true eq I1 J) = bk I1 /\
  BaseDeltaIterator.value (fstate true eq I1 J) = bv I1.
Proof.
  intros HI. unfold BaseDeltaIterator.key, BaseDeltaIterator.value,
    BaseDeltaIteratorSpec.fstate, BaseDeltaIteratorSpec.mkst.
  cbn [BaseDeltaIterator.current_at_base_ BaseDeltaIterator.base_iterator_].
  rewrite (fpos_lt I1 nb HI). now rewrite key_Some, value_Some.
Qed.

Lemma bstate_delta_view (eq : bool) (I J1 : nat) :
  (J1 < nd)%nat ->
  BaseDeltaIterator.Valid (bstate false eq I (S J1)) = true /\
  BaseDeltaIterator.key (bstate false eq I (S J1)) = dk J1 /\
  BaseDeltaIterator.value (bstate false eq I (S J1)) = entry_value (de J1).
Proof.
  intros HJ. unfold BaseDeltaIterator.Valid, BaseDeltaIterator.key,
    BaseDeltaIterator.value, BaseDeltaIterator.DeltaValid, WBWIIterator.Valid,
    BaseDeltaIteratorSpec.bstate, BaseDeltaIteratorSpec.mkst.
  cbn [BaseDeltaIterator.status_ BaseDeltaIterator.current_at_base_
       BaseDeltaIterator.delta_iterator_ ok bpos].
  rewrite Valid_Some, Entry_Some.
  apply Nat.ltb_lt in HJ. now rewrite HJ.
Qed.

Lemma fstate_delta_view (eq : bool) (I J1 : nat) :
  (J1 < nd)%nat ->
  BaseDeltaIterator.key (fstate false eq I J1) = dk J1 /\
  BaseDeltaIterator.value (fstate false eq I J1) = entry_value (de J1).
Proof.
  intros HJ. unfold BaseDeltaIterator.key, BaseDeltaIterator.value,
    BaseDeltaIteratorSpec.fstate, BaseDeltaIteratorSpec.mkst.
  cbn [BaseDeltaIterator.current_at_base_ BaseDeltaIterator.delta_iterator_].
  rewrite (fpos_lt J1 nd HJ). now rewrite Entry_Some.
Qed.

Lemma Seek_Next_Prev_on (it : BaseDeltaIterator.t) (k : Slice) :
  Cursor.items (BaseDeltaIterator.base_iterator_ it) = B ->
  Cursor.items (BaseDeltaIterator.delta_iterator_ it) = D ->
  BaseDeltaIterator.iterate_upper_bound_ it = ub ->
  let it1 := BaseDeltaIterator.Seek cmp k it in
  let it2 := BaseDeltaIterator.Next cmp it1 in
  let it3 := BaseDeltaIterator.Prev cmp it2 in
  BaseDeltaIterator.Valid it1 = true ->
  BaseDeltaIterator.Valid it2 = true ->
  (forall u, ub = Some u ->
             cmp (BaseDeltaIterator.key it1) u < 0 /\
             cmp (BaseDeltaIterator.key it2) u < 0) ->
  BaseDeltaIterator.Valid it3 = true /\
  BaseDeltaIterator.current_at_base_ it3 = BaseDeltaIterator.current_at_base_ it1 /\
  BaseDeltaIterator.key it3 = BaseDeltaIterator.key it1 /\
  BaseDeltaIterator.value it3 = BaseDeltaIterator.value it1 /\
  0 <= cmp (BaseDeltaIterator.key it1) k.
Proof.
  intros HB HD Hu it1 it2 it3 Hv1 Hv2 Hub.
  assert (Hub1 : forall u, ub = Some u -> cmp (BaseDeltaIterator.key it1) u < 0)
    by (intros u E; now destruct (Hub u E)).
  assert (Hub2 : forall u, ub = Some u -> cmp (BaseDeltaIterator.key it2) u < 0)
    by (intros u E; now destruct (Hub u E)).
  clear Hub.
  destruct (Seek_fstate it k HB HD Hu Hv1)
    as (I0 & J0 & HI0 & HJ0 & E1 & HIlt & HIat & HJlt & HJat).
  pose proof (SkipInv_Seek I0 J0 k HI0 HJ0 HIlt HIat HJlt HJat) as Hinv0.
  destruct (loop_fwd I0 J0 (S nd) I0 J0
              (BaseDeltaIterator.current_at_base_ it)
              (BaseDeltaIterator.equal_keys_ it) ltac:(lia) Hinv0)
    as (I1 & J1 & Hinv1 & Hres1).
  fold it1 in E1. rewrite <- E1 in Hres1.
  pose proof Hinv1 as (HI1 & HJ1 & H11 & H21 & Hs1 & Ht1).
  destruct (fwd_result_valid _ _ _ _ Hres1 Hv1 Hub1)
    as [(E & HI1b & Hc1)|(e & E & HJ1d & Htomb1 & Hlt1 & Hge1)].
  - (* Seek stands on the base entry I1 *)
    assert (Hk : 0 <= cmp (bk I1) k).
    { apply (cmp_le_ge _ cmp cmp_ok).
      apply (cmp_le_trans _ cmp cmp_ok) with (bk I0).
      - apply (cmp_le_ge _ cmp cmp_ok). apply HIat. lia.
      - apply bk_le; lia. }
    assert (Hinv : SkipInv (S I1) J1 (S I1) J1).
    { apply SkipInv_refl_after; try lia.
      - intros j Hj Hjd HIb.
        apply (cmp_lt_trans _ cmp cmp_ok) with (bk I1); [apply H11; auto|].
        apply bk_lt; lia.
      - intros i Hi Hib HJd.
        apply (cmp_le_trans _ cmp cmp_ok) with (bk I1); [apply bk_le; lia|].
        specialize (Hc1 HJd). apply (cmp_lt_gt _ cmp cmp_ok) in Hc1. lia. }
    destruct (loop_fwd (S I1) J1 (S nd) (S I1) J1 true false ltac:(lia) Hinv)
      as (I2 & J2 & Hinv2 & Hres2).
    assert (E2 : it2 = loop (S nd) (fstate true false (S I1) J1)).
    { unfold it2. rewrite E. now apply Next_fstate_base. }
    rewrite <- E2 in Hres2.
    pose proof (back_to_base I1 J1 I2 J2 it2 HI1b Hc1 H11 Hinv2 Hres2 Hv2 Hub2)
      as E3.
    fold it3 in E3. rewrite E3, E.
    destruct (bstate_base_view false I1 J1 HI1b) as (Hv & Hkey & Hval).
    destruct (fstate_base_view false I1 J1 HI1b) as (Hkey' & Hval').
    rewrite Hv, Hkey, Hval, Hkey', Hval'. repeat split; auto.
  - (* Seek stands on the delta entry J1 *)
    assert (Hk : 0 <= cmp (dk J1) k).
    { apply (cmp_le_ge _ cmp cmp_ok).
      apply (cmp_le_trans _ cmp cmp_ok) with (dk J0).
      - apply (cmp_le_ge _ cmp cmp_ok). apply HJat. lia.
      - apply dk_le; lia. }
    assert (He : e = true -> (I1 < nb)%nat).
    { intros ->. destruct (Nat.lt_ge_cases I1 nb) as [H|H]; auto.
      destruct (Hge1 H). discriminate. }
    set (Ia := if e then S I1 else I1).
    assert (Hinv : SkipInv Ia (S J1) Ia (S J1)).
    { unfold Ia. destruct e.
      - specialize (He eq_refl). destruct (Hlt1 He) as [Hc Hez].
        symmetry in Hez. apply Z.eqb_eq in Hez.
        apply SkipInv_refl_after; try lia.
        + apply F1_diag_step; auto.
        + apply F2_diag_step; auto.
          apply (cmp_eq_sym _ cmp cmp_ok) in Hez. lia.
      - apply SkipInv_refl_after; try lia.
        + apply F1_delta_step; auto. intros HIb.
          destruct (Hlt1 HIb) as [Hc Hez].
          symmetry in Hez. apply Z.eqb_neq in Hez. lia.
        + apply F2_delta_step; auto. }
    destruct (loop_fwd Ia (S J1) (S nd) Ia (S J1) false e ltac:(lia) Hinv)
      as (I2 & J2 & Hinv2 & Hres2).
    assert (E2 : it2 = loop (S nd) (fstate false e Ia (S J1))).
    { unfold it2. rewrite E. rewrite Next_fstate_delta by auto.
      unfold Ia. now destruct e. }
    rewrite <- E2 in Hres2.
    assert (HBl : forall i, (i < Ia)%nat -> (i < nb)%nat ->
                            cmp (bk i) (dk J1) <= 0).
    { intros i Hi Hib. unfold Ia in Hi. destruct e.
      - specialize (He eq_refl). destruct (Hlt1 He) as [Hc Hez].
        symmetry in Hez. apply Z.eqb_eq in Hez.
        apply (cmp_le_trans _ cmp cmp_ok) with (bk I1); [apply bk_le; lia|].
        apply (cmp_eq_sym _ cmp cmp_ok) in Hez. lia.
      - apply H21; auto. }
    destruct (back_to_delta Ia J1 I2 J2 it2 HJ1d Htomb1 HBl Hinv2 Hres2 Hv2 Hub2)
      as (I' & e' & E3).
    fold it3 in E3. rewrite E3, E.
    destruct (bstate_delta_view e' I' J1 HJ1d) as (Hv & Hkey & Hval).
    destruct (fstate_delta_view e I1 J1 HJ1d) as (Hkey' & Hval').
    rewrite Hv, Hkey, Hval, Hkey', Hval'. repeat split; auto.
Qed.

End Facts.

Local Open Scope string_scope.

(** C3.  For the base+delta merge iterator over a base in strictly
    increasing key order and a delta in key order, and for every key [k]
    within the valid ranges (the iterator is Valid after Seek(k) and after
    the following Next, and, when an upper bound is set, the keys at both
    positions are below it): Seek(k), Next, Prev leaves the iterator Valid at
    the position of Seek(k) alone (same side, same key, same value), whose
    key is [>= k].  In particular, with base {("a","A"), ("c","C")} and
    delta {Put("b","B")}, SeekToFirst, Next, Next, Prev yields the keys
    a, b, c, b. *)
Theorem Seek_Next_Prev :
  (forall (cmp : Comparator) (it : BaseDeltaIterator.t) (k : Slice),
      Comparator_ok cmp ->
      base_sorted cmp (Cursor.items (BaseDeltaIterator.base_iterator_ it)) ->
      delta_sorted cmp (Cursor.items (BaseDeltaIterator.delta_iterator_ it)) ->
      let it1 := BaseDeltaIterator.Seek cmp k it in
      let it2 := BaseDeltaIterator.Next cmp it1 in
      let it3 := BaseDeltaIterator.Prev cmp it2 in
      BaseDeltaIterator.Valid it1 = true ->
      BaseDeltaIterator.Valid it2 = true ->
      (forall u, BaseDeltaIterator.iterate_upper_bound_ it = Some u ->
                 cmp (BaseDeltaIterator.key it1) u < 0 /\
                 cmp (BaseDeltaIterator.key it2) u < 0) ->
      BaseDeltaIterator.Valid it3 = true /\
      BaseDeltaIterator.current_at_base_ it3
      = BaseDeltaIterator.current_at_base_ it1 /\
      BaseDeltaIterator.key it3 = BaseDeltaIterator.key it1 /\
      BaseDeltaIterator.value it3 = BaseDeltaIterator.value it1 /\
      0 <= cmp (BaseDeltaIterator.key it1) k)
  /\
  (let it := BaseDeltaIterator.new
               (Cursor.mk [("a", "A"); ("c", "C")] None OK)
               (Cursor.mk [mkWriteEntry kPutRecord "b" "B" false] None OK)
               None in
   let it1 := BaseDeltaIterator.SeekToFirst BytewiseComparator it in
   let it2 := BaseDeltaIterator.Next BytewiseComparator it1 in
   let it3 := BaseDeltaIterator.Next BytewiseComparator it2 in
   let it4 := BaseDeltaIterator.Prev BytewiseComparator it3 in
   map BaseDeltaIterator.key [it1; it2; it3; it4] = ["a"; "b"; "c"; "b"] /\
   map BaseDeltaIterator.Valid [it1; it2; it3; it4] = [true; true; true; true]).
Proof.
  split.
  - intros cmp it k Hok HB HD it1 it2 it3 Hv1 Hv2 Hub.
    exact (Seek_Next_Prev_on cmp Hok _ _ _ HB HD it k eq_refl eq_refl eq_refl
             Hv1 Hv2 Hub).
  - split; reflexivity.
Qed.

Lemma Seek_Next_Prev_witness :
  let it1 := BaseDeltaIterator.Seek BytewiseComparator "b" BaseDeltaIteratorInputs.mixed in
  let it2 := BaseDeltaIterator.Next BytewiseComparator it1 in
  let it3 := BaseDeltaIterator.Prev BytewiseComparator it2 in
  (BaseDeltaIterator.key it1 = "b" /\ BaseDeltaIterator.key it2 = "d") /\
  BaseDeltaIterator.Valid it3 = true /\
  BaseDeltaIterator.current_at_base_ it3
  = BaseDeltaIterator.current_at_base_ it1 /\
  BaseDeltaIterator.key it3 = BaseDeltaIterator.key it1 /\
  BaseDeltaIterator.value it3 = BaseDeltaIterator.value it1 /\
  0 <= BytewiseComparator (BaseDeltaIterator.key it1) "b".
Proof.
  split; [split; reflexivity|].
  apply (proj1 Seek_Next_Prev BytewiseComparator BaseDeltaIteratorInputs.mixed "b" BytewiseComparator_ok).
  - repeat constructor.
  - repeat constructor; vm_compute; discriminate.
  - reflexivity.
  - reflexivity.
  - intros u Hu. discriminate.
Defined.

(** With an upper bound the condition on the keys cannot be dropped: over
    the base {1}, the delta {Put 0} and the upper bound 0, Seek(0) presents
    the delta key 0, Next presents the base key 1, and Prev leaves the
    iterator not Valid. *)
Example Seek_Next_Prev_at_upper_bound :
  let it := BaseDeltaIterator.new
              (Cursor.mk [("1", "b")] None OK)
              (Cursor.mk [mkWriteEntry kPutRecord "0" "d" false] None OK)
              (Some "0") in
  let it1 := BaseDeltaIterator.Seek BytewiseComparator "0" it in
  let it2 := BaseDeltaIterator.Next BytewiseComparator it1 in
  let it3 := BaseDeltaIterator.Prev BytewiseComparator it2 in
  (BaseDeltaIterator.Valid it1 = true /\ BaseDeltaIterator.key it1 = "0") /\
  (BaseDeltaIterator.Valid it2 = true /\ BaseDeltaIterator.key it2 = "1") /\
  BaseDeltaIterator.Valid it3 = false.
Proof. repeat split. Qed.

End BaseDeltaIteratorFacts.

(** ** The base+delta iterator without an upper bound shows no tombstone *)

Module BaseDeltaIteratorTombstones.
Import BaseDeltaIteratorSpec.

Section Tombstones.
Variable cmp : Comparator.

Local Abbreviation loop := (BaseDeltaIterator.UpdateCurrent_loop cmp).

Lemma DeltaValid_pos (it : BaseDeltaIterator.t) :
  BaseDeltaIterator.DeltaValid it = true ->
  exists i, Cursor.pos (BaseDeltaIterator.delta_iterator_ it) = Some i /\
            (i < length (Cursor.items (BaseDeltaIterator.delta_iterator_ it)))%nat.
Proof.
  unfold BaseDeltaIterator.DeltaValid, WBWIIterator.Valid, Cursor.Valid,
    Cursor.current.
  destruct (Cursor.pos (BaseDeltaIterator.delta_iterator_ it)) as [i|];
    [|rewrite andb_false_r; discriminate].
  intros H. exists i. split; auto.
  apply andb_true_iff in H. destruct H as [_ H].
  destruct (nth_error _ i) eqn:E; [|discriminate].
  apply nth_error_Some. congruence.
Qed.

Lemma delta_steps_le (it : BaseDeltaIterator.t) :
  (delta_steps it
   <= length (Cursor.items (BaseDeltaIterator.delta_iterator_ it)))%nat.
Proof.
  unfold delta_steps.
  destruct (BaseDeltaIterator.DeltaValid it) eqn:Hv; [|lia].
  destruct (DeltaValid_pos it Hv) as (i & -> & Hi).
  destruct (BaseDeltaIterator.forward_ it); lia.
Qed.

Lemma delta_steps_AdvanceDelta (it : BaseDeltaIterator.t) :
  BaseDeltaIterator.DeltaValid it = true ->
  (delta_steps (BaseDeltaIterator.AdvanceDelta it) < delta_steps it)%nat.
Proof.
  intros Hv. destruct (DeltaValid_pos it Hv) as (i & Hp & Hi).
  unfold delta_steps at 2. rewrite Hv, Hp.
  destruct it as [f c e s b [di dp ds]].
  cbn [BaseDeltaIterator.delta_iterator_ Cursor.pos Cursor.items
       BaseDeltaIterator.forward_] in *. subst dp.
  unfold delta_steps, BaseDeltaIterator.AdvanceDelta, BaseDeltaIterator.DeltaValid.
  cbn [BaseDeltaIterator.forward_].
  destruct f;
    cbn [BaseDeltaIterator.set_delta BaseDeltaIterator.delta_iterator_
         BaseDeltaIterator.forward_];
    match goal with
    | |- context [if ?c then _ else _] => destruct c
    end; try lia;
    unfold WBWIIterator.Next, WBWIIterator.Prev, Cursor.Next, Cursor.Prev,
      Cursor.set_pos; cbn [Cursor.pos Cursor.items].
  - destruct (S i <? length di)%nat eqn:E; [|lia].
    apply Nat.ltb_lt in E. lia.
  - destruct i; lia.
Qed.

Lemma AdvanceDelta_fields (it : BaseDeltaIterator.t) :
  BaseDeltaIterator.iterate_upper_bound_ (BaseDeltaIterator.AdvanceDelta it)
  = BaseDeltaIterator.iterate_upper_bound_ it.
Proof. unfold BaseDeltaIterator.AdvanceDelta. now destruct (BaseDeltaIterator.forward_ it). Qed.

Lemma AdvanceBase_fields (it : BaseDeltaIterator.t) :
  BaseDeltaIterator.iterate_upper_bound_ (BaseDeltaIterator.AdvanceBase it)
  = BaseDeltaIterator.iterate_upper_bound_ it /\
  delta_steps (BaseDeltaIterator.AdvanceBase it) = delta_steps it.
Proof. unfold BaseDeltaIterator.AdvanceBase. now destruct (BaseDeltaIterator.forward_ it). Qed.

Lemma presents_tombstone_at_base (r : BaseDeltaIterator.t) :
  BaseDeltaIterator.current_at_base_ r = true -> presents_tombstone r = false.
Proof.
  intros Hc. unfold presents_tombstone. rewrite Hc. now rewrite andb_false_r.
Qed.

Lemma presents_tombstone_delta_invalid (r : BaseDeltaIterator.t) :
  BaseDeltaIterator.DeltaValid r = false ->
  BaseDeltaIterator.BaseValid r = false \/
  BaseDeltaIterator.current_at_base_ r = false ->
  presents_tombstone r = false.
Proof.
  intros Hd Hb. unfold presents_tombstone, BaseDeltaIterator.Valid.
  rewrite Hd. destruct (ok (BaseDeltaIterator.status_ r)); auto.
  destruct Hb as [Hb|Hb]; rewrite Hb; auto.
  now destruct (BaseDeltaIterator.current_at_base_ r).
Qed.

Lemma presents_tombstone_put (r : BaseDeltaIterator.t) :
  is_delete (type (WBWIIterator.Entry (BaseDeltaIterator.delta_iterator_ r)))
  = false ->
  presents_tombstone r = false.
Proof.
  intros H. unfold presents_tombstone. rewrite H. now rewrite andb_false_r.
Qed.

Lemma loop_no_tombstone (fuel : nat) : forall it : BaseDeltaIterator.t,
  BaseDeltaIterator.iterate_upper_bound_ it = None ->
  (delta_steps it < fuel)%nat ->
  presents_tombstone (loop fuel it) = false.
Proof.
  induction fuel as [|fuel IH]; intros it Hub Hsteps; [lia|].
  cbn [BaseDeltaIterator.UpdateCurrent_loop].
  set (it' := BaseDeltaIterator.set_equal_keys false it).
  change (BaseDeltaIterator.DeltaValid it')
    with (BaseDeltaIterator.DeltaValid it).
  change (BaseDeltaIterator.BaseValid it')
    with (BaseDeltaIterator.BaseValid it).
  change (BaseDeltaIterator.iterate_upper_bound_ it')
    with (BaseDeltaIterator.iterate_upper_bound_ it).
  rewrite Hub.
  assert (Hstep : BaseDeltaIterator.DeltaValid it = true ->
            presents_tombstone (loop fuel (BaseDeltaIterator.AdvanceDelta it'))
            = false).
  { intros Hdv. apply IH; [now rewrite AdvanceDelta_fields|].
    pose proof (delta_steps_AdvanceDelta it' Hdv) as H.
    change (delta_steps it') with (delta_steps it) in H. lia. }
  assert (Hstep2 : BaseDeltaIterator.DeltaValid it = true ->
            presents_tombstone
              (loop fuel (BaseDeltaIterator.AdvanceBase
                            (BaseDeltaIterator.AdvanceDelta
                               (BaseDeltaIterator.set_equal_keys true it'))))
            = false).
  { intros Hdv.
    destruct (AdvanceBase_fields
                (BaseDeltaIterator.AdvanceDelta
                   (BaseDeltaIterator.set_equal_keys true it'))) as [Hu Hs].
    apply IH; [now rewrite Hu, AdvanceDelta_fields|].
    rewrite Hs.
    pose proof (delta_steps_AdvanceDelta
                  (BaseDeltaIterator.set_equal_keys true it') Hdv) as H.
    change (delta_steps (BaseDeltaIterator.set_equal_keys true it'))
      with (delta_steps it) in H. lia. }
  destruct (BaseDeltaIterator.DeltaValid it) eqn:Hdv; cbn [negb andb].
  - specialize (Hstep eq_refl). specialize (Hstep2 eq_refl).
    destruct (BaseDeltaIterator.BaseValid it) eqn:Hbv; cbn [negb].
    + destruct (_ <=? 0); [|now apply presents_tombstone_at_base].
      destruct (is_delete (type (WBWIIterator.Entry
                                   (BaseDeltaIterator.delta_iterator_ it))))
        eqn:Htomb; cbn [negb].
      * destruct (_ =? 0).
        -- replace (BaseDeltaIterator.equal_keys_
                      (BaseDeltaIterator.AdvanceDelta
                         (BaseDeltaIterator.set_equal_keys true it')))
             with true
             by (unfold BaseDeltaIterator.AdvanceDelta;
                 now destruct (BaseDeltaIterator.forward_ _)).
           exact Hstep2.
        -- replace (BaseDeltaIterator.equal_keys_
                      (BaseDeltaIterator.AdvanceDelta it'))
             with false
             by (unfold BaseDeltaIterator.AdvanceDelta;
                 now destruct (BaseDeltaIterator.forward_ _)).
           exact Hstep.
      * apply presents_tombstone_put. now destruct (_ =? 0).
    + destruct (negb (ok (Iterator.status (BaseDeltaIterator.base_iterator_ it')))).
      * now apply presents_tombstone_at_base.
      * destruct (is_delete (type (WBWIIterator.Entry
                                     (BaseDeltaIterator.delta_iterator_ it))))
          eqn:Htomb; [exact Hstep|].
        now apply presents_tombstone_put.
  - clear Hstep Hstep2.
    destruct (negb (ok (WBWIIterator.status (BaseDeltaIterator.delta_iterator_ it)))).
    + apply presents_tombstone_delta_invalid; auto.
    + destruct (BaseDeltaIterator.BaseValid it) eqn:Hbv; cbn [negb].
      * now apply presents_tombstone_at_base.
      * destruct (negb (ok (Iterator.status (BaseDeltaIterator.base_iterator_ it')))).
        -- now apply presents_tombstone_at_base.
        -- apply presents_tombstone_delta_invalid; auto.
Qed.

Lemma UpdateCurrent_no_tombstone (it : BaseDeltaIterator.t) :
  BaseDeltaIterator.iterate_upper_bound_ it = None ->
  presents_tombstone (BaseDeltaIterator.UpdateCurrent cmp it) = false.
Proof.
  intros Hub. unfold BaseDeltaIterator.UpdateCurrent.
  apply loop_no_tombstone; auto.
  pose proof (delta_steps_le (BaseDeltaIterator.set_status OK it)) as H.
  change (BaseDeltaIterator.delta_iterator_ (BaseDeltaIterator.set_status OK it))
    with (BaseDeltaIterator.delta_iterator_ it) in H. lia.
Qed.

Lemma ChangeDirection_upper_bound (f : bool) (it : BaseDeltaIterator.t) :
  BaseDeltaIterator.iterate_upper_bound_ (BaseDeltaIterator.ChangeDirection cmp f it)
  = BaseDeltaIterator.iterate_upper_bound_ it.
Proof.
  unfold BaseDeltaIterator.ChangeDirection, BaseDeltaIterator.AdvanceDelta,
    BaseDeltaIterator.AdvanceBase.
  repeat match goal with
         | |- context [if ?c then _ else _] => destruct c
         end;
    reflexivity.
Qed.

Lemma Advance_no_tombstone (it : BaseDeltaIterator.t) :
  BaseDeltaIterator.iterate_upper_bound_ it = None ->
  presents_tombstone (BaseDeltaIterator.Advance cmp it) = false.
Proof.
  intros Hub. unfold BaseDeltaIterator.Advance.
  apply UpdateCurrent_no_tombstone.
  unfold BaseDeltaIterator.AdvanceDelta, BaseDeltaIterator.AdvanceBase.
  repeat match goal with
         | |- context [if ?c then _ else _] => destruct c
         end;
    exact Hub.
Qed.

(** X6.  Without an upper bound, no seek and no step leaves the iterator
    Valid on a Delete or SingleDelete of the delta, whatever the two cursors
    hold and wherever they stand. *)
Theorem run_no_tombstone (op : Operation) (it : BaseDeltaIterator.t) :
  BaseDeltaIterator.iterate_upper_bound_ it = None ->
  presents_tombstone (run cmp op it) = false.
Proof.
  intros Hub.
  destruct op; cbn [run];
    try (apply UpdateCurrent_no_tombstone; exact Hub).
  - unfold BaseDeltaIterator.Next.
    destruct (negb (BaseDeltaIterator.Valid it)).
    + reflexivity.
    + apply Advance_no_tombstone.
      destruct (negb (BaseDeltaIterator.forward_ it)); auto.
      now rewrite ChangeDirection_upper_bound.
  - unfold BaseDeltaIterator.Prev.
    destruct (negb (BaseDeltaIterator.Valid it)).
    + reflexivity.
    + apply Advance_no_tombstone.
      destruct (BaseDeltaIterator.forward_ it); auto.
      now rewrite ChangeDirection_upper_bound.
Qed.

End Tombstones.
End BaseDeltaIteratorTombstones.

(** ** The base+delta iterator: the state in which UpdateCurrent returns *)

Module BaseDeltaIteratorExit.
Import BaseDeltaIteratorSpec.

Section Exit.
Variable cmp : Comparator.

Local Abbreviation loop := (BaseDeltaIterator.UpdateCurrent_loop cmp).

Local Ltac fields it :=
  destruct it as [f c e s b d u];
  unfold at_exit, dir_compare, at_upper_bound, BaseDeltaIterator.DeltaValid,
    BaseDeltaIterator.BaseValid in *;
  cbn [BaseDeltaIterator.set_current_at_base BaseDeltaIterator.set_equal_keys
       BaseDeltaIterator.forward_ BaseDeltaIterator.current_at_base_
       BaseDeltaIterator.equal_keys_ BaseDeltaIterator.status_
       BaseDeltaIterator.base_iterator_ BaseDeltaIterator.delta_iterator_
       BaseDeltaIterator.iterate_upper_bound_] in *.

Lemma loop_at_exit (fuel : nat) : forall it : BaseDeltaIterator.t,
  (delta_steps it < fuel)%nat -> at_exit cmp (loop fuel it).
Proof.
  induction fuel as [|fuel IH]; intros it Hsteps; [lia|].
  cbn [BaseDeltaIterator.UpdateCurrent_loop].
  set (it' := BaseDeltaIterator.set_equal_keys false it).
  change (BaseDeltaIterator.DeltaValid it')
    with (BaseDeltaIterator.DeltaValid it).
  change (BaseDeltaIterator.BaseValid it')
    with (BaseDeltaIterator.BaseValid it).
  assert (Hstep : BaseDeltaIterator.DeltaValid it = true ->
            at_exit cmp (loop fuel (BaseDeltaIterator.AdvanceDelta it'))).
  { intros Hdv. apply IH.
    pose proof (BaseDeltaIteratorTombstones.delta_steps_AdvanceDelta it' Hdv) as H.
    change (delta_steps it') with (delta_steps it) in H. lia. }
  assert (Hstep2 : BaseDeltaIterator.DeltaValid it = true ->
            at_exit cmp
              (loop fuel (BaseDeltaIterator.AdvanceBase
                            (BaseDeltaIterator.AdvanceDelta
                               (BaseDeltaIterator.set_equal_keys true it'))))).
  { intros Hdv.
    destruct (BaseDeltaIteratorTombstones.AdvanceBase_fields
                (BaseDeltaIterator.AdvanceDelta
                   (BaseDeltaIterator.set_equal_keys true it'))) as [_ Hs].
    apply IH. rewrite Hs.
    pose proof (BaseDeltaIteratorTombstones.delta_steps_AdvanceDelta
                  (BaseDeltaIterator.set_equal_keys true it') Hdv) as H.
    change (delta_steps (BaseDeltaIterator.set_equal_keys true it'))
      with (delta_steps it) in H. lia. }
  clear IH Hsteps.
  destruct (BaseDeltaIterator.DeltaValid it) eqn:Hdv; cbn [negb andb].
  - specialize (Hstep eq_refl). specialize (Hstep2 eq_refl).
    destruct (BaseDeltaIterator.BaseValid it) eqn:Hbv; cbn [negb].
    + change ((if BaseDeltaIterator.forward_ it' then 1 else -1) *
              cmp (entry_key (WBWIIterator.Entry
                                (BaseDeltaIterator.delta_iterator_ it)))
                  (Iterator.key (BaseDeltaIterator.base_iterator_ it')))
        with (dir_compare cmp it).
      destruct (dir_compare cmp it <=? 0) eqn:Hc.
      * destruct (is_delete (type (WBWIIterator.Entry
                                     (BaseDeltaIterator.delta_iterator_ it))))
          eqn:Htomb; cbn [negb].
        -- destruct (dir_compare cmp it =? 0) eqn:Hz.
           ++ replace (BaseDeltaIterator.equal_keys_
                         (BaseDeltaIterator.AdvanceDelta
                            (BaseDeltaIterator.set_equal_keys true it')))
                with true
                by (unfold BaseDeltaIterator.AdvanceDelta;
                    now destruct (BaseDeltaIterator.forward_ _)).
              exact Hstep2.
           ++ replace (BaseDeltaIterator.equal_keys_
                         (BaseDeltaIterator.AdvanceDelta it'))
                with false
                by (unfold BaseDeltaIterator.AdvanceDelta;
                    now destruct (BaseDeltaIterator.forward_ _)).
              exact Hstep.
        -- clear Hstep Hstep2. subst it'.
           destruct (dir_compare cmp it =? 0) eqn:Hz; fields it;
             rewrite Hdv, Hbv, Hc, Hz, Htomb; auto.
      * clear Hstep Hstep2. subst it'. fields it.
        rewrite Hdv, Hbv, Hc. auto.
    + clear Hstep2. subst it'.
      destruct (ok (Iterator.status (BaseDeltaIterator.base_iterator_ it)))
        eqn:Hbs.
      * change (Iterator.status
                  (BaseDeltaIterator.base_iterator_
                     (BaseDeltaIterator.set_equal_keys false it)))
          with (Iterator.status (BaseDeltaIterator.base_iterator_ it)).
        rewrite Hbs. cbn [negb].
        change (match BaseDeltaIterator.iterate_upper_bound_
                        (BaseDeltaIterator.set_equal_keys false it) with
                | Some upper_bound =>
                    0 <=? cmp (entry_key (WBWIIterator.Entry
                                            (BaseDeltaIterator.delta_iterator_ it)))
                              upper_bound
                | None => false
                end) with (at_upper_bound cmp it).
        destruct (at_upper_bound cmp it) eqn:Hub.
        -- clear Hstep. fields it. rewrite Hdv, Hbv, Hbs, Hub. auto.
        -- destruct (is_delete (type (WBWIIterator.Entry
                                        (BaseDeltaIterator.delta_iterator_ it))))
             eqn:Htomb; [exact Hstep|].
           clear Hstep. fields it. rewrite Hdv, Hbv, Hbs, Htomb. auto.
      * change (Iterator.status
                  (BaseDeltaIterator.base_iterator_
                     (BaseDeltaIterator.set_equal_keys false it)))
          with (Iterator.status (BaseDeltaIterator.base_iterator_ it)).
        rewrite Hbs. cbn [negb]. clear Hstep. fields it.
        rewrite Hdv, Hbv, Hbs. auto.
  - clear Hstep Hstep2. subst it'.
    change (Iterator.status
              (BaseDeltaIterator.base_iterator_
                 (BaseDeltaIterator.set_equal_keys false it)))
      with (Iterator.status (BaseDeltaIterator.base_iterator_ it)).
    destruct (ok (WBWIIterator.status (BaseDeltaIterator.delta_iterator_ it)))
      eqn:Hds; cbn [negb].
    + destruct (BaseDeltaIterator.BaseValid it) eqn:Hbv; cbn [negb].
      * fields it. rewrite Hdv, Hbv, Hds. auto.
      * destruct (ok (Iterator.status (BaseDeltaIterator.base_iterator_ it)))
          eqn:Hbs; cbn [negb]; fields it; rewrite Hdv, Hbv, Hds;
          split; auto; congruence.
    + fields it. rewrite Hdv, Hds. now destruct (Iterator.Valid b).
Qed.

Lemma UpdateCurrent_at_exit (it : BaseDeltaIterator.t) :
  at_exit cmp (BaseDeltaIterator.UpdateCurrent cmp it).
Proof.
  unfold BaseDeltaIterator.UpdateCurrent. apply loop_at_exit.
  pose proof (BaseDeltaIteratorTombstones.delta_steps_le
                (BaseDeltaIterator.set_status OK it)) as H.
  change (BaseDeltaIterator.delta_iterator_ (BaseDeltaIterator.set_status OK it))
    with (BaseDeltaIterator.delta_iterator_ it) in H. lia.
Qed.

Lemma same_frame_refl (it : BaseDeltaIterator.t) : same_frame it it.
Proof. repeat split. Qed.

Lemma same_frame_trans (a b c : BaseDeltaIterator.t) :
  same_frame a b -> same_frame b c -> same_frame a c.
Proof.
  unfold same_frame. intros (A1 & A2 & A3 & A4 & A5 & A6 & A7)
    (B1 & B2 & B3 & B4 & B5 & B6 & B7).
  repeat split; congruence.
Qed.

Lemma same_frame_AdvanceDelta (it : BaseDeltaIterator.t) :
  same_frame it (BaseDeltaIterator.AdvanceDelta it).
Proof.
  unfold BaseDeltaIterator.AdvanceDelta.
  destruct (BaseDeltaIterator.forward_ it) eqn:E; repeat split; auto.
Qed.

Lemma same_frame_AdvanceBase (it : BaseDeltaIterator.t) :
  same_frame it (BaseDeltaIterator.AdvanceBase it).
Proof.
  unfold BaseDeltaIterator.AdvanceBase.
  destruct (BaseDeltaIterator.forward_ it) eqn:E; repeat split; auto.
Qed.

Lemma same_frame_set_current_at_base (b : bool) (it : BaseDeltaIterator.t) :
  same_frame it (BaseDeltaIterator.set_current_at_base b it).
Proof. repeat split. Qed.

Lemma same_frame_set_equal_keys (b : bool) (it : BaseDeltaIterator.t) :
  same_frame it (BaseDeltaIterator.set_equal_keys b it).
Proof. repeat split. Qed.

Lemma loop_same_frame (fuel : nat) : forall it : BaseDeltaIterator.t,
  same_frame it (loop fuel it).
Proof.
  induction fuel as [|fuel IH]; intros it; [apply same_frame_refl|].
  cbn [BaseDeltaIterator.UpdateCurrent_loop].
  repeat first
    [ apply same_frame_refl
    | match goal with
      | |- same_frame _ (if ?c then _ else _) => destruct c
      | |- same_frame _ (loop _ _) =>
          eapply same_frame_trans; [|apply IH]
      | |- same_frame _ (BaseDeltaIterator.AdvanceBase _) =>
          eapply same_frame_trans; [|apply same_frame_AdvanceBase]
      | |- same_frame _ (BaseDeltaIterator.AdvanceDelta _) =>
          eapply same_frame_trans; [|apply same_frame_AdvanceDelta]
      | |- same_frame _ (BaseDeltaIterator.set_current_at_base _ _) =>
          eapply same_frame_trans; [|apply same_frame_set_current_at_base]
      | |- same_frame _ (BaseDeltaIterator.set_equal_keys _ _) =>
          eapply same_frame_trans; [|apply same_frame_set_equal_keys]
      end ].
Qed.

Lemma UpdateCurrent_status_ (it : BaseDeltaIterator.t) :
  BaseDeltaIterator.status_ (BaseDeltaIterator.UpdateCurrent cmp it) = OK.
Proof.
  unfold BaseDeltaIterator.UpdateCurrent.
  destruct (loop_same_frame
              (S (length (Cursor.items (BaseDeltaIterator.delta_iterator_ it))))
              (BaseDeltaIterator.set_status OK it)) as (_ & H & _).
  exact H.
Qed.

(** Every operation ends in UpdateCurrent, but for Next and Prev on an
    iterator that is not Valid. *)
Lemma run_cases (op : Operation) (it : BaseDeltaIterator.t) :
  (exists it0, run cmp op it = BaseDeltaIterator.UpdateCurrent cmp it0) \/
  (is_seek op = false /\ BaseDeltaIterator.Valid it = false /\
   exists msg, run cmp op it = BaseDeltaIterator.set_status (NotSupported msg) it).
Proof.
  destruct op; cbn [run is_seek];
    try (left; eexists; reflexivity).
  - unfold BaseDeltaIterator.Next.
    destruct (BaseDeltaIterator.Valid it) eqn:Hv; cbn [negb].
    + left. eexists. reflexivity.
    + right. split; auto. split; auto. eexists. reflexivity.
  - unfold BaseDeltaIterator.Prev.
    destruct (BaseDeltaIterator.Valid it) eqn:Hv; cbn [negb].
    + left. eexists. reflexivity.
    + right. split; auto. split; auto. eexists. reflexivity.
Qed.

Lemma Cursor_Valid_ok {A : Type} (c : Cursor.t A) :
  Cursor.Valid c = true -> ok (Cursor.status c) = true.
Proof. unfold Cursor.Valid. intros H. now apply andb_true_iff in H. Qed.

(** X7.  After every operation that leaves the iterator Valid with both
    cursors valid, the current side is the base exactly when the base key
    comes first in the direction of the iterator, [equal_keys_] holds
    exactly when the two keys compare equal, and a delta entry that is
    current is no Delete or SingleDelete. *)
Theorem run_current_side (op : Operation) (it : BaseDeltaIterator.t) :
  let r := run cmp op it in
  BaseDeltaIterator.Valid r = true ->
  BaseDeltaIterator.BaseValid r = true ->
  BaseDeltaIterator.DeltaValid r = true ->
  BaseDeltaIterator.current_at_base_ r = (0 <? dir_compare cmp r) /\
  BaseDeltaIterator.equal_keys_ r = (dir_compare cmp r =? 0) /\
  (BaseDeltaIterator.current_at_base_ r = false ->
   is_delete (type (WBWIIterator.Entry (BaseDeltaIterator.delta_iterator_ r)))
   = false).
Proof.
  intros r Hv Hbv Hdv. subst r.
  destruct (run_cases op it) as [[it0 E] | (_ & _ & msg & E)]; rewrite E in *.
  - pose proof (UpdateCurrent_at_exit it0) as X. unfold at_exit in X.
    rewrite Hdv, Hbv in X.
    destruct (dir_compare cmp (BaseDeltaIterator.UpdateCurrent cmp it0) <=? 0)
      eqn:Hc.
    + destruct X as (Hcab & Htomb & Heq). apply Z.leb_le in Hc.
      split; [|split; auto].
      rewrite Hcab. symmetry. apply Z.ltb_ge. exact Hc.
    + destruct X as (Hcab & Heq). apply Z.leb_gt in Hc.
      split; [|split].
      * rewrite Hcab. symmetry. now apply Z.ltb_lt.
      * rewrite Heq. symmetry. apply Z.eqb_neq. lia.
      * rewrite Hcab. discriminate.
  - discriminate Hv.
Qed.

(** X8.  After every operation: when the base iterator or the delta iterator
    carries a status that is not OK, the merge iterator is not Valid and
    status() is not OK. *)
Theorem run_exposes_errors (op : Operation) (it : BaseDeltaIterator.t) :
  let r := run cmp op it in
  ok (Iterator.status (BaseDeltaIterator.base_iterator_ r)) = false \/
  ok (WBWIIterator.status (BaseDeltaIterator.delta_iterator_ r)) = false ->
  BaseDeltaIterator.Valid r = false /\ ok (BaseDeltaIterator.status r) = false.
Proof.
  intros r Hbad. subst r. split.
  - destruct (run_cases op it) as [[it0 E] | (_ & _ & msg & E)]; rewrite E in *;
      [|reflexivity].
    pose proof (UpdateCurrent_at_exit it0) as X. unfold at_exit in X.
    set (r := BaseDeltaIterator.UpdateCurrent cmp it0) in *.
    unfold BaseDeltaIterator.Valid.
    destruct (ok (BaseDeltaIterator.status_ r)); [|reflexivity].
    destruct (BaseDeltaIterator.DeltaValid r) eqn:Hdv,
             (BaseDeltaIterator.BaseValid r) eqn:Hbv.
    + apply Cursor_Valid_ok in Hdv, Hbv.
      unfold Iterator.status, WBWIIterator.status in Hbad.
      destruct Hbad; congruence.
    + apply Cursor_Valid_ok in Hdv.
      unfold WBWIIterator.status in Hbad.
      destruct Hbad as [Hb|Hd]; [|congruence].
      rewrite Hb in X. destruct X as [_ ->]. reflexivity.
    + apply Cursor_Valid_ok in Hbv.
      unfold Iterator.status in Hbad.
      destruct Hbad as [Hb|Hd]; [congruence|].
      rewrite Hd in X. rewrite X. reflexivity.
    + destruct (ok (WBWIIterator.status (BaseDeltaIterator.delta_iterator_ r)))
        eqn:Hd.
      * destruct Hbad as [Hb|Hd']; [|congruence].
        destruct X as [_ X]. rewrite (X Hb). reflexivity.
      * rewrite X. reflexivity.
  - unfold BaseDeltaIterator.status.
    destruct (ok (BaseDeltaIterator.status_ (run cmp op it))) eqn:Hs;
      cbn [negb]; [|exact Hs].
    destruct (ok (Iterator.status
                    (BaseDeltaIterator.base_iterator_ (run cmp op it)))) eqn:Hb;
      cbn [negb]; [|exact Hb].
    destruct Hbad; congruence.
Qed.

(** X10.  On the state that UpdateCurrent returns, the assertions of
    AssertInvariants hold exactly when the two cursors are not both valid.
    *)
Theorem AssertInvariants_UpdateCurrent (it : BaseDeltaIterator.t) :
  let r := BaseDeltaIterator.UpdateCurrent cmp it in
  BaseDeltaIterator.AssertInvariants cmp r
  = negb (BaseDeltaIterator.BaseValid r && BaseDeltaIterator.DeltaValid r).
Proof.
  intros r.
  pose proof (UpdateCurrent_at_exit it) as X. fold r in X.
  pose proof (UpdateCurrent_status_ it) as Hs. fold r in Hs.
  assert (Hbc : BaseDeltaIterator.BaseValid r = true ->
                ok (Iterator.status (BaseDeltaIterator.base_iterator_ r)) = true)
    by apply Cursor_Valid_ok.
  assert (Hdc : BaseDeltaIterator.DeltaValid r = true ->
                ok (WBWIIterator.status (BaseDeltaIterator.delta_iterator_ r))
                = true)
    by apply Cursor_Valid_ok.
  unfold BaseDeltaIterator.AssertInvariants, BaseDeltaIterator.status,
    BaseDeltaIterator.Valid.
  unfold at_exit in X. rewrite Hs. cbn [ok negb].
  change (Iterator.Valid (BaseDeltaIterator.base_iterator_ r))
    with (BaseDeltaIterator.BaseValid r).
  change (WBWIIterator.Valid (BaseDeltaIterator.delta_iterator_ r))
    with (BaseDeltaIterator.DeltaValid r).
  destruct (BaseDeltaIterator.DeltaValid r) eqn:Hdv,
           (BaseDeltaIterator.BaseValid r) eqn:Hbv;
    try rewrite (Hbc eq_refl); try rewrite (Hdc eq_refl); cbn [negb andb orb].
  - destruct (dir_compare cmp r <=? 0).
    + destruct X as (-> & _). cbn [negb andb orb].
      destruct (BaseDeltaIterator.forward_ r); cbn [negb andb orb];
        now rewrite !andb_false_r.
    + destruct X as (-> & _). cbn [negb andb orb].
      set (c := cmp _ _).
      assert (Hc1 : (c <? 0) && (0 <=? c) = false).
      { destruct (c <? 0) eqn:E1; [|reflexivity].
        apply Z.ltb_lt in E1. apply Z.leb_gt. exact E1. }
      assert (Hc2 : (0 <? c) && (c <=? 0) = false).
      { destruct (0 <? c) eqn:E1; [|reflexivity].
        apply Z.ltb_lt in E1. apply Z.leb_gt. exact E1. }
      destruct (BaseDeltaIterator.forward_ r); [rewrite Hc1|rewrite Hc2];
        cbn [andb]; now rewrite !andb_false_r.
  - destruct X as [_ X].
    destruct (ok (Iterator.status (BaseDeltaIterator.base_iterator_ r))) eqn:Hb;
      cbn [negb andb orb].
    + destruct (BaseDeltaIterator.current_at_base_ r); reflexivity.
    + rewrite X, Hb. reflexivity.
  - destruct (ok (WBWIIterator.status (BaseDeltaIterator.delta_iterator_ r)))
      eqn:Hd; cbn [negb andb orb].
    + destruct X as [-> _]. reflexivity.
    + rewrite X. reflexivity.
  - destruct (ok (WBWIIterator.status (BaseDeltaIterator.delta_iterator_ r)))
      eqn:Hd,
      (ok (Iterator.status (BaseDeltaIterator.base_iterator_ r))) eqn:Hb;
      cbn [negb andb orb]; rewrite ?Hb, ?Hd.
    + now destruct (BaseDeltaIterator.current_at_base_ r).
    + destruct X as [_ X]. rewrite (X eq_refl). reflexivity.
    + rewrite X. reflexivity.
    + rewrite X. reflexivity.
Qed.

(** X9.  Every seek, and every Next or Prev on a Valid iterator, leaves the
    iterator's own status OK; Next and Prev on an iterator that is not Valid
    set it to NotSupported. *)
Theorem run_own_status (op : Operation) (it : BaseDeltaIterator.t) :
  BaseDeltaIterator.status_ (run cmp op it)
  = if is_seek op || BaseDeltaIterator.Valid it then OK
    else match op with
         | OpPrev => NotSupported "Prev() on invalid iterator"
         | _ => NotSupported "Next() on invalid iterator"
         end.
Proof.
  destruct op; cbn [run is_seek orb];
    try apply UpdateCurrent_status_.
  - unfold BaseDeltaIterator.Next.
    destruct (BaseDeltaIterator.Valid it); cbn [negb]; [|reflexivity].
    apply UpdateCurrent_status_.
  - unfold BaseDeltaIterator.Prev.
    destruct (BaseDeltaIterator.Valid it); cbn [negb]; [|reflexivity].
    apply UpdateCurrent_status_.
Qed.

End Exit.
End BaseDeltaIteratorExit.

Module BaseDeltaIteratorExitExamples.
Import BaseDeltaIteratorSpec BaseDeltaIteratorInputs BaseDeltaIteratorExit.
Local Open Scope string_scope.
Local Open Scope Z_scope.

Lemma run_current_side_witness :
  let r := run BytewiseComparator OpSeekToFirst scenario7 in
  (BaseDeltaIterator.Valid r = true /\
   BaseDeltaIterator.BaseValid r = true /\
   BaseDeltaIterator.DeltaValid r = true) /\
  BaseDeltaIterator.current_at_base_ r
  = (0 <? dir_compare BytewiseComparator r) /\
  BaseDeltaIterator.equal_keys_ r = (dir_compare BytewiseComparator r =? 0) /\
  (BaseDeltaIterator.current_at_base_ r = false ->
   is_delete (type (WBWIIterator.Entry (BaseDeltaIterator.delta_iterator_ r)))
   = false).
Proof.
  split; [repeat split|].
  apply (run_current_side BytewiseComparator OpSeekToFirst scenario7);
    reflexivity.
Defined.

Lemma run_exposes_errors_witness :
  let r := run BytewiseComparator OpSeekToFirst failed_base in
  ok (Iterator.status (BaseDeltaIterator.base_iterator_ r)) = false /\
  BaseDeltaIterator.Valid r = false /\ ok (BaseDeltaIterator.status r) = false.
Proof.
  split; [reflexivity|].
  apply (run_exposes_errors BytewiseComparator OpSeekToFirst failed_base).
  left. reflexivity.
Defined.

Lemma run_no_tombstone_witness :
  presents_tombstone
    (run BytewiseComparator OpNext
       (run BytewiseComparator (OpSeek "b") mixed)) = false.
Proof.
  apply (BaseDeltaIteratorTombstones.run_no_tombstone BytewiseComparator OpNext).
  reflexivity.
Defined.

End BaseDeltaIteratorExitExamples.

(** ** The merged view of a base and a delta *)

Module MergedViewFacts.
Import BaseDeltaIteratorSpec MergedViewSpec.

Section View.
Variable cmp : Comparator.

Lemma MergedView_nil (D : list WriteEntry) :
  MergedView cmp [] D
  = map pair_of (filter (fun d => negb (is_delete (type d))) D).
Proof.
  induction D as [|d D IH]; [reflexivity|].
  cbn [MergedView filter]. destruct (is_delete (type d)); cbn [negb map].
  - exact IH.
  - now rewrite <- IH.
Qed.

Lemma MergedView_nil_cons (d : WriteEntry) (D : list WriteEntry) :
  MergedView cmp [] (d :: D)
  = if is_delete (type d) then MergedView cmp [] D
    else pair_of d :: MergedView cmp [] D.
Proof. reflexivity. Qed.

Lemma MergedView_base_only (B : list (Slice * Slice)) : MergedView cmp B [] = B.
Proof. induction B as [|b B IH]; [reflexivity|]. cbn. now rewrite IH. Qed.

Lemma MergedView_cons_cons (b : Slice * Slice) (B : list (Slice * Slice))
      (d : WriteEntry) (D : list WriteEntry) :
  MergedView cmp (b :: B) (d :: D)
  = if cmp (entry_key d) (fst b) <=? 0 then
      if is_delete (type d)
      then (if cmp (entry_key d) (fst b) =? 0 then MergedView cmp B D
            else MergedView cmp (b :: B) D)
      else pair_of d :: (if cmp (entry_key d) (fst b) =? 0 then MergedView cmp B D
                         else MergedView cmp (b :: B) D)
    else b :: MergedView cmp B (d :: D).
Proof. reflexivity. Qed.

Lemma MergedView_length (B : list (Slice * Slice)) : forall D : list WriteEntry,
  (length (MergedView cmp B D) <= length B + length D)%nat.
Proof.
  induction B as [|b B IHB]; intros D.
  - rewrite MergedView_nil, length_map.
    pose proof (filter_length_le (fun d => negb (is_delete (type d))) D).
    simpl. lia.
  - induction D as [|d D IHD].
    + rewrite MergedView_base_only. lia.
    + rewrite MergedView_cons_cons.
      pose proof (IHB D). pose proof (IHB (d :: D)).
      repeat match goal with
             | |- context [if ?c then _ else _] => destruct c
             end; cbn [length] in *; lia.
Qed.

Hypothesis cmp_ok : Comparator_ok cmp.

Lemma shown_by_delta_nil (k v : Slice) : ~ shown_by_delta [] k v.
Proof. intros (d & [] & _). Qed.

Lemma shown_by_delta_cons (d : WriteEntry) (D : list WriteEntry) (k v : Slice) :
  shown_by_delta (d :: D) k v <->
  (is_delete (type d) = false /\ pair_of d = (k, v)) \/ shown_by_delta D k v.
Proof.
  unfold shown_by_delta. split.
  - intros (x & [->|Hin] & Hx); [left; exact Hx | right; eauto].
  - intros [Hd | (x & Hin & Hx)]; [exists d | exists x]; simpl; auto.
Qed.

Lemma base_sorted_inv (b : Slice * Slice) (B : list (Slice * Slice)) :
  base_sorted cmp (b :: B) ->
  base_sorted cmp B /\ Forall (fun y => cmp (fst b) (fst y) < 0) B.
Proof. intros H. now apply StronglySorted_inv in H. Qed.

Lemma delta_sorted_inv (d : WriteEntry) (D : list WriteEntry) :
  delta_sorted cmp (d :: D) ->
  delta_sorted cmp D /\ Forall (fun y => cmp (entry_key d) (entry_key y) <= 0) D.
Proof. intros H. now apply StronglySorted_inv in H. Qed.

(** The base entries at or after [b] are not hidden by a delta entry that
    lies before [b]. *)
Lemma shown_by_base_skip_delta (b : Slice * Slice) (B : list (Slice * Slice))
      (d : WriteEntry) (D : list WriteEntry) (k v : Slice) :
  base_sorted cmp (b :: B) -> cmp (entry_key d) (fst b) < 0 ->
  (shown_by_base cmp (b :: B) (d :: D) k v <-> shown_by_base cmp (b :: B) D k v).
Proof.
  intros HB Hc. apply base_sorted_inv in HB. destruct HB as [_ HB].
  rewrite Forall_forall in HB. unfold shown_by_base. split.
  - intros [Hin Hun]. split; auto. intros x Hx. apply Hun. now right.
  - intros [Hin Hun]. split; auto. intros x [<-|Hx]; [|now apply Hun].
    assert (cmp (entry_key d) k < 0); [|lia].
    destruct Hin as [Hb|Hin]; [subst b; exact Hc|].
    apply (cmp_lt_trans _ cmp cmp_ok _ (fst b)); auto.
    exact (HB _ Hin).
Qed.

(** The base entries after [b] are not hidden by a delta entry of the key
    of [b]. *)
Lemma shown_by_base_skip_both (b : Slice * Slice) (B : list (Slice * Slice))
      (d : WriteEntry) (D : list WriteEntry) (k v : Slice) :
  base_sorted cmp (b :: B) -> cmp (entry_key d) (fst b) = 0 ->
  (shown_by_base cmp (b :: B) (d :: D) k v <-> shown_by_base cmp B D k v).
Proof.
  intros HB Hc. apply base_sorted_inv in HB. destruct HB as [_ HB].
  rewrite Forall_forall in HB. unfold shown_by_base. split.
  - intros [Hin Hun]. destruct Hin as [Hb|Hin].
    + exfalso. subst b. apply (Hun d); [now left | exact Hc].
    + split; auto. intros x Hx. apply Hun. now right.
  - intros [Hin Hun]. split; [now right|]. intros x [<-|Hx]; [|now apply Hun].
    assert (cmp (entry_key d) k < 0); [|lia].
    apply (cmp_eq_lt_trans _ cmp cmp_ok _ (fst b)); auto.
    exact (HB _ Hin).
Qed.

(** A base entry that lies before every delta entry is shown. *)
Lemma shown_by_base_head (b : Slice * Slice) (B : list (Slice * Slice))
      (d : WriteEntry) (D : list WriteEntry) (k v : Slice) :
  delta_sorted cmp (d :: D) -> 0 < cmp (entry_key d) (fst b) ->
  (shown_by_base cmp (b :: B) (d :: D) k v <->
   b = (k, v) \/ shown_by_base cmp B (d :: D) k v).
Proof.
  intros HD Hc. apply delta_sorted_inv in HD. destruct HD as [_ HD].
  rewrite Forall_forall in HD. unfold shown_by_base. split.
  - intros [[Hb|Hin] Hun]; [now left | right; auto].
  - intros [Hb | [Hin Hun]]; [|split; [now right | exact Hun]].
    subst b. cbn [fst] in *.
    split; [now left|]. intros x [<-|Hx]; [lia|].
    assert (0 < cmp (entry_key x) k); [|lia].
    apply (cmp_lt_gt _ cmp cmp_ok).
    apply (cmp_lt_le_trans _ cmp cmp_ok _ (entry_key d)).
    + now apply (cmp_lt_gt _ cmp cmp_ok).
    + exact (HD _ Hx).
Qed.

Lemma MergedView_In (B : list (Slice * Slice)) : forall D : list WriteEntry,
  base_sorted cmp B -> delta_sorted cmp D ->
  forall k v,
    In (k, v) (MergedView cmp B D) <->
    shown_by_delta D k v \/ shown_by_base cmp B D k v.
Proof.
  induction B as [|b B IHB]; intros D HB HD k v.
  - rewrite MergedView_nil. rewrite in_map_iff. split.
    + intros (d & Hp & Hin). apply filter_In in Hin. destruct Hin as [Hin Hd].
      left. exists d. split; auto. split; auto.
      now destruct (is_delete (type d)).
    + intros [(d & Hin & Hd & Hp) | [[] _]]. exists d. split; auto.
      apply filter_In. split; auto. now rewrite Hd.
  - induction D as [|d D IHD].
    + rewrite MergedView_base_only. split.
      * intros Hin. right. split; [exact Hin | intros d []].
      * intros [H | [Hin _]]; [now apply shown_by_delta_nil in H | exact Hin].
    + rewrite MergedView_cons_cons.
      pose proof (base_sorted_inv _ _ HB) as [HB' _].
      pose proof (delta_sorted_inv _ _ HD) as [HD' _].
      specialize (IHD HD').
      rewrite shown_by_delta_cons.
      destruct (cmp (entry_key d) (fst b) <=? 0) eqn:Hle.
      * apply Z.leb_le in Hle.
        assert (Hrest :
                  In (k, v) (if cmp (entry_key d) (fst b) =? 0
                             then MergedView cmp B D
                             else MergedView cmp (b :: B) D) <->
                  shown_by_delta D k v \/ shown_by_base cmp (b :: B) (d :: D) k v).
        { destruct (cmp (entry_key d) (fst b) =? 0) eqn:Hz.
          - apply Z.eqb_eq in Hz.
            rewrite (shown_by_base_skip_both b B d D k v HB Hz).
            apply IHB; auto.
          - apply Z.eqb_neq in Hz.
            rewrite (shown_by_base_skip_delta b B d D k v HB); [|lia].
            exact IHD. }
        destruct (is_delete (type d)) eqn:Htomb.
        -- rewrite Hrest. split; [tauto|].
           intros [[[Hd _] | H] | H]; [discriminate | tauto | tauto].
        -- cbn [In]. rewrite Hrest. split.
           ++ intros [Hd | [H | H]]; auto.
           ++ intros [[[_ Hd] | H] | H]; auto.
      * apply Z.leb_gt in Hle.
        cbn [In]. rewrite (IHB (d :: D) HB' HD).
        rewrite shown_by_delta_cons.
        rewrite (shown_by_base_head b B d D k v HD Hle). tauto.
Qed.

Lemma MergedView_Forall (P : Slice -> Prop) (B : list (Slice * Slice))
      (D : list WriteEntry) :
  base_sorted cmp B -> delta_sorted cmp D ->
  Forall (fun b => P (fst b)) B -> Forall (fun d => P (entry_key d)) D ->
  Forall (fun y => P (fst y)) (MergedView cmp B D).
Proof.
  intros HB HD HPB HPD. rewrite Forall_forall in *. intros [k v] Hin.
  apply (MergedView_In B D HB HD) in Hin.
  destruct Hin as [(d & Hin & _ & Hp) | [Hin _]].
  - injection Hp as <- _. exact (HPD d Hin).
  - exact (HPB _ Hin).
Qed.

Lemma MergedView_sorted (B : list (Slice * Slice)) : forall D : list WriteEntry,
  base_sorted cmp B -> delta_sorted cmp D ->
  StronglySorted (fun x y => cmp (fst x) (fst y) <= 0) (MergedView cmp B D).
Proof.
  induction B as [|b B IHB]; intros D HB HD.
  - induction D as [|d D IHD]; [constructor|].
    pose proof (delta_sorted_inv _ _ HD) as [HD' HdD].
    cbn [MergedView]. fold (MergedView cmp [] D).
    destruct (is_delete (type d)); [now apply IHD|].
    constructor; [now apply IHD|].
    apply (MergedView_Forall (fun y => cmp (entry_key d) y <= 0)); auto.
  - induction D as [|d D IHD].
    + rewrite MergedView_base_only.
      clear IHB. induction HB as [|x l Hs IH Hx]; constructor; auto.
      eapply Forall_impl; [|exact Hx]. cbn beta. intros; lia.
    + rewrite MergedView_cons_cons.
      pose proof (base_sorted_inv _ _ HB) as [HB' HbB].
      pose proof (delta_sorted_inv _ _ HD) as [HD' HdD].
      specialize (IHD HD').
      destruct (cmp (entry_key d) (fst b) <=? 0) eqn:Hle.
      * apply Z.leb_le in Hle.
        assert (Hrest : StronglySorted (fun x y => cmp (fst x) (fst y) <= 0)
                          (if cmp (entry_key d) (fst b) =? 0
                           then MergedView cmp B D
                           else MergedView cmp (b :: B) D)).
        { destruct (cmp (entry_key d) (fst b) =? 0); auto. }
        destruct (is_delete (type d)); [exact Hrest|].
        constructor; [exact Hrest|].
        assert (HdB : Forall (fun y => cmp (entry_key d) (fst y) <= 0) (b :: B)).
        { constructor; [exact Hle|].
          eapply Forall_impl; [|exact HbB]. cbn beta. intros y Hy.
          apply (cmp_le_trans _ cmp cmp_ok _ (fst b)); auto. lia. }
        destruct (cmp (entry_key d) (fst b) =? 0).
        -- apply (MergedView_Forall (fun y => cmp (entry_key d) y <= 0)); auto.
           now inversion HdB.
        -- apply (MergedView_Forall (fun y => cmp (entry_key d) y <= 0)); auto.
      * apply Z.leb_gt in Hle.
        constructor; [now apply IHB|].
        apply (MergedView_Forall (fun y => cmp (fst b) y <= 0)); auto.
        -- eapply Forall_impl; [|exact HbB]. cbn beta. intros; lia.
        -- assert (Hbd : cmp (fst b) (entry_key d) < 0)
             by now apply (cmp_lt_gt _ cmp cmp_ok).
           constructor; [lia|].
           eapply Forall_impl; [|exact HdD]. cbn beta. intros y Hy.
           assert (cmp (fst b) (entry_key y) < 0); [|lia].
           apply (cmp_lt_le_trans _ cmp cmp_ok _ (entry_key d)); auto.
Qed.

End View.
End MergedViewFacts.

(** ** The base+delta iterator: what a scan shows *)

Module BaseDeltaIteratorScan.
Import BaseDeltaIteratorSpec MergedViewSpec.

Lemma skipn_nth {A : Type} (d : A) (l : list A) : forall n,
  (n < length l)%nat -> skipn n l = nth n l d :: skipn (S n) l.
Proof.
  induction l as [|x l IH]; intros n Hn; simpl in Hn; [lia|].
  destruct n as [|n]; [reflexivity|]. cbn [skipn nth]. apply IH. lia.
Qed.

Section Forward.
Variable cmp : Comparator.
Variable B : list (Slice * Slice).
Variable D : list WriteEntry.

Local Abbreviation nb := (length B).
Local Abbreviation nd := (length D).
Local Abbreviation fstate := (BaseDeltaIteratorSpec.fstate B D None).
Local Abbreviation loop := (BaseDeltaIterator.UpdateCurrent_loop cmp).
Local Abbreviation vw I J := (MergedView cmp (skipn I B) (skipn J D)).

Lemma skipn_base (I : nat) :
  (I < nb)%nat ->
  skipn I B = (bk B I, bv B I) :: skipn (S I) B.
Proof.
  intros HI.
  rewrite (@skipn_nth (Slice * Slice) (EmptyString, EmptyString) B I HI).
  unfold bk, bv. now destruct (nth I B _).
Qed.

Lemma skipn_delta (J : nat) :
  (J < nd)%nat -> skipn J D = de D J :: skipn (S J) D.
Proof. intros HJ. exact (skipn_nth WriteEntry_default D J HJ). Qed.

(** What UpdateCurrent, running forward from the cursor positions
    [(I, J)], stops on: the head of the merged view of the entries from
    there on; and the positions from which the next step continues. *)
Lemma loop_shows (f : nat) : forall (I J : nat) (cab eq : bool),
  (nd - J < f)%nat ->
  let r := loop f (fstate cab eq I J) in
  match vw I J with
  | [] => BaseDeltaIterator.Valid r = false
  | x :: rest =>
      BaseDeltaIterator.Valid r = true /\
      (BaseDeltaIterator.key r, BaseDeltaIterator.value r) = x /\
      exists cab' eq' I' J',
        BaseDeltaIterator.Next cmp r = loop (S nd) (fstate cab' eq' I' J') /\
        rest = vw I' J' /\
        ((nb - I') + (nd - J') < (nb - I) + (nd - J))%nat
  end.
Proof.
  induction f as [|f IH]; intros I J cab eq Hf; [lia|].
  cbv zeta. rewrite BaseDeltaIteratorFacts.loop_fwd_step.
  destruct (J <? nd)%nat eqn:HJ.
  - apply Nat.ltb_lt in HJ. rewrite (skipn_delta J HJ).
    destruct (I <? nb)%nat eqn:HI.
    + apply Nat.ltb_lt in HI. rewrite (skipn_base I HI).
      rewrite MergedViewFacts.MergedView_cons_cons. cbn [fst].
      fold (dk D J). fold (tomb D J).
      rewrite <- (skipn_base I HI).
      destruct (cmp (dk D J) (bk B I) <=? 0) eqn:Hle.
      * destruct (tomb D J) eqn:Htomb.
        -- destruct (cmp (dk D J) (bk B I) =? 0) eqn:Hz.
           ++ specialize (IH (S I) (S J) cab true ltac:(lia)). cbv zeta in IH.
              destruct (vw (S I) (S J)) as [|x rest]; [exact IH|].
              destruct IH as (Hv & Hk & cab' & eq' & I' & J' & Hn & Hr & Hm).
              split; auto. split; auto.
              exists cab', eq', I', J'. split; auto. split; auto. lia.
           ++ specialize (IH I (S J) cab false ltac:(lia)). cbv zeta in IH.
              destruct (vw I (S J)) as [|x rest]; [exact IH|].
              destruct IH as (Hv & Hk & cab' & eq' & I' & J' & Hn & Hr & Hm).
              split; auto. split; auto.
              exists cab', eq', I', J'. split; auto. split; auto. lia.
        -- split; [rewrite BaseDeltaIteratorFacts.Valid_fstate;
                   now apply Nat.ltb_lt|].
           destruct (BaseDeltaIteratorFacts.fstate_delta_view B D None
                       (cmp (dk D J) (bk B I) =? 0) I J HJ) as [-> ->].
           split; [reflexivity|].
           rewrite BaseDeltaIteratorFacts.Next_fstate_delta; auto.
           destruct (cmp (dk D J) (bk B I) =? 0).
           ++ exists false, true, (S I), (S J). split; auto. split; auto. lia.
           ++ exists false, false, I, (S J). split; auto. split; auto. lia.
      * split; [rewrite BaseDeltaIteratorFacts.Valid_fstate;
                now apply Nat.ltb_lt|].
        destruct (BaseDeltaIteratorFacts.fstate_base_view B D None false I J HI)
          as [-> ->].
        split; [reflexivity|].
        rewrite BaseDeltaIteratorFacts.Next_fstate_base; auto.
        exists true, false, (S I), J. split; auto.
        split; [now rewrite (skipn_delta J HJ)|]. lia.
    + apply Nat.ltb_ge in HI. rewrite (skipn_all2 B HI).
      rewrite MergedViewFacts.MergedView_nil_cons. fold (tomb D J).
      change (ub_hit cmp D None J) with false. cbv iota.
      destruct (tomb D J) eqn:Htomb.
      * specialize (IH I (S J) cab false ltac:(lia)). cbv zeta in IH.
        rewrite (skipn_all2 B HI) in IH.
        destruct (MergedView cmp [] (skipn (S J) D)) as [|x rest]; [exact IH|].
        destruct IH as (Hv & Hk & cab' & eq' & I' & J' & Hn & Hr & Hm).
        split; auto. split; auto.
        exists cab', eq', I', J'. split; auto. split; auto. lia.
      * split; [rewrite BaseDeltaIteratorFacts.Valid_fstate;
                now apply Nat.ltb_lt|].
        destruct (BaseDeltaIteratorFacts.fstate_delta_view B D None false I J HJ)
          as [-> ->].
        split; [reflexivity|].
        rewrite BaseDeltaIteratorFacts.Next_fstate_delta; auto;
          [|discriminate].
        exists false, false, I, (S J). split; auto.
        split; [now rewrite (skipn_all2 B HI)|]. lia.
  - apply Nat.ltb_ge in HJ. rewrite (skipn_all2 D HJ).
    destruct (I <? nb)%nat eqn:HI.
    + apply Nat.ltb_lt in HI. rewrite (skipn_base I HI).
      cbn [MergedView]. fold (MergedView cmp (skipn (S I) B) []).
      split; [rewrite BaseDeltaIteratorFacts.Valid_fstate;
              now apply Nat.ltb_lt|].
      destruct (BaseDeltaIteratorFacts.fstate_base_view B D None false I J HI)
        as [-> ->].
      split; [reflexivity|].
      rewrite BaseDeltaIteratorFacts.Next_fstate_base; auto.
      exists true, false, (S I), J. split; auto.
      split; [now rewrite (skipn_all2 D HJ)|]. lia.
    + apply Nat.ltb_ge in HI. rewrite (skipn_all2 B HI). cbn [MergedView].
      rewrite BaseDeltaIteratorFacts.Valid_fstate.
      destruct cab; apply Nat.ltb_ge; assumption.
Qed.

Lemma scan_loop (n : nat) : forall (I J : nat) (cab eq : bool),
  ((nb - I) + (nd - J) < n)%nat ->
  scan (BaseDeltaIterator.Next cmp) n (loop (S nd) (fstate cab eq I J))
  = Some (vw I J).
Proof.
  induction n as [|n IH]; intros I J cab eq Hn; [lia|].
  cbn [scan].
  pose proof (loop_shows (S nd) I J cab eq ltac:(lia)) as H. cbv zeta in H.
  destruct (vw I J) as [|x rest].
  - now rewrite H.
  - destruct H as (Hv & Hk & cab' & eq' & I' & J' & Hnext & Hr & Hm).
    rewrite Hv, Hk, Hnext, IH by lia. now rewrite Hr.
Qed.

Lemma SeekToFirst_fstate (f c e : bool) (s : Status) (p q : option nat) :
  BaseDeltaIterator.SeekToFirst cmp
    (BaseDeltaIterator.mk f c e s (Cursor.mk B p OK) (Cursor.mk D q OK) None)
  = loop (S nd) (fstate c e 0 0).
Proof.
  unfold BaseDeltaIterator.SeekToFirst, BaseDeltaIterator.UpdateCurrent,
    BaseDeltaIteratorSpec.fstate, mkst, fpos.
  destruct B, D; reflexivity.
Qed.

Lemma find_first_filter {A : Type} (P : A -> bool) (l : list A) :
  StronglySorted (fun a b => P a = true -> P b = true) l ->
  exists n, (n <= length l)%nat /\
            Cursor.find_first P l = fpos n (length l) /\
            skipn n l = filter P l.
Proof.
  induction 1 as [|x l Hs IH Hx].
  - exists 0%nat. repeat split. cbn. lia.
  - cbn [Cursor.find_first filter]. destruct (P x) eqn:Px.
    + exists 0%nat. split; [cbn; lia|]. split; [reflexivity|].
      cbn [skipn]. f_equal. symmetry. apply forallb_filter_id.
      apply forallb_forall. rewrite Forall_forall in Hx. auto.
    + destruct IH as (n & Hn & Hf & Hsk). exists (S n).
      split; [cbn; lia|]. split; [|exact Hsk].
      rewrite Hf. unfold fpos. cbn [length].
      change (S n <? S (length l))%nat with (n <? length l)%nat.
      now destruct (n <? length l)%nat.
Qed.

Lemma Seek_fstate_filter (k : Slice) (f c e : bool) (s : Status)
      (p q : option nat) :
  Comparator_ok cmp -> base_sorted cmp B -> delta_sorted cmp D ->
  exists I J,
    BaseDeltaIterator.Seek cmp k
      (BaseDeltaIterator.mk f c e s (Cursor.mk B p OK) (Cursor.mk D q OK) None)
    = loop (S nd) (fstate c e I J) /\
    (I <= nb)%nat /\ (J <= nd)%nat /\
    skipn I B = filter (fun b => 0 <=? cmp (fst b) k) B /\
    skipn J D = filter (fun d => 0 <=? cmp (entry_key d) k) D.
Proof.
  intros cmp_ok HB HD.
  destruct (find_first_filter (fun b : Slice * Slice => 0 <=? cmp (fst b) k) B)
    as (I & HI & HfI & HsI).
  { eapply StronglySorted_ind with (P := fun l => StronglySorted _ l);
      [constructor | | exact HB].
    intros x l Hs IH Hx. constructor; auto.
    eapply Forall_impl; [|exact Hx]. cbn beta. intros y Hy Hk.
    apply Z.leb_le in Hk. apply Z.leb_le.
    apply (cmp_le_ge _ cmp cmp_ok).
    apply (cmp_le_trans _ cmp cmp_ok _ (fst x)).
    - now apply (cmp_le_ge _ cmp cmp_ok).
    - lia. }
  destruct (find_first_filter (fun d : WriteEntry => 0 <=? cmp (entry_key d) k) D)
    as (J & HJ & HfJ & HsJ).
  { eapply StronglySorted_ind with (P := fun l => StronglySorted _ l);
      [constructor | | exact HD].
    intros x l Hs IH Hx. constructor; auto.
    eapply Forall_impl; [|exact Hx]. cbn beta. intros y Hy Hk.
    apply Z.leb_le in Hk. apply Z.leb_le.
    apply (cmp_le_ge _ cmp cmp_ok).
    apply (cmp_le_trans _ cmp cmp_ok _ (entry_key x)).
    - now apply (cmp_le_ge _ cmp cmp_ok).
    - exact Hy. }
  exists I, J. split; [|auto].
  unfold BaseDeltaIterator.Seek, BaseDeltaIterator.UpdateCurrent,
    BaseDeltaIteratorSpec.fstate, mkst.
  cbn [BaseDeltaIterator.set_forward BaseDeltaIterator.set_base
       BaseDeltaIterator.set_delta BaseDeltaIterator.set_status
       BaseDeltaIterator.forward_ BaseDeltaIterator.current_at_base_
       BaseDeltaIterator.equal_keys_ BaseDeltaIterator.status_
       BaseDeltaIterator.base_iterator_ BaseDeltaIterator.delta_iterator_
       BaseDeltaIterator.iterate_upper_bound_].
  unfold Iterator.Seek, WBWIIterator.Seek, Cursor.Seek, Cursor.set_pos.
  cbn [Cursor.items Cursor.pos Cursor.status].
  now rewrite HfI, HfJ.
Qed.

Local Abbreviation bstate := (BaseDeltaIteratorSpec.bstate B D None).
Local Abbreviation bvw I J :=
  (MergedView (reversed cmp) (rev (firstn I B)) (rev (firstn J D))).

Lemma rev_firstn_S {A : Type} (d : A) (l : list A) : forall n,
  (n < length l)%nat -> rev (firstn (S n) l) = nth n l d :: rev (firstn n l).
Proof.
  induction l as [|x l IH]; intros n Hn; simpl in Hn; [lia|].
  destruct n as [|n]; [reflexivity|].
  change (firstn (S (S n)) (x :: l)) with (x :: firstn (S n) l).
  change (firstn (S n) (x :: l)) with (x :: firstn n l).
  cbn [rev nth]. rewrite IH by lia. reflexivity.
Qed.

Lemma rev_firstn_base (I : nat) :
  (I < nb)%nat ->
  rev (firstn (S I) B) = (bk B I, bv B I) :: rev (firstn I B).
Proof.
  intros HI.
  rewrite (@rev_firstn_S (Slice * Slice) (EmptyString, EmptyString) B I HI).
  unfold bk, bv. now destruct (nth I B _).
Qed.

Lemma rev_firstn_delta (J : nat) :
  (J < nd)%nat -> rev (firstn (S J) D) = de D J :: rev (firstn J D).
Proof. intros HJ. exact (rev_firstn_S WriteEntry_default D J HJ). Qed.

Lemma reversed_leb (c : Z) : (-1 * c <=? 0) = (0 <=? c).
Proof.
  destruct (0 <=? c) eqn:E.
  - apply Z.leb_le in E. apply Z.leb_le. lia.
  - apply Z.leb_gt in E. apply Z.leb_gt. lia.
Qed.

Lemma reversed_eqb (c : Z) : (-1 * c =? 0) = (c =? 0).
Proof.
  destruct (c =? 0) eqn:E.
  - apply Z.eqb_eq in E. apply Z.eqb_eq. lia.
  - apply Z.eqb_neq in E. apply Z.eqb_neq. lia.
Qed.

Lemma Prev_bstate_base (I J : nat) :
  (I < nb)%nat ->
  BaseDeltaIterator.Prev cmp (bstate true false (S I) J)
  = loop (S nd) (bstate true false I J).
Proof.
  intros HI. unfold BaseDeltaIterator.Prev.
  destruct (BaseDeltaIteratorFacts.bstate_base_view B D None false I J HI)
    as [-> _].
  cbn [negb]. unfold BaseDeltaIterator.Advance.
  cbn [BaseDeltaIteratorSpec.bstate BaseDeltaIteratorSpec.mkst
       BaseDeltaIterator.forward_ BaseDeltaIterator.equal_keys_
       BaseDeltaIterator.current_at_base_ negb].
  change (BaseDeltaIterator.mk false true false OK
            (Cursor.mk B (bpos (S I)) OK) (Cursor.mk D (bpos J) OK) None)
    with (bstate true false (S I) J).
  rewrite BaseDeltaIteratorFacts.AdvanceBase_bstate. reflexivity.
Qed.

Lemma Prev_bstate_delta (e : bool) (I J : nat) :
  (J < nd)%nat ->
  BaseDeltaIterator.Prev cmp (bstate false e (if e then S I else I) (S J))
  = loop (S nd) (bstate false e I J).
Proof.
  intros HJ. unfold BaseDeltaIterator.Prev.
  destruct (BaseDeltaIteratorFacts.bstate_delta_view B D None e
              (if e then S I else I) J HJ) as [-> _].
  cbn [negb]. unfold BaseDeltaIterator.Advance.
  cbn [BaseDeltaIteratorSpec.bstate BaseDeltaIteratorSpec.mkst
       BaseDeltaIterator.forward_ BaseDeltaIterator.equal_keys_
       BaseDeltaIterator.current_at_base_ negb].
  destruct e.
  - change (BaseDeltaIterator.mk false false true OK
              (Cursor.mk B (bpos (S I)) OK) (Cursor.mk D (bpos (S J)) OK) None)
      with (bstate false true (S I) (S J)).
    rewrite BaseDeltaIteratorFacts.AdvanceBase_bstate.
    rewrite BaseDeltaIteratorFacts.AdvanceDelta_bstate. reflexivity.
  - change (BaseDeltaIterator.mk false false false OK
              (Cursor.mk B (bpos I) OK) (Cursor.mk D (bpos (S J)) OK) None)
      with (bstate false false I (S J)).
    rewrite BaseDeltaIteratorFacts.AdvanceDelta_bstate. reflexivity.
Qed.

Lemma Valid_bstate_end (cab eq : bool) (I : nat) :
  (I <= nb)%nat ->
  BaseDeltaIterator.Valid (bstate cab eq I 0) = if cab then (0 <? I)%nat else false.
Proof.
  intros HI. unfold BaseDeltaIterator.Valid, BaseDeltaIterator.BaseValid,
    BaseDeltaIterator.DeltaValid, Iterator.Valid, WBWIIterator.Valid,
    BaseDeltaIteratorSpec.bstate, mkst.
  cbn [BaseDeltaIterator.status_ BaseDeltaIterator.current_at_base_
       BaseDeltaIterator.base_iterator_ BaseDeltaIterator.delta_iterator_ ok].
  destruct cab.
  - now apply BaseDeltaIteratorFacts.Valid_bpos.
  - reflexivity.
Qed.

(** What UpdateCurrent, running backward from the cursor positions
    [(I, J)], stops on. *)
Lemma loop_shows_bwd (f : nat) : forall (I J : nat) (cab eq : bool),
  (J < f)%nat -> (I <= nb)%nat -> (J <= nd)%nat ->
  let r := loop f (bstate cab eq I J) in
  match bvw I J with
  | [] => BaseDeltaIterator.Valid r = false
  | x :: rest =>
      BaseDeltaIterator.Valid r = true /\
      (BaseDeltaIterator.key r, BaseDeltaIterator.value r) = x /\
      exists cab' eq' I' J',
        BaseDeltaIterator.Prev cmp r = loop (S nd) (bstate cab' eq' I' J') /\
        rest = bvw I' J' /\
        (I' + J' < I + J)%nat /\ (I' <= nb)%nat /\ (J' <= nd)%nat
  end.
Proof.
  induction f as [|f IH]; intros I J cab eq Hf HI HJ; [lia|].
  cbv zeta. rewrite BaseDeltaIteratorFacts.loop_bwd_step by assumption.
  destruct J as [|J'].
  - cbn [firstn rev]. rewrite MergedViewFacts.MergedView_base_only.
    destruct I as [|I'].
    + cbn [firstn rev]. change (0 <? 0)%nat with false. cbv iota.
      rewrite Valid_bstate_end by lia. now destruct cab.
    + change (0 <? S I')%nat with true. cbv iota.
      rewrite (rev_firstn_base I') by lia.
      destruct (BaseDeltaIteratorFacts.bstate_base_view B D None false I' 0
                  ltac:(lia)) as (-> & -> & ->).
      split; auto. split; auto.
      rewrite Prev_bstate_base by lia.
      exists true, false, I', 0%nat. split; auto.
      split; [|lia]. cbn [firstn rev].
      now rewrite MergedViewFacts.MergedView_base_only.
  - rewrite (rev_firstn_delta J') by lia.
    destruct I as [|I'].
    + cbn [firstn rev]. rewrite MergedViewFacts.MergedView_nil_cons.
      fold (tomb D J'). change (ub_hit cmp D None J') with false. cbv iota.
      destruct (tomb D J') eqn:Htomb.
      * specialize (IH 0%nat J' cab false ltac:(lia) ltac:(lia) ltac:(lia)).
        cbv zeta in IH. cbn [firstn rev] in IH.
        destruct (MergedView (reversed cmp) [] (rev (firstn J' D)))
          as [|x rest]; [exact IH|].
        destruct IH as (Hv & Hk & cab' & eq' & I2 & J2 & Hn & Hr & Hm).
        split; auto. split; auto.
        exists cab', eq', I2, J2. split; auto. split; auto. lia.
      * destruct (BaseDeltaIteratorFacts.bstate_delta_view B D None false 0 J'
                    ltac:(lia)) as (-> & -> & ->).
        split; auto. split; auto.
        rewrite (Prev_bstate_delta false 0 J') by lia.
        exists false, false, 0%nat, J'. split; auto. split; auto. lia.
    + rewrite (rev_firstn_base I') by lia.
      rewrite MergedViewFacts.MergedView_cons_cons. cbn [fst].
      fold (dk D J'). fold (tomb D J').
      change (reversed cmp (dk D J') (bk B I'))
        with (-1 * cmp (dk D J') (bk B I')).
      rewrite reversed_leb, reversed_eqb.
      rewrite <- (rev_firstn_base I') by lia.
      rewrite <- (rev_firstn_delta J') by lia.
      destruct (0 <=? cmp (dk D J') (bk B I')) eqn:Hle.
      * destruct (tomb D J') eqn:Htomb.
        -- destruct (cmp (dk D J') (bk B I') =? 0) eqn:Hz.
           ++ specialize (IH I' J' cab true ltac:(lia) ltac:(lia) ltac:(lia)).
              cbv zeta in IH.
              destruct (bvw I' J') as [|x rest]; [exact IH|].
              destruct IH as (Hv & Hk & cab' & eq' & I2 & J2 & Hn & Hr & Hm).
              split; auto. split; auto.
              exists cab', eq', I2, J2. split; auto. split; auto. lia.
           ++ specialize (IH (S I') J' cab false ltac:(lia) ltac:(lia)
                            ltac:(lia)).
              cbv zeta in IH.
              destruct (bvw (S I') J') as [|x rest]; [exact IH|].
              destruct IH as (Hv & Hk & cab' & eq' & I2 & J2 & Hn & Hr & Hm).
              split; auto. split; auto.
              exists cab', eq', I2, J2. split; auto. split; auto. lia.
        -- destruct (BaseDeltaIteratorFacts.bstate_delta_view B D None
                       (cmp (dk D J') (bk B I') =? 0) (S I') J' ltac:(lia))
             as (-> & -> & ->).
           split; auto. split; [reflexivity|].
           destruct (cmp (dk D J') (bk B I') =? 0).
           ++ rewrite (Prev_bstate_delta true I' J') by lia.
              exists false, true, I', J'. split; auto. split; auto. lia.
           ++ rewrite (Prev_bstate_delta false (S I') J') by lia.
              exists false, false, (S I'), J'. split; auto. split; auto. lia.
      * destruct (BaseDeltaIteratorFacts.bstate_base_view B D None false I'
                    (S J') ltac:(lia)) as (-> & -> & ->).
        split; auto. split; auto.
        rewrite Prev_bstate_base by lia.
        exists true, false, I', (S J'). split; auto. split; auto. lia.
Qed.

Lemma scan_loop_bwd (n : nat) : forall (I J : nat) (cab eq : bool),
  (I + J < n)%nat -> (I <= nb)%nat -> (J <= nd)%nat ->
  scan (BaseDeltaIterator.Prev cmp) n (loop (S nd) (bstate cab eq I J))
  = Some (bvw I J).
Proof.
  induction n as [|n IH]; intros I J cab eq Hn HI HJ; [lia|].
  cbn [scan].
  pose proof (loop_shows_bwd (S nd) I J cab eq ltac:(lia) HI HJ) as H.
  cbv zeta in H.
  destruct (bvw I J) as [|x rest].
  - now rewrite H.
  - destruct H as (Hv & Hk & cab' & eq' & I' & J' & Hprev & Hr & Hm & HI' & HJ').
    rewrite Hv, Hk, Hprev, IH by lia. now rewrite Hr.
Qed.

Lemma SeekToLast_bstate (f c e : bool) (s : Status) (p q : option nat) :
  BaseDeltaIterator.SeekToLast cmp
    (BaseDeltaIterator.mk f c e s (Cursor.mk B p OK) (Cursor.mk D q OK) None)
  = loop (S nd) (bstate c e nb nd).
Proof.
  unfold BaseDeltaIterator.SeekToLast, BaseDeltaIterator.UpdateCurrent,
    BaseDeltaIteratorSpec.bstate, mkst, bpos.
  destruct B, D; reflexivity.
Qed.

Lemma find_last_filter {A : Type} (P : A -> bool) (l : list A) :
  StronglySorted (fun a b => P b = true -> P a = true) l ->
  exists n, (n <= length l)%nat /\
            Cursor.find_last P l = bpos n /\
            firstn n l = filter P l.
Proof.
  induction 1 as [|x l Hs IH Hx].
  - exists 0%nat. repeat split. cbn. lia.
  - destruct IH as (n & Hn & Hf & Hfi). cbn [Cursor.find_last filter].
    rewrite Hf. destruct n as [|n].
    + cbn [bpos]. cbn [firstn] in Hfi. rewrite <- Hfi.
      destruct (P x).
      * exists 1%nat. split; [cbn; lia|]. split; reflexivity.
      * exists 0%nat. split; [cbn; lia|]. split; reflexivity.
    + cbn [bpos]. exists (S (S n)). split; [cbn; lia|]. split; [reflexivity|].
      assert (Px : P x = true).
      { destruct l as [|y l]; [simpl in Hn; lia|].
        cbn [firstn] in Hfi.
        assert (Hin : In y (filter P (y :: l))) by (rewrite <- Hfi; now left).
        apply filter_In in Hin. destruct Hin as [Hin Py].
        rewrite Forall_forall in Hx. exact (Hx y Hin Py). }
      rewrite Px. change (firstn (S (S n)) (x :: l)) with (x :: firstn (S n) l).
      now rewrite Hfi.
Qed.

Lemma SeekForPrev_bstate_filter (k : Slice) (f c e : bool) (s : Status)
      (p q : option nat) :
  Comparator_ok cmp -> base_sorted cmp B -> delta_sorted cmp D ->
  exists I J,
    BaseDeltaIterator.SeekForPrev cmp k
      (BaseDeltaIterator.mk f c e s (Cursor.mk B p OK) (Cursor.mk D q OK) None)
    = loop (S nd) (bstate c e I J) /\
    (I <= nb)%nat /\ (J <= nd)%nat /\
    firstn I B = filter (fun b => cmp (fst b) k <=? 0) B /\
    firstn J D = filter (fun d => cmp (entry_key d) k <=? 0) D.
Proof.
  intros cmp_ok HB HD.
  destruct (find_last_filter (fun b : Slice * Slice => cmp (fst b) k <=? 0) B)
    as (I & HI & HfI & HsI).
  { eapply StronglySorted_ind with (P := fun l => StronglySorted _ l);
      [constructor | | exact HB].
    intros x l Hs IH Hx. constructor; auto.
    eapply Forall_impl; [|exact Hx]. cbn beta. intros y Hy Hk.
    apply Z.leb_le in Hk. apply Z.leb_le.
    apply (cmp_le_trans _ cmp cmp_ok _ (fst y)); auto. lia. }
  destruct (find_last_filter (fun d : WriteEntry => cmp (entry_key d) k <=? 0) D)
    as (J & HJ & HfJ & HsJ).
  { eapply StronglySorted_ind with (P := fun l => StronglySorted _ l);
      [constructor | | exact HD].
    intros x l Hs IH Hx. constructor; auto.
    eapply Forall_impl; [|exact Hx]. cbn beta. intros y Hy Hk.
    apply Z.leb_le in Hk. apply Z.leb_le.
    apply (cmp_le_trans _ cmp cmp_ok _ (entry_key y)); auto. }
  exists I, J. split; [|auto].
  unfold BaseDeltaIterator.SeekForPrev, BaseDeltaIterator.UpdateCurrent,
    BaseDeltaIteratorSpec.bstate, mkst.
  cbn [BaseDeltaIterator.set_forward BaseDeltaIterator.set_base
       BaseDeltaIterator.set_delta BaseDeltaIterator.set_status
       BaseDeltaIterator.forward_ BaseDeltaIterator.current_at_base_
       BaseDeltaIterator.equal_keys_ BaseDeltaIterator.status_
       BaseDeltaIterator.base_iterator_ BaseDeltaIterator.delta_iterator_
       BaseDeltaIterator.iterate_upper_bound_].
  unfold Iterator.SeekForPrev, WBWIIterator.SeekForPrev, Cursor.SeekForPrev,
    Cursor.set_pos.
  cbn [Cursor.items Cursor.pos Cursor.status].
  now rewrite HfI, HfJ.
Qed.

End Forward.

Section Scans.
Variable cmp : Comparator.

Lemma clean_iterator (it : BaseDeltaIterator.t) :
  Cursor.status (BaseDeltaIterator.base_iterator_ it) = OK ->
  Cursor.status (BaseDeltaIterator.delta_iterator_ it) = OK ->
  BaseDeltaIterator.iterate_upper_bound_ it = None ->
  it = BaseDeltaIterator.mk
         (BaseDeltaIterator.forward_ it) (BaseDeltaIterator.current_at_base_ it)
         (BaseDeltaIterator.equal_keys_ it) (BaseDeltaIterator.status_ it)
         (Cursor.mk (Cursor.items (BaseDeltaIterator.base_iterator_ it))
            (Cursor.pos (BaseDeltaIterator.base_iterator_ it)) OK)
         (Cursor.mk (Cursor.items (BaseDeltaIterator.delta_iterator_ it))
            (Cursor.pos (BaseDeltaIterator.delta_iterator_ it)) OK)
         None.
Proof.
  destruct it as [f c e s [B p sb] [D q sd] u]. cbn. intros -> -> ->.
  reflexivity.
Qed.

Lemma ForwardScan_view (it : BaseDeltaIterator.t) :
  Cursor.status (BaseDeltaIterator.base_iterator_ it) = OK ->
  Cursor.status (BaseDeltaIterator.delta_iterator_ it) = OK ->
  BaseDeltaIterator.iterate_upper_bound_ it = None ->
  ForwardScan cmp it
  = Some (MergedView cmp (Cursor.items (BaseDeltaIterator.base_iterator_ it))
            (Cursor.items (BaseDeltaIterator.delta_iterator_ it))).
Proof.
  intros Hb Hd Hu. unfold ForwardScan, scan_fuel.
  rewrite (clean_iterator it Hb Hd Hu) at 3.
  rewrite SeekToFirst_fstate.
  rewrite scan_loop by lia. reflexivity.
Qed.

(** X5.  Over a base and a delta whose cursors have status OK, and without
    an upper bound, SeekToFirst followed by Next to the end shows the merged
    view of the base entries and the delta entries, whatever the state of
    the iterator before. *)
Theorem ForwardScan_MergedView (it : BaseDeltaIterator.t) :
  Cursor.status (BaseDeltaIterator.base_iterator_ it) = OK ->
  Cursor.status (BaseDeltaIterator.delta_iterator_ it) = OK ->
  BaseDeltaIterator.iterate_upper_bound_ it = None ->
  ForwardScan cmp it
  = Some (MergedView cmp (Cursor.items (BaseDeltaIterator.base_iterator_ it))
            (Cursor.items (BaseDeltaIterator.delta_iterator_ it))).
Proof. exact (ForwardScan_view it). Qed.

(** X1.  Over an ordered base and an ordered delta, the forward scan ends,
    shows exactly the delta entries that are no Delete or SingleDelete and
    the base entries whose key no delta entry carries, and shows them in key
    order. *)
Theorem ForwardScan_shows (it : BaseDeltaIterator.t) :
  let B := Cursor.items (BaseDeltaIterator.base_iterator_ it) in
  let D := Cursor.items (BaseDeltaIterator.delta_iterator_ it) in
  Comparator_ok cmp -> base_sorted cmp B -> delta_sorted cmp D ->
  Cursor.status (BaseDeltaIterator.base_iterator_ it) = OK ->
  Cursor.status (BaseDeltaIterator.delta_iterator_ it) = OK ->
  BaseDeltaIterator.iterate_upper_bound_ it = None ->
  exists l,
    ForwardScan cmp it = Some l /\
    (forall k v, In (k, v) l <->
                 shown_by_delta D k v \/ shown_by_base cmp B D k v) /\
    StronglySorted (fun x y => cmp (fst x) (fst y) <= 0) l.
Proof.
  intros B D cmp_ok HB HD Hb Hd Hu.
  exists (MergedView cmp B D). split; [now apply ForwardScan_view|]. split.
  - now apply MergedViewFacts.MergedView_In.
  - now apply MergedViewFacts.MergedView_sorted.
Qed.

Lemma StronglySorted_filter {A : Type} (R : A -> A -> Prop) (f : A -> bool)
      (l : list A) :
  StronglySorted R l -> StronglySorted R (filter f l).
Proof.
  induction 1 as [|x l Hs IH Hx]; [constructor|]. cbn [filter].
  destruct (f x); auto. constructor; auto.
  rewrite Forall_forall in *. intros y Hy. apply filter_In in Hy.
  apply Hx. tauto.
Qed.

Lemma shown_by_delta_filter (D : list WriteEntry) (k k' v : Slice) :
  shown_by_delta (filter (fun d => 0 <=? cmp (entry_key d) k) D) k' v <->
  0 <= cmp k' k /\ shown_by_delta D k' v.
Proof.
  unfold shown_by_delta. split.
  - intros (d & Hin & Hd & Hp). apply filter_In in Hin. destruct Hin as [Hin Hk].
    apply Z.leb_le in Hk. injection Hp as Hp1 Hp2. subst k' v.
    split; [exact Hk|]. exists d. auto.
  - intros (Hk & d & Hin & Hd & Hp). exists d. split; auto.
    apply filter_In. split; auto. injection Hp as Hp1 Hp2. subst k' v.
    now apply Z.leb_le.
Qed.

Lemma shown_by_base_filter (B : list (Slice * Slice)) (D : list WriteEntry)
      (k k' v : Slice) :
  Comparator_ok cmp ->
  shown_by_base cmp (filter (fun b => 0 <=? cmp (fst b) k) B)
    (filter (fun d => 0 <=? cmp (entry_key d) k) D) k' v <->
  0 <= cmp k' k /\ shown_by_base cmp B D k' v.
Proof.
  intros cmp_ok. unfold shown_by_base. split.
  - intros (Hin & Hun). apply filter_In in Hin. destruct Hin as [Hin Hk].
    cbn [fst] in Hk. apply Z.leb_le in Hk. split; [exact Hk|]. split; auto.
    intros d Hd. destruct (0 <=? cmp (entry_key d) k) eqn:Hdk.
    + apply Hun. apply filter_In. auto.
    + apply Z.leb_gt in Hdk.
      assert (cmp (entry_key d) k' < 0); [|lia].
      apply (cmp_lt_le_trans _ cmp cmp_ok _ k); auto.
      now apply (cmp_le_ge _ cmp cmp_ok).
  - intros (Hk & Hin & Hun). split.
    + apply filter_In. split; auto. cbn [fst]. now apply Z.leb_le.
    + intros d Hd. apply filter_In in Hd. apply Hun. tauto.
Qed.

(** X2.  Over an ordered base and an ordered delta, Seek(k) followed by Next
    to the end shows exactly the entries of the forward scan whose key is at
    or after [k], in key order. *)
Theorem ForwardScanFrom_shows (k : Slice) (it : BaseDeltaIterator.t) :
  let B := Cursor.items (BaseDeltaIterator.base_iterator_ it) in
  let D := Cursor.items (BaseDeltaIterator.delta_iterator_ it) in
  Comparator_ok cmp -> base_sorted cmp B -> delta_sorted cmp D ->
  Cursor.status (BaseDeltaIterator.base_iterator_ it) = OK ->
  Cursor.status (BaseDeltaIterator.delta_iterator_ it) = OK ->
  BaseDeltaIterator.iterate_upper_bound_ it = None ->
  exists l,
    ForwardScanFrom cmp k it = Some l /\
    (forall k' v, In (k', v) l <->
                  0 <= cmp k' k /\
                  (shown_by_delta D k' v \/ shown_by_base cmp B D k' v)) /\
    StronglySorted (fun x y => cmp (fst x) (fst y) <= 0) l.
Proof.
  intros B D cmp_ok HB HD Hb Hd Hu.
  unfold ForwardScanFrom, scan_fuel. fold B D.
  rewrite (clean_iterator it Hb Hd Hu). fold B D.
  destruct (Seek_fstate_filter cmp B D k
              (BaseDeltaIterator.forward_ it)
              (BaseDeltaIterator.current_at_base_ it)
              (BaseDeltaIterator.equal_keys_ it)
              (BaseDeltaIterator.status_ it)
              (Cursor.pos (BaseDeltaIterator.base_iterator_ it))
              (Cursor.pos (BaseDeltaIterator.delta_iterator_ it))
              cmp_ok HB HD) as (I & J & HS & HI & HJ & HsI & HsJ).
  rewrite HS. rewrite scan_loop by lia. rewrite HsI, HsJ.
  eexists. split; [reflexivity|].
  assert (HB' : base_sorted cmp (filter (fun b => 0 <=? cmp (fst b) k) B))
    by now apply StronglySorted_filter.
  assert (HD' : delta_sorted cmp (filter (fun d => 0 <=? cmp (entry_key d) k) D))
    by now apply StronglySorted_filter.
  split.
  - intros k' v.
    rewrite (MergedViewFacts.MergedView_In cmp cmp_ok _ _ HB' HD').
    rewrite shown_by_delta_filter, shown_by_base_filter by exact cmp_ok.
    tauto.
  - now apply MergedViewFacts.MergedView_sorted.
Qed.

Lemma BackwardScan_view (it : BaseDeltaIterator.t) :
  Cursor.status (BaseDeltaIterator.base_iterator_ it) = OK ->
  Cursor.status (BaseDeltaIterator.delta_iterator_ it) = OK ->
  BaseDeltaIterator.iterate_upper_bound_ it = None ->
  BackwardScan cmp it
  = Some (MergedView (reversed cmp)
            (rev (Cursor.items (BaseDeltaIterator.base_iterator_ it)))
            (rev (Cursor.items (BaseDeltaIterator.delta_iterator_ it)))).
Proof.
  intros Hb Hd Hu. unfold BackwardScan, scan_fuel.
  rewrite (clean_iterator it Hb Hd Hu) at 3.
  rewrite SeekToLast_bstate.
  rewrite scan_loop_bwd by lia. now rewrite !firstn_all.
Qed.

Lemma reversed_ok : Comparator_ok cmp -> Comparator_ok (reversed cmp).
Proof.
  intros cmp_ok. unfold reversed. split.
  - intros a b. pose proof (compare_sym cmp cmp_ok a b).
    rewrite !Z.sgn_mul. change (Z.sgn (-1)) with (-1). lia.
  - intros a b c Hab Hbc.
    assert (cmp c b <= 0) by (apply (cmp_le_ge _ cmp cmp_ok); lia).
    assert (cmp b a <= 0) by (apply (cmp_le_ge _ cmp cmp_ok); lia).
    assert (cmp c a <= 0) by (apply (cmp_le_trans _ cmp cmp_ok _ b); auto).
    assert (0 <= cmp a c) by (now apply (cmp_le_ge _ cmp cmp_ok)).
    lia.
Qed.

Lemma StronglySorted_snoc {A : Type} (R : A -> A -> Prop) (l : list A) (x : A) :
  StronglySorted R l -> Forall (fun y => R y x) l ->
  StronglySorted R (l ++ [x]).
Proof.
  induction 1 as [|y l Hs IH Hy]; intros Hx; cbn [app].
  - repeat constructor.
  - inversion Hx as [|? ? Hyx Hlx]; subst. constructor; auto.
    apply Forall_app. split; auto.
Qed.

Lemma StronglySorted_rev {A : Type} (R R' : A -> A -> Prop) (l : list A) :
  (forall a b, R a b -> R' b a) ->
  StronglySorted R l -> StronglySorted R' (rev l).
Proof.
  intros HR. induction 1 as [|x l Hs IH Hx]; [constructor|].
  cbn [rev]. apply StronglySorted_snoc; auto.
  rewrite Forall_forall in *. intros y Hy. rewrite <- in_rev in Hy. auto.
Qed.

Lemma shown_by_delta_rev (D : list WriteEntry) (k v : Slice) :
  shown_by_delta (rev D) k v <-> shown_by_delta D k v.
Proof.
  unfold shown_by_delta.
  split; intros (d & Hin & H); exists d; (split; [|exact H]).
  - now rewrite <- in_rev in Hin.
  - now rewrite <- in_rev.
Qed.

Lemma shown_by_base_rev (B : list (Slice * Slice)) (D : list WriteEntry)
      (k v : Slice) :
  shown_by_base (reversed cmp) (rev B) (rev D) k v <-> shown_by_base cmp B D k v.
Proof.
  unfold shown_by_base, reversed. split; intros [Hin Hun].
  - split; [now rewrite <- in_rev in Hin|]. intros d Hd.
    rewrite in_rev in Hd. specialize (Hun d Hd). lia.
  - split; [now rewrite <- in_rev|]. intros d Hd.
    rewrite <- in_rev in Hd. specialize (Hun d Hd). lia.
Qed.

(** X3.  Over an ordered base and an ordered delta, SeekToLast followed by
    Prev to the beginning ends, shows exactly the entries that the forward
    scan shows, and shows them in descending key order. *)
Theorem BackwardScan_shows (it : BaseDeltaIterator.t) :
  let B := Cursor.items (BaseDeltaIterator.base_iterator_ it) in
  let D := Cursor.items (BaseDeltaIterator.delta_iterator_ it) in
  Comparator_ok cmp -> base_sorted cmp B -> delta_sorted cmp D ->
  Cursor.status (BaseDeltaIterator.base_iterator_ it) = OK ->
  Cursor.status (BaseDeltaIterator.delta_iterator_ it) = OK ->
  BaseDeltaIterator.iterate_upper_bound_ it = None ->
  exists l,
    BackwardScan cmp it = Some l /\
    (forall k v, In (k, v) l <->
                 shown_by_delta D k v \/ shown_by_base cmp B D k v) /\
    StronglySorted (fun x y => 0 <= cmp (fst x) (fst y)) l.
Proof.
  intros B D cmp_ok HB HD Hb Hd Hu.
  exists (MergedView (reversed cmp) (rev B) (rev D)).
  split; [now apply BackwardScan_view|].
  assert (HB' : base_sorted (reversed cmp) (rev B)).
  { eapply StronglySorted_rev; [|exact HB]. cbn beta. intros a b Hab.
    unfold reversed.
    assert (0 < cmp (fst b) (fst a)) by (now apply (cmp_lt_gt _ cmp cmp_ok)).
    lia. }
  assert (HD' : delta_sorted (reversed cmp) (rev D)).
  { eapply StronglySorted_rev; [|exact HD]. cbn beta. intros a b Hab.
    unfold reversed.
    assert (0 <= cmp (entry_key b) (entry_key a))
      by (now apply (cmp_le_ge _ cmp cmp_ok)).
    lia. }
  split.
  - intros k v.
    rewrite (MergedViewFacts.MergedView_In (reversed cmp) (reversed_ok cmp_ok)
               _ _ HB' HD').
    now rewrite shown_by_delta_rev, shown_by_base_rev.
  - pose proof (MergedViewFacts.MergedView_sorted (reversed cmp)
                  (reversed_ok cmp_ok) _ _ HB' HD') as Hs.
    eapply StronglySorted_ind with (P := fun l => StronglySorted _ l);
      [constructor | | exact Hs].
    intros x l Hl IH Hx. constructor; auto.
    eapply Forall_impl; [|exact Hx]. cbn beta. unfold reversed. intros; lia.
Qed.

Lemma shown_by_delta_filter_le (D : list WriteEntry) (k k' v : Slice) :
  shown_by_delta (filter (fun d => cmp (entry_key d) k <=? 0) D) k' v <->
  cmp k' k <= 0 /\ shown_by_delta D k' v.
Proof.
  unfold shown_by_delta. split.
  - intros (d & Hin & Hd & Hp). apply filter_In in Hin. destruct Hin as [Hin Hk].
    apply Z.leb_le in Hk. injection Hp as Hp1 Hp2. subst k' v.
    split; [exact Hk|]. exists d. auto.
  - intros (Hk & d & Hin & Hd & Hp). exists d. split; auto.
    apply filter_In. split; auto. injection Hp as Hp1 Hp2. subst k' v.
    now apply Z.leb_le.
Qed.

Lemma shown_by_base_filter_le (B : list (Slice * Slice)) (D : list WriteEntry)
      (k k' v : Slice) :
  Comparator_ok cmp ->
  shown_by_base cmp (filter (fun b => cmp (fst b) k <=? 0) B)
    (filter (fun d => cmp (entry_key d) k <=? 0) D) k' v <->
  cmp k' k <= 0 /\ shown_by_base cmp B D k' v.
Proof.
  intros cmp_ok. unfold shown_by_base. split.
  - intros (Hin & Hun). apply filter_In in Hin. destruct Hin as [Hin Hk].
    cbn [fst] in Hk. apply Z.leb_le in Hk. split; [exact Hk|]. split; auto.
    intros d Hd. destruct (cmp (entry_key d) k <=? 0) eqn:Hdk.
    + apply Hun. apply filter_In. auto.
    + apply Z.leb_gt in Hdk.
      assert (0 < cmp (entry_key d) k'); [|lia].
      apply (cmp_lt_gt _ cmp cmp_ok).
      apply (cmp_le_lt_trans _ cmp cmp_ok _ k); auto.
      now apply (cmp_lt_gt _ cmp cmp_ok).
  - intros (Hk & Hin & Hun). split.
    + apply filter_In. split; auto. cbn [fst]. now apply Z.leb_le.
    + intros d Hd. apply filter_In in Hd. apply Hun. tauto.
Qed.

(** X4.  Over an ordered base and an ordered delta, SeekForPrev(k) followed
    by Prev to the beginning shows exactly the entries of the scan whose key
    is at or before [k], in descending key order. *)
Theorem BackwardScanFrom_shows (k : Slice) (it : BaseDeltaIterator.t) :
  let B := Cursor.items (BaseDeltaIterator.base_iterator_ it) in
  let D := Cursor.items (BaseDeltaIterator.delta_iterator_ it) in
  Comparator_ok cmp -> base_sorted cmp B -> delta_sorted cmp D ->
  Cursor.status (BaseDeltaIterator.base_iterator_ it) = OK ->
  Cursor.status (BaseDeltaIterator.delta_iterator_ it) = OK ->
  BaseDeltaIterator.iterate_upper_bound_ it = None ->
  exists l,
    BackwardScanFrom cmp k it = Some l /\
    (forall k' v, In (k', v) l <->
                  cmp k' k <= 0 /\
                  (shown_by_delta D k' v \/ shown_by_base cmp B D k' v)) /\
    StronglySorted (fun x y => 0 <= cmp (fst x) (fst y)) l.
Proof.
  intros B D cmp_ok HB HD Hb Hd Hu.
  unfold BackwardScanFrom, scan_fuel. fold B D.
  rewrite (clean_iterator it Hb Hd Hu). fold B D.
  destruct (SeekForPrev_bstate_filter cmp B D k
              (BaseDeltaIterator.forward_ it)
              (BaseDeltaIterator.current_at_base_ it)
              (BaseDeltaIterator.equal_keys_ it)
              (BaseDeltaIterator.status_ it)
              (Cursor.pos (BaseDeltaIterator.base_iterator_ it))
              (Cursor.pos (BaseDeltaIterator.delta_iterator_ it))
              cmp_ok HB HD) as (I & J & HS & HI & HJ & HsI & HsJ).
  rewrite HS. rewrite scan_loop_bwd by lia. rewrite HsI, HsJ.
  eexists. split; [reflexivity|].
  set (B' := filter (fun b => cmp (fst b) k <=? 0) B).
  set (D' := filter (fun d => cmp (entry_key d) k <=? 0) D).
  assert (HB' : base_sorted (reversed cmp) (rev B')).
  { eapply StronglySorted_rev;
      [|apply (StronglySorted_filter _ _ _ HB)].
    cbn beta. intros a b Hab. unfold reversed.
    assert (0 < cmp (fst b) (fst a)) by (now apply (cmp_lt_gt _ cmp cmp_ok)).
    lia. }
  assert (HD' : delta_sorted (reversed cmp) (rev D')).
  { eapply StronglySorted_rev;
      [|apply (StronglySorted_filter _ _ _ HD)].
    cbn beta. intros a b Hab. unfold reversed.
    assert (0 <= cmp (entry_key b) (entry_key a))
      by (now apply (cmp_le_ge _ cmp cmp_ok)).
    lia. }
  split.
  - intros k' v.
    rewrite (MergedViewFacts.MergedView_In (reversed cmp) (reversed_ok cmp_ok)
               _ _ HB' HD').
    rewrite shown_by_delta_rev, shown_by_base_rev.
    unfold B', D'.
    rewrite shown_by_delta_filter_le, shown_by_base_filter_le by exact cmp_ok.
    tauto.
  - pose proof (MergedViewFacts.MergedView_sorted (reversed cmp)
                  (reversed_ok cmp_ok) _ _ HB' HD') as Hs.
    eapply StronglySorted_ind with (P := fun l => StronglySorted _ l);
      [constructor | | exact Hs].
    intros x l Hl IH Hx. constructor; auto.
    eapply Forall_impl; [|exact Hx]. cbn beta. unfold reversed. intros; lia.
Qed.

End Scans.
End BaseDeltaIteratorScan.

Module BaseDeltaIteratorScanExamples.
Import BaseDeltaIteratorSpec MergedViewSpec BaseDeltaIteratorInputs.
Import BaseDeltaIteratorScan.
Local Open Scope string_scope.
Local Open Scope Z_scope.

Lemma mixed_sorted :
  Comparator_ok BytewiseComparator /\
  base_sorted BytewiseComparator
    (Cursor.items (BaseDeltaIterator.base_iterator_ mixed)) /\
  delta_sorted BytewiseComparator
    (Cursor.items (BaseDeltaIterator.delta_iterator_ mixed)).
Proof.
  split; [exact BytewiseComparator_ok|].
  split; repeat constructor; vm_compute; discriminate.
Qed.

Example ForwardScan_mixed :
  ForwardScan BytewiseComparator mixed
  = Some [("a", "A"); ("b", "B"); ("d", "D"); ("e", "E")].
Proof. reflexivity. Qed.

Example ForwardScanFrom_mixed :
  ForwardScanFrom BytewiseComparator "c" mixed
  = Some [("d", "D"); ("e", "E")].
Proof. reflexivity. Qed.

Example BackwardScan_mixed :
  BackwardScan BytewiseComparator mixed
  = Some [("e", "E"); ("d", "D"); ("b", "B"); ("a", "A")].
Proof. reflexivity. Qed.

Lemma ForwardScan_MergedView_witness :
  ForwardScan BytewiseComparator mixed
  = Some (MergedView BytewiseComparator
            (Cursor.items (BaseDeltaIterator.base_iterator_ mixed))
            (Cursor.items (BaseDeltaIterator.delta_iterator_ mixed))).
Proof.
  apply (ForwardScan_MergedView BytewiseComparator mixed); reflexivity.
Defined.

Lemma ForwardScan_shows_witness :
  exists l,
    ForwardScan BytewiseComparator mixed = Some l /\
    (forall k v,
        In (k, v) l <->
        shown_by_delta (Cursor.items (BaseDeltaIterator.delta_iterator_ mixed))
          k v \/
        shown_by_base BytewiseComparator
          (Cursor.items (BaseDeltaIterator.base_iterator_ mixed))
          (Cursor.items (BaseDeltaIterator.delta_iterator_ mixed)) k v) /\
    StronglySorted (fun x y => BytewiseComparator (fst x) (fst y) <= 0) l.
Proof.
  destruct mixed_sorted as (H1 & H2 & H3).
  apply (ForwardScan_shows BytewiseComparator mixed H1 H2 H3); reflexivity.
Defined.

Lemma ForwardScanFrom_shows_witness :
  exists l,
    ForwardScanFrom BytewiseComparator "c" mixed = Some l /\
    (forall k v,
        In (k, v) l <->
        0 <= BytewiseComparator k "c" /\
        (shown_by_delta (Cursor.items (BaseDeltaIterator.delta_iterator_ mixed))
           k v \/
         shown_by_base BytewiseComparator
           (Cursor.items (BaseDeltaIterator.base_iterator_ mixed))
           (Cursor.items (BaseDeltaIterator.delta_iterator_ mixed)) k v)) /\
    StronglySorted (fun x y => BytewiseComparator (fst x) (fst y) <= 0) l.
Proof.
  destruct mixed_sorted as (H1 & H2 & H3).
  apply (ForwardScanFrom_shows BytewiseComparator "c" mixed H1 H2 H3);
    reflexivity.
Defined.

Lemma BackwardScan_shows_witness :
  exists l,
    BackwardScan BytewiseComparator mixed = Some l /\
    (forall k v,
        In (k, v) l <->
        shown_by_delta (Cursor.items (BaseDeltaIterator.delta_iterator_ mixed))
          k v \/
        shown_by_base BytewiseComparator
          (Cursor.items (BaseDeltaIterator.base_iterator_ mixed))
          (Cursor.items (BaseDeltaIterator.delta_iterator_ mixed)) k v) /\
    StronglySorted (fun x y => 0 <= BytewiseComparator (fst x) (fst y)) l.
Proof.
  destruct mixed_sorted as (H1 & H2 & H3).
  apply (BackwardScan_shows BytewiseComparator mixed H1 H2 H3); reflexivity.
Defined.

Example BackwardScanFrom_mixed :
  BackwardScanFrom BytewiseComparator "c" mixed
  = Some [("b", "B"); ("a", "A")].
Proof. reflexivity. Qed.

Lemma BackwardScanFrom_shows_witness :
  exists l,
    BackwardScanFrom BytewiseComparator "c" mixed = Some l /\
    (forall k v,
        In (k, v) l <->
        BytewiseComparator k "c" <= 0 /\
        (shown_by_delta (Cursor.items (BaseDeltaIterator.delta_iterator_ mixed))
           k v \/
         shown_by_base BytewiseComparator
           (Cursor.items (BaseDeltaIterator.base_iterator_ mixed))
           (Cursor.items (BaseDeltaIterator.delta_iterator_ mixed)) k v)) /\
    StronglySorted (fun x y => 0 <= BytewiseComparator (fst x) (fst y)) l.
Proof.
  destruct mixed_sorted as (H1 & H2 & H3).
  apply (BackwardScanFrom_shows BytewiseComparator "c" mixed H1 H2 H3);
    reflexivity.
Defined.

End BaseDeltaIteratorScanExamples.

(** ** The point-read resolver: the whole backward walk *)

Module GetFromBatchWalk.
Import WriteBatchEntryComparator WriteBatchWithIndexInternal GetFromBatchSpec.

Section Walk.
Variable kFlagMinInCf : N.
Variable column_family_ : option ColumnFamilyHandle.
Variable batch : WriteBatchWithIndex.
Variable key : Slice.

Local Abbreviation cf_id := (GetColumnFamilyID column_family_).
Local Abbreviation comparator_ := (index_comparator batch).
Local Abbreviation cmp := (CompareKey (index_comparator batch)
                             (GetColumnFamilyID column_family_)).

Lemma Prev_at_index (l : list WriteEntry) (n : nat) :
  (n < length l)%nat -> WBWIIterator.Prev (at_index l n) = before l n.
Proof.
  intros Hn. unfold at_index, before, WBWIIterator.Prev, Cursor.Prev,
    Cursor.set_pos.
  pose proof Hn as Hn'. apply Nat.ltb_lt in Hn'. rewrite Hn'.
  cbn [Cursor.pos Cursor.items Cursor.status].
  destruct n as [|m].
  - unfold at_index. now rewrite Nat.ltb_irrefl.
  - unfold at_index.
    assert (Hm : (m <? length l)%nat = true) by (apply Nat.ltb_lt; lia).
    now rewrite Hm.
Qed.

Lemma Walk_before (M : list WriteEntry) :
  forall (fuel : nat) (pre rest : list WriteEntry) (w : WalkState)
         (overwrite_key : bool),
    (length M < fuel)%nat ->
    Forall (fun x => cmp key (entry_key x) = 0) M ->
    SkipListSpec.head_sat (fun x => cmp key (entry_key x) <> 0) (rev pre) ->
    Walk fuel comparator_ cf_id key overwrite_key
      (before (pre ++ M ++ rest) (length pre + length M)) w
    = WalkEntries overwrite_key (rev M) w.
Proof.
  induction M as [|e M IH] using rev_ind;
    intros fuel pre rest w overwrite_key Hfuel HM Hpre.
  - cbn [app length rev WalkEntries]. rewrite Nat.add_0_r.
    destruct fuel as [|fuel]; [simpl in Hfuel; lia|]. cbn [Walk].
    destruct (list_snoc_cases pre) as [-> | (pre' & x & ->)].
    + cbn [length before app]. rewrite GetFromBatchFacts.Valid_at_index.
      now rewrite Nat.ltb_irrefl.
    + rewrite rev_app_distr in Hpre. cbn [rev app SkipListSpec.head_sat] in Hpre.
      rewrite length_app. cbn [length]. rewrite Nat.add_1_r. cbn [before].
      rewrite <- app_assoc. cbn [app].
      rewrite GetFromBatchFacts.Valid_at_index.
      assert (Hlt : (length pre' <? length (pre' ++ x :: rest))%nat = true).
      { apply Nat.ltb_lt. rewrite length_app. simpl. lia. }
      rewrite Hlt. cbn [negb].
      rewrite (GetFromBatchFacts.MatchesKey_at_index column_family_ batch key).
      apply Z.eqb_neq in Hpre. now rewrite Hpre.
  - rewrite rev_app_distr. cbn [rev app WalkEntries].
    apply Forall_app in HM. destruct HM as [HM He].
    inversion He as [|? ? Hek _]; subst.
    rewrite length_app in *. cbn [length] in *.
    rewrite Nat.add_assoc, Nat.add_1_r. cbn [before].
    destruct fuel as [|fuel]; [lia|]. cbn [Walk].
    replace (pre ++ (M ++ [e]) ++ rest)%list
      with ((pre ++ M) ++ e :: rest)%list
      by (rewrite <- !app_assoc; reflexivity).
    replace (length pre + length M)%nat with (length (pre ++ M))
      by (now rewrite length_app).
    rewrite GetFromBatchFacts.Valid_at_index.
    assert (Hlt : (length (pre ++ M) <? length ((pre ++ M) ++ e :: rest))%nat
                  = true).
    { apply Nat.ltb_lt. rewrite (length_app (pre ++ M)). simpl. lia. }
    rewrite Hlt. cbn [negb].
    rewrite (GetFromBatchFacts.MatchesKey_at_index column_family_ batch key).
    rewrite GetFromBatchFacts.Entry_at_index.
    apply Z.eqb_eq in Hek. rewrite Hek. cbn [negb].
    destruct (Result_eqb (w_result (FoldEntry e w)) kFound
              || Result_eqb (w_result (FoldEntry e w)) kDeleted
              || Result_eqb (w_result (FoldEntry e w)) kError);
      [reflexivity|].
    destruct (Result_eqb (w_result (FoldEntry e w)) kMergeInProgress
              && overwrite_key); [reflexivity|].
    rewrite Prev_at_index by (now apply Nat.ltb_lt).
    rewrite length_app.
    replace ((pre ++ M) ++ e :: rest)%list
      with (pre ++ M ++ e :: rest)%list
      by (rewrite <- !app_assoc; reflexivity).
    apply IH; auto. lia.
Qed.

Section Entries.
Hypothesis cmp_ok : Comparator_ok cmp.
Variables (A M B : list WriteEntry).
Hypothesis Hitems : index_entries batch cf_id = (A ++ M ++ B)%list.
Hypothesis HA : Forall (fun x => cmp (entry_key x) key < 0) A.
Hypothesis HM : Forall (fun x => cmp (entry_key x) key = 0) M.
Hypothesis HB : Forall (fun x => 0 < cmp (entry_key x) key) B.

Lemma GetFromBatch_walk_entries (merge_context : list Slice)
      (overwrite_key : bool) :
  GetFromBatch_walk column_family_ batch key merge_context overwrite_key
  = WalkEntries overwrite_key (rev M) (walk_start merge_context).
Proof.
  assert (HA' : Forall (fun x => cmp key (entry_key x) <> 0) A).
  { eapply Forall_impl; [|exact HA]. cbn beta. intros x Hx.
    apply (cmp_lt_gt _ _ cmp_ok) in Hx. lia. }
  assert (HB' : Forall (fun x => cmp key (entry_key x) <> 0) B).
  { eapply Forall_impl; [|exact HB]. cbn beta. intros x Hx.
    apply (cmp_lt_gt _ _ cmp_ok) in Hx. lia. }
  assert (HM' : Forall (fun x => cmp key (entry_key x) = 0) M).
  { eapply Forall_impl; [|exact HM]. cbn beta. intros x Hx.
    now apply (cmp_eq_sym _ _ cmp_ok). }
  destruct (list_snoc_cases M) as [-> | (M' & e & ->)].
  - cbn [rev WalkEntries]. unfold GetFromBatch_walk.
    rewrite GetFromBatchFacts.Walk_no_match; [reflexivity|].
    match goal with
    | |- Forall _ (Cursor.items (if ?c then _ else _)) => destruct c
    end;
      unfold WBWIIterator.SeekToLast, WBWIIterator.Prev, Cursor.SeekToLast,
        Cursor.Prev, Cursor.set_pos; cbn [Cursor.items];
      rewrite GetFromBatchFacts.SkipMatching_items;
      unfold WBWIIterator.Seek, Cursor.Seek, Cursor.set_pos, NewIterator;
      cbn [Cursor.items]; rewrite Hitems; cbn [app];
      apply Forall_app; auto.
  - apply Forall_app in HM. destruct HM as [HM1 He].
    inversion He as [|? ? Hek _]; subst.
    rewrite <- app_assoc in Hitems. cbn [app] in Hitems.
    unfold GetFromBatch_walk. cbv zeta.
    rewrite (GetFromBatchFacts.Seek_position column_family_ batch key A M' B e
               Hitems HA HM1 Hek).
    unfold NewIterator. cbn [Cursor.items]. rewrite Hitems.
    rewrite (GetFromBatchFacts.SkipMatching_position column_family_ batch key
               cmp_ok A M' B e HM1 Hek HB).
    rewrite (GetFromBatchFacts.Walk_start_position column_family_ batch
               A M' B e Hitems).
    replace (at_index (A ++ M' ++ e :: B) (length A + length M'))
      with (before (A ++ (M' ++ [e]) ++ B) (length A + length (M' ++ [e]))).
    + apply Walk_before; auto.
      * rewrite !length_app. cbn [length]. lia.
      * apply SkipListFacts.Forall_head_sat. now apply Forall_rev.
    + rewrite length_app. cbn [length]. rewrite Nat.add_assoc, Nat.add_1_r.
      cbn [before]. now rewrite <- app_assoc.
Qed.

End Entries.

Lemma WalkEntries_merges (Ms : list WriteEntry) :
  forall (older : list WriteEntry) (w : WalkState),
    Forall (fun x => type x = kMergeRecord) Ms ->
    WalkEntries false (Ms ++ older) w
    = WalkEntries false older
        (match Ms with
         | [] => w
         | _ => mkWalkState kMergeInProgress (w_entry_value w)
                  (w_merge_context w ++ map entry_value Ms) (w_s w)
         end).
Proof.
  induction Ms as [|m Ms IH]; intros older w HMs; [reflexivity|].
  inversion HMs as [|? ? Hm HMs']; subst.
  cbn [app WalkEntries]. unfold FoldEntry at 1 2 3 4. rewrite Hm.
  cbn [w_result Result_eqb orb andb]. unfold FoldEntry. rewrite Hm.
  rewrite IH by exact HMs'.
  destruct Ms as [|m' Ms']; [reflexivity|].
  cbn [w_entry_value w_merge_context w_s map]. rewrite <- app_assoc.
  reflexivity.
Qed.

Lemma FoldEntry_ends_walk (p : WriteEntry) (w : WalkState) :
  ends_walk p = true ->
  FoldEntry p w
  = mkWalkState (match merge_base p with Some _ => kFound | None => kDeleted end)
      (match merge_base p with Some v => v | None => w_entry_value w end)
      (w_merge_context w) (w_s w).
Proof.
  unfold ends_walk, FoldEntry, merge_base.
  destruct (type p); try discriminate; intros _;
    try destruct (is_in_deleted_range p); reflexivity.
Qed.

Lemma Walk_error_iff (fuel : nat) : forall overwrite_key iter w,
  ok (w_s w) = true -> Result_eqb (w_result w) kError = false ->
  let w' := Walk fuel comparator_ cf_id key overwrite_key iter w in
  Result_eqb (w_result w') kError = negb (ok (w_s w')).
Proof.
  induction fuel as [|fuel IH]; intros overwrite_key iter w Hs Hr; cbn [Walk];
    cbv zeta.
  - now rewrite Hr, Hs.
  - destruct (WBWIIterator.Valid iter); cbn [negb]; [|now rewrite Hr, Hs].
    destruct (MatchesKey comparator_ iter cf_id key); cbn [negb];
      [|now rewrite Hr, Hs].
    set (w1 := FoldEntry (WBWIIterator.Entry iter) w).
    assert (Hw1 : Result_eqb (w_result w1) kError = negb (ok (w_s w1))).
    { unfold w1, FoldEntry.
      destruct (type (WBWIIterator.Entry iter));
        try destruct (is_in_deleted_range (WBWIIterator.Entry iter));
        cbn [negb w_result w_s Result_eqb ok]; rewrite ?Hs, ?Hr; reflexivity. }
    destruct (Result_eqb (w_result w1) kFound || Result_eqb (w_result w1) kDeleted
              || Result_eqb (w_result w1) kError) eqn:Hstop; [exact Hw1|].
    destruct (Result_eqb (w_result w1) kMergeInProgress && overwrite_key);
      [exact Hw1|].
    apply orb_false_iff in Hstop. destruct Hstop as [_ Herr].
    apply IH; auto. rewrite Herr in Hw1.
    now destruct (ok (w_s w1)).
Qed.

Variable deleted_ranges_comparator : WriteBatchEntryComparator.t.
Variable deleted_ranges : DeletedRangeMap.t.

(** X16.  GetFromBatch returns kError exactly when it leaves a status that
    is not OK, for every batch, key, merge context and flag. *)
Theorem GetFromBatch_error_iff (merge_context : list Slice) (value : string)
        (overwrite_key : bool) :
  let out := GetFromBatch kFlagMinInCf column_family_ batch key
               deleted_ranges_comparator deleted_ranges merge_context value
               overwrite_key in
  Result_eqb (o_result out) kError = negb (ok (o_s out)).
Proof.
  cbv zeta. unfold GetFromBatch.
  pose proof (Walk_error_iff
                (S (length (Cursor.items (NewIterator batch column_family_))))
                overwrite_key
                (let iter := WBWIIterator.Seek cmp key
                               (NewIterator batch column_family_) in
                 let iter := SkipMatching
                               (S (length (Cursor.items
                                             (NewIterator batch column_family_))))
                               comparator_ cf_id key iter in
                 if negb (WBWIIterator.Valid iter)
                 then WBWIIterator.SeekToLast iter
                 else WBWIIterator.Prev iter)
                (mkWalkState kNotFound EmptyString merge_context OK)
                eq_refl eq_refl) as H.
  cbv zeta in H.
  change (Walk _ _ _ _ _ _ _)
    with (GetFromBatch_walk column_family_ batch key merge_context overwrite_key)
    in H.
  set (w := GetFromBatch_walk column_family_ batch key merge_context
              overwrite_key) in *.
  destruct (ok (w_s w)) eqn:Hs; cbn [negb] in H.
  - destruct (Result_eqb (w_result w) kFound || Result_eqb (w_result w) kDeleted)
      eqn:Hfd.
    + destruct (0 <? length (w_merge_context w))%nat.
      * destruct (MergeKey column_family_ key _ (w_merge_context w) value)
          as [s v].
        destruct (ok s) eqn:Hok; cbn [Result_eqb o_result o_s];
          now rewrite Hok.
      * cbn [o_result o_s]. rewrite Hs.
        destruct (w_result w); try discriminate; reflexivity.
    + cbn [o_s]. rewrite Hs.
      destruct (w_result w); try discriminate; cbn [Result_eqb];
        try reflexivity.
      now destruct (DeletedRangeMap.IsInInterval _ _ _ _ _).
  - cbn [o_result o_s]. now rewrite Hs.
Qed.

Section MergeChain.
Hypothesis cmp_ok : Comparator_ok cmp.
Variables (A M0 Ms B : list WriteEntry) (p : WriteEntry).
Hypothesis Hitems :
  index_entries batch cf_id = (A ++ (M0 ++ p :: Ms) ++ B)%list.
Hypothesis HA : Forall (fun x => cmp (entry_key x) key < 0) A.
Hypothesis HM0 : Forall (fun x => cmp (entry_key x) key = 0) M0.
Hypothesis Hp : cmp (entry_key p) key = 0.
Hypothesis HMs : Forall (fun x => cmp (entry_key x) key = 0) Ms.
Hypothesis HB : Forall (fun x => 0 < cmp (entry_key x) key) B.
Hypothesis Hmerges : Forall (fun x => type x = kMergeRecord) Ms.
Hypothesis Hnonempty : Ms <> [].
Hypothesis Hends : ends_walk p = true.

Lemma GetFromBatch_walk_merge_chain (merge_context : list Slice) :
  GetFromBatch_walk column_family_ batch key merge_context false
  = mkWalkState (match merge_base p with Some _ => kFound | None => kDeleted end)
      (match merge_base p with Some v => v | None => EmptyString end)
      (merge_context ++ map entry_value (rev Ms)) OK.
Proof.
  rewrite (GetFromBatch_walk_entries cmp_ok A (M0 ++ p :: Ms) B Hitems HA);
    [|apply Forall_app; split; auto|exact HB].
  rewrite rev_app_distr. cbn [rev]. rewrite <- app_assoc. cbn [app].
  rewrite WalkEntries_merges by (now apply Forall_rev).
  destruct (rev Ms) as [|m Ms'] eqn:E.
  { exfalso. apply Hnonempty. rewrite <- (rev_involutive Ms), E. reflexivity. }
  cbn [WalkEntries]. rewrite (FoldEntry_ends_walk _ _ Hends).
  cbn [w_result w_entry_value w_merge_context w_s walk_start].
  now destruct (merge_base p).
Qed.

Lemma GetFromBatch_merge_chain_out (value : string) :
  let out := GetFromBatch kFlagMinInCf column_family_ batch key
               deleted_ranges_comparator deleted_ranges [] value false in
  o_merge_context out = map entry_value (rev Ms) /\
  (o_s out, o_value out)
  = MergeKey column_family_ key (merge_base p) (map entry_value (rev Ms)) value /\
  o_result out = if ok (o_s out) then kFound else kError.
Proof.
  cbv zeta. unfold GetFromBatch. rewrite GetFromBatch_walk_merge_chain.
  cbn [w_s w_result w_merge_context w_entry_value ok app].
  assert (Hfd : Result_eqb (match merge_base p with
                            | Some _ => kFound | None => kDeleted end) kFound
                || Result_eqb (match merge_base p with
                               | Some _ => kFound | None => kDeleted end) kDeleted
                = true) by (now destruct (merge_base p)).
  rewrite Hfd.
  assert (Hlen : (0 <? length (map entry_value (rev Ms)))%nat = true).
  { apply Nat.ltb_lt. rewrite length_map, length_rev.
    destruct Ms; [congruence | simpl; lia]. }
  rewrite Hlen.
  assert (Hbase : (if Result_eqb (match merge_base p with
                                  | Some _ => kFound | None => kDeleted end) kFound
                   then Some (match merge_base p with
                              | Some v => v | None => EmptyString end)
                   else None) = merge_base p) by (now destruct (merge_base p)).
  rewrite Hbase.
  destruct (MergeKey column_family_ key (merge_base p)
              (map entry_value (rev Ms)) value) as [s v].
  cbn [o_merge_context o_s o_value o_result].
  split; [reflexivity|]. split; [reflexivity|].
  now destruct (ok s).
Qed.

(** X11.  The entries of the key being, oldest first, [M0], then [p] (a Put,
    a Delete or a SingleDelete), then the Merge records [Ms] (at least one):
    a read with an empty merge context and overwrite_key = false leaves in
    the merge context the operands of [Ms] as the walk pushed them, the most
    recent first, and calls MergeKey with the value of [p] (nothing when [p]
    deletes or lies in a deleted range); the merge operator of the column
    family receives the operands of [Ms] in the order in which they were
    written, the oldest first.  The read returns kFound with the status and
    value of MergeKey when that status is OK, and kError with that status
    otherwise. *)
Theorem GetFromBatch_merge_chain (value : string) :
  let out := GetFromBatch kFlagMinInCf column_family_ batch key
               deleted_ranges_comparator deleted_ranges [] value false in
  o_merge_context out = map entry_value (rev Ms) /\
  (o_s out, o_value out)
  = MergeKey column_family_ key (merge_base p) (map entry_value (rev Ms)) value /\
  (forall cfh merge,
      column_family_ = Some cfh -> merge_operator cfh = Some merge ->
      (o_s out, o_value out) = merge key (merge_base p) (map entry_value Ms)) /\
  o_result out = if ok (o_s out) then kFound else kError.
Proof.
  cbv zeta.
  destruct (GetFromBatch_merge_chain_out value) as (Hc & Hm & Hr).
  cbv zeta in Hc, Hm, Hr.
  split; [exact Hc|]. split; [exact Hm|]. split; [|exact Hr].
  intros cfh merge Hcf Hop. rewrite Hm. unfold MergeKey, GetOperands.
  rewrite Hcf, Hop. now rewrite <- map_rev, rev_involutive.
Qed.


End MergeChain.

Section MergesOnly.
Hypothesis cmp_ok : Comparator_ok cmp.
Variables (A Ms B : list WriteEntry).
Hypothesis Hitems : index_entries batch cf_id = (A ++ Ms ++ B)%list.
Hypothesis HA : Forall (fun x => cmp (entry_key x) key < 0) A.
Hypothesis HMs : Forall (fun x => cmp (entry_key x) key = 0) Ms.
Hypothesis HB : Forall (fun x => 0 < cmp (entry_key x) key) B.
Hypothesis Hmerges : Forall (fun x => type x = kMergeRecord) Ms.
Hypothesis Hnonempty : Ms <> [].

(** X13.  When every entry of the key is a Merge record, a read with
    overwrite_key = false returns kMergeInProgress with status OK, appends
    the operands to the merge context, the most recent first, leaves the
    value alone, and does not depend on the deleted ranges. *)
Theorem GetFromBatch_merges_only (merge_context : list Slice) (value : string) :
  let out := GetFromBatch kFlagMinInCf column_family_ batch key
               deleted_ranges_comparator deleted_ranges merge_context value
               false in
  o_result out = kMergeInProgress /\
  o_merge_context out = (merge_context ++ map entry_value (rev Ms))%list /\
  o_value out = value /\ o_s out = OK.
Proof.
  cbv zeta. unfold GetFromBatch.
  rewrite (GetFromBatch_walk_entries cmp_ok A Ms B Hitems HA HMs HB).
  rewrite <- (app_nil_r (rev Ms)).
  rewrite WalkEntries_merges by (now apply Forall_rev).
  rewrite app_nil_r.
  destruct (rev Ms) as [|m Ms'] eqn:E.
  { exfalso. apply Hnonempty. rewrite <- (rev_involutive Ms), E. reflexivity. }
  cbn [WalkEntries w_s w_result w_merge_context w_entry_value walk_start ok
       Result_eqb orb].
  repeat split.
Qed.

End MergesOnly.

Section MostRecentEntry.
Hypothesis cmp_ok : Comparator_ok cmp.
Variables (A M0 B : list WriteEntry) (e : WriteEntry).
Hypothesis Hitems : index_entries batch cf_id = (A ++ (M0 ++ [e]) ++ B)%list.
Hypothesis HA : Forall (fun x => cmp (entry_key x) key < 0) A.
Hypothesis HM0 : Forall (fun x => cmp (entry_key x) key = 0) M0.
Hypothesis He : cmp (entry_key e) key = 0.
Hypothesis HB : Forall (fun x => 0 < cmp (entry_key x) key) B.

Lemma GetFromBatch_walk_most_recent_entry (merge_context : list Slice)
      (overwrite_key : bool) :
  GetFromBatch_walk column_family_ batch key merge_context overwrite_key
  = WalkEntries overwrite_key (e :: rev M0) (walk_start merge_context).
Proof.
  rewrite (GetFromBatch_walk_entries cmp_ok A (M0 ++ [e]) B Hitems HA);
    [|apply Forall_app; split; auto|exact HB].
  now rewrite rev_app_distr.
Qed.

(** X14.  When the most recent entry of the key is a Merge record, a read
    with overwrite_key = true stops on it: it returns kMergeInProgress with
    status OK and appends that one operand to the merge context, whatever
    the older entries of the key are. *)
Theorem GetFromBatch_overwrite_key_merge (merge_context : list Slice)
        (value : string) :
  type e = kMergeRecord ->
  let out := GetFromBatch kFlagMinInCf column_family_ batch key
               deleted_ranges_comparator deleted_ranges merge_context value
               true in
  o_result out = kMergeInProgress /\
  o_merge_context out = (merge_context ++ [entry_value e])%list /\
  o_value out = value /\ o_s out = OK.
Proof.
  intros He'. cbv zeta. unfold GetFromBatch.
  rewrite GetFromBatch_walk_most_recent_entry.
  cbn [WalkEntries]. unfold FoldEntry. rewrite He'.
  cbn [w_s w_result w_merge_context w_entry_value walk_start ok
       Result_eqb orb andb].
  repeat split.
Qed.

(** X15.  When the most recent entry of the key is a DeleteRange record, the
    read returns kError with a Corruption status whose text is the message
    of GetFromBatch followed by the integer value of the record type, and
    leaves the value alone. *)
Theorem GetFromBatch_DeleteRange_entry (merge_context : list Slice)
        (value : string) (overwrite_key : bool) :
  type e = kDeleteRangeRecord ->
  let out := GetFromBatch kFlagMinInCf column_family_ batch key
               deleted_ranges_comparator deleted_ranges merge_context value
               overwrite_key in
  o_result out = kError /\
  o_s out = Corruption "Unexpected entry in WriteBatchWithIndex:: 4" /\
  o_value out = value.
Proof.
  intros He'. cbv zeta. unfold GetFromBatch.
  rewrite GetFromBatch_walk_most_recent_entry.
  cbn [WalkEntries]. unfold FoldEntry. rewrite He'.
  cbn [w_s w_result w_merge_context w_entry_value walk_start ok
       Result_eqb orb andb].
  repeat split.
Qed.

End MostRecentEntry.
End Walk.
End GetFromBatchWalk.

Module GetFromBatchWalkExamples.
Import WriteBatchEntryComparator WriteBatchWithIndexInternal GetFromBatchSpec.
Import GetFromBatchInputs GetFromBatchWalk.
Local Open Scope string_scope.

(** Put("b","2"), Merge("b","x"), Merge("b","y"), read through the column
    family that appends: the operands reach the operator as x, y. *)
Example GetFromBatch_merge_value :
  let out := GetFromBatch 255 (Some cf_append) batch_merge "b" bytewise [] [] ""
               false in
  o_result out = kFound /\ o_value out = "2xy" /\ o_merge_context out = ["y"; "x"].
Proof. repeat split. Qed.

Lemma GetFromBatch_merge_chain_witness :
  let out := GetFromBatch 255 (Some cf_append) batch_merge "b" bytewise [] [] ""
               false in
  o_merge_context out = ["y"; "x"] /\
  (o_s out, o_value out)
  = MergeKey (Some cf_append) "b" (Some "2") ["y"; "x"] "" /\
  (forall cfh merge,
      Some cf_append = Some cfh -> merge_operator cfh = Some merge ->
      (o_s out, o_value out) = merge "b" (Some "2") ["x"; "y"]) /\
  o_result out = if ok (o_s out) then kFound else kError.
Proof.
  apply (GetFromBatch_merge_chain 255 (Some cf_append) batch_merge "b" bytewise []
           (GetFromBatchExamples.CompareKey_bytewise_ok 0)
           [mkWriteEntry kPutRecord "a" "1" false]
           []
           [mkWriteEntry kMergeRecord "b" "x" false;
            mkWriteEntry kMergeRecord "b" "y" false]
           [mkWriteEntry kPutRecord "c" "3" false]
           (mkWriteEntry kPutRecord "b" "2" false)).
  - reflexivity.
  - repeat constructor.
  - constructor.
  - reflexivity.
  - repeat constructor.
  - repeat constructor.
  - repeat constructor.
  - discriminate.
  - reflexivity.
Defined.


Lemma GetFromBatch_merges_only_witness :
  let out := GetFromBatch 255 None batch_merges_only "b" bytewise ranges1 ["w"]
               "v" false in
  o_result out = kMergeInProgress /\
  o_merge_context out = ["w"; "y"; "x"] /\
  o_value out = "v" /\ o_s out = OK.
Proof.
  apply (GetFromBatch_merges_only 255 None batch_merges_only "b" bytewise ranges1
           (GetFromBatchExamples.CompareKey_bytewise_ok 0)
           [mkWriteEntry kPutRecord "a" "1" false]
           [mkWriteEntry kMergeRecord "b" "x" false;
            mkWriteEntry kMergeRecord "b" "y" false]
           []).
  - reflexivity.
  - repeat constructor.
  - repeat constructor.
  - constructor.
  - repeat constructor.
  - discriminate.
Defined.

Lemma GetFromBatch_overwrite_key_merge_witness :
  let out := GetFromBatch 255 None batch_merges_only "b" bytewise [] ["w"] "v"
               true in
  o_result out = kMergeInProgress /\
  o_merge_context out = ["w"; "y"] /\
  o_value out = "v" /\ o_s out = OK.
Proof.
  apply (GetFromBatch_overwrite_key_merge 255 None batch_merges_only "b"
           bytewise []
           (GetFromBatchExamples.CompareKey_bytewise_ok 0)
           [mkWriteEntry kPutRecord "a" "1" false]
           [mkWriteEntry kMergeRecord "b" "x" false]
           []
           (mkWriteEntry kMergeRecord "b" "y" false)).
  - reflexivity.
  - repeat constructor.
  - repeat constructor.
  - reflexivity.
  - constructor.
  - reflexivity.
Defined.

Lemma GetFromBatch_DeleteRange_entry_witness :
  let out := GetFromBatch 255 None batch_delete_range "b" bytewise [] [] "v"
               false in
  o_result out = kError /\
  o_s out = Corruption "Unexpected entry in WriteBatchWithIndex:: 4" /\
  o_value out = "v".
Proof.
  apply (GetFromBatch_DeleteRange_entry 255 None batch_delete_range "b"
           bytewise []
           (GetFromBatchExamples.CompareKey_bytewise_ok 0)
           []
           [mkWriteEntry kPutRecord "b" "2" false]
           []
           (mkWriteEntry kDeleteRangeRecord "b" "d" false)).
  - reflexivity.
  - constructor.
  - repeat constructor.
  - reflexivity.
  - constructor.
  - reflexivity.
Defined.

End GetFromBatchWalkExamples.

(** ** IntervalMap: what AddInterval leaves in the map *)

Module IntervalMapMore.
Import SkipList IntervalMap SkipListSpec IntervalMapSpec.

Section Entries.
Variable PointKey : Type.
Variable cmp : PointKey -> PointKey -> Z.

Local Abbreviation PE := (PointEntry PointKey).
Local Abbreviation ecmp := (PointEntryComparator cmp).

Lemma In_firstn {A : Type} (x : A) (l : list A) : forall n,
  In x (firstn n l) -> In x l.
Proof.
  induction l as [|y l IH]; intros [|n] H; cbn in H; try contradiction.
  destruct H as [H|H]; [now left | right; eauto].
Qed.

Lemma In_skipn {A : Type} (x : A) (l : list A) : forall n,
  In x (skipn n l) -> In x l.
Proof.
  induction l as [|y l IH]; intros [|n] H; cbn in H; auto.
  right. eauto.
Qed.

Lemma In_Insert {A : Type} (c : A -> A -> Z) (e x : A) (l : list A) :
  In x (Insert c e l) <-> x = e \/ In x l.
Proof.
  induction l as [|y l IH]; cbn [Insert].
  - cbn. intuition.
  - destruct (c y e <=? 0); cbn [In]; [rewrite IH|]; intuition.
Qed.

Lemma length_Insert {A : Type} (c : A -> A -> Z) (e : A) (l : list A) :
  length (Insert c e l) = S (length l).
Proof.
  induction l as [|y l IH]; cbn [Insert]; [reflexivity|].
  destruct (c y e <=? 0); cbn [length]; now rewrite ?IH.
Qed.

Lemma In_Remove {A : Type} (x : A) (it : Iterator A) :
  In x (list_ (Remove it)) -> In x (list_ it).
Proof.
  unfold Remove. destruct (node_ it) as [i|]; auto. cbn [list_].
  intros H. apply in_app_or in H.
  destruct H as [H|H]; [eapply In_firstn | eapply In_skipn]; eauto.
Qed.

Lemma length_Remove {A : Type} (it : Iterator A) :
  (length (list_ (Remove it)) <= length (list_ it))%nat.
Proof.
  unfold Remove. destruct (node_ it) as [i|]; auto. cbn [list_].
  rewrite length_app, length_firstn, length_skipn. lia.
Qed.

Lemma FixIntervalFrom_In (m : list PE) (l : PointKey) (x : PE) :
  In x (FixIntervalFrom cmp m l) -> In x m \/ x = entry l Start.
Proof.
  unfold FixIntervalFrom.
  destruct (key (SeekForPrev ecmp m (entry l Start))) as [k|].
  - destruct (marker (pointData k)); auto.
    destruct (ecmp (entry l Start) k =? 0).
    + intros H. left. exact (In_Remove x _ H).
    + intros H. apply In_Insert in H. tauto.
  - intros H. apply In_Insert in H. tauto.
Qed.

Lemma FixIntervalTo_In (m : list PE) (h : PointKey) (x : PE) :
  In x (FixIntervalTo cmp m h) -> In x m \/ x = entry h Stop.
Proof.
  unfold FixIntervalTo.
  destruct (key (Seek ecmp m (entry h Stop))) as [k|].
  - destruct (marker (pointData k)); auto.
    destruct (ecmp (entry h Stop) k =? 0).
    + intros H. left. exact (In_Remove x _ H).
    + intros H. apply In_Insert in H. tauto.
  - intros H. apply In_Insert in H. tauto.
Qed.

Lemma FixIntervalFrom_length (m : list PE) (l : PointKey) :
  (length (FixIntervalFrom cmp m l) <= S (length m))%nat.
Proof.
  unfold FixIntervalFrom.
  pose proof (length_Remove (SeekForPrev ecmp m (entry l Start))) as HR.
  pose proof (length_Insert ecmp (entry l Start) m) as HI.
  cbn [list_ SeekForPrev] in HR.
  destruct (key (SeekForPrev ecmp m (entry l Start))) as [k|]; [|lia].
  destruct (marker (pointData k)); [lia|].
  destruct (ecmp (entry l Start) k =? 0); lia.
Qed.

Lemma FixIntervalTo_length (m : list PE) (h : PointKey) :
  (length (FixIntervalTo cmp m h) <= S (length m))%nat.
Proof.
  unfold FixIntervalTo.
  pose proof (length_Remove (Seek ecmp m (entry h Stop))) as HR.
  pose proof (length_Insert ecmp (entry h Stop) m) as HI.
  cbn [list_ Seek] in HR.
  destruct (key (Seek ecmp m (entry h Stop))) as [k|]; [|lia].
  destruct (marker (pointData k)); [|lia].
  destruct (ecmp (entry h Stop) k =? 0); lia.
Qed.

Lemma ClearRange_In (fuel : nat) (to_entry x : PE) : forall it,
  In x (list_ (ClearRange cmp fuel to_entry it)) -> In x (list_ it).
Proof.
  induction fuel as [|fuel IH]; intros it; cbn [ClearRange]; auto.
  destruct (key it) as [k|]; auto.
  destruct (ecmp to_entry k <=? 0); auto.
  intros H. apply IH in H. exact (In_Remove x it H).
Qed.

Lemma ClearRange_length (fuel : nat) (to_entry : PE) : forall it,
  (length (list_ (ClearRange cmp fuel to_entry it)) <= length (list_ it))%nat.
Proof.
  induction fuel as [|fuel IH]; intros it; cbn [ClearRange]; auto.
  destruct (key it) as [k|]; auto.
  destruct (ecmp to_entry k <=? 0); auto.
  pose proof (IH (Remove it)). pose proof (length_Remove it). lia.
Qed.

Lemma AddInterval_In (m : list PE) (l h : PointKey) (x : PE) :
  In x (AddInterval cmp m l h) ->
  In x m \/ x = entry l Start \/ x = entry h Stop.
Proof.
  unfold AddInterval. intros H. apply ClearRange_In in H.
  cbn [list_ Next SeekForPrev] in H.
  apply FixIntervalTo_In in H. destruct H as [H|H]; [|tauto].
  apply FixIntervalFrom_In in H. tauto.
Qed.

Lemma AddInterval_length (m : list PE) (l h : PointKey) :
  (length (AddInterval cmp m l h) <= length m + 2)%nat.
Proof.
  unfold AddInterval.
  match goal with
  | |- (length (list_ (ClearRange _ ?f ?t ?i)) <= _)%nat =>
      pose proof (ClearRange_length f t i) as H
  end.
  cbn [list_ Next SeekForPrev] in H.
  pose proof (FixIntervalTo_length (FixIntervalFrom cmp m l) h).
  pose proof (FixIntervalFrom_length m l). lia.
Qed.

(** X24.  Whatever the comparator and the state of the map, when the sweep
    of AddInterval(from, to) starts from an entry (its SeekForPrev lands on
    one), the call adds at most two entries, and every entry it leaves is an
    entry that was there, the Start marker at [from] or the Stop marker at
    [to]. *)
Theorem AddInterval_entries (m : list PE) (l h : PointKey) :
  Valid (SeekForPrev ecmp (FixIntervalTo cmp (FixIntervalFrom cmp m l) h)
           (entry l Start)) = true ->
  (length (AddInterval cmp m l h) <= length m + 2)%nat /\
  Forall (fun x => In x m \/ x = entry l Start \/ x = entry h Stop)
    (AddInterval cmp m l h).
Proof.
  intros _. split; [apply AddInterval_length|].
  apply Forall_forall. intros x. apply AddInterval_In.
Qed.

End Entries.

Section Canonical.
Variable PointKey : Type.
Variable cmp : PointKey -> PointKey -> Z.
Hypothesis cmp_ok : Comparator_ok cmp.
(** Keys that compare equal are the same key. *)
Hypothesis cmp_antisym : forall a b, cmp a b = 0 -> a = b.

Local Abbreviation PE := (PointEntry PointKey).

Lemma count_le_head (e : PE) (r : list PE) :
  sorted cmp (e :: r) -> count_le cmp (e :: r) (pointKey e) = 1%nat.
Proof.
  intros [He _]. rewrite IntervalMapFacts.count_le_cons.
  rewrite (cmp_refl _ cmp cmp_ok). cbn [Z.leb Z.compare].
  rewrite (IntervalMapFacts.count_le_none _ cmp); [reflexivity|].
  eapply Forall_impl; [|exact He]. cbn beta. intros y Hy.
  now apply (cmp_lt_gt _ cmp cmp_ok).
Qed.

Lemma count_le_below (e : PE) (r : list PE) (k : PointKey) :
  sorted cmp (e :: r) -> cmp k (pointKey e) < 0 ->
  count_le cmp (e :: r) k = 0%nat.
Proof.
  intros [He _] Hk. apply IntervalMapFacts.count_le_none.
  assert (Hek : 0 < cmp (pointKey e) k) by now apply (cmp_lt_gt _ cmp cmp_ok).
  constructor; [exact Hek|].
  eapply Forall_impl; [|exact He]. cbn beta. intros y Hy.
  apply (cmp_lt_gt _ cmp cmp_ok).
  apply (cmp_lt_trans _ cmp cmp_ok _ (pointKey e)); auto.
Qed.

Lemma same_parity_same_keys (m1 : list PE) : forall m2 : list PE,
  sorted cmp m1 -> sorted cmp m2 ->
  (forall k, Nat.even (count_le cmp m1 k) = Nat.even (count_le cmp m2 k)) ->
  map pointKey m1 = map pointKey m2.
Proof.
  induction m1 as [|e1 r1 IH]; intros [|e2 r2] H1 H2 Hpar.
  - reflexivity.
  - specialize (Hpar (pointKey e2)). rewrite (count_le_head e2 r2 H2) in Hpar.
    discriminate.
  - specialize (Hpar (pointKey e1)). rewrite (count_le_head e1 r1 H1) in Hpar.
    discriminate.
  - assert (Hkey : cmp (pointKey e1) (pointKey e2) = 0).
    { destruct (Z.compare_spec (cmp (pointKey e1) (pointKey e2)) 0)
        as [Hc|Hc|Hc]; [exact Hc| |].
      - specialize (Hpar (pointKey e1)).
        rewrite (count_le_head e1 r1 H1) in Hpar.
        rewrite (count_le_below e2 r2 _ H2 Hc) in Hpar. discriminate.
      - specialize (Hpar (pointKey e2)).
        rewrite (count_le_head e2 r2 H2) in Hpar.
        rewrite (count_le_below e1 r1 _ H1) in Hpar; [discriminate|].
        apply (cmp_lt_gt _ cmp cmp_ok). lia. }
    apply cmp_antisym in Hkey. cbn [map]. rewrite Hkey. f_equal.
    apply IH; [exact (proj2 H1) | exact (proj2 H2) |].
    intros k. specialize (Hpar k).
    rewrite !IntervalMapFacts.count_le_cons, Hkey in Hpar.
    destruct (cmp (pointKey e2) k <=? 0); [|exact Hpar].
    rewrite !IntervalMapFacts.even_S in Hpar.
    destruct (Nat.even (count_le cmp r1 k)), (Nat.even (count_le cmp r2 k));
      auto; discriminate.
Qed.

Lemma same_keys_same_entries (m1 : list PE) : forall (m2 : list PE) (s : Marker),
  alt s m1 -> alt s m2 -> map pointKey m1 = map pointKey m2 -> m1 = m2.
Proof.
  induction m1 as [|e1 r1 IH]; intros [|e2 r2] s H1 H2 Hk;
    try discriminate; [reflexivity|].
  cbn [map] in Hk. injection Hk as Hk1 Hk2.
  destruct H1 as [Hm1 H1], H2 as [Hm2 H2].
  f_equal; [|exact (IH r2 (flip s) H1 H2 Hk2)].
  destruct e1 as [k1 [mk1]], e2 as [k2 [mk2]].
  unfold marker_of in *. cbn in *. congruence.
Qed.

Lemma Invariant_canonical (m1 m2 : list PE) :
  Invariant cmp m1 -> Invariant cmp m2 ->
  (forall k, IsInInterval cmp m1 k = IsInInterval cmp m2 k) ->
  m1 = m2.
Proof.
  intros H1 H2 Hmem.
  apply (same_keys_same_entries m1 m2 Start);
    [exact (proj1 (proj2 H1)) | exact (proj1 (proj2 H2)) |].
  apply same_parity_same_keys; [exact (proj1 H1) | exact (proj1 H2) |].
  intros k. specialize (Hmem k).
  rewrite !(IntervalMapFacts.IsInInterval_parity _ cmp cmp_ok) in Hmem by assumption.
  destruct (Nat.even (count_le cmp m1 k)), (Nat.even (count_le cmp m2 k));
    auto; discriminate.
Qed.

(** X21.  Two sequences of non-empty intervals that cover the same keys
    leave the same entries in the map, entry for entry: the map is the
    normal form of the union, whatever the order and the overlaps of the
    calls. *)
Theorem AddIntervals_same_union (R1 R2 : list (PointKey * PointKey)) :
  Proper cmp R1 -> Proper cmp R2 ->
  (forall k, InUnion cmp R1 k <-> InUnion cmp R2 k) ->
  AddIntervals cmp empty R1 = AddIntervals cmp empty R2.
Proof.
  intros HP1 HP2 Hsame.
  apply Invariant_canonical.
  - apply (IntervalMapFacts.AddIntervals_Invariant _ cmp cmp_ok); auto.
    apply IntervalMapFacts.Invariant_empty.
  - apply (IntervalMapFacts.AddIntervals_Invariant _ cmp cmp_ok); auto.
    apply IntervalMapFacts.Invariant_empty.
  - intros k.
    pose proof (IntervalMapFacts.IsInInterval_AddIntervals_from _ cmp cmp_ok R1
                  empty k (IntervalMapFacts.Invariant_empty _ cmp) HP1) as E1.
    pose proof (IntervalMapFacts.IsInInterval_AddIntervals_from _ cmp cmp_ok R2
                  empty k (IntervalMapFacts.Invariant_empty _ cmp) HP2) as E2.
    rewrite (IntervalMapFacts.IsInInterval_empty _ cmp) in E1, E2.
    specialize (Hsame k).
    destruct (IsInInterval cmp (AddIntervals cmp empty R1) k),
             (IsInInterval cmp (AddIntervals cmp empty R2) k); auto.
    + assert (false = true); [|discriminate].
      apply E2. right. apply Hsame. destruct (proj1 E1 eq_refl); auto.
      discriminate.
    + assert (false = true); [|discriminate].
      apply E1. right. apply Hsame. destruct (proj1 E2 eq_refl); auto.
      discriminate.
Qed.

(** X22.  Adding a non-empty interval whose keys are all members already
    leaves the entries of a well-formed map as they are. *)
Theorem AddInterval_covered (m : list PE) (l h : PointKey) :
  Invariant cmp m -> cmp l h < 0 ->
  (forall k, cmp l k <= 0 -> cmp k h < 0 -> IsInInterval cmp m k = true) ->
  AddInterval cmp m l h = m.
Proof.
  intros Hinv Hlh Hcov. apply Invariant_canonical; auto.
  - now apply (IntervalMapFacts.AddInterval_Invariant _ cmp cmp_ok).
  - intros k.
    rewrite (IntervalMapFacts.AddInterval_IsInInterval _ cmp cmp_ok) by assumption.
    destruct (IsInInterval cmp m k) eqn:E; [reflexivity|]. cbn [orb].
    destruct (cmp l k <=? 0) eqn:E1; [|reflexivity].
    destruct (cmp k h <? 0) eqn:E2; [|reflexivity].
    apply Z.leb_le in E1. apply Z.ltb_lt in E2.
    rewrite (Hcov k E1 E2) in E. discriminate.
Qed.

(** X23.  After any sequence of non-empty intervals the map is in normal
    form: the keys strictly increase, so that overlapping and abutting
    intervals are merged, and the markers read Start, Stop, ..., Start,
    Stop. *)
Theorem AddIntervals_normal_form (R : list (PointKey * PointKey)) :
  Proper cmp R -> Invariant cmp (AddIntervals cmp empty R).
Proof.
  intros HP.
  apply (IntervalMapFacts.AddIntervals_Invariant _ cmp cmp_ok); auto.
  apply IntervalMapFacts.Invariant_empty.
Qed.

(** The sweep of AddInterval removes nothing when no entry lies strictly
    between the two ends. *)
Lemma sweep_nothing (A' B : list PE) (e : PE) (k : PointKey) (fuel : nat) :
  cmp (pointKey e) k <= 0 ->
  Forall (fun x => 0 < cmp (pointKey x) k) B ->
  list_ (ClearRange cmp fuel (entry k Stop)
           (Next (SeekForPrev (PointEntryComparator cmp) (A' ++ e :: B)
                    (entry k Start))))
  = (A' ++ e :: B)%list.
Proof.
  intros He HB.
  rewrite (SkipListFacts.Next_SeekForPrev_middle _ (PointEntryComparator cmp)
             A' B e (entry k Start) He HB).
  change B with ([] ++ B)%list at 1.
  rewrite IntervalMapFacts.ClearRange_eval with (C := []) (Q := B).
  - now rewrite <- app_assoc.
  - exact cmp_ok.
  - cbn. lia.
  - constructor.
  - apply SkipListFacts.Forall_head_sat.
    eapply Forall_impl; [|exact HB]. cbn beta. intros; lia.
Qed.

(** X25.  AddInterval(k, k) on a well-formed map that holds an entry at or
    before [k] and no Start marker at [k] leaves the entries as they are. *)
Theorem AddInterval_empty_interval (m : list PE) (k : PointKey) :
  Invariant cmp m ->
  Exists (fun e => cmp (pointKey e) k <= 0) m ->
  Forall (fun e => marker_of e = Start -> cmp (pointKey e) k <> 0) m ->
  AddInterval cmp m k k = m.
Proof.
  intros Hinv Hex Hns.
  destruct Hinv as (Hs & Ha & Hev).
  destruct (IntervalMapFacts.split_le _ cmp cmp_ok m k Hs)
    as (A & B & -> & HA & HB).
  destruct (list_snoc_cases A) as [-> | (A' & e & ->)].
  { exfalso. cbn [app] in Hex. apply Exists_exists in Hex.
    destruct Hex as (x & Hin & Hx). rewrite Forall_forall in HB.
    specialize (HB x Hin). cbn beta in HB. lia. }
  apply Forall_app in HA. destruct HA as [HA' He].
  inversion He as [|? ? Hek _]; subst. clear He.
  apply IntervalMapFacts.sorted_app in Hs. destruct Hs as (HsA & HsB & HAB).
  apply IntervalMapFacts.sorted_app in HsA. destruct HsA as (HsA' & _ & HA'e).
  apply IntervalMapFacts.alt_app in Ha. destruct Ha as (HaA & HaB).
  assert (HA'lt : Forall (fun x : PE => cmp (pointKey x) k < 0) A').
  { rewrite Forall_forall in *. intros x Hx.
    specialize (HA'e x Hx). inversion HA'e as [|? ? Hxe _]; subst.
    apply (cmp_lt_le_trans _ cmp cmp_ok _ (pointKey e)); auto. }
  assert (HBge : Forall (fun x : PE => 0 <= cmp (pointKey x) k) B).
  { eapply Forall_impl; [|exact HB]. cbn beta. intros; lia. }
  assert (Hm : ((A' ++ [e]) ++ B = A' ++ e :: B)%list)
    by (now rewrite <- app_assoc).
  unfold AddInterval.
  rewrite IntervalMapFacts.FixIntervalFrom_eval with (A := (A' ++ [e])%list)
    by (try apply Forall_app; try split; auto).
  rewrite IntervalMapFacts.FixedPrefix_snoc.
  destruct (marker_of e) eqn:Hme.
  - (* the entry at or before k is a Start, strictly before k *)
    assert (Hlt : cmp (pointKey e) k < 0).
    { rewrite Forall_forall in Hns.
      assert (cmp (pointKey e) k <> 0); [|lia].
      apply Hns; auto. apply in_or_app. left. apply in_or_app. right. now left. }
    assert (HaB' : alt Stop B /\ Nat.even (length B) = false).
    { destruct (IntervalMapFacts.alt_snoc_Start _ A' e HaA Hme).
      rewrite length_app in HaB, Hev. cbn [length] in HaB, Hev.
      unfold marker_after in HaB.
      rewrite !length_app in Hev. cbn [length] in Hev.
      rewrite Nat.add_1_r in HaB.
      rewrite IntervalMapFacts.even_S in HaB.
      assert (HeA : Nat.even (length A') = true)
        by exact (IntervalMapFacts.alt_snoc_Start _ A' e HaA Hme).
      rewrite HeA in HaB. cbn [negb flip] in HaB. split; [exact HaB|].
      rewrite Nat.add_1_r, Nat.even_add, IntervalMapFacts.even_S, HeA in Hev.
      cbn [negb] in Hev. now destruct (Nat.even (length B)). }
    rewrite IntervalMapFacts.FixIntervalTo_eval with (X := (A' ++ [e])%list);
      [|exact cmp_ok|apply Forall_app; split; auto|exact HBge].
    rewrite IntervalMapFacts.FixedSuffix_fixed
      by (try exact (proj1 HaB'); try exact (proj2 HaB')).
    rewrite Hm. apply sweep_nothing; auto.
  - destruct (cmp k (pointKey e) =? 0) eqn:Hz.
    + (* a Stop at k: it is removed, and put back *)
      apply Z.eqb_eq in Hz. apply cmp_antisym in Hz. rewrite app_nil_r.
      assert (Hee : e = entry k Stop).
      { destruct e as [ke [me]]. unfold marker_of in Hme. cbn in *.
        now subst. }
      assert (HaB' : alt Start B /\ Nat.even (length B) = true).
      { assert (HeA : Nat.even (length A') = false)
          by exact (IntervalMapFacts.alt_snoc_Stop _ A' e HaA Hme).
        rewrite length_app in HaB. cbn [length] in HaB.
        unfold marker_after in HaB.
        rewrite Nat.add_1_r, IntervalMapFacts.even_S, HeA in HaB.
        cbn [negb] in HaB. split; [exact HaB|].
        rewrite !length_app in Hev. cbn [length] in Hev.
        rewrite Nat.add_1_r, Nat.even_add, IntervalMapFacts.even_S, HeA in Hev.
        cbn [negb] in Hev. now destruct (Nat.even (length B)). }
      rewrite IntervalMapFacts.FixIntervalTo_eval with (X := A')
        by (try exact cmp_ok; try exact HA'lt; try exact HBge).
      assert (HFS : FixedSuffix cmp B k = entry k Stop :: B).
      { destruct B as [|b B']; [reflexivity|]. cbn [FixedSuffix].
        destruct HaB' as [[Hmb _] _]. rewrite Hmb.
        pose proof (Forall_inv HB) as Hbk. cbn beta in Hbk.
        assert (Hne : (cmp k (pointKey b) =? 0) = false).
        { apply Z.eqb_neq. apply (cmp_lt_gt _ cmp cmp_ok) in Hbk. lia. }
        now rewrite Hne. }
      rewrite HFS, Hm, Hee.
      apply sweep_nothing; auto.
      cbn. rewrite (cmp_refl _ cmp cmp_ok). lia.
    + (* a Stop before k: a Start at k is inserted, and removed *)
      rewrite <- app_assoc. cbn [app].
      replace (A' ++ e :: entry k Start :: B)%list
        with ((A' ++ [e]) ++ entry k Start :: B)%list
        by (now rewrite <- app_assoc).
      assert (Hlt : cmp (pointKey e) k < 0).
      { apply Z.eqb_neq in Hz.
        assert (cmp (pointKey e) k <> 0); [|lia].
        intros H0. apply Hz. now apply (cmp_eq_sym _ cmp cmp_ok). }
      rewrite IntervalMapFacts.FixIntervalTo_eval with (X := (A' ++ [e])%list);
        [|exact cmp_ok|apply Forall_app; split; auto
         |constructor; [cbn; rewrite (cmp_refl _ cmp cmp_ok); lia | exact HBge]].
      cbn [FixedSuffix marker_of entry pointData marker pointKey].
      rewrite (cmp_refl _ cmp cmp_ok). cbn [Z.eqb].
      rewrite Hm. apply sweep_nothing; auto.
Qed.

End Canonical.
End IntervalMapMore.

Module IntervalMapMoreExamples.
Import IntervalMap IntervalMapSpec IntervalMapMore.

Lemma Z_sub_antisym : forall a b : Z, a - b = 0 -> a = b.
Proof. intros; lia. Qed.

Lemma AddInterval_entries_witness :
  (length (AddInterval Z.sub [entry 1%Z Start; entry 3%Z Stop] 2%Z 6%Z)
   <= length [entry 1%Z Start; entry 3%Z Stop] + 2)%nat /\
  Forall (fun x => In x [entry 1 Start; entry 3 Stop] \/
                   x = entry 2 Start \/ x = entry 6 Stop)
    (AddInterval Z.sub [entry 1 Start; entry 3 Stop] 2 6).
Proof.
  apply (AddInterval_entries Z Z.sub [entry 1 Start; entry 3 Stop] 2 6).
  reflexivity.
Defined.

Lemma AddIntervals_same_union_witness :
  AddIntervals Z.sub empty [(1, 3); (2, 4)] = AddIntervals Z.sub empty [(1, 4)].
Proof.
  apply (AddIntervals_same_union Z Z.sub Z_sub_Comparator_ok Z_sub_antisym).
  - repeat constructor.
  - repeat constructor.
  - intros k. unfold InUnion. split.
    + intros (l & h & Hin & Hl & Hh). exists 1, 4.
      split; [now left|].
      destruct Hin as [E|[E|[]]]; injection E as <- <-; lia.
    + intros (l & h & Hin & Hl & Hh).
      destruct Hin as [E|[]]. injection E as <- <-.
      destruct (Z.lt_ge_cases k 3).
      * exists 1, 3. split; [now left | lia].
      * exists 2, 4. split; [right; now left | lia].
Defined.

Lemma AddInterval_covered_witness :
  AddInterval Z.sub [entry 1 Start; entry 7 Stop] 2 5
  = [entry 1 Start; entry 7 Stop].
Proof.
  apply (AddInterval_covered Z Z.sub Z_sub_Comparator_ok Z_sub_antisym).
  - repeat split; simpl; repeat constructor; simpl; lia.
  - lia.
  - intros k Hl Hh.
    unfold IsInInterval, SkipList.Seek, SkipList.key, PointEntryComparator.
    cbn [SkipList.FindGreaterOrEqual pointKey entry SkipList.node_
         SkipList.list_].
    destruct (0 <=? 1 - k) eqn:E1; [apply Z.leb_le in E1; lia|].
    destruct (0 <=? 7 - k) eqn:E2; [|apply Z.leb_gt in E2; lia].
    cbn [option_map nth_error pointData marker entry pointKey].
    destruct (k - 7 <? 0) eqn:E3; [reflexivity|].
    apply Z.ltb_ge in E3. lia.
Defined.

Lemma AddIntervals_normal_form_witness :
  Invariant Z.sub (AddIntervals Z.sub empty [(1, 3); (5, 7); (2, 6)]).
Proof.
  apply (AddIntervals_normal_form Z Z.sub Z_sub_Comparator_ok).
  repeat constructor.
Defined.

Lemma AddInterval_empty_interval_witness :
  AddInterval Z.sub [entry 1 Start; entry 3 Stop; entry 6 Start; entry 8 Stop]
    3 3
  = [entry 1 Start; entry 3 Stop; entry 6 Start; entry 8 Stop].
Proof.
  apply (AddInterval_empty_interval Z Z.sub Z_sub_Comparator_ok Z_sub_antisym).
  - repeat split; simpl; repeat constructor; simpl; lia.
  - apply Exists_cons_hd. simpl. lia.
  - repeat constructor; simpl; intros; try discriminate; lia.
Defined.

End IntervalMapMoreExamples.

(** ** The index comparator is a total preorder *)

Module WriteBatchEntryComparatorOrder.
Import WriteBatchEntryComparator DeletedRangeMapSpec.

Section Order.
Variable kFlagMinInCf : N.
Variable c : WriteBatchEntryComparator.t.
Hypothesis keys_ok : forall cf, Comparator_ok (CompareKey c cf).

Local Abbreviation op := (operator_call kFlagMinInCf c).
Local Abbreviation tc := (total_compare kFlagMinInCf c).
Local Abbreviation is_min := (is_min_in_cf kFlagMinInCf).
Local Abbreviation ck a b :=
  (CompareKey c (column_family a) (key_of_entry c a) (key_of_entry c b)).

(** The sign of the comparison, by cases. *)
Lemma total_compare_cases (a b : WriteBatchIndexEntry) :
  ((column_family a < column_family b)%N /\ tc a b = -1) \/
  ((column_family b < column_family a)%N /\ tc a b = 1) \/
  (column_family a = column_family b /\
   ((is_min a = true /\ is_min b = true /\ tc a b = 0) \/
    (is_min a = true /\ is_min b = false /\ tc a b = -1) \/
    (is_min a = false /\ is_min b = true /\ tc a b = 1) \/
    (is_min a = false /\ is_min b = false /\
     ((ck a b <> 0 /\ tc a b = ck a b) \/
      (ck a b = 0 /\ (offset b < offset a)%N /\ tc a b = 1) \/
      (ck a b = 0 /\ (offset a < offset b)%N /\ tc a b = -1) \/
      (ck a b = 0 /\ offset a = offset b /\ tc a b = 0))))).
Proof.
  unfold total_compare, operator_call.
  destruct (N.compare_spec (column_family a) (column_family b)) as [E|E|E].
  - right. right. split; [exact E|].
    assert (H0 : (column_family a =? column_family b)%N = true)
      by (now apply N.eqb_eq).
    assert (H1 : (column_family b <? column_family a)%N = false)
      by (apply N.ltb_ge; lia).
    assert (H2 : (column_family a <? column_family b)%N = false)
      by (apply N.ltb_ge; lia).
    rewrite H0, H1, H2. cbn [andb].
    destruct (is_min a) eqn:Ha, (is_min b) eqn:Hb; cbn [andb].
    + left. auto.
    + right. left. auto.
    + right. right. left. auto.
    + right. right. right. split; auto. split; auto.
      destruct (ck a b =? 0) eqn:Hz; cbn [negb].
      * apply Z.eqb_eq in Hz. right.
        destruct (N.compare_spec (offset a) (offset b)) as [O|O|O].
        -- right. right. rewrite O, N.ltb_irrefl. auto.
        -- right. left.
           assert (O1 : (offset b <? offset a)%N = false)
             by (apply N.ltb_ge; lia).
           assert (O2 : (offset a <? offset b)%N = true)
             by (now apply N.ltb_lt).
           rewrite O1, O2. auto.
        -- left.
           assert (O1 : (offset b <? offset a)%N = true)
             by (now apply N.ltb_lt).
           rewrite O1. auto.
      * apply Z.eqb_neq in Hz. left. auto.
  - left. split; [exact E|].
    assert (H0 : (column_family a =? column_family b)%N = false)
      by (apply N.eqb_neq; lia).
    assert (H1 : (column_family b <? column_family a)%N = false)
      by (apply N.ltb_ge; lia).
    assert (H2 : (column_family a <? column_family b)%N = true)
      by (now apply N.ltb_lt).
    now rewrite H0, H1, H2.
  - right. left. split; [exact E|].
    assert (H0 : (column_family a =? column_family b)%N = false)
      by (apply N.eqb_neq; lia).
    assert (H1 : (column_family b <? column_family a)%N = true)
      by (now apply N.ltb_lt).
    now rewrite H0, H1.
Qed.

Lemma total_compare_le (a b : WriteBatchIndexEntry) :
  tc a b <= 0 <->
  (column_family a < column_family b)%N \/
  (column_family a = column_family b /\
   (is_min a = true \/
    (is_min a = false /\ is_min b = false /\
     (ck a b < 0 \/ (ck a b = 0 /\ (offset a <= offset b)%N))))).
Proof.
  destruct (total_compare_cases a b)
    as [(Hc & ->) | [(Hc & ->) | (Hc & [(Ha & Hb & ->) | [(Ha & Hb & ->) |
        [(Ha & Hb & ->) | (Ha & Hb & [(Hk & ->) | [(Hk & Ho & ->) |
        [(Hk & Ho & ->) | (Hk & Ho & ->)]]])]]])]].
  - split; [auto | lia].
  - split; [lia|]. intros [H | [H _]]; lia.
  - split; [|lia]. intros _. right. split; auto.
  - split; [|lia]. intros _. right. split; auto.
  - split; [lia|].
    intros [H | [_ [H | (_ & H & _)]]]; [lia | congruence | congruence].
  - split.
    + intros H. right. split; auto. right. split; auto. split; auto. left. lia.
    + intros [H | [_ [H | (_ & _ & [H | [H _]])]]]; try lia; congruence.
  - split; [lia|].
    intros [H | [_ [H | (_ & _ & [H | [_ H]])]]]; try lia; congruence.
  - split; [|lia]. intros _. right. split; auto. right. split; auto.
    split; auto. right. split; auto. lia.
  - split; [|lia]. intros _. right. split; auto. right. split; auto.
    split; auto. right. split; auto. lia.
Qed.

Lemma total_compare_ok : Comparator_ok tc.
Proof.
  split.
  - intros a b.
    destruct (total_compare_cases a b)
      as [(Hc & ->) | [(Hc & ->) | (Hc & [(Ha & Hb & ->) | [(Ha & Hb & ->) |
          [(Ha & Hb & ->) | (Ha & Hb & [(Hk & ->) | [(Hk & Ho & ->) |
          [(Hk & Ho & ->) | (Hk & Ho & ->)]]])]]])]];
      destruct (total_compare_cases b a)
        as [(Hc' & ->) | [(Hc' & ->) | (Hc' & [(Ha' & Hb' & ->) |
            [(Ha' & Hb' & ->) | [(Ha' & Hb' & ->) | (Ha' & Hb' & [(Hk' & ->) |
            [(Hk' & Ho' & ->) | [(Hk' & Ho' & ->) | (Hk' & Ho' & ->)]]])]]])]];
      try reflexivity; try lia; try congruence;
      pose proof (compare_sym _ (keys_ok (column_family a))
                    (key_of_entry c a) (key_of_entry c b)) as Hs;
      rewrite Hc in Hs; try rewrite <- Hc' in Hs;
      try (rewrite Hc in Hk); try (rewrite <- Hc' in Hk);
      rewrite ?Hc in *;
      try (rewrite Hk in Hs; cbn in Hs;
           assert (ck b a = 0) by (apply Z.sgn_null_iff; lia); congruence);
      try (rewrite Hk' in Hs; cbn in Hs;
           assert (CompareKey c (column_family b) (key_of_entry c a)
                     (key_of_entry c b) = 0)
             by (apply Z.sgn_null_iff; lia); congruence);
      try exact Hs.
  - intros a b d Hab Hbd.
    apply total_compare_le in Hab, Hbd. apply total_compare_le.
    destruct Hab as [Hab | (Eab & Hab)]; destruct Hbd as [Hbd | (Ebd & Hbd)];
      try (left; lia).
    right. split; [congruence|].
    destruct Hab as [Ha | (Ha & Hb & Hab)]; [now left|].
    destruct Hbd as [Hb' | (_ & Hd & Hbd)]; [congruence|].
    right. split; auto. split; auto.
    rewrite <- Eab in Hbd.
    pose proof (keys_ok (column_family a)) as Hok.
    destruct Hab as [Hab | (Hab & Oab)]; destruct Hbd as [Hbd | (Hbd & Obd)].
    + left. eapply (cmp_lt_trans _ _ Hok); eauto.
    + left. eapply (cmp_lt_eq_trans _ _ Hok); eauto.
    + left. eapply (cmp_eq_lt_trans _ _ Hok); eauto.
    + right. split; [eapply (cmp_eq_trans _ _ Hok); eauto | lia].
Qed.

Lemma total_compare_operator_call (a b : WriteBatchIndexEntry) :
  is_min a = false \/ is_min b = false -> tc a b = op a b.
Proof.
  intros H. unfold total_compare.
  destruct (column_family a =? column_family b)%N; cbn [andb]; auto.
  destruct H as [-> | ->]; cbn [andb]; auto.
  now destruct (is_min a).
Qed.

(** X18.  Whenever the key comparators of the column families are total
    preorders, operator() is a total preorder on the entries that are no
    min-in-cf probes: the signs of the two comparisons of a pair are
    opposite, and the order is transitive. *)
Theorem operator_call_preorder :
  (forall a b,
      is_min_in_cf kFlagMinInCf a = false ->
      is_min_in_cf kFlagMinInCf b = false ->
      Z.sgn (operator_call kFlagMinInCf c a b)
      = - Z.sgn (operator_call kFlagMinInCf c b a)) /\
  (forall a b d,
      is_min_in_cf kFlagMinInCf a = false ->
      is_min_in_cf kFlagMinInCf b = false ->
      is_min_in_cf kFlagMinInCf d = false ->
      operator_call kFlagMinInCf c a b <= 0 ->
      operator_call kFlagMinInCf c b d <= 0 ->
      operator_call kFlagMinInCf c a d <= 0).
Proof.
  split.
  - intros a b Ha Hb.
    rewrite <- !total_compare_operator_call by auto.
    apply (compare_sym _ total_compare_ok).
  - intros a b d Ha Hb Hd.
    rewrite <- !total_compare_operator_call by auto.
    apply (compare_trans _ total_compare_ok).
Qed.

End Order.
End WriteBatchEntryComparatorOrder.

(** ** The deleted ranges of the column families *)

Module DeletedRangeMapFacts.
Import SkipList IntervalMap IntervalMapSpec.

(** *** The interval map looks at the comparator on its own keys only *)

Section Agree.
Variable K : Type.
Variables c1 c2 : K -> K -> Z.
Variable P : K -> Prop.
Hypothesis agree : forall a b, P a -> P b -> c1 a b = c2 a b.

Local Abbreviation Q := (fun e : PointEntry K => P (pointKey e)).
Local Abbreviation e1 := (PointEntryComparator c1).
Local Abbreviation e2 := (PointEntryComparator c2).

Lemma FindGreaterOrEqual_agree (l : list (PointEntry K)) (t : PointEntry K) :
  Forall Q l -> Q t -> FindGreaterOrEqual e1 l t = FindGreaterOrEqual e2 l t.
Proof.
  intros Hl Ht. induction Hl as [|x l Hx Hl IH]; [reflexivity|].
  cbn [FindGreaterOrEqual].
  change (PointEntryComparator c1 x t) with (c1 (pointKey x) (pointKey t)).
  change (PointEntryComparator c2 x t) with (c2 (pointKey x) (pointKey t)).
  rewrite (agree _ _ Hx Ht). now rewrite IH.
Qed.

Lemma FindLessOrEqual_agree (l : list (PointEntry K)) (t : PointEntry K) :
  Forall Q l -> Q t -> FindLessOrEqual e1 l t = FindLessOrEqual e2 l t.
Proof.
  intros Hl Ht. induction Hl as [|x l Hx Hl IH]; [reflexivity|].
  cbn [FindLessOrEqual].
  change (PointEntryComparator c1 x t) with (c1 (pointKey x) (pointKey t)).
  change (PointEntryComparator c2 x t) with (c2 (pointKey x) (pointKey t)).
  rewrite (agree _ _ Hx Ht). now rewrite IH.
Qed.

Lemma Insert_agree (l : list (PointEntry K)) (e : PointEntry K) :
  Forall Q l -> Q e -> Insert e1 e l = Insert e2 e l.
Proof.
  intros Hl He. induction Hl as [|x l Hx Hl IH]; [reflexivity|].
  cbn [Insert].
  change (PointEntryComparator c1 x e) with (c1 (pointKey x) (pointKey e)).
  change (PointEntryComparator c2 x e) with (c2 (pointKey x) (pointKey e)).
  rewrite (agree _ _ Hx He). now rewrite IH.
Qed.

Lemma key_Forall (it : Iterator (PointEntry K)) (k : PointEntry K) :
  Forall Q (list_ it) -> key it = Some k -> Q k.
Proof.
  intros Hl Hk. unfold key in Hk. destruct (node_ it) as [i|]; [|discriminate].
  apply nth_error_In in Hk. rewrite Forall_forall in Hl. auto.
Qed.

Lemma Remove_Forall (it : Iterator (PointEntry K)) :
  Forall Q (list_ it) -> Forall Q (list_ (Remove it)).
Proof.
  intros Hl. rewrite Forall_forall in *. intros x Hx.
  apply Hl. now apply IntervalMapMore.In_Remove.
Qed.

Lemma FixIntervalFrom_agree (m : list (PointEntry K)) (l : K) :
  Forall Q m -> P l -> FixIntervalFrom c1 m l = FixIntervalFrom c2 m l.
Proof.
  intros Hm Hl. unfold FixIntervalFrom, SeekForPrev.
  rewrite (FindLessOrEqual_agree m (entry l Start) Hm Hl).
  rewrite (Insert_agree m (entry l Start) Hm Hl).
  destruct (key (mkIterator m (FindLessOrEqual e2 m (entry l Start))))
    as [k|] eqn:Hk; [|reflexivity].
  apply key_Forall in Hk; [|exact Hm].
  change (PointEntryComparator c1 (entry l Start) k) with (c1 l (pointKey k)).
  change (PointEntryComparator c2 (entry l Start) k) with (c2 l (pointKey k)).
  now rewrite (agree _ _ Hl Hk).
Qed.

Lemma FixIntervalTo_agree (m : list (PointEntry K)) (h : K) :
  Forall Q m -> P h -> FixIntervalTo c1 m h = FixIntervalTo c2 m h.
Proof.
  intros Hm Hh. unfold FixIntervalTo, Seek.
  rewrite (FindGreaterOrEqual_agree m (entry h Stop) Hm Hh).
  rewrite (Insert_agree m (entry h Stop) Hm Hh).
  destruct (key (mkIterator m (FindGreaterOrEqual e2 m (entry h Stop))))
    as [k|] eqn:Hk; [|reflexivity].
  apply key_Forall in Hk; [|exact Hm].
  change (PointEntryComparator c1 (entry h Stop) k) with (c1 h (pointKey k)).
  change (PointEntryComparator c2 (entry h Stop) k) with (c2 h (pointKey k)).
  now rewrite (agree _ _ Hh Hk).
Qed.

Lemma ClearRange_agree (fuel : nat) (to_entry : PointEntry K) :
  Q to_entry -> forall it,
  Forall Q (list_ it) ->
  ClearRange c1 fuel to_entry it = ClearRange c2 fuel to_entry it.
Proof.
  intros Ht. induction fuel as [|fuel IH]; intros it Hl; [reflexivity|].
  cbn [ClearRange]. destruct (key it) as [k|] eqn:Hk; [|reflexivity].
  apply key_Forall in Hk; [|exact Hl].
  change (PointEntryComparator c1 to_entry k)
    with (c1 (pointKey to_entry) (pointKey k)).
  change (PointEntryComparator c2 to_entry k)
    with (c2 (pointKey to_entry) (pointKey k)).
  rewrite (agree _ _ Ht Hk).
  destruct (c2 (pointKey to_entry) (pointKey k) <=? 0); [reflexivity|].
  apply IH. now apply Remove_Forall.
Qed.

Lemma FixIntervalFrom_Forall (c : K -> K -> Z) (m : list (PointEntry K)) (l : K) :
  Forall Q m -> P l -> Forall Q (FixIntervalFrom c m l).
Proof.
  intros Hm Hl. rewrite Forall_forall in *. intros x Hx.
  apply IntervalMapMore.FixIntervalFrom_In in Hx.
  destruct Hx as [Hx | ->]; auto.
Qed.

Lemma FixIntervalTo_Forall (c : K -> K -> Z) (m : list (PointEntry K)) (h : K) :
  Forall Q m -> P h -> Forall Q (FixIntervalTo c m h).
Proof.
  intros Hm Hh. rewrite Forall_forall in *. intros x Hx.
  apply IntervalMapMore.FixIntervalTo_In in Hx.
  destruct Hx as [Hx | ->]; auto.
Qed.

Lemma AddInterval_Forall (c : K -> K -> Z) (m : list (PointEntry K)) (l h : K) :
  Forall Q m -> P l -> P h -> Forall Q (AddInterval c m l h).
Proof.
  intros Hm Hl Hh. rewrite Forall_forall in *. intros x Hx.
  apply IntervalMapMore.AddInterval_In in Hx.
  destruct Hx as [Hx | [-> | ->]]; auto.
Qed.

Lemma AddInterval_agree (m : list (PointEntry K)) (l h : K) :
  Forall Q m -> P l -> P h -> AddInterval c1 m l h = AddInterval c2 m l h.
Proof.
  intros Hm Hl Hh. unfold AddInterval.
  rewrite (FixIntervalFrom_agree m l Hm Hl).
  pose proof (FixIntervalFrom_Forall c2 m l Hm Hl) as H1.
  rewrite (FixIntervalTo_agree _ h H1 Hh).
  pose proof (FixIntervalTo_Forall c2 _ h H1 Hh) as H2.
  unfold SeekForPrev.
  rewrite (FindLessOrEqual_agree _ (entry l Start) H2 Hl).
  rewrite ClearRange_agree; auto.
Qed.

Lemma IsInInterval_agree (m : list (PointEntry K)) (k : K) :
  Forall Q m -> P k -> IsInInterval c1 m k = IsInInterval c2 m k.
Proof.
  intros Hm Hk. unfold IsInInterval, Seek.
  rewrite (FindGreaterOrEqual_agree m (entry k Start) Hm Hk).
  destruct (key (mkIterator m (FindGreaterOrEqual e2 m (entry k Start))))
    as [x|] eqn:Hx; [|reflexivity].
  apply key_Forall in Hx; [|exact Hm].
  change (PointEntryComparator c1 (entry k Start) x) with (c1 k (pointKey x)).
  change (PointEntryComparator c2 (entry k Start) x) with (c2 k (pointKey x)).
  now rewrite (agree _ _ Hk Hx).
Qed.

End Agree.

(** *** Membership per column family *)

Section Ranges.
Import WriteBatchEntryComparator DeletedRangeMapSpec.
Variable kFlagMinInCf : N.
Variable c : WriteBatchEntryComparator.t.
Hypothesis keys_ok : forall cf, Comparator_ok (CompareKey c cf).

Local Abbreviation op := (operator_call kFlagMinInCf c).
Local Abbreviation tc := (total_compare kFlagMinInCf c).
Local Abbreviation is_min := (is_min_in_cf kFlagMinInCf).
Local Abbreviation plain := (plain_key kFlagMinInCf).
Local Abbreviation wf := (well_formed kFlagMinInCf c).
Local Abbreviation probe := DeletedRangeMap.probe.

Lemma op_tc_agree (a b : WriteBatchIndexEntry) :
  is_min a = false -> is_min b = false -> op a b = tc a b.
Proof.
  intros Ha Hb. symmetry.
  apply WriteBatchEntryComparatorOrder.total_compare_operator_call. now left.
Qed.

Lemma probe_plain (cf : N) (key : Slice) :
  plain key -> is_min (probe cf key) = false.
Proof. intros H. unfold is_min_in_cf, DeletedRangeMap.probe. cbn. now apply N.eqb_neq. Qed.

Lemma tc_probe (cf1 cf2 : N) (k1 k2 : Slice) :
  plain k1 -> plain k2 ->
  tc (probe cf1 k1) (probe cf2 k2)
  = if (cf2 <? cf1)%N then 1
    else if (cf1 <? cf2)%N then -1
    else CompareKey c cf1 k1 k2.
Proof.
  intros H1 H2.
  rewrite <- op_tc_agree by (now apply probe_plain).
  unfold operator_call. rewrite !probe_plain by assumption.
  cbn [column_family DeletedRangeMap.probe key_of_entry search_key offset].
  destruct (cf2 <? cf1)%N; [reflexivity|].
  destruct (cf1 <? cf2)%N; [reflexivity|].
  rewrite N.ltb_irrefl.
  destruct (CompareKey c cf1 k1 k2 =? 0) eqn:E; cbn [negb]; [|reflexivity].
  apply Z.eqb_eq in E. now rewrite E.
Qed.

Lemma in_range_probe (cf cf' : N) (l h k : Slice) :
  plain l -> plain h -> plain k ->
  (tc (probe cf l) (probe cf' k) <=? 0) && (tc (probe cf' k) (probe cf h) <? 0)
  = (cf' =? cf)%N && (CompareKey c cf l k <=? 0) && (CompareKey c cf k h <? 0).
Proof.
  intros Hl Hh Hk. rewrite !tc_probe by assumption.
  destruct (N.compare_spec cf' cf) as [E|E|E].
  - subst cf'. rewrite N.eqb_refl, N.ltb_irrefl. reflexivity.
  - assert (H0 : (cf' =? cf)%N = false) by (apply N.eqb_neq; lia).
    assert (H1 : (cf' <? cf)%N = true) by (now apply N.ltb_lt).
    rewrite H0, H1. reflexivity.
  - assert (H0 : (cf' =? cf)%N = false) by (apply N.eqb_neq; lia).
    assert (H1 : (cf' <? cf)%N = false) by (apply N.ltb_ge; lia).
    assert (H2 : (cf <? cf')%N = true) by (now apply N.ltb_lt).
    rewrite H0, H1, H2. cbn [andb]. now rewrite andb_false_r.
Qed.

Lemma AddInterval_step (m : DeletedRangeMap.t) (cf : N) (l h : Slice) :
  wf m -> plain l -> plain h -> CompareKey c cf l h < 0 ->
  wf (DeletedRangeMap.AddInterval kFlagMinInCf c m cf l h) /\
  forall cf' k,
    plain k ->
    DeletedRangeMap.IsInInterval kFlagMinInCf c
      (DeletedRangeMap.AddInterval kFlagMinInCf c m cf l h) cf' k
    = DeletedRangeMap.IsInInterval kFlagMinInCf c m cf' k
      || ((cf' =? cf)%N && (CompareKey c cf l k <=? 0)
          && (CompareKey c cf k h <? 0)).
Proof.
  intros [Hm Hinv] Hl Hh Hlh.
  pose proof (WriteBatchEntryComparatorOrder.total_compare_ok kFlagMinInCf c
                keys_ok) as Hok.
  assert (Hlt : tc (probe cf l) (probe cf h) < 0).
  { rewrite tc_probe by assumption. now rewrite N.ltb_irrefl. }
  assert (Hadd : DeletedRangeMap.AddInterval kFlagMinInCf c m cf l h
                 = AddInterval tc m (probe cf l) (probe cf h)).
  { unfold DeletedRangeMap.AddInterval.
    apply (AddInterval_agree _ op tc (fun e => is_min e = false) op_tc_agree);
      auto using probe_plain. }
  assert (Hm' : Forall (fun e => is_min (pointKey e) = false)
                  (AddInterval tc m (probe cf l) (probe cf h))).
  { apply (AddInterval_Forall _ (fun e => is_min e = false));
      auto using probe_plain. }
  rewrite Hadd. split.
  - split; [exact Hm'|].
    now apply (IntervalMapFacts.AddInterval_Invariant _ tc Hok).
  - intros cf' k Hk. unfold DeletedRangeMap.IsInInterval.
    rewrite !(IsInInterval_agree _ op tc (fun e => is_min e = false) op_tc_agree)
      by auto using probe_plain.
    rewrite (IntervalMapFacts.AddInterval_IsInInterval _ tc Hok) by assumption.
    now rewrite in_range_probe.
Qed.

Lemma well_formed_empty : wf empty.
Proof.
  split; [constructor|]. apply IntervalMapFacts.Invariant_empty.
Qed.

Lemma IsInInterval_no_ranges (cf : N) (k : Slice) :
  DeletedRangeMap.IsInInterval kFlagMinInCf c empty cf k = false.
Proof. reflexivity. Qed.

Lemma AddRanges_from (R : list (N * Slice * Slice)) :
  forall m, wf m -> proper_ranges kFlagMinInCf c R ->
    wf (AddRanges kFlagMinInCf c m R) /\
    forall cf k,
      plain k ->
      (DeletedRangeMap.IsInInterval kFlagMinInCf c
         (AddRanges kFlagMinInCf c m R) cf k = true <->
       DeletedRangeMap.IsInInterval kFlagMinInCf c m cf k = true \/
       in_ranges c R cf k).
Proof.
  induction R as [|[[cf0 l] h] R IH]; intros m Hm HR.
  - split; [exact Hm|]. intros cf k Hk. cbn [AddRanges fold_left]. split; auto.
    intros [H | (l & h & [] & _)]. exact H.
  - inversion HR as [|? ? (Hl & Hh & Hlh) HR']; subst. cbn [fst snd] in *.
    destruct (AddInterval_step m cf0 l h Hm Hl Hh Hlh) as [Hwf Hstep].
    destruct (IH _ Hwf HR') as [Hwf' Hmem].
    split; [exact Hwf'|].
    intros cf k Hk. cbn [AddRanges fold_left fst snd].
    fold (AddRanges kFlagMinInCf c
            (DeletedRangeMap.AddInterval kFlagMinInCf c m cf0 l h) R).
    rewrite (Hmem cf k Hk), (Hstep cf k Hk).
    rewrite orb_true_iff, !andb_true_iff, N.eqb_eq, Z.leb_le, Z.ltb_lt.
    unfold in_ranges. split.
    + intros [[H | ((-> & H1) & H2)] | (l' & h' & Hin & H)].
      * now left.
      * right. exists l, h. split; [now left | auto].
      * right. exists l', h'. split; [now right | auto].
    + intros [H | (l' & h' & [E | Hin] & H1 & H2)].
      * left. now left.
      * injection E as -> -> ->. left. right. auto.
      * right. exists l', h'. auto.
Qed.

(** X19.  Adding a non-empty range for a column family to a well-formed map
    keeps the map well formed, and changes the membership of the keys of
    that column family only: a key is a member afterwards if it was one, or
    if it belongs to the column family and lies in the range. *)
Theorem AddInterval_per_column_family (m : DeletedRangeMap.t) (cf : N)
        (l h : Slice) :
  wf m -> plain l -> plain h -> CompareKey c cf l h < 0 ->
  wf (DeletedRangeMap.AddInterval kFlagMinInCf c m cf l h) /\
  forall cf' k,
    plain k ->
    DeletedRangeMap.IsInInterval kFlagMinInCf c
      (DeletedRangeMap.AddInterval kFlagMinInCf c m cf l h) cf' k
    = DeletedRangeMap.IsInInterval kFlagMinInCf c m cf' k
      || ((cf' =? cf)%N && (CompareKey c cf l k <=? 0)
          && (CompareKey c cf k h <? 0)).
Proof. exact (AddInterval_step m cf l h). Qed.

(** X20.  After any sequence of non-empty ranges added to an empty map, a
    key of a column family is a member exactly when it lies in one of the
    ranges that were added for that column family. *)
Theorem IsInInterval_AddRanges (R : list (N * Slice * Slice)) (cf : N)
        (k : Slice) :
  proper_ranges kFlagMinInCf c R -> plain k ->
  (DeletedRangeMap.IsInInterval kFlagMinInCf c
     (AddRanges kFlagMinInCf c empty R) cf k = true <->
   in_ranges c R cf k).
Proof.
  intros HR Hk.
  destruct (AddRanges_from R empty well_formed_empty HR) as [_ H].
  rewrite (H cf k Hk), IsInInterval_no_ranges. split; [|auto].
  intros [H' | H']; [discriminate | exact H'].
Qed.

End Ranges.

(** *** A point read of a key that the batch does not hold *)

Section AbsentKey.
Import WriteBatchEntryComparator DeletedRangeMapSpec WriteBatchWithIndexInternal.
Variable kFlagMinInCf : N.
Variable column_family_ : option ColumnFamilyHandle.
Variable batch : WriteBatchWithIndex.
Variable key : Slice.
Variable ranges_comparator : WriteBatchEntryComparator.t.
Hypothesis keys_ok : forall cf, Comparator_ok (CompareKey ranges_comparator cf).
Variable R : list (N * Slice * Slice).
Hypothesis R_proper : proper_ranges kFlagMinInCf ranges_comparator R.
Hypothesis key_plain : plain_key kFlagMinInCf key.
Hypothesis absent :
  Forall (fun x => CompareKey (index_comparator batch)
                     (GetColumnFamilyID column_family_) key (entry_key x) <> 0)
    (index_entries batch (GetColumnFamilyID column_family_)).

Lemma GetFromBatch_walk_absent (merge_context : list Slice)
      (overwrite_key : bool) :
  GetFromBatch_walk column_family_ batch key merge_context overwrite_key
  = mkWalkState kNotFound EmptyString merge_context OK.
Proof.
  unfold GetFromBatch_walk.
  rewrite GetFromBatchFacts.Walk_no_match; [reflexivity|].
  match goal with
  | |- Forall _ (Cursor.items (if ?c then _ else _)) => destruct c
  end;
    unfold WBWIIterator.SeekToLast, WBWIIterator.Prev, Cursor.SeekToLast,
      Cursor.Prev, Cursor.set_pos; cbn [Cursor.items];
    rewrite GetFromBatchFacts.SkipMatching_items; exact absent.
Qed.

(** X17.  When no entry of the batch carries the key, and the deleted ranges
    were built from non-empty ranges, the read returns kDeleted if the key
    lies in a range added for its column family and kNotFound otherwise,
    with status OK, and leaves the value and the merge context alone. *)
Theorem GetFromBatch_absent_key (merge_context : list Slice) (value : string)
        (overwrite_key : bool) :
  let out := GetFromBatch kFlagMinInCf column_family_ batch key
               ranges_comparator
               (AddRanges kFlagMinInCf ranges_comparator empty R)
               merge_context value overwrite_key in
  (in_ranges ranges_comparator R (GetColumnFamilyID column_family_) key ->
   o_result out = kDeleted) /\
  (~ in_ranges ranges_comparator R (GetColumnFamilyID column_family_) key ->
   o_result out = kNotFound) /\
  o_s out = OK /\ o_value out = value /\ o_merge_context out = merge_context.
Proof.
  cbv zeta. unfold GetFromBatch. rewrite GetFromBatch_walk_absent.
  cbn [w_s w_result w_merge_context w_entry_value ok Result_eqb orb].
  destruct (AddRanges_from kFlagMinInCf ranges_comparator keys_ok R empty
              (well_formed_empty kFlagMinInCf ranges_comparator) R_proper)
    as [_ Hmem].
  specialize (Hmem (GetColumnFamilyID column_family_) key key_plain).
  rewrite IsInInterval_no_ranges in Hmem.
  destruct (DeletedRangeMap.IsInInterval kFlagMinInCf ranges_comparator
              (AddRanges kFlagMinInCf ranges_comparator empty R)
              (GetColumnFamilyID column_family_) key) eqn:E;
    cbn [o_result o_s o_value o_merge_context].
  - repeat split; auto. intros Hn. exfalso. apply Hn.
    destruct (proj1 Hmem eq_refl) as [H|H]; [discriminate | exact H].
  - repeat split; auto. intros Hin.
    assert (false = true); [|discriminate]. apply Hmem. now right.
Qed.

End AbsentKey.
End DeletedRangeMapFacts.

Module DeletedRangeMapExamples.
Import WriteBatchEntryComparator DeletedRangeMapSpec GetFromBatchInputs.
Local Open Scope string_scope.
Local Open Scope Z_scope.

Lemma operator_call_preorder_witness :
  (forall a b, is_min_in_cf 255 a = false -> is_min_in_cf 255 b = false ->
               Z.sgn (operator_call 255 bytewise a b)
               = - Z.sgn (operator_call 255 bytewise b a)) /\
  (forall a b d, is_min_in_cf 255 a = false -> is_min_in_cf 255 b = false ->
                 is_min_in_cf 255 d = false ->
                 operator_call 255 bytewise a b <= 0 ->
                 operator_call 255 bytewise b d <= 0 ->
                 operator_call 255 bytewise a d <= 0).
Proof.
  apply (WriteBatchEntryComparatorOrder.operator_call_preorder 255 bytewise
           GetFromBatchExamples.CompareKey_bytewise_ok).
Defined.

(** Two min-in-cf probes of one column family are each less than the
    other. *)
Example operator_call_min_probes :
  let p := mkWriteBatchIndexEntry 0 1 0 255 None false in
  operator_call 255 bytewise p p = -1.
Proof. reflexivity. Qed.

Lemma AddInterval_per_column_family_witness :
  well_formed 255 bytewise
    (DeletedRangeMap.AddInterval 255 bytewise IntervalMap.empty 1 "a" "c") /\
  forall cf' k,
    plain_key 255 k ->
    DeletedRangeMap.IsInInterval 255 bytewise
      (DeletedRangeMap.AddInterval 255 bytewise IntervalMap.empty 1 "a" "c")
      cf' k
    = DeletedRangeMap.IsInInterval 255 bytewise IntervalMap.empty cf' k
      || ((cf' =? 1)%N && (CompareKey bytewise 1 "a" k <=? 0)
          && (CompareKey bytewise 1 k "c" <? 0)).
Proof.
  apply (DeletedRangeMapFacts.AddInterval_per_column_family 255 bytewise
           GetFromBatchExamples.CompareKey_bytewise_ok).
  - apply DeletedRangeMapFacts.well_formed_empty.
  - discriminate.
  - discriminate.
  - reflexivity.
Defined.

Lemma IsInInterval_AddRanges_witness :
  DeletedRangeMap.IsInInterval 255 bytewise
    (AddRanges 255 bytewise IntervalMap.empty [(0%N, "a", "c"); (1%N, "b", "d")])
    1 "c" = true <->
  in_ranges bytewise [(0%N, "a", "c"); (1%N, "b", "d")] 1 "c".
Proof.
  apply (DeletedRangeMapFacts.IsInInterval_AddRanges 255 bytewise
           GetFromBatchExamples.CompareKey_bytewise_ok).
  - repeat constructor; discriminate.
  - discriminate.
Defined.

Example IsInInterval_other_column_family :
  DeletedRangeMap.IsInInterval 255 bytewise
    (AddRanges 255 bytewise IntervalMap.empty [(0%N, "a", "c"); (1%N, "b", "d")])
    0 "c" = false /\
  DeletedRangeMap.IsInInterval 255 bytewise
    (AddRanges 255 bytewise IntervalMap.empty [(0%N, "a", "c"); (1%N, "b", "d")])
    1 "c" = true.
Proof. split; reflexivity. Qed.

Lemma GetFromBatch_absent_key_witness :
  let out := WriteBatchWithIndexInternal.GetFromBatch 255 None batch2 "b" bytewise
               (AddRanges 255 bytewise IntervalMap.empty
                  [(0%N, "a", "c"); (1%N, "b", "d")])
               [] "v" false in
  (in_ranges bytewise [(0%N, "a", "c"); (1%N, "b", "d")] 0 "b" ->
   WriteBatchWithIndexInternal.o_result out
   = WriteBatchWithIndexInternal.kDeleted) /\
  (~ in_ranges bytewise [(0%N, "a", "c"); (1%N, "b", "d")] 0 "b" ->
   WriteBatchWithIndexInternal.o_result out
   = WriteBatchWithIndexInternal.kNotFound) /\
  WriteBatchWithIndexInternal.o_s out = OK /\
  WriteBatchWithIndexInternal.o_value out = "v" /\
  WriteBatchWithIndexInternal.o_merge_context out = [].
Proof.
  apply (DeletedRangeMapFacts.GetFromBatch_absent_key 255 None batch2 "b"
           bytewise GetFromBatchExamples.CompareKey_bytewise_ok
           [(0%N, "a", "c"); (1%N, "b", "d")]).
  - repeat constructor; discriminate.
  - discriminate.
  - repeat constructor; discriminate.
Defined.

End DeletedRangeMapExamples.
